(** * A sequential model of the MCTS core ([src/mcts/mcts.cpp])

    The node graph of the engine is embedded as an explicit store: every
    [MCTSNode] object lives at an address that is never reused, a
    [shared_ptr] is an address (or [nullptr]), a [weak_ptr] is an address
    that may have expired.  The functions below follow the C++ member
    functions statement by statement.  The mutexes are left out: the model
    is sequential, and every function holds its lock for the whole body.

    Floating-point values are IEEE-754 binary32 ([float]) and binary64
    ([double]) numbers, computed with the reference operations of
    [SpecFloat]. *)

From Stdlib Require Import ZArith NArith List Bool Lia.
From Stdlib Require Import SpecFloat.
From stdpp Require Import base option list gmap.

(** ** The game-state collaborator

    [Board] is the external rules engine.  The core only uses the members
    listed here; [PLAYER_NONE] and [PLAYER_TIE] are constants of the
    missing header. *)

Class Game (Board Move : Type) `{Countable Board} := {
  get_valid_moves : Board → list Move;
  move : Board → Move → Board;
  game_winner : Board → Z;
  player : Board → Z;
  PLAYER_NONE : Z;
  PLAYER_TIE : Z
}.

(** ** Pointers *)

Definition addr := nat.

(** [shared_ptr<MCTSNode>]: [None] is [nullptr]. *)
Definition shared_ptr := option addr.

(** [weak_ptr<MCTSNode>]: [None] is the empty weak pointer obtained from
    [nullptr]. *)
Definition weak_ptr := option addr.

(** ** Nodes and the tree

    Modelled from the spec: the member declarations and their default
    initialisers are in [mcts.h], which is not part of the sources.  The
    counters are the monotonic non-negative counts of section 3 of the
    specification, starting at zero; a fresh node is not expanded. *)

Record MCTSNode (Board Move : Type) := mkNode {
  board : Board;
  parents : list weak_ptr;
  moves : list Move;
  children : list addr;
  visits : N;
  wins : N;
  ties : N;
  expanded : bool
}.
Arguments mkNode {Board Move}.
Arguments board {Board Move}.
Arguments parents {Board Move}.
Arguments moves {Board Move}.
Arguments children {Board Move}.
Arguments visits {Board Move}.
Arguments wins {Board Move}.
Arguments ties {Board Move}.
Arguments expanded {Board Move}.

Record MCTSTree (Board Move : Type) `{Countable Board} := mkTree {
  heap : gmap addr (MCTSNode Board Move);
  next_addr : addr;
  transposition_table : gmap Board addr;
  roots : list addr;
  total_lookups : N;
  total_hits : N;
  total_fillicides : N
}.
Arguments mkTree {Board Move _ _}.
Arguments heap {Board Move _ _}.
Arguments next_addr {Board Move _ _}.
Arguments transposition_table {Board Move _ _}.
Arguments roots {Board Move _ _}.
Arguments total_lookups {Board Move _ _}.
Arguments total_hits {Board Move _ _}.
Arguments total_fillicides {Board Move _ _}.

(** ** Floating-point numbers

    [float] is binary32 and [double] is binary64.  Every operation rounds
    to nearest, ties to even, as [SpecFloat] defines it. *)

Module Float32.
Definition prec : Z := 24.
Definition emax : Z := 128.
Definition t := spec_float.

Definition add : t → t → t := SFadd prec emax.
Definition sub : t → t → t := SFsub prec emax.
Definition mul : t → t → t := SFmul prec emax.
Definition div : t → t → t := SFdiv prec emax.
Definition sqrt : t → t := SFsqrt prec emax.
Definition ltb : t → t → bool := SFltb.
Definition eqb : t → t → bool := SFeqb.

(** Conversion of an unsigned integer. *)
Definition of_N (n : N) : t := binary_normalize prec emax (Z.of_N n) 0 false.

(** Conversion of any float or double to [float]. *)
Definition round (x : spec_float) : t :=
  match x with
  | S754_finite s m e => binary_round prec emax s m e
  | _ => x
  end.

Definition zero : t := S754_zero false.
Definition one : t := S754_finite false 8388608 (-23).
Definition inf : t := S754_infinity false.
Definition neg_inf : t := S754_infinity true.

Definition is_zero (x : t) : bool :=
  match x with S754_zero _ => true | _ => false end.
End Float32.

Module Float64.
Definition prec : Z := 53.
Definition emax : Z := 1024.
Definition t := spec_float.

Definition add : t → t → t := SFadd prec emax.
Definition div : t → t → t := SFdiv prec emax.

Definition of_N (n : N) : t := binary_normalize prec emax (Z.of_N n) 0 false.

(** Conversion of a [float] to [double]; the value is kept. *)
Definition of_float (x : spec_float) : t :=
  match x with
  | S754_finite s m e => binary_round prec emax s m e
  | _ => x
  end.

Definition one : t := S754_finite false 4503599627370496 (-52).

Definition is_zero (x : t) : bool :=
  match x with S754_zero _ => true | _ => false end.
End Float64.

(** [const float C = 1.44]: the double nearest to 1.44, rounded to float. *)
Definition C : Float32.t := S754_finite false 12079596 (-23).

(** [const float TIE_REWARD = 0.5]. *)
Definition TIE_REWARD : Float32.t := S754_finite false 8388608 (-24).

(** [unsigned] arithmetic wraps modulo [2^32]. *)
Definition wrap32 (n : N) : N := (n mod 4294967296)%N.

Section Core.
Context {Board Move : Type} `{Game Board Move}.

Abbreviation Node := (MCTSNode Board Move).
Abbreviation Tree := (MCTSTree Board Move).

(** *** Field updates *)

Definition set_parents (nd : Node) (ps : list weak_ptr) : Node :=
  mkNode (board nd) ps (moves nd) (children nd)
         (visits nd) (wins nd) (ties nd) (expanded nd).

Definition set_children (nd : Node) (cs : list addr) : Node :=
  mkNode (board nd) (parents nd) (moves nd) cs
         (visits nd) (wins nd) (ties nd) (expanded nd).

Definition set_visits (nd : Node) (v : N) : Node :=
  mkNode (board nd) (parents nd) (moves nd) (children nd)
         v (wins nd) (ties nd) (expanded nd).

Definition set_wins (nd : Node) (w : N) : Node :=
  mkNode (board nd) (parents nd) (moves nd) (children nd)
         (visits nd) w (ties nd) (expanded nd).

Definition set_ties (nd : Node) (t : N) : Node :=
  mkNode (board nd) (parents nd) (moves nd) (children nd)
         (visits nd) (wins nd) t (expanded nd).

Definition set_expanded (nd : Node) (e : bool) : Node :=
  mkNode (board nd) (parents nd) (moves nd) (children nd)
         (visits nd) (wins nd) (ties nd) e.

Definition set_heap (st : Tree) (h : gmap addr Node) : Tree :=
  mkTree h (next_addr st) (transposition_table st) (roots st)
         (total_lookups st) (total_hits st) (total_fillicides st).

Definition set_table (st : Tree) (t : gmap Board addr) : Tree :=
  mkTree (heap st) (next_addr st) t (roots st)
         (total_lookups st) (total_hits st) (total_fillicides st).

Definition set_roots (st : Tree) (r : list addr) : Tree :=
  mkTree (heap st) (next_addr st) (transposition_table st) r
         (total_lookups st) (total_hits st) (total_fillicides st).

Definition bump_lookups (st : Tree) : Tree :=
  mkTree (heap st) (next_addr st) (transposition_table st) (roots st)
         (total_lookups st + 1)%N (total_hits st) (total_fillicides st).

Definition bump_hits (st : Tree) : Tree :=
  mkTree (heap st) (next_addr st) (transposition_table st) (roots st)
         (total_lookups st) (total_hits st + 1)%N (total_fillicides st).

(** The object a pointer designates; [None] for a dangling address. *)
Definition node_at (st : Tree) (a : addr) : option Node := heap st !! a.

(** Assignment to the members of the object at [a]. *)
Definition update_node (st : Tree) (a : addr) (f : Node → Node) : Tree :=
  set_heap st (alter f a (heap st)).

(** [weak_ptr::expired]. *)
Definition expired (st : Tree) (w : weak_ptr) : bool :=
  match w with
  | None => true
  | Some a => bool_decide (heap st !! a = None)
  end.

(** A tree before the first call. *)
Definition empty_tree : Tree := mkTree ∅ 0 ∅ [] 0%N 0%N 0%N.

(** *** [MCTSTree::get_node] *)

(** [vector::erase(find(begin, end, x))]: removes the first occurrence;
    [None] when [find] returns [end()], which [erase] must not be given. *)
Fixpoint erase_first (x : addr) (l : list addr) : option (list addr) :=
  match l with
  | [] => None
  | y :: l' =>
      if decide (y = x) then Some l'
      else cons y <$> erase_first x l'
  end.

(** [std::map::insert]: keeps an existing entry. *)
Definition table_insert (b : Board) (a : addr) (t : gmap Board addr)
  : gmap Board addr :=
  match t !! b with
  | Some _ => t
  | None => <[b := a]> t
  end.

(** The constructor [MCTSNode::MCTSNode]: the parent is pushed onto
    [parents] whether or not it is [nullptr]. *)
Definition new_MCTSNode (new_board : Board) (new_parent : shared_ptr) : Node :=
  mkNode new_board [new_parent] (get_valid_moves new_board) [] 0%N 0%N 0%N false.

(** Lines 34-42: allocation of a node for a board with no table entry. *)
Definition get_node_create (st : Tree) (new_board : Board)
    (new_parent : shared_ptr) : addr * Tree :=
  let a := next_addr st in
  let st1 :=
    mkTree (<[a := new_MCTSNode new_board new_parent]> (heap st))
           (S a)
           (table_insert new_board a (transposition_table st))
           (roots st)
           (total_lookups st) (total_hits st) (total_fillicides st) in
  let st2 :=
    match new_parent with
    | None => set_roots st1 (roots st1 ++ [a])
    | Some _ => st1
    end in
  (a, st2).

(** Lines 21-32: the table entry designates the live node at [a]. *)
Definition get_node_reuse (st : Tree) (a : addr) (nd : Node)
    (new_parent : shared_ptr) : option (addr * Tree) :=
  st1 ← (if bool_decide (length (parents nd) = 0)
            && bool_decide (new_parent ≠ None)
         then set_roots st <$> erase_first a (roots st)
         else Some st);
  let st2 :=
    match new_parent with
    | Some p =>
        update_node st1 a (λ n, set_parents n (parents n ++ [Some p]))
    | None => st1
    end in
  Some (a, bump_hits st2).

(** The whole function.  A stale entry is erased and the call restarted;
    the restarted call counts one more lookup, finds no entry, and
    allocates.  [None] is undefined behaviour. *)
Definition get_node (st : Tree) (new_board : Board) (new_parent : shared_ptr)
  : option (addr * Tree) :=
  let st := bump_lookups st in
  match transposition_table st !! new_board with
  | Some a =>
      match node_at st a with
      | None =>
          let st := set_table st (delete new_board (transposition_table st)) in
          Some (get_node_create (bump_lookups st) new_board new_parent)
      | Some nd => get_node_reuse st a nd new_parent
      end
  | None => Some (get_node_create st new_board new_parent)
  end.

(** *** Destruction of nodes

    A node is owned by the root vector and by the child vectors of the
    live nodes, and [shared_ptr] handles outside the tree keep it alive
    too: the locals and by-value parameters of the functions on the call
    stack, and the handles of the caller.  [held] lists the nodes that
    have such a handle.

    [~MCTSNode] runs when the last [shared_ptr] to a node goes: when a
    vector that owns it lets go of it ([children.clear()], or the child
    vector of a node that is destroyed) or when a handle is dropped, and
    nothing else owns or holds it.  The destructor counts one more
    destroyed node and erases the table entry of its board; then the
    child vector of the dead node lets go of its own elements, one after
    the other.  A node that no vector lets go of is never destroyed: a
    node that a caller got from [get_node] and that no vector owns stays
    as it is. *)

Definition has_owner (st : Tree) (a : addr) : bool :=
  bool_decide (a ∈ roots st)
  || bool_decide (map_Exists (λ _ nd, a ∈ children nd) (heap st)).

(** [MCTSNode::~MCTSNode] for the node [an.2] at address [an.1]. *)
Definition destroy (an : addr * Node) (st : Tree) : Tree :=
  mkTree (delete an.1 (heap st)) (next_addr st)
         (delete (board an.2) (transposition_table st))
         (roots st)
         (total_lookups st) (total_hits st) (total_fillicides st + 1)%N.

(** One [shared_ptr] to [a] goes, [released] being what goes after it:
    [a] is destroyed if it is live, nothing owns it and nothing holds it,
    and its child vector is then released before the rest.  [fuel] bounds
    the depth of the cascade. *)
Fixpoint release_loop (fuel : nat) (held : list addr) (st : Tree)
    (released : list addr) {struct fuel} : Tree :=
  match fuel with
  | O => st
  | S fuel' =>
      foldl (λ st a,
               match node_at st a with
               | Some nd =>
                   if has_owner st a || bool_decide (a ∈ held) then st
                   else release_loop fuel' held (destroy (a, nd) st)
                                     (children nd)
               | None => st
               end) st released
  end.

(** Every level of the cascade destroys a node, so the number of live
    nodes bounds its depth. *)
Definition release (held : list addr) (st : Tree) (released : list addr)
  : Tree :=
  release_loop (size (heap st)) held st released.

(** *** [MCTSNode::filicide] *)

(** [children.clear(); expanded = false]. *)
Definition cleared (nd : Node) : Node :=
  set_expanded (set_children nd []) false.

(** [filicide] called through a handle on [this], the caller holding the
    nodes [held] besides: the vector is emptied, and its elements are
    released. *)
Definition filicide_held (held : list addr) (st : Tree) (this : addr)
  : option Tree :=
  nd ← node_at st this;
  if expanded nd
  then Some (release (this :: held) (update_node st this cleared)
                     (children nd))
  else Some st.

(** [filicide] for a caller that holds no node but [this]. *)
Definition filicide (st : Tree) (this : addr) : option Tree :=
  filicide_held [] st this.

(** [child->filicide()] inside a range-based [for] over the child vector
    of [owner], [child] being the copy of the element the loop makes.  A
    node that is its own child would clear the vector that is being
    traversed, which invalidates the iterators of the loop: [None]. *)
Definition filicide_child (held : list addr) (st : Tree)
    (owner child : addr) : option Tree :=
  if decide (child = owner)
  then nd ← node_at st owner; if expanded nd then None else Some st
  else filicide_held held st child.

(** *** [MCTSNode::expand] *)

Definition expand_move (this : addr) (b : Board) (acc : option Tree)
    (mv : Move) : option Tree :=
  st ← acc;
  let st := update_node st this (λ n, set_expanded n true) in
  '(new_node, st) ← get_node st (move b mv) (Some this);
  Some (update_node st this (λ n, set_children n (children n ++ [new_node]))).

Definition expand (st : Tree) (this : addr) : option Tree :=
  nd ← node_at st this;
  let st := update_node st this (λ n, set_visits n (visits n + 1)%N) in
  if expanded nd then Some st
  else foldl (expand_move this (board nd)) (Some st) (moves nd).

(** *** [MCTSTree::prune] *)

Inductive prune_outcome :=
  | Returned (st : Tree)
  | FrontOfEmptyQueue (st : Tree)
  | DanglingPointer.

(** The first inner loop: one assignment per child, each taking the
    larger of [max_visits] and the visit count of [node] itself. *)
Definition prune_max_visits (nd : Node) : N :=
  foldl (λ max_visits _,
           if (visits nd <? max_visits)%N
           then max_visits else wrap32 (visits nd))
        0%N (children nd).

(** The second inner loop. *)
Definition prune_child (held : list addr) (node : addr) (max_visits : N)
    (acc : option Tree) (child : addr) : option Tree :=
  st ← acc;
  c ← node_at st child;
  if (visits c <=? max_visits)%N then filicide_child held st node child
  else Some st.

(** The [while] loop.  Nothing is ever pushed onto the queue inside the
    loop, so it takes at most one round per queued root.  The queue and
    the local [node] hold roots only, which the root vector owns. *)
Fixpoint prune_loop (held : list addr) (inspection_queue : list addr)
    (st : Tree) (max_size : N) : prune_outcome :=
  if (max_size <? N.of_nat (size (transposition_table st)))%N then
    match inspection_queue with
    | [] => FrontOfEmptyQueue st
    | node :: inspection_queue' =>
        match node_at st node with
        | None => DanglingPointer
        | Some nd =>
            match foldl (prune_child (node :: held) node
                                     (prune_max_visits nd))
                        (Some st) (children nd) with
            | None => DanglingPointer
            | Some st' => prune_loop held inspection_queue' st' max_size
            end
        end
    end
  else Returned st.

(** [prune] for a caller that holds the nodes [held]. *)
Definition prune_held (held : list addr) (st : Tree) (max_size : N)
  : prune_outcome :=
  prune_loop held (roots st) st max_size.

Definition prune (st : Tree) (max_size : N) : prune_outcome :=
  prune_held [] st max_size.

(** [MCTSTree::transposition_size] and [MCTSTree::purges]. *)
Definition transposition_size (st : Tree) : N :=
  N.of_nat (size (transposition_table st)).

Definition purges (st : Tree) : N := total_fillicides st.

(** *** [MCTSNode::prune_ancestors] *)

(** The loop over [children] of lines 242-247. *)
Definition prune_ancestors_child (held : list addr)
    (this node_to_keep : addr) (acc : option Tree) (child : addr)
  : option Tree :=
  st ← acc;
  if decide (child = node_to_keep) then Some st
  else filicide_child held st this child.

(** The loop over [parents] of lines 250-259, with [up] standing for the
    recursive call [parent->prune_ancestors(shared_from_this())].  An
    expired entry is erased and the index stays; [k] bounds the rounds.
    The local [parent] is a handle on the parent for the time of the
    call; it is dropped at the end of the round.  [this] is read again
    after the call: its caller holds it. *)
Fixpoint prune_ancestors_parents (up : Tree → addr → option Tree)
    (held : list addr) (k : nat) (st : Tree) (this : addr) (i : nat)
  : option Tree :=
  match k with
  | O => None
  | S k' =>
      nd ← node_at st this;
      match parents nd !! i with
      | None => Some st
      | Some wk_parent =>
          if expired st wk_parent
          then prune_ancestors_parents up held k'
                 (update_node st this
                    (λ n, set_parents n (delete i (parents n)))) this i
          else
            parent ← wk_parent;
            st' ← up st parent;
            prune_ancestors_parents up held k'
              (release held st' [parent]) this (S i)
      end
  end.

(** [held] are the handles of the callers, [this] among them; the
    by-value parameter [node_to_keep] is one more.  [None] is undefined
    behaviour or exhausted fuel; the recursion climbs the parent edges
    and need not end on a cyclic graph. *)
Fixpoint prune_ancestors_rec (fuel : nat) (held : list addr) (st : Tree)
    (this node_to_keep : addr) {struct fuel} : option Tree :=
  match fuel with
  | O => None
  | S fuel' =>
      nd ← node_at st this;
      let held := node_to_keep :: held in
      st1 ← (if decide (this = node_to_keep) then Some st
             else foldl (prune_ancestors_child held this node_to_keep)
                        (Some st) (children nd));
      prune_ancestors_parents
        (λ st parent, prune_ancestors_rec fuel' (parent :: held) st parent this)
        held (S (length (parents nd))) st1 this 0
  end.

(** The public overload, [prune_ancestors(shared_from_this())], called
    through a handle on [this] by a caller that holds the nodes [held]
    besides. *)
Definition prune_ancestors_held (held : list addr) (fuel : nat) (st : Tree)
    (this : addr) : option Tree :=
  prune_ancestors_rec fuel (this :: held) st this this.

Definition prune_ancestors (fuel : nat) (st : Tree) (this : addr)
  : option Tree :=
  prune_ancestors_held [] fuel st this.

(** *** Scores: [Q], [U], [PUCT] *)

(** The divisor [1.0f + visits] of [Q]. *)
Definition Q_denominator (v : N) : Float32.t :=
  Float32.add Float32.one (Float32.of_N v).

(** [Q] as a function of the three counters it reads. *)
Definition Q_value (w t v : N) : Float32.t :=
  let sum := Float32.add (Float32.of_N w)
                         (Float32.mul TIE_REWARD (Float32.of_N t)) in
  Float32.div sum (Q_denominator v).

Definition Q (st : Tree) (this : addr) : option Float32.t :=
  nd ← node_at st this;
  Some (Q_value (wins nd) (ties nd) (visits nd)).

(** The loop of [U] over [parents]: an expired entry is erased, a live
    one adds its visit count to the [unsigned] sum.  Returns the entries
    that stay and the sum. *)
Fixpoint U_parents (st : Tree) (ps : list weak_ptr) (parent_visit_count : N)
  : list weak_ptr * N :=
  match ps with
  | [] => ([], parent_visit_count)
  | parent :: ps' =>
      match parent ≫= node_at st with
      | None => U_parents st ps' parent_visit_count
      | Some p =>
          let '(kept, n) :=
            U_parents st ps' (wrap32 (parent_visit_count + visits p)) in
          (parent :: kept, n)
      end
  end.

(** The divisor [1.0 + visits] of [U], a [double]. *)
Definition U_denominator (v : N) : Float64.t :=
  Float64.add Float64.one (Float64.of_N v).

(** [C * sqrt((float)parent_visit_count) / (1.0 + visits)]: [sqrt] of a
    [float] is the [float] overload, the product is a [float], the
    quotient a [double], the result a [float] again. *)
Definition U_value (parent_visit_count v : N) : Float32.t :=
  Float32.round
    (Float64.div
       (Float64.of_float
          (Float32.mul C (Float32.sqrt (Float32.of_N parent_visit_count))))
       (U_denominator v)).

Definition U (st : Tree) (this : addr) : option (Float32.t * Tree) :=
  nd ← node_at st this;
  let '(kept, parent_visit_count) := U_parents st (parents nd) 0%N in
  Some (U_value parent_visit_count (visits nd),
        update_node st this (λ n, set_parents n kept)).

Definition PUCT (st : Tree) (this : addr) : option (Float32.t * Tree) :=
  q ← Q st this;
  '(u, st) ← U st this;
  Some (Float32.add q u, st).

(** [MCTSTree::transposition_hitrate]. *)
Definition hitrate_denominator (st : Tree) : Float32.t :=
  Float32.of_N (total_lookups st).

Definition transposition_hitrate (st : Tree) : Float32.t :=
  Float32.div (Float32.of_N (total_hits st)) (hitrate_denominator st).

(** *** [MCTSNode::max_PUCT] *)

Definition max_PUCT_child
    (acc : option (Float32.t * shared_ptr * Tree)) (child : addr)
  : option (Float32.t * shared_ptr * Tree) :=
  '(best_PUCT, best_node, st) ← acc;
  q ← Q st child;
  '(u, st) ← U st child;
  let PUCT := Float32.add (Float32.sub Float32.one q) u in
  if Float32.ltb best_PUCT PUCT
  then Some (PUCT, Some child, st)
  else Some (best_PUCT, best_node, st).

Definition max_PUCT (st : Tree) (this : addr) : option (shared_ptr * Tree) :=
  nd ← node_at st this;
  '(_, best_node, st) ←
     foldl max_PUCT_child (Some (Float32.neg_inf, None, st)) (children nd);
  Some (best_node, st).

(** *** [MCTSNode::select] *)

Definition visit (st : Tree) (a : addr) : Tree :=
  update_node st a (λ n, set_visits n (visits n + 1)%N).

(** [None]: a null or dangling pointer is dereferenced, or the fuel is
    used up (the walk need not end on a cyclic graph). *)
Fixpoint select_loop (fuel : nat) (st : Tree) (cur_node : addr)
    (path : list addr) : option (list addr * Tree) :=
  match fuel with
  | O => None
  | S fuel' =>
      nd ← node_at st cur_node;
      if expanded nd then
        '(new_node, st) ← max_PUCT st cur_node;
        let st := visit st cur_node in
        cur_node' ← new_node;
        select_loop fuel' st cur_node' (path ++ [cur_node])
      else Some (path ++ [cur_node], visit st cur_node)
  end.

Definition select (fuel : nat) (st : Tree) (this : addr)
  : option (list addr * Tree) :=
  select_loop fuel st this [].

(** *** [MCTSNode::backpropagate] *)

Definition backpropagate_node (winner : Z) (nd : Node) : Node :=
  if decide (winner = player (board nd)) then set_wins nd (wins nd + 1)%N
  else if decide (winner = PLAYER_TIE) then set_ties nd (ties nd + 1)%N
  else nd.

Definition backpropagate (st : Tree) (b : Board) (path : list addr) : Tree :=
  let winner := game_winner b in
  foldl (λ st node, update_node st node (backpropagate_node winner)) st path.

(** *** [simulate]

    [rand] is the sequence of values [rand()] returns and [k] the number
    of calls made so far.  [None]: a position that is not decided has no
    legal move ([rand() % 0]), or the fuel is used up. *)
Fixpoint simulate (fuel : nat) (rand : nat → nat) (k : nat) (new_board : Board)
  : option (Board * nat) :=
  if decide (game_winner new_board = PLAYER_NONE) then
    match fuel with
    | O => None
    | S fuel' =>
        let s_moves := get_valid_moves new_board in
        match s_moves with
        | [] => None
        | _ =>
            mv ← s_moves !! (rand k `mod` length s_moves);
            simulate fuel' rand (S k) (move new_board mv)
        end
    end
  else Some (new_board, k).

(** *** [MCTSTree::mcts] *)

(** One round of the [for] loop. *)
Definition mcts_iteration (fuel : nat) (rand : nat → nat) (k : nat)
    (st : Tree) (node : addr) : option (Tree * nat) :=
  '(path, st) ← select fuel st node;
  leaf ← last path;
  lf ← node_at st leaf;
  '(b, k) ← simulate fuel rand k (board lf);
  let st := backpropagate st b path in
  if decide (game_winner (board lf) = PLAYER_NONE)
  then st ← expand st leaf; Some (st, k)
  else Some (st, k).

Fixpoint mcts_loop (fuel : nat) (rand : nat → nat) (k : nat) (st : Tree)
    (node : addr) (num_iterations : nat) : option (Tree * nat) :=
  match num_iterations with
  | O => Some (st, k)
  | S n =>
      '(st, k) ← mcts_iteration fuel rand k st node;
      mcts_loop fuel rand k st node n
  end.

Definition mcts (fuel : nat) (rand : nat → nat) (k : nat) (st : Tree)
    (b : Board) (num_iterations : nat) : option (Tree * nat) :=
  '(node, st) ← get_node st b None;
  mcts_loop fuel rand k st node num_iterations.

(** *** [MCTSNode::prune_children] *)

(** The two inner loops over [j]: the flag is raised when [QU] is below
    the [Qs] entry of another index. *)
Definition prunable (Qs : list Float32.t) (size i : nat) (QU : Float32.t)
  : bool :=
  let test (flag : bool) (j : nat) :=
    match Qs !! j with
    | Some Qj => if Float32.ltb QU Qj then true else flag
    | None => flag
    end in
  foldl test (foldl test false (seq 0 i)) (seq (S i) (size - S i)).

(** The first loop: the vector [Qs]. *)
Definition prune_children_Qs (st : Tree) (cs : list addr)
  : option (list Float32.t) :=
  mapM (Q st) cs.

(** The second loop, [k] bounding the rounds left; [children.size()] is
    read again at every round.  [held] are the handles of the caller,
    [this] among them. *)
Fixpoint prune_children_loop (held : list addr) (k : nat)
    (Qs : list Float32.t) (st : Tree) (this : addr) (i : nat)
  : option Tree :=
  match k with
  | O => Some st
  | S k' =>
      nd ← node_at st this;
      match children nd !! i with
      | None => Some st
      | Some child =>
          q ← Q st child;
          '(u, st) ← U st child;
          let QU := Float32.add q u in
          st ← (if prunable Qs (length (children nd)) i QU
                then filicide_held held st child else Some st);
          prune_children_loop held k' Qs st this (S i)
      end
  end.

(** [prune_children] called through a handle on [this] by a caller that
    holds the nodes [held] besides. *)
Definition prune_children_held (held : list addr) (st : Tree) (this : addr)
  : option Tree :=
  nd ← node_at st this;
  Qs ← prune_children_Qs st (children nd);
  prune_children_loop (this :: held) (length (children nd)) Qs st this 0.

Definition prune_children (st : Tree) (this : addr) : option Tree :=
  prune_children_held [] st this.

End Core.

(** ** A small game for concrete runs

    Positions are numbered; position 0 has the moves to 1 and 2, position
    1 to 3 and 4, position 2 to 5 and 6, position 3 to 7 and position 4
    to 8.  A move is the number of the position it leads to.  Positions 5
    to 8 are decided: 5 is a tie, 6 and 7 are won by player 1 and 8 by
    player 2. *)

Module Toy.
Definition NONE : Z := 0.
Definition TIE : Z := 3.

Definition valid_moves (b : nat) : list nat :=
  match b with
  | 0 => [1; 2]
  | 1 => [3; 4]
  | 2 => [5; 6]
  | 3 => [7]
  | 4 => [8]
  | _ => []
  end.

Definition winner (b : nat) : Z :=
  if decide (b < 5) then NONE
  else if decide (b = 5) then TIE
  else if decide (b = 8) then 2%Z
  else 1%Z.

Definition to_move (b : nat) : Z :=
  if decide (b = 0 ∨ 3 ≤ b ≤ 6) then 1%Z else 2%Z.

#[global] Instance game : Game nat nat := {|
  get_valid_moves := valid_moves;
  move := λ _ m, m;
  game_winner := winner;
  player := to_move;
  PLAYER_NONE := NONE;
  PLAYER_TIE := TIE
|}.

Abbreviation Tree := (MCTSTree nat nat).

(** The tree a run produced; the fresh tree if the run is undefined. *)
Definition tree_of (run : option Tree) : Tree := default empty_tree run.

(** [rand()] returning 0, 1, 2, ... *)
Definition counting_rand (k : nat) : nat := k.

(** The tree after [mcts(position 0, 20)] on a fresh tree. *)
Definition after_search : option Tree :=
  fst <$> mcts 10 counting_rand 0 empty_tree 0 20.

(** A fresh tree with position 7, which is decided, as its only root. *)
Definition decided_root : option (addr * Tree) :=
  get_node empty_tree 7 None.

(** Positions 0 to 4 expanded by hand from the root 0: the graph
    root -> A -> B with the sibling branches A2 and B2, where
    root = 0, A = 1, A2 = 2, B = 3, B2 = 4. *)
Definition family : option Tree :=
  '(root, st) ← get_node empty_tree 0 None;
  st ← expand st root;
  st ← expand st 1;
  st ← expand st 2;
  st ← expand st 3;
  expand st 4.

(** Two roots, then the first one looked up again with the second as
    its parent. *)
Definition reparented_root : option (addr * Tree) :=
  '(r0, st) ← get_node empty_tree 0 None;
  '(r1, st) ← get_node st 1 None;
  get_node st 0 (Some r1).

(** The root 0, a node for position 7 that the caller got with the root
    as its parent and keeps a handle to, and the root expanded. *)
Definition with_handle : option Tree :=
  '(root, st) ← get_node empty_tree 0 None;
  '(_, st) ← get_node st 7 (Some root);
  expand st root.

(** A node for position 0 made with a parent that is not a node, its
    parent vector emptied by [U], and a root for position 5: the node of
    position 0 is live, has no parent and is not a root. *)
Definition parentless : option Tree :=
  '(orphan, st) ← get_node empty_tree 0 (Some 99);
  '(_, st) ← U st orphan;
  snd <$> get_node st 5 None.

(** The tree after [mcts(position 0, 60)] on a fresh tree. *)
Definition after_long_search : option Tree :=
  fst <$> mcts 10 counting_rand 0 empty_tree 0 60.
End Toy.

(** A game where two moves lead to the same position: 0 -> 1, 2 and
    1 -> 3, 2 -> 3; position 3 is won by player 1. *)
Module Diamond.
Definition valid_moves (b : nat) : list nat :=
  match b with
  | 0 => [1; 2]
  | 1 => [3]
  | 2 => [3]
  | _ => []
  end.

Definition winner (b : nat) : Z := if decide (b < 3) then 0%Z else 1%Z.

Definition to_move (b : nat) : Z := if decide (b = 0 ∨ b = 3) then 1%Z else 2%Z.

#[export] Instance game : Game nat nat := {|
  get_valid_moves := valid_moves;
  move := λ _ m, m;
  game_winner := winner;
  player := to_move;
  PLAYER_NONE := 0%Z;
  PLAYER_TIE := 3%Z
|}.

(** The tree after [mcts(position 0, 20)] on a fresh tree: the node of
    position 3 has the nodes of positions 1 and 2 as its parents. *)
Definition after_search : MCTSTree nat nat :=
  default empty_tree
    (fst <$> mcts (H0 := game) 10 Toy.counting_rand 0 empty_tree 0 20).
End Diamond.

(** ** Reachable states of the search loop *)

Section Statements.
Context {Board Move : Type} `{Game Board Move}.

Abbreviation Node := (MCTSNode Board Move).
Abbreviation Tree := (MCTSTree Board Move).

(** Where [MCTSTree::mcts] stands: outside a call, at the head of the
    [for] loop, after [select], or after [backpropagate]. *)
Inductive phase :=
  | Idle
  | LoopHead (node : addr)
  | Selected (node : addr) (path : list addr)
  | Backpropagated (node leaf : addr).

Inductive mcts_state : phase → Tree → Prop :=
  | mcts_fresh :
      mcts_state Idle empty_tree
  | mcts_enter st b node st' :
      mcts_state Idle st →
      get_node st b None = Some (node, st') →
      mcts_state (LoopHead node) st'
  | mcts_select node st fuel path st' :
      mcts_state (LoopHead node) st →
      select fuel st node = Some (path, st') →
      mcts_state (Selected node path) st'
  | mcts_playout node path st leaf lf fuel rand k b k' :
      mcts_state (Selected node path) st →
      last path = Some leaf →
      node_at st leaf = Some lf →
      simulate fuel rand k (board lf) = Some (b, k') →
      mcts_state (Backpropagated node leaf) (backpropagate st b path)
  | mcts_expand node leaf st lf st' :
      mcts_state (Backpropagated node leaf) st →
      node_at st leaf = Some lf →
      game_winner (board lf) = PLAYER_NONE →
      expand st leaf = Some st' →
      mcts_state (LoopHead node) st'
  | mcts_skip node leaf st lf :
      mcts_state (Backpropagated node leaf) st →
      node_at st leaf = Some lf →
      game_winner (board lf) ≠ PLAYER_NONE →
      mcts_state (LoopHead node) st
  | mcts_exit node st :
      mcts_state (LoopHead node) st →
      mcts_state Idle st.

(** The nodes [select] has counted a visit for and [backpropagate] has
    not yet scored. *)
Definition pending (ph : phase) : list addr :=
  match ph with
  | Selected _ path => path
  | _ => []
  end.

Definition occurrences (a : addr) (l : list addr) : N :=
  N.of_nat (length (filter (λ x, x = a) l)).

(** What the proof of the node invariant carries along. *)
Record node_ok (st : Tree) (todo : list addr) (a : addr) (nd : Node)
  : Prop := {
  ok_stats : (wins nd + ties nd + occurrences a todo ≤ visits nd)%N;
  ok_children :
    length (children nd) = 0 ∨ length (children nd) = length (moves nd);
  ok_unexpanded : expanded nd = false → children nd = [];
  ok_allocated : a < next_addr st
}.

Definition tree_ok (st : Tree) (todo : list addr) : Prop :=
  ∀ a nd, node_at st a = Some nd → node_ok st todo a nd.

(** Two node records that differ at most in their parent vector. *)
Definition same_but_parents (nd nd' : Node) : Prop :=
  nd' = set_parents nd (parents nd').

(** Two trees with the same live nodes, each differing at most in its
    parent vector, and the same allocation mark. *)
Definition same_nodes (st st' : Tree) : Prop :=
  next_addr st' = next_addr st ∧
  ∀ x, match node_at st x, node_at st' x with
       | Some nd, Some nd' => same_but_parents nd nd'
       | None, None => True
       | _, _ => False
       end.

(** ** The scenario of [prune_ancestors]

    [root] has the children [a] and [a2], [a] has the children [b] and
    [b2]; [b] was reached through [a] only and [a] through [root] only;
    [root] is in the root vector and has no parent but, possibly, the
    empty one its constructor stored; [a2] and [b2] have children only
    if they are expanded. *)
Record family_graph (st : Tree) (root a a2 b b2 : addr) : Prop := {
  fam_distinct : NoDup [root; a; a2; b; b2];
  fam_rooted : root ∈ roots st;
  fam_root : ∃ nd, node_at st root = Some nd ∧ children nd = [a; a2] ∧
                   (parents nd = [] ∨ parents nd = [None]);
  fam_a : ∃ nd, node_at st a = Some nd ∧ children nd = [b; b2] ∧
                parents nd = [Some root];
  fam_b : ∃ nd, node_at st b = Some nd ∧ parents nd = [Some a];
  fam_a2 : ∃ nd, node_at st a2 = Some nd ∧
                 (expanded nd = false → children nd = []);
  fam_b2 : ∃ nd, node_at st b2 = Some nd ∧
                 (expanded nd = false → children nd = [])
}.

(** The call [get_node(b, p)] whose [find] on the roots comes back with
    [roots.end()], which [roots.erase] must not be given: the board has
    a live entry, the parent vector of that node is empty, a parent is
    passed, and the node is not among the roots. *)
Definition erases_end (st : Tree) (b : Board) (p : shared_ptr) : Prop :=
  ∃ a nd, transposition_table st !! b = Some a ∧ node_at st a = Some nd ∧
          parents nd = [] ∧ p ≠ None ∧ a ∉ roots st.

(** A set of live nodes each of which is a root, is held, or is the
    child of a member of the set: none of them can lose its last owner
    while the others stay. *)
Definition anchored (held : list addr) (st : Tree) (keep : list addr)
  : Prop :=
  ∀ x, x ∈ keep →
    is_Some (node_at st x) ∧
    (x ∈ roots st ∨ x ∈ held ∨
     ∃ p np, p ∈ keep ∧ node_at st p = Some np ∧ x ∈ children np).

(** What a release may do: nodes that are live, that nothing owns and
    that nothing holds are destroyed, one after the other. *)
Inductive destroys (held : list addr) : Tree → Tree → Prop :=
  | destroys_refl st : destroys held st st
  | destroys_step st a nd st' :
      node_at st a = Some nd → has_owner st a = false → a ∉ held →
      destroys held (destroy (a, nd) st) st' →
      destroys held st st'.

(** A node on which [filicide] has had its effect, or which never had
    children: it is there, not expanded, childless. *)
Definition childless (st : Tree) (a : addr) : Prop :=
  ∃ nd, node_at st a = Some nd ∧ expanded nd = false ∧ children nd = [].

(** ** Statements as the specification words them *)

(** [expand] on a decided position: expanded, no children. *)
Definition claimed_expand_terminal : Prop :=
  ∀ (st st' : Tree) this nd,
    node_at st this = Some nd → moves nd = [] →
    expand st this = Some st' →
    ∃ nd', node_at st' this = Some nd' ∧
           expanded nd' = true ∧ children nd' = [].

(** [prune_ancestors] from [b]: [root] keeps [a] only, [a] keeps [b]
    only, [a2] and [b2] are gone. *)
Definition claimed_prune_ancestors : Prop :=
  ∀ (st st' : Tree) root a a2 b b2 fuel,
    family_graph st root a a2 b b2 →
    prune_ancestors fuel st b = Some st' →
    children <$> node_at st' root = Some [a] ∧
    children <$> node_at st' a = Some [b] ∧
    node_at st' a2 = None ∧ node_at st' b2 = None.

(** [prune_children]: a child undergoes [filicide] exactly when another
    child has a strictly greater [Q() + U()]. *)
Definition claimed_prune_children : Prop :=
  ∀ (st st' : Tree) this nd i child c,
    node_at st this = Some nd →
    children nd !! i = Some child →
    node_at st child = Some c → expanded c = true →
    prune_children st this = Some st' →
    (∃ j other qu_i st_i qu_j st_j,
        j ≠ i ∧ children nd !! j = Some other ∧
        PUCT st child = Some (qu_i, st_i) ∧
        PUCT st other = Some (qu_j, st_j) ∧
        Float32.ltb qu_i qu_j = true)
    ↔ childless st' child.

(** No divisor of a ratio is zero, whatever the counters. *)
Definition claimed_no_zero_divisor : Prop :=
  (∀ v, Float32.is_zero (Q_denominator v) = false) ∧
  (∀ v, Float64.is_zero (U_denominator v) = false) ∧
  (∀ st : Tree, Float32.is_zero (hitrate_denominator st) = false).

End Statements.

(** [Q] lies in the interval from 0 to 1, 1 excluded, and [1 - Q] is
    positive. *)
Definition claimed_Q_below_one : Prop :=
  ∀ w t v : N,
    (w + t ≤ v)%N →
    SFleb Float32.zero (Q_value w t v) = true ∧
    Float32.ltb (Q_value w t v) Float32.one = true ∧
    Float32.ltb Float32.zero (Float32.sub Float32.one (Q_value w t v)) = true.

(** ** Floats as integers

    A non-negative float, counted in units of [2 ^ -200]: [float_le x ehi B]
    says that [x] is [+0] or a positive finite binary32 float of exponent
    at most [ehi] worth at most [B] units; [float_is x ehi B] that it is a
    positive finite float worth exactly [B] units. *)

Definition float_le (x : spec_float) (ehi B : Z) : Prop :=
  x = S754_zero false ∨
  ∃ m e, x = S754_finite false m e ∧ (-149 ≤ e ≤ ehi)%Z ∧
         (Z.pos m * 2 ^ (e - -200) ≤ B)%Z.

Definition float_is (x : spec_float) (ehi B : Z) : Prop :=
  ∃ m e, x = S754_finite false m e ∧ (-149 ≤ e ≤ ehi)%Z ∧
         (Z.pos m * 2 ^ (e - -200) = B)%Z.


(** ** Functions the search loop does not call *)

Section Readers.
Context {Board Move : Type} `{Game Board Move}.

Abbreviation Node := (MCTSNode Board Move).
Abbreviation Tree := (MCTSTree Board Move).

(** *** [MCTSNode::parent_Q] *)

(** [unsigned losses = visits - wins - ties]: the difference modulo
    [2 ^ 32]. *)
Definition parent_Q_losses (w t v : N) : N :=
  Z.to_N ((Z.of_N v - Z.of_N w - Z.of_N t) mod 4294967296).

(** [parent_Q] as a function of the three counters it reads. *)
Definition parent_Q_value (w t v : N) : Float32.t :=
  let losses := parent_Q_losses w t v in
  let loss := Float32.div (Float32.of_N losses) (Q_denominator v) in
  let tie := Float32.div (Float32.mul TIE_REWARD (Float32.of_N t))
                         (Q_denominator v) in
  Float32.add loss tie.

Definition parent_Q (st : Tree) (this : addr) : option Float32.t :=
  nd ← node_at st this;
  Some (parent_Q_value (wins nd) (ties nd) (visits nd)).

(** A tree whose only node is the root of board [b], not expanded, with
    the given counters, as one lookup of [b] creates it. *)
Definition lone_root (b : Board) (v w t : N) : Tree :=
  mkTree {[0 := mkNode b [None] (get_valid_moves b) [] v w t false]}
         1 {[b := 0]} [0] 1%N 0%N 0%N.

End Readers.

(** *** [MCTSNode::get_move]

    Modelled from the spec: [grid_coord] is declared in the missing
    header; the code reads its four integer members [m_i], [m_j], [i] and
    [j] and builds the value with all four at -1. *)

Module GridCoord.
Record t := mk { m_i : Z; m_j : Z; i : Z; j : Z }.
End GridCoord.

Definition grid_coord := GridCoord.t.

(** Conversion of a counter to [int], and of an [int] back to the
    unsigned type of the counters for a comparison with one. *)
Definition to_int (n : N) : Z :=
  let r := Z.of_N (wrap32 n) in
  if (r <? 2147483648)%Z then r else (r - 4294967296)%Z.

Definition of_int (z : Z) : N := Z.to_N (z mod 4294967296).

Section BestMove.
Context {Board : Type} `{Game Board grid_coord}.

Abbreviation GNode := (MCTSNode Board grid_coord).
Abbreviation GTree := (MCTSTree Board grid_coord).

(** The move returned for a node that was never expanded. *)
Definition no_move : grid_coord := GridCoord.mk (-1) (-1) (-1) (-1).

(** One round of the loop: [children[i]] and [moves[i]] are both read
    (the latter for the trace line) before the comparisons. *)
Definition get_move_child (st : GTree) (nd : GNode)
    (acc : option (Float32.t * Z * grid_coord)) (i : nat)
  : option (Float32.t * Z * grid_coord) :=
  '(best_Q, best_visits, best_move) ← acc;
  child ← children nd !! i;
  c ← node_at st child;
  Q ← Q st child;
  mv ← moves nd !! i;
  if Float32.ltb Q best_Q then Some (Q, to_int (visits c), mv)
  else if Float32.eqb Q best_Q && (of_int best_visits <? visits c)%N
       then Some (Q, to_int (visits c), mv)
       else Some (best_Q, best_visits, best_move).

Definition get_move (st : GTree) (this : addr) : option grid_coord :=
  nd ← node_at st this;
  if expanded nd then
    '(_, _, best_move) ←
       foldl (get_move_child st nd) (Some (Float32.inf, 0%Z, no_move))
             (seq 0 (length (children nd)));
    Some best_move
  else Some no_move.

(** [Q] of a node record. *)
Definition Qv (n : GNode) : Float32.t :=
  Q_value (wins n) (ties n) (visits n).

(** The state of the loop of [get_move] after the children of index
    below [k]. *)
Definition best_so_far (st : GTree) (nd : GNode) (k : nat)
    (acc : option (Float32.t * Z * grid_coord)) : Prop :=
  ∃ bq bv bm, acc = Some (bq, bv, bm) ∧
    ((k = 0 ∧ bq = Float32.inf ∧ bv = 0%Z) ∨
     ∃ i c nc, children nd !! i = Some c ∧ node_at st c = Some nc ∧
       moves nd !! i = Some bm ∧ bq = Qv nc ∧ bv = Z.of_N (visits nc) ∧
       ∀ j cj nj, j < k → children nd !! j = Some cj →
         node_at st cj = Some nj →
         Float32.ltb (Qv nj) bq = false ∧
         (Float32.eqb (Qv nj) bq = true → (visits nj ≤ visits nc)%N)).

End BestMove.

(** The small game with grid coordinates for moves: the positions and the
    outcomes are those of the small game above, and the move to position
    [m] is the coordinate with [j = m] and 0 elsewhere. *)

Module Grid.
Definition to_coord (m : nat) : grid_coord :=
  GridCoord.mk 0 0 0 (Z.of_nat m).

#[export] Instance game : Game nat grid_coord := {|
  get_valid_moves := λ b, to_coord <$> Toy.valid_moves b;
  move := λ _ mv, Z.to_nat (GridCoord.j mv);
  game_winner := Toy.winner;
  player := Toy.to_move;
  PLAYER_NONE := Toy.NONE;
  PLAYER_TIE := Toy.TIE
|}.

(** The tree after [mcts(position 0, 20)] on a fresh tree. *)
Definition after_search : MCTSTree nat grid_coord :=
  default empty_tree (fst <$> mcts 10 Toy.counting_rand 0 empty_tree 0 20).
End Grid.

(** A float that is a zero, a finite number or an infinity of sign [s]. *)
Definition signed (s : bool) (x : spec_float) : Prop :=
  match x with
  | S754_zero s' | S754_infinity s' | S754_finite s' _ _ => s' = s
  | S754_nan => False
  end.

(** The score [max_PUCT] gives a child: [(1 - Q()) + U()]. *)
Definition child_PUCT {Board Move : Type} `{Game Board Move}
    (st : MCTSTree Board Move) (child : addr) : option Float32.t :=
  q ← Q st child;
  '(u, _) ← U st child;
  Some (Float32.add (Float32.sub Float32.one q) u).

(** The state of the loop of [max_PUCT] after the children [seen]. *)
Definition best_of {Board Move : Type} `{Game Board Move}
    (st : MCTSTree Board Move) (seen : list addr)
    (best_PUCT : Float32.t) (best_node : shared_ptr) : Prop :=
  (∀ c p, c ∈ seen → child_PUCT st c = Some p →
          Float32.ltb best_PUCT p = false) ∧
  match best_node with
  | None => best_PUCT = Float32.neg_inf
  | Some c => c ∈ seen ∧ child_PUCT st c = Some best_PUCT ∧
              Float32.ltb Float32.neg_inf best_PUCT = true
  end.

(** Two trees with the same nodes, each with the same members but,
    possibly, expired entries of its parent vector. *)
Definition same_live {Board Move : Type} `{Game Board Move}
    (st st' : MCTSTree Board Move) : Prop :=
  ∀ x, match node_at st x, node_at st' x with
       | Some nd, Some nd' =>
           same_but_parents nd nd' ∧
           filter (λ w, expired st w = false) (parents nd')
           = filter (λ w, expired st w = false) (parents nd)
       | None, None => True
       | _, _ => False
       end.

(** ** The public operations as steps *)

Section Reachability.
Context {Board Move : Type} `{Game Board Move}.

Abbreviation Node := (MCTSNode Board Move).
Abbreviation Tree := (MCTSTree Board Move).

(** One call of a member function that changes the tree and returns. *)
Inductive api_step : Tree → Tree → Prop :=
  | step_get_node st b p a st' :
      get_node st b p = Some (a, st') → api_step st st'
  | step_expand st this st' :
      expand st this = Some st' → api_step st st'
  | step_filicide held st this st' :
      filicide_held held st this = Some st' → api_step st st'
  | step_U st this u st' :
      U st this = Some (u, st') → api_step st st'
  | step_PUCT st this u st' :
      PUCT st this = Some (u, st') → api_step st st'
  | step_max_PUCT st this best st' :
      max_PUCT st this = Some (best, st') → api_step st st'
  | step_select fuel st this path st' :
      select fuel st this = Some (path, st') → api_step st st'
  | step_backpropagate st b path :
      api_step st (backpropagate st b path)
  | step_prune_children held st this st' :
      prune_children_held held st this = Some st' → api_step st st'
  | step_prune_ancestors held fuel st this st' :
      prune_ancestors_held held fuel st this = Some st' → api_step st st'
  | step_prune held st max_size st' :
      prune_held held st max_size = Returned st' → api_step st st'
  | step_release held st released :
      api_step st (release held st released)
  | step_mcts fuel rand k st b n st' k' :
      mcts fuel rand k st b n = Some (st', k') → api_step st st'.

(** A path down the child vectors, from an expanded node to the next,
    that ends at a node that is not expanded. *)
Inductive descent (st : Tree) : list addr → Prop :=
  | descent_leaf a nd :
      node_at st a = Some nd → expanded nd = false → descent st [a]
  | descent_step a nd b rest :
      node_at st a = Some nd → expanded nd = true → b ∈ children nd →
      descent st (b :: rest) → descent st (a :: b :: rest).

(** What pruning may do to a tree: the roots and the lookup counters stay,
    no node appears, and a node that is still there has its board, moves
    and statistics, a parent vector that lost entries at most, and its
    children and flag either as before or reset. *)
Definition only_emptied (st st' : Tree) : Prop :=
  roots st' = roots st ∧ next_addr st' = next_addr st ∧
  total_lookups st' = total_lookups st ∧ total_hits st' = total_hits st ∧
  ∀ a n', node_at st' a = Some n' →
    ∃ n, node_at st a = Some n ∧ board n' = board n ∧ moves n' = moves n ∧
         visits n' = visits n ∧ wins n' = wins n ∧ ties n' = ties n ∧
         sublist (parents n') (parents n) ∧
         ((children n' = children n ∧ expanded n' = expanded n) ∨
          (children n' = [] ∧ expanded n' = false)).

(** The trees a program can build from a fresh one. *)
Definition reachable (st : Tree) : Prop := rtc api_step empty_tree st.

(** The table and the counters against the store: the table maps exactly
    the boards of the live nodes to them, every live address has been
    handed out, every node handed out is live or was counted by its
    destructor, and every lookup was a hit or handed out a node. *)
Record consistent (st : Tree) : Prop := {
  table_live : ∀ b a, transposition_table st !! b = Some a ↔
                      ∃ nd, node_at st a = Some nd ∧ board nd = b;
  table_size : size (transposition_table st) = size (heap st);
  live_allocated : ∀ a, is_Some (node_at st a) → a < next_addr st;
  destroyed_counted :
    (N.of_nat (size (heap st)) + total_fillicides st
     = N.of_nat (next_addr st))%N;
  lookups_counted :
    total_lookups st = (total_hits st + N.of_nat (next_addr st))%N
}.

(** A parent vector after its expired entries, or some of them, have been
    erased. *)
Definition drops_expired (st : Tree) (ps ps' : list weak_ptr) : Prop :=
  sublist ps' ps ∧ ∀ w, w ∈ ps → expired st w = false → w ∈ ps'.

(** The shape of the graph: the roots and the children are live, a child
    lists its parent, a node is expanded exactly when it has children, and
    the children of an expanded node are, move by move, the nodes of the
    positions its legal moves lead to. *)
Record well_formed (st : Tree) : Prop := {
  roots_live : ∀ r, r ∈ roots st → is_Some (node_at st r);
  children_live :
    ∀ a nd c, node_at st a = Some nd → c ∈ children nd →
      ∃ nc, node_at st c = Some nc ∧ Some a ∈ parents nc;
  expanded_children :
    ∀ a nd, node_at st a = Some nd → expanded nd = true ↔ children nd ≠ [];
  moves_legal :
    ∀ a nd, node_at st a = Some nd → moves nd = get_valid_moves (board nd);
  children_boards :
    ∀ a nd, node_at st a = Some nd → expanded nd = true →
      Forall2 (λ c m, board <$> node_at st c = Some (move (board nd) m))
              (children nd) (moves nd)
}.

(** The loop of [expand] on the node [this] of board [b] and moves [ms],
    after the moves [done]: every other node is in shape, and [this] has
    the children of the moves dealt with so far. *)
Record expanding (st : Tree) (this : addr) (b : Board)
    (ms done : list Move) : Prop := {
  ex_roots : ∀ r, r ∈ roots st → is_Some (node_at st r);
  ex_children :
    ∀ a nd c, node_at st a = Some nd → c ∈ children nd →
      ∃ nc, node_at st c = Some nc ∧ Some a ∈ parents nc;
  ex_expanded :
    ∀ a nd, a ≠ this → node_at st a = Some nd →
      expanded nd = true ↔ children nd ≠ [];
  ex_moves :
    ∀ a nd, node_at st a = Some nd → moves nd = get_valid_moves (board nd);
  ex_boards :
    ∀ a nd, a ≠ this → node_at st a = Some nd → expanded nd = true →
      Forall2 (λ c m, board <$> node_at st c = Some (move (board nd) m))
              (children nd) (moves nd);
  ex_this :
    ∃ nt, node_at st this = Some nt ∧ board nt = b ∧ moves nt = ms ∧
          Forall2 (λ c m, board <$> node_at st c = Some (move b m))
                  (children nt) done ∧
          (expanded nt = true ↔ done ≠ [])
}.

End Reachability.

(** ** Trees on which a search returns *)

Section Attachment.
Context {Board Move : Type} `{Game Board Move}.
Abbreviation Node := (MCTSNode Board Move).
Abbreviation Tree := (MCTSTree Board Move).

(** Every node is in the root vector or has a live node in its parent
    vector: [get_node] finds in [roots] every node whose parent vector is
    empty. *)
Definition attached (st : Tree) : Prop :=
  ∀ a nd, node_at st a = Some nd →
    a ∈ roots st ∨ ∃ p, Some p ∈ parents nd ∧ is_Some (node_at st p).

(** The nodes of [st] are in [st'] with their boards and at most [bound]
    more visits (and no fewer), and the other nodes of [st'] have at most
    [bound] visits. *)
Definition visits_grown (bound : N) (st st' : Tree) : Prop :=
  (∀ a nd, node_at st a = Some nd →
     ∃ nd', node_at st' a = Some nd' ∧ board nd' = board nd ∧
            (visits nd ≤ visits nd' ≤ visits nd + bound)%N) ∧
  (∀ a nd', node_at st' a = Some nd' → node_at st a = None →
     (visits nd' ≤ bound)%N).

(** The nodes of [st] are in [st'] with their boards and visit counts,
    expanded if they were, and the other nodes of [st'] have no visit. *)
Definition counts_kept (st st' : Tree) : Prop :=
  (∀ x nd, node_at st x = Some nd →
     ∃ nd', node_at st' x = Some nd' ∧ board nd' = board nd ∧
            visits nd' = visits nd ∧
            (expanded nd = true → expanded nd' = true)) ∧
  (∀ x nd', node_at st' x = Some nd' → node_at st x = None →
            visits nd' = 0%N).

End Attachment.

(** ** The loop of [prune_children] *)

Section PruneChildrenState.
Context {Board Move : Type} `{Game Board Move}.
Abbreviation Node := (MCTSNode Board Move).
Abbreviation Tree := (MCTSTree Board Move).

(** The [unsigned] sum of [U] over a parent vector: the visit counts of
    the parents that are live in [st]. *)
Definition parent_visit_count (st : Tree) (ps : list weak_ptr) : N :=
  wrap32 (foldr N.add 0%N
            ((λ w, default 0%N (visits <$> (w ≫= node_at st))) <$> ps)).

(** [Q() + U()] of a node with the record [nd] in the tree [st]. *)
Definition QU_value (st : Tree) (nd : Node) : Float32.t :=
  Float32.add (Q_value (wins nd) (ties nd) (visits nd))
              (U_value (parent_visit_count st (parents nd)) (visits nd)).

(** A set of live nodes that stay where they are while the child vectors
    of the nodes [cs] are emptied: each of them is a root, is held, or is
    a child of a member of the set that is not one of [cs]. *)
Definition anchored_beside (held : list addr) (st : Tree) (cs : list addr)
    (keep : list addr) : Prop :=
  ∀ x, x ∈ keep →
    is_Some (node_at st x) ∧
    (x ∈ roots st ∨ x ∈ held ∨
     ∃ p np, p ∈ keep ∧ (p ∉ cs) ∧ node_at st p = Some np ∧
             x ∈ children np).

(** The second loop of [prune_children] on the node [this] of the tree
    [st], before the round of index [i]: [this], the nodes of [keep] and
    the held nodes are as they were, no node has appeared, and a child
    has its statistics; its parent vector has lost its expired entries
    if its round is over, and it has been emptied if one of its rounds
    found it prunable. *)
Record pruning_children (held keep : list addr) (st : Tree) (this : addr)
    (nd : Node) (Qs : list Float32.t) (i : nat) (s : Tree) : Prop := {
  pc_this : node_at s this = Some nd;
  pc_roots : roots s = roots st;
  pc_kept : ∀ x, x ∉ children nd → x ∈ keep ∨ x ∈ held →
                 node_at s x = node_at st x;
  pc_old : ∀ x n, x ∉ children nd → node_at s x = Some n →
                  node_at st x = Some n;
  pc_child :
    ∀ c nc, c ∈ children nd → node_at st c = Some nc →
      ∃ nc', node_at s c = Some nc' ∧
        board nc' = board nc ∧ moves nc' = moves nc ∧
        visits nc' = visits nc ∧ wins nc' = wins nc ∧ ties nc' = ties nc ∧
        (parents nc' = parents nc ∨
         parents nc' = filter (λ w, expired st w = false) (parents nc)) ∧
        ((∃ i', i' < i ∧ children nd !! i' = Some c) →
         parents nc' = filter (λ w, expired st w = false) (parents nc)) ∧
        ((children nc' = [] ∧ expanded nc' = false ∧
          ∃ i', i' < i ∧ children nd !! i' = Some c ∧
                prunable Qs (length (children nd)) i' (QU_value st nc) = true)
         ∨
         (children nc' = children nc ∧ expanded nc' = expanded nc ∧
          ∀ i', i' < i → children nd !! i' = Some c →
                prunable Qs (length (children nd)) i' (QU_value st nc)
                = false))
}.

End PruneChildrenState.

(** ** The recursion of [prune_ancestors] *)

Section ClimbingState.
Context {Board Move : Type} `{Game Board Move}.
Abbreviation Node := (MCTSNode Board Move).
Abbreviation Tree := (MCTSTree Board Move).



End ClimbingState.

(** * Properties *)

Ltac in_list := solve [rewrite ?elem_of_cons; auto 10 | congruence].

(** ** The store *)

Section StoreFacts.
Context {Board Move : Type} `{Game Board Move}.

Abbreviation Tree := (MCTSTree Board Move).
Abbreviation Node := (MCTSNode Board Move).

Lemma bind_Some_eq {A B} (x : A) (f : A → option B) : Some x ≫= f = f x.
Proof. reflexivity. Qed.

Lemma node_at_update (st : Tree) (a : addr) f :
  node_at (update_node st a f) a = f <$> node_at st a.
Proof. unfold node_at, update_node. simpl. apply lookup_alter_eq. Qed.

Lemma node_at_update_ne (st : Tree) (a x : addr) f :
  a ≠ x → node_at (update_node st a f) x = node_at st x.
Proof.
  intros Hne. unfold node_at, update_node. simpl.
  by apply lookup_alter_ne.
Qed.

End StoreFacts.

(** ** [get_node] *)

Section GetNodeFacts.
Context {Board Move : Type} `{Game Board Move}.

Abbreviation Tree := (MCTSTree Board Move).

Lemma table_insert_lookup (b : Board) (a : addr) (t : gmap Board addr) :
  t !! b = None → table_insert b a t !! b = Some a.
Proof. intros Hb. unfold table_insert. rewrite Hb. apply lookup_insert_eq. Qed.

Lemma get_node_reuse_no_parent (st : Tree) (a : addr) nd :
  get_node_reuse st a nd None = Some (a, bump_hits st).
Proof.
  unfold get_node_reuse.
  by destruct (bool_decide (length (parents nd) = 0)).
Qed.

Lemma get_node_create_lookup (st : Tree) (b : Board) (p : shared_ptr) :
  transposition_table st !! b = None →
  let '(a, st') := get_node_create st b p in
  transposition_table st' !! b = Some a ∧
  node_at st' a = Some (new_MCTSNode b p).
Proof.
  intros Hb. unfold get_node_create, node_at.
  destruct p; simpl;
    (split; [by apply table_insert_lookup | apply lookup_insert_eq]).
Qed.

Lemma get_node_hit (st : Tree) (b : Board) (a : addr) nd :
  transposition_table st !! b = Some a →
  node_at st a = Some nd →
  get_node st b None = Some (a, bump_hits (bump_lookups st)).
Proof.
  intros Ht Hn. unfold get_node. simpl. rewrite Ht.
  unfold node_at in *. simpl. rewrite Hn. apply get_node_reuse_no_parent.
Qed.

(** C8.  Two calls of [get_node] with the same board and [nullptr] as
    parent, on any tree: both return the same node; the second call adds
    one to the hit counter and leaves the root vector and the node (its
    parent vector included) as the first call left them. *)
Theorem get_node_twice_same_node (st : Tree) (b : Board) :
  ∃ node st1 st2,
    get_node st b None = Some (node, st1) ∧
    get_node st1 b None = Some (node, st2) ∧
    is_Some (node_at st1 node) ∧
    total_hits st2 = (total_hits st1 + 1)%N ∧
    roots st2 = roots st1 ∧
    node_at st2 node = node_at st1 node ∧
    parents <$> node_at st2 node = parents <$> node_at st1 node.
Proof.
  destruct (transposition_table st !! b) as [a|] eqn:Ht.
  - destruct (node_at st a) as [nd|] eqn:Hn.
    + exists a, (bump_hits (bump_lookups st)),
        (bump_hits (bump_lookups (bump_hits (bump_lookups st)))).
      split; [by eapply get_node_hit|].
      split; [by eapply get_node_hit|].
      split; [by exists nd|]. done.
    + pose (st' := bump_lookups
                     (set_table (bump_lookups st)
                                (delete b (transposition_table st)))).
      assert (Hd : transposition_table st' !! b = None)
        by apply lookup_delete_eq.
      pose proof (get_node_create_lookup st' b None Hd) as Hc.
      destruct (get_node_create st' b None) as [n st1] eqn:Hcr.
      destruct Hc as [Ht1 Hn1].
      exists n, st1, (bump_hits (bump_lookups st1)).
      split.
      { unfold get_node. simpl. rewrite Ht. unfold node_at in *. simpl.
        rewrite Hn. by rewrite <- Hcr. }
      split; [by eapply get_node_hit|].
      split; [by eexists|]. done.
  - pose proof (get_node_create_lookup (bump_lookups st) b None Ht) as Hc.
    destruct (get_node_create (bump_lookups st) b None) as [n st1] eqn:Hcr.
    destruct Hc as [Ht1 Hn1].
    exists n, st1, (bump_hits (bump_lookups st1)).
    split.
    { unfold get_node. simpl. rewrite Ht. by rewrite <- Hcr. }
    split; [by eapply get_node_hit|].
    split; [by eexists|]. done.
Qed.

End GetNodeFacts.

(** C4.  A root that is looked up again with a parent stays in the root
    vector: its constructor stored the empty parent, so its parent vector
    was never empty and [get_node] does not take it off the roots.  After
    the three calls of [Toy.reparented_root], node 0 is a root whose
    parent vector holds the empty parent and the live node 1. *)
Theorem root_with_a_parent :
  ∃ st nd,
    Toy.reparented_root = Some (0, st) ∧
    roots st = [0; 1] ∧
    node_at st 0 = Some nd ∧
    parents nd = [None; Some 1] ∧
    is_Some (node_at st 1).
Proof.
  eexists _, _. vm_compute.
  split; [reflexivity|]. split; [reflexivity|]. split; [reflexivity|].
  split; [reflexivity|]. by eexists.
Qed.

(** ** [expand] on a decided position *)

Section ExpandFacts.
Context {Board Move : Type} `{Game Board Move}.

Abbreviation Tree := (MCTSTree Board Move).

(** C3, as the code has it.  On a node whose move list is empty, [expand]
    adds one to the visit count and changes nothing else: the flag
    [expanded] and the child vector stay as they were, so a node that was
    not expanded is still not expanded and childless.  A second call does
    the same again. *)
Theorem expand_terminal_counts_only (st : Tree) (this : addr) nd :
  node_at st this = Some nd →
  moves nd = [] →
  ∃ n1 n2,
    expand st this = Some (visit st this) ∧
    expand (visit st this) this = Some (visit (visit st this) this) ∧
    node_at (visit st this) this = Some n1 ∧
    node_at (visit (visit st this) this) this = Some n2 ∧
    n1 = set_visits nd (visits nd + 1)%N ∧
    n2 = set_visits n1 (visits n1 + 1)%N ∧
    expanded n2 = expanded nd ∧ children n2 = children nd ∧
    (∀ x, x ≠ this → node_at (visit (visit st this) this) x = node_at st x).
Proof.
  intros Hn Hm.
  assert (Hn1 : node_at (visit st this) this
                = Some (set_visits nd (visits nd + 1)%N)).
  { unfold visit. by rewrite node_at_update, Hn. }
  exists (set_visits nd (visits nd + 1)%N),
         (set_visits (set_visits nd (visits nd + 1)%N)
                     (visits (set_visits nd (visits nd + 1)%N) + 1)%N).
  split.
  { unfold expand. rewrite Hn. simpl. rewrite Hm.
    by destruct (expanded nd). }
  split.
  { unfold expand. rewrite Hn1. simpl. rewrite Hm.
    by destruct (expanded nd). }
  split; [done|].
  split.
  { unfold visit at 1. by rewrite node_at_update, Hn1. }
  split; [done|]. split; [done|]. split; [done|]. split; [done|].
  intros x Hx. unfold visit. by rewrite !node_at_update_ne.
Qed.

End ExpandFacts.

Lemma expand_terminal_counts_only_witness :
  let st := (Toy.tree_of (snd <$> Toy.decided_root)) in
  ∃ nd, node_at st 0 = Some nd ∧ moves nd = [] ∧
  ∃ n1 n2,
    expand st 0 = Some (visit st 0) ∧
    expand (visit st 0) 0 = Some (visit (visit st 0) 0) ∧
    node_at (visit st 0) 0 = Some n1 ∧
    node_at (visit (visit st 0) 0) 0 = Some n2 ∧
    n1 = set_visits nd (visits nd + 1)%N ∧
    n2 = set_visits n1 (visits n1 + 1)%N ∧
    expanded n2 = expanded nd ∧ children n2 = children nd ∧
    (∀ x, x ≠ 0 → node_at (visit (visit st 0) 0) x = node_at st x).
Proof.
  intros st. exists (new_MCTSNode 7 None).
  split; [reflexivity|]. split; [reflexivity|].
  apply (expand_terminal_counts_only st 0 (new_MCTSNode 7 None));
    reflexivity.
Defined.

(** The position 7 of the small game has no move; after [expand] its
    node is not expanded, against the wording of the specification. *)
Lemma expand_terminal_not_expanded : ¬ claimed_expand_terminal (Board := nat) (Move := nat).
Proof.
  intros Hclaim.
  destruct (Hclaim (Toy.tree_of (snd <$> Toy.decided_root))
                   (visit (Toy.tree_of (snd <$> Toy.decided_root)) 0)
                   0 (new_MCTSNode 7 None))
    as (nd' & Hnd' & Hexp & _); [reflexivity..|].
  vm_compute in Hnd'. injection Hnd' as <-. discriminate Hexp.
Qed.

(** ** [prune] *)

(** C1.  On the tree left by a search of 20 rounds, the root (21 visits)
    has the children 1 (8 visits) and 2 (13 visits), both expanded.
    [prune] with a bound of 3 takes the root off the queue and calls
    [filicide] on both children: the bound it compares with is the visit
    count of the root itself, so the most visited child, 2, loses its
    children too. *)
Theorem prune_empties_most_visited_child :
  let st := Toy.tree_of Toy.after_search in
  ∃ root c1 c2 st',
    roots st = [0] ∧
    node_at st 0 = Some root ∧ children root = [1; 2] ∧
    visits root = 21%N ∧
    node_at st 1 = Some c1 ∧ visits c1 = 8%N ∧ expanded c1 = true ∧
    node_at st 2 = Some c2 ∧ visits c2 = 13%N ∧ expanded c2 = true ∧
    transposition_size st = 9%N ∧
    prune st 3 = Returned st' ∧
    childless st' 1 ∧ childless st' 2 ∧
    transposition_size st' = 3%N.
Proof.
  eexists _, _, _, _. vm_compute.
  repeat (split; [reflexivity|]).
  split; [|split]; [eexists; by repeat split..|reflexivity].
Qed.

(** C2.  A tree whose only node is a root without children, and the bound
    0: the table holds one entry, the first round takes the root off the
    queue and discards nothing, and the loop goes on to read the front of
    the empty queue.  [prune] does not return. *)
Theorem prune_reads_empty_queue :
  let st := Toy.tree_of (snd <$> Toy.decided_root) in
  roots st = [0] ∧
  children <$> node_at st 0 = Some [] ∧
  transposition_size st = 1%N ∧
  prune st 0 = FrontOfEmptyQueue st.
Proof. vm_compute. by repeat split. Qed.

(** ** Destruction and [prune_ancestors] *)

Section Destruction.
Context {Board Move : Type} `{Game Board Move}.
Abbreviation Tree := (MCTSTree Board Move).
Abbreviation Node := (MCTSNode Board Move).

Lemma destroys_trans (held : list addr) (s1 s2 s3 : Tree) :
  destroys held s1 s2 → destroys held s2 s3 → destroys held s1 s3.
Proof.
  induction 1 as [|s a nd s' Ha Ho Hh _ IH]; [done|].
  intros H3. eapply destroys_step; eauto.
Qed.

Lemma release_list_destroys (held : list addr) (f : Tree → addr → Tree)
    (l : list addr) :
  (∀ st a, destroys held st (f st a)) →
  ∀ st, destroys held st (foldl f st l).
Proof.
  intros Hf. induction l as [|a l IH]; intros st; simpl.
  - apply destroys_refl.
  - eapply destroys_trans; [apply Hf|apply IH].
Qed.

Lemma release_loop_destroys (fuel : nat) (held : list addr) :
  ∀ (st : Tree) released,
    destroys held st (release_loop fuel held st released).
Proof.
  induction fuel as [|fuel IH]; intros st released; [apply destroys_refl|].
  cbn [release_loop]. apply release_list_destroys. clear st released.
  intros st a. destruct (node_at st a) as [nd|] eqn:Ha; [|apply destroys_refl].
  destruct (has_owner st a) eqn:Ho; [apply destroys_refl|].
  destruct (bool_decide (a ∈ held)) eqn:Hh; [apply destroys_refl|].
  apply bool_decide_eq_false in Hh. simpl.
  eapply destroys_step; eauto.
Qed.

Lemma release_destroys (held : list addr) (st : Tree) released :
  destroys held st (release held st released).
Proof. apply release_loop_destroys. Qed.

Lemma destroys_roots (held : list addr) (st st' : Tree) :
  destroys held st st' → roots st' = roots st.
Proof. induction 1 as [|s a nd s' _ _ _ _ IH]; [done|]. by rewrite IH. Qed.

(** A node that is left is as it was. *)
Lemma destroys_survivor (held : list addr) (st st' : Tree) (x : addr) n :
  destroys held st st' → node_at st' x = Some n → node_at st x = Some n.
Proof.
  induction 1 as [|s a nd s' _ _ _ _ IH]; [done|].
  intros Hx. specialize (IH Hx). unfold node_at in *. simpl in IH.
  apply lookup_delete_Some in IH. by destruct IH.
Qed.

Lemma anchored_kept (held : list addr) (st : Tree) (keep : list addr)
    (x : addr) :
  anchored held st keep → x ∈ keep → has_owner st x = true ∨ x ∈ held.
Proof.
  intros Hk Hx.
  destruct (Hk x Hx) as [_ [Hr | [Hh | (p & np & Hp & Hnp & Hc)]]].
  - left. unfold has_owner. by rewrite bool_decide_eq_true_2.
  - by right.
  - left. unfold has_owner. apply orb_true_iff. right.
    apply bool_decide_eq_true_2. exists p, np. by split.
Qed.

Lemma destroy_anchored (held : list addr) (st : Tree) (keep : list addr)
    (a : addr) nd :
  has_owner st a = false → a ∉ held →
  anchored held st keep →
  anchored held (destroy (a, nd) st) keep ∧
  ∀ x, x ∈ keep → node_at (destroy (a, nd) st) x = node_at st x.
Proof.
  intros Ho Hh Hk.
  assert (Hsame : ∀ x, x ∈ keep →
            node_at (destroy (a, nd) st) x = node_at st x).
  { intros x Hx. unfold node_at. simpl. apply lookup_delete_ne.
    intros <-. destruct (anchored_kept _ _ _ _ Hk Hx); [congruence|done]. }
  split; [|done].
  intros x Hx. destruct (Hk x Hx) as [Hlive Hown].
  rewrite (Hsame x Hx). split; [done|].
  destruct Hown as [Hr | [Hhe | (p & np & Hp & Hnp & Hc)]];
    [by left|by right; left|].
  right. right. exists p, np. by rewrite (Hsame p Hp).
Qed.

Lemma destroys_anchored (held : list addr) (st st' : Tree)
    (keep : list addr) :
  destroys held st st' →
  anchored held st keep →
  anchored held st' keep ∧
  ∀ x, x ∈ keep → node_at st' x = node_at st x.
Proof.
  induction 1 as [|s a nd s' Ha Ho Hh _ IH]; [done|].
  intros Hk.
  destruct (destroy_anchored held s keep a nd Ho Hh Hk) as [Hk' Hsame].
  destruct (IH Hk') as [Hk'' Hsame'].
  split; [done|]. intros x Hx. by rewrite Hsame', Hsame.
Qed.

Lemma release_anchored (held : list addr) (st : Tree) released
    (keep : list addr) :
  anchored held st keep →
  anchored held (release held st released) keep ∧
  roots (release held st released) = roots st ∧
  ∀ x, x ∈ keep → node_at (release held st released) x = node_at st x.
Proof.
  intros Hk. pose proof (release_destroys held st released) as Hd.
  destruct (destroys_anchored _ _ _ _ Hd Hk) as [Hk' Hsame].
  split; [done|]. split; [by eapply destroys_roots|done].
Qed.

(** Letting go of a node that a vector owns, or that is held, does
    nothing. *)
Lemma release_kept (held : list addr) (st : Tree) (a : addr) :
  has_owner st a = true ∨ a ∈ held → release held st [a] = st.
Proof.
  intros Hk. unfold release. destruct (size (heap st)); [done|].
  cbn [release_loop foldl]. destruct (node_at st a); [|done].
  destruct Hk as [-> | Hh]; [done|].
  by rewrite (bool_decide_eq_true_2 _ Hh), orb_true_r.
Qed.


Lemma cleared_childless (nd : Node) :
  expanded nd = false → children nd = [] → cleared nd = nd.
Proof. destruct nd; simpl; intros -> ->; reflexivity. Qed.

Lemma family_distinct (st : Tree) root a a2 b b2 :
  family_graph st root a a2 b b2 →
  root ≠ a ∧ root ≠ a2 ∧ root ≠ b ∧ root ≠ b2 ∧ a ≠ a2 ∧ a ≠ b ∧
  a ≠ b2 ∧ a2 ≠ b ∧ a2 ≠ b2 ∧ b ≠ b2.
Proof.
  intros [Hd _ _ _ _ _ _].
  repeat (apply NoDup_cons in Hd as [? Hd]).
  repeat match goal with
  | Hn : _ ∉ _ :: _ |- _ => apply not_elem_of_cons in Hn as [? Hn]
  end.
  by repeat split.
Qed.

Lemma filicide_sibling (held : list addr) (st : Tree) root a a2 b b2 x :
  family_graph st root a a2 b b2 →
  x = a2 ∨ x = b2 →
  ∃ st',
    filicide_held held st x = Some st' ∧
    family_graph st' root a a2 b b2 ∧
    childless st' x ∧
    node_at st' x = cleared <$> node_at st x ∧
    ∀ y, y ∈ [root; a; a2; b; b2] → y ≠ x → node_at st' y = node_at st y.
Proof.
  intros Hfam Hx.
  destruct (family_distinct _ _ _ _ _ _ Hfam)
    as (Hra & Hra2 & Hrb & Hrb2 & Haa2 & Hab & Hab2 & Ha2b & Ha2b2 & Hbb2).
  pose proof Hfam as [Hd Hrt (nr & Hnr & Hcr & Hpr) (na & Hna & Hca & Hpa)
                        (nb & Hnb & Hpb) (na2 & Hna2 & Hwa2)
                        (nb2 & Hnb2 & Hwb2)].
  assert (∃ nx, node_at st x = Some nx ∧
                (expanded nx = false → children nx = [])) as (nx & Hnx & Hwx).
  { destruct Hx as [-> | ->]; eauto. }
  assert (Hxr : x ≠ root) by (destruct Hx as [-> | ->]; done).
  assert (Hxa : x ≠ a) by (destruct Hx as [-> | ->]; done).
  assert (Hxb : x ≠ b) by (destruct Hx as [-> | ->]; done).
  destruct (expanded nx) eqn:Hex.
  2: { exists st. unfold filicide_held. rewrite Hnx. simpl. rewrite Hex.
       split; [done|]. split; [done|]. split.
       { exists nx. auto. }
       split; [|done]. simpl.
       by rewrite cleared_childless by auto. }
  set (st0 := update_node st x cleared).
  assert (Hanch : anchored (x :: held) st0 [root; a; a2; b; b2]).
  { intros y Hy. split.
    - destruct (decide (x = y)) as [<- | Hne].
      + unfold st0. rewrite node_at_update, Hnx. by eexists.
      + unfold st0. rewrite node_at_update_ne by done.
        repeat (apply elem_of_cons in Hy as [-> | Hy]); eauto.
        by apply elem_of_nil in Hy.
    - repeat (apply elem_of_cons in Hy as [-> | Hy]).
      + by left.
      + right. right. exists root, nr. split; [in_list|].
        unfold st0. rewrite node_at_update_ne by done.
        split; [done|]. rewrite Hcr. in_list.
      + right. right. exists root, nr. split; [in_list|].
        unfold st0. rewrite node_at_update_ne by done.
        split; [done|]. rewrite Hcr. in_list.
      + right. right. exists a, na. split; [in_list|].
        unfold st0. rewrite node_at_update_ne by done.
        split; [done|]. rewrite Hca. in_list.
      + right. right. exists a, na. split; [in_list|].
        unfold st0. rewrite node_at_update_ne by done.
        split; [done|]. rewrite Hca. in_list.
      + by apply elem_of_nil in Hy. }
  set (st1 := release (x :: held) st0 (children nx)).
  destruct (release_anchored (x :: held) st0 (children nx) _ Hanch)
    as (_ & Hroots & Hsame).
  fold st1 in Hroots, Hsame.
  assert (Hother : ∀ y, y ∈ [root; a; a2; b; b2] → y ≠ x →
            node_at st1 y = node_at st y).
  { intros y Hy Hne. rewrite Hsame by done. unfold st0.
    by rewrite node_at_update_ne. }
  assert (Hself : node_at st1 x = Some (cleared nx)).
  { rewrite Hsame by (destruct Hx as [-> | ->]; in_list).
    unfold st0. by rewrite node_at_update, Hnx. }
  exists st1. unfold filicide_held. rewrite Hnx. simpl. rewrite Hex.
  split; [done|]. split.
  { split.
    - done.
    - by rewrite Hroots.
    - exists nr. rewrite Hother by (done || in_list). done.
    - exists na. rewrite Hother by (done || in_list). done.
    - exists nb. rewrite Hother by (done || in_list). done.
    - destruct Hx as [-> | ->].
      + exists (cleared nx). by rewrite Hself.
      + exists na2. rewrite Hother by (done || in_list). done.
    - destruct Hx as [-> | ->].
      + exists nb2. rewrite Hother by (done || in_list). done.
      + exists (cleared nx). by rewrite Hself. }
  split; [by exists (cleared nx)|].
  split; [by rewrite Hself|]. done.
Qed.


Lemma parents_loop_single (up : Tree → addr → option Tree)
    (held : list addr) (st st' : Tree) (this p : addr) nd :
  node_at st this = Some nd →
  parents nd = [Some p] →
  is_Some (node_at st p) →
  up st p = Some st' →
  has_owner st' p = true →
  (∃ nd', node_at st' this = Some nd' ∧ parents nd' = [Some p]) →
  prune_ancestors_parents up held 2 st this 0 = Some st'.
Proof.
  intros Hn Hp [np Hnp] Hup Hown (nd' & Hn' & Hp').
  cbn [prune_ancestors_parents]. rewrite Hn. simpl. rewrite Hp. simpl.
  unfold node_at in Hnp. rewrite bool_decide_eq_false_2 by (by rewrite Hnp).
  rewrite Hup. simpl. rewrite release_kept by (by left).
  rewrite Hn'. simpl. by rewrite Hp'.
Qed.

Lemma parents_loop_root (up : Tree → addr → option Tree)
    (held : list addr) (st : Tree) (this : addr) nd :
  node_at st this = Some nd →
  parents nd = [] ∨ parents nd = [None] →
  ∃ st',
    prune_ancestors_parents up held (S (length (parents nd))) st this 0
    = Some st' ∧
    node_at st' this = Some (set_parents nd []) ∧
    ∀ y, y ≠ this → node_at st' y = node_at st y.
Proof.
  intros Hn [Hp | Hp]; rewrite Hp.
  - exists st. cbn [prune_ancestors_parents length]. rewrite Hn. simpl.
    rewrite Hp. simpl. split; [done|]. split; [|done].
    f_equal. destruct nd; simpl in *; by subst.
  - set (st' := update_node st this
                  (λ n, set_parents n (delete 0 (parents n)))).
    assert (Hn' : node_at st' this = Some (set_parents nd [])).
    { unfold st'. by rewrite node_at_update, Hn; simpl; rewrite Hp. }
    exists st'.
    cbn [prune_ancestors_parents length]. rewrite Hn. simpl.
    rewrite Hp. simpl. fold st'. rewrite Hn'. simpl.
    split; [done|]. split; [done|].
    intros y Hy. unfold st'. by rewrite node_at_update_ne.
Qed.

Lemma prune_ancestors_rec_S (fuel : nat) (held : list addr) (st : Tree)
    (this keep : addr) :
  prune_ancestors_rec (S fuel) held st this keep =
  nd ← node_at st this;
  st1 ← (if decide (this = keep) then Some st
         else foldl (prune_ancestors_child (keep :: held) this keep)
                    (Some st) (children nd));
  prune_ancestors_parents
    (λ st parent,
       prune_ancestors_rec fuel (parent :: keep :: held) st parent this)
    (keep :: held) (S (length (parents nd))) st1 this 0.
Proof. reflexivity. Qed.

Lemma children_loop_two (held : list addr) (st st' : Tree)
    (this keep other : addr) :
  other ≠ keep → other ≠ this →
  filicide_held held st other = Some st' →
  foldl (prune_ancestors_child held this keep) (Some st) [keep; other]
  = Some st'.
Proof.
  intros Hk Ht Hf. simpl. unfold prune_ancestors_child, filicide_child.
  simpl. rewrite decide_True by done. simpl.
  by rewrite !decide_False by done.
Qed.

Lemma has_owner_root (st : Tree) (x : addr) :
  x ∈ roots st → has_owner st x = true.
Proof. intros Hx. unfold has_owner. by rewrite bool_decide_eq_true_2. Qed.

Lemma has_owner_child (st : Tree) (p x : addr) np :
  node_at st p = Some np → x ∈ children np → has_owner st x = true.
Proof.
  intros Hp Hx. unfold has_owner. apply orb_true_iff. right.
  apply bool_decide_eq_true_2. by exists p, np.
Qed.

(** C6, as the code has it.  In the graph root -> a -> b with the
    sibling branches [a2] under [root] and [b2] under [a], the call
    [b.prune_ancestors()] returns (three levels of recursion suffice) and
    leaves the child vector of [root] at [a; a2] and that of [a] at
    [b; b2]: no child is removed from any vector.  [a] and [b] are as
    before.  [a2] and [b2] are still there; [filicide] has emptied their
    own child vectors and reset their [expanded] flags. *)
Theorem prune_ancestors_empties_siblings (st : Tree) root a a2 b b2 n :
  family_graph st root a a2 b b2 →
  ∃ st',
    prune_ancestors (3 + n) st b = Some st' ∧
    children <$> node_at st' root = Some [a; a2] ∧
    children <$> node_at st' a = Some [b; b2] ∧
    node_at st' a = node_at st a ∧
    node_at st' b = node_at st b ∧
    node_at st' a2 = cleared <$> node_at st a2 ∧
    node_at st' b2 = cleared <$> node_at st b2 ∧
    childless st' a2 ∧ childless st' b2.
Proof.
  intros Hfam.
  destruct (family_distinct _ _ _ _ _ _ Hfam)
    as (Hra & Hra2 & Hrb & Hrb2 & Haa2 & Hab & Hab2 & Ha2b & Ha2b2 & Hbb2).
  destruct (filicide_sibling [b; a; b; b] st root a a2 b b2 b2 Hfam)
    as (st1 & Hf1 & Hfam1 & Hless1 & Hself1 & Hother1); [by right|].
  destruct (filicide_sibling [a; root; b; a; b; b] st1 root a a2 b b2 a2
              Hfam1)
    as (st2 & Hf2 & Hfam2 & Hless2 & Hself2 & Hother2); [by left|].
  pose proof Hfam as [_ Hrt (nr & Hnr & Hcr & Hpr) (na & Hna & Hca & Hpa)
                        (nb & Hnb & Hpb) _ _].
  assert (Hnr1 : node_at st1 root = Some nr)
    by (rewrite Hother1 by in_list; done).
  assert (Hna1 : node_at st1 a = Some na)
    by (rewrite Hother1 by in_list; done).
  assert (Hnb1 : node_at st1 b = Some nb)
    by (rewrite Hother1 by in_list; done).
  assert (Hnr2 : node_at st2 root = Some nr)
    by (rewrite Hother2 by in_list; done).
  assert (Hna2 : node_at st2 a = Some na)
    by (rewrite Hother2 by in_list; done).
  assert (Hnb2 : node_at st2 b = Some nb)
    by (rewrite Hother2 by in_list; done).
  destruct (parents_loop_root
              (λ st parent,
                 prune_ancestors_rec n (parent :: [a; root; b; a; b; b])
                                     st parent root)
              [a; root; b; a; b; b] st2 root nr Hnr2 Hpr)
    as (st3 & Hloop3 & Hnr3 & Hother3).
  assert (Hna3 : node_at st3 a = Some na) by (rewrite Hother3; done).
  assert (Hnb3 : node_at st3 b = Some nb) by (rewrite Hother3; done).
  assert (Hrt3 : roots st3 = roots st2).
  { destruct Hpr as [Hp | Hp]; rewrite Hp in Hloop3;
      cbn [prune_ancestors_parents length] in Hloop3;
      rewrite Hnr2 in Hloop3; simpl in Hloop3; rewrite Hp in Hloop3;
      simpl in Hloop3.
    - by injection Hloop3 as <-.
    - rewrite node_at_update, Hnr2 in Hloop3. simpl in Hloop3.
      rewrite Hp in Hloop3. simpl in Hloop3. by injection Hloop3 as <-. }
  assert (Hroot : prune_ancestors_rec (S n) [root; b; a; b; b] st1 root a
                  = Some st3).
  { rewrite prune_ancestors_rec_S, Hnr1, bind_Some_eq.
    rewrite decide_False by done. rewrite Hcr.
    rewrite (children_loop_two _ st1 st2) by done.
    rewrite bind_Some_eq. exact Hloop3. }
  assert (Ha : prune_ancestors_rec (S (S n)) [a; b; b] st a b = Some st3).
  { rewrite prune_ancestors_rec_S, Hna, bind_Some_eq.
    rewrite decide_False by done. rewrite Hca.
    rewrite (children_loop_two _ st st1) by done.
    rewrite bind_Some_eq, Hpa.
    eapply parents_loop_single; eauto.
    apply has_owner_root. rewrite Hrt3.
    by destruct Hfam2. }
  exists st3. split.
  { unfold prune_ancestors, prune_ancestors_held.
    change (3 + n) with (S (S (S n))).
    rewrite prune_ancestors_rec_S, Hnb, bind_Some_eq.
    rewrite decide_True by done. rewrite bind_Some_eq, Hpb.
    eapply parents_loop_single; eauto.
    eapply has_owner_child; [exact Hnr3|]. simpl. rewrite Hcr. in_list. }
  assert (Ha2_3 : node_at st3 a2 = cleared <$> node_at st a2).
  { rewrite Hother3 by done. rewrite Hself2.
    by rewrite Hother1 by in_list. }
  assert (Hb2_3 : node_at st3 b2 = cleared <$> node_at st b2).
  { rewrite Hother3 by done. rewrite Hother2 by in_list. done. }
  split; [by rewrite Hnr3; simpl; rewrite Hcr|].
  split; [by rewrite Hna3; simpl; rewrite Hca|].
  split; [by rewrite Hna3, Hna|]. split; [by rewrite Hnb3, Hnb|].
  split; [done|]. split; [done|].
  split.
  - destruct Hless2 as (c & Hc & Hce & Hcc). exists c.
    by rewrite Hother3.
  - destruct Hless1 as (c & Hc & Hce & Hcc). exists c.
    rewrite Hother3 by done. by rewrite Hother2 by in_list.
Qed.

End Destruction.

(** ** The node invariant of the search loop *)

Section Invariant.
Context {Board Move : Type} `{Game Board Move}.
Abbreviation Tree := (MCTSTree Board Move).
Abbreviation Node := (MCTSNode Board Move).

Lemma same_but_parents_refl (nd : Node) : same_but_parents nd nd.
Proof. by destruct nd. Qed.

Lemma same_but_parents_trans (n1 n2 n3 : Node) :
  same_but_parents n1 n2 → same_but_parents n2 n3 → same_but_parents n1 n3.
Proof. unfold same_but_parents. intros -> ->. by destruct n1. Qed.

Lemma same_but_parents_set (nd : Node) ps : same_but_parents nd (set_parents nd ps).
Proof. by destruct nd. Qed.

Lemma same_nodes_refl (st : Tree) : same_nodes st st.
Proof.
  split; [done|]. intros x. destruct (node_at st x); [|done].
  apply same_but_parents_refl.
Qed.

Lemma same_nodes_heap (st st' : Tree) :
  heap st' = heap st → next_addr st' = next_addr st → same_nodes st st'.
Proof.
  intros Hh Hn. split; [done|]. intros x. unfold node_at. rewrite Hh.
  destruct (heap st !! x); [|done]. apply same_but_parents_refl.
Qed.

Lemma same_nodes_trans (s1 s2 s3 : Tree) :
  same_nodes s1 s2 → same_nodes s2 s3 → same_nodes s1 s3.
Proof.
  intros [Hn1 H1] [Hn2 H2]. split; [congruence|].
  intros x. specialize (H1 x). specialize (H2 x).
  destruct (node_at s1 x), (node_at s2 x), (node_at s3 x); try done.
  by eapply same_but_parents_trans.
Qed.

Lemma same_nodes_set_parents (st : Tree) (a : addr) (g : Node → list weak_ptr) :
  same_nodes st (update_node st a (λ n, set_parents n (g n))).
Proof.
  split; [done|]. intros x. destruct (decide (a = x)) as [<- | Hne].
  - rewrite node_at_update. destruct (node_at st a); [|done].
    apply same_but_parents_set.
  - rewrite node_at_update_ne by done. destruct (node_at st x); [|done].
    apply same_but_parents_refl.
Qed.

Lemma node_ok_same (st st' : Tree) todo a nd nd' :
  next_addr st' = next_addr st →
  same_but_parents nd nd' → node_ok st todo a nd → node_ok st' todo a nd'.
Proof.
  intros Hn -> [H1 H2 H3 H4]. destruct nd; simpl in *.
  split; simpl; auto. by rewrite Hn.
Qed.

Lemma tree_ok_same (st st' : Tree) todo :
  same_nodes st st' → tree_ok st todo → tree_ok st' todo.
Proof.
  intros [Hn Hs] Hok a nd' Ha. specialize (Hs a). rewrite Ha in Hs.
  destruct (node_at st a) as [nd|] eqn:Hnd; [|done].
  eapply node_ok_same; eauto.
Qed.

Lemma U_same (st st' : Tree) this u :
  U st this = Some (u, st') → same_nodes st st'.
Proof.
  unfold U. destruct (node_at st this) as [nd|]; [|done]. simpl.
  destruct (U_parents st (parents nd) 0) as [kept n]. intros [= _ <-].
  apply (same_nodes_set_parents st this (λ _, kept)).
Qed.

Lemma max_PUCT_children_same (cs : list addr) acc best node (st st' : Tree) :
  (∀ b n s, acc = Some (b, n, s) → same_nodes st s) →
  foldl max_PUCT_child acc cs = Some (best, node, st') →
  same_nodes st st'.
Proof.
  revert acc. induction cs as [|c cs IH]; intros acc Hacc Hf.
  - simpl in Hf. eauto.
  - simpl in Hf. eapply IH; [|exact Hf].
    intros b n s Hstep. unfold max_PUCT_child in Hstep.
    destruct acc as [[[b0 n0] s0]|]; [|done]. simpl in Hstep.
    destruct (Q s0 c) as [q|]; [|done]. simpl in Hstep.
    destruct (U s0 c) as [[u s1]|] eqn:HU; [|done]. simpl in Hstep.
    apply U_same in HU.
    assert (s = s1) as -> by (destruct (Float32.ltb _ _); congruence).
    eapply same_nodes_trans; [|exact HU]. eauto.
Qed.

Lemma max_PUCT_same (st st' : Tree) this r :
  max_PUCT st this = Some (r, st') → same_nodes st st'.
Proof.
  unfold max_PUCT. destruct (node_at st this) as [nd|]; [|done]. simpl.
  destruct (foldl _ _ _) as [[[b n] s]|] eqn:Hf; [|done]. simpl.
  intros [= _ <-]. eapply max_PUCT_children_same; [|exact Hf].
  intros ??? [= _ _ <-]. apply same_nodes_refl.
Qed.


Lemma occurrences_nil (a : addr) : occurrences a [] = 0%N.
Proof. reflexivity. Qed.

Lemma occurrences_cons (a x : addr) l :
  occurrences a (x :: l)
  = ((if decide (x = a) then 1 else 0) + occurrences a l)%N.
Proof.
  unfold occurrences. rewrite filter_cons.
  destruct (decide (x = a)); simpl; lia.
Qed.

Lemma occurrences_snoc (a x : addr) l :
  occurrences a (l ++ [x])
  = (occurrences a l + (if decide (x = a) then 1 else 0))%N.
Proof.
  unfold occurrences. rewrite filter_app, length_app, filter_cons, filter_nil.
  destruct (decide (x = a)); simpl; lia.
Qed.

Lemma tree_ok_visit (st : Tree) todo cur :
  tree_ok st todo → tree_ok (visit st cur) (todo ++ [cur]).
Proof.
  intros Hok a nd' Ha. unfold visit in Ha.
  destruct (decide (cur = a)) as [<- | Hne].
  - rewrite node_at_update in Ha.
    destruct (node_at st cur) as [nd|] eqn:Hnd; [|done].
    injection Ha as <-. destruct (Hok _ _ Hnd) as [H1 H2 H3 H4].
    split; simpl; auto. rewrite occurrences_snoc, decide_True by done. lia.
  - rewrite node_at_update_ne in Ha by done.
    destruct (Hok _ _ Ha) as [H1 H2 H3 H4].
    split; simpl; auto. rewrite occurrences_snoc, decide_False by done. lia.
Qed.

Lemma select_loop_ok (fuel : nat) (st st' : Tree) cur path0 path :
  tree_ok st path0 →
  select_loop fuel st cur path0 = Some (path, st') →
  tree_ok st' path.
Proof.
  revert st cur path0. induction fuel as [|fuel IH]; intros st cur path0 Hok Hs.
  - done.
  - cbn [select_loop] in Hs.
    destruct (node_at st cur) as [nd|]; [|done].
    rewrite bind_Some in Hs. destruct Hs as (nd0 & [= <-] & Hs).
    destruct (expanded nd).
    + destruct (max_PUCT st cur) as [[new_node st1]|] eqn:Hmax; [|done].
      simpl in Hs. destruct new_node as [cur'|]; [|done]. simpl in Hs.
      eapply IH; [|exact Hs]. apply tree_ok_visit.
      eapply tree_ok_same; [|exact Hok]. by eapply max_PUCT_same.
    + injection Hs as <- <-. by apply tree_ok_visit.
Qed.

Lemma backpropagate_node_stats (w : Z) (nd : Node) :
  let nd' := backpropagate_node w nd in
  (wins nd' + ties nd' ≤ wins nd + ties nd + 1)%N ∧
  visits nd' = visits nd ∧ children nd' = children nd ∧
  moves nd' = moves nd ∧ expanded nd' = expanded nd.
Proof.
  unfold backpropagate_node.
  destruct (decide _); [simpl; repeat split; lia|].
  destruct (decide _); simpl; repeat split; lia.
Qed.

Lemma tree_ok_backpropagate_node (st : Tree) (w : Z) x todo :
  tree_ok st (x :: todo) →
  tree_ok (update_node st x (backpropagate_node w)) todo.
Proof.
  intros Hok a nd' Ha.
  destruct (decide (x = a)) as [<- | Hne].
  - rewrite node_at_update in Ha.
    destruct (node_at st x) as [nd|] eqn:Hnd; [|done].
    injection Ha as <-. destruct (Hok _ _ Hnd) as [H1 H2 H3 H4].
    rewrite occurrences_cons, decide_True in H1 by done.
    destruct (backpropagate_node_stats w nd) as (Hs & Hv & Hc & Hm & He).
    split.
    + rewrite Hv. lia.
    + by rewrite Hc, Hm.
    + by rewrite Hc, He.
    + done.
  - rewrite node_at_update_ne in Ha by done.
    destruct (Hok _ _ Ha) as [H1 H2 H3 H4].
    rewrite occurrences_cons, decide_False in H1 by done.
    split; auto; lia.
Qed.

Lemma tree_ok_backpropagate (st : Tree) (b : Board) path :
  tree_ok st path → tree_ok (backpropagate st b path) [].
Proof.
  unfold backpropagate. revert st.
  induction path as [|x path IH]; intros st Hok; [done|].
  simpl. apply IH. by apply tree_ok_backpropagate_node.
Qed.


Lemma get_node_create_effect (st st' : Tree) b p a :
  (∀ x, is_Some (node_at st x) → x < next_addr st) →
  get_node_create st b p = (a, st') →
  next_addr st' = S (next_addr st) ∧
  node_at st' (next_addr st) = Some (new_MCTSNode b p) ∧
  ∀ x, x ≠ next_addr st → node_at st' x = node_at st x.
Proof.
  intros Halloc. unfold get_node_create. intros [= <- <-].
  destruct p; simpl; unfold node_at; simpl;
    (split; [done|]; split; [apply lookup_insert_eq|]);
    intros x Hx; by rewrite lookup_insert_ne.
Qed.

Lemma get_node_reuse_effect (st st' : Tree) a0 nd0 p a :
  get_node_reuse st a0 nd0 p = Some (a, st') →
  same_nodes st st'.
Proof.
  unfold get_node_reuse. intros Hr.
  apply bind_Some in Hr as (st1 & Hst1 & Hr).
  assert (Hs1 : same_nodes st st1).
  { destruct (_ && _).
    - apply fmap_Some in Hst1 as (r & _ & ->). by apply same_nodes_heap.
    - injection Hst1 as <-. apply same_nodes_refl. }
  injection Hr as <- <-.
  eapply same_nodes_trans; [exact Hs1|].
  destruct p as [p|]; [|by apply same_nodes_heap].
  apply (same_nodes_trans _ (update_node st1 a0
           (λ n, set_parents n (parents n ++ [Some p])))).
  - apply (same_nodes_set_parents st1 a0 (λ n, parents n ++ [Some p])).
  - by apply same_nodes_heap.
Qed.

Lemma get_node_effect (st st' : Tree) b p a :
  (∀ x, is_Some (node_at st x) → x < next_addr st) →
  get_node st b p = Some (a, st') →
  next_addr st ≤ next_addr st' ∧
  (∀ x, is_Some (node_at st' x) → x < next_addr st') ∧
  (∀ x nd, node_at st x = Some nd →
     ∃ nd', node_at st' x = Some nd' ∧ same_but_parents nd nd') ∧
  (∀ x nd', node_at st' x = Some nd' →
     (∃ nd, node_at st x = Some nd ∧ same_but_parents nd nd') ∨
     nd' = new_MCTSNode b p).
Proof.
  intros Halloc Hg.
  assert (Hcreate : ∀ s : Tree,
            (∀ x, node_at s x = node_at st x) → next_addr s = next_addr st →
            get_node_create s b p = (a, st') →
            next_addr st ≤ next_addr st' ∧
            (∀ x, is_Some (node_at st' x) → x < next_addr st') ∧
            (∀ x nd, node_at st x = Some nd →
               ∃ nd', node_at st' x = Some nd' ∧ same_but_parents nd nd') ∧
            (∀ x nd', node_at st' x = Some nd' →
               (∃ nd, node_at st x = Some nd ∧ same_but_parents nd nd') ∨
               nd' = new_MCTSNode b p)).
  { intros s Hsame Hnext Hc.
    apply get_node_create_effect in Hc as (Hn & Hnew & Hold).
    2: { intros x Hx. rewrite Hsame in Hx. rewrite Hnext. by apply Halloc. }
    rewrite Hnext in *. split; [lia|]. split; [|split].
    - intros x Hx. destruct (decide (x = next_addr st)) as [-> | Hne]; [lia|].
      rewrite Hold, Hsame in Hx by done. apply Halloc in Hx. lia.
    - intros x nd Hx. exists nd. split; [|apply same_but_parents_refl].
      rewrite Hold, Hsame; [done|].
      intros ->. assert (next_addr st < next_addr st); [|lia].
      apply Halloc. by exists nd.
    - intros x nd' Hx. destruct (decide (x = next_addr st)) as [-> | Hne].
      + right. congruence.
      + left. exists nd'. rewrite Hold, Hsame in Hx by done.
        split; [done|apply same_but_parents_refl]. }
  unfold get_node in Hg.
  destruct (transposition_table (bump_lookups st) !! b) as [a0|].
  - destruct (node_at (bump_lookups st) a0) as [nd0|] eqn:Hn0.
    + apply get_node_reuse_effect in Hg as [Hn Hs]. simpl in Hn.
      split; [lia|]. split; [|split].
      * intros x [nd' Hx]. specialize (Hs x). rewrite Hx in Hs.
        rewrite Hn. apply Halloc.
        change (node_at (bump_lookups st) x) with (node_at st x) in Hs.
        destruct (node_at st x); [by eexists|done].
      * intros x nd Hx. specialize (Hs x).
        change (node_at (bump_lookups st) x) with (node_at st x) in Hs.
        rewrite Hx in Hs. destruct (node_at st' x) as [nd'|]; [|done].
        by exists nd'.
      * intros x nd' Hx. left. specialize (Hs x).
        change (node_at (bump_lookups st) x) with (node_at st x) in Hs.
        rewrite Hx in Hs. destruct (node_at st x) as [nd|]; [|done].
        by exists nd.
    + apply (inj Some) in Hg. eapply Hcreate; [| |exact Hg]; done.
  - apply (inj Some) in Hg. eapply Hcreate; [| |exact Hg]; done.
Qed.

Lemma node_ok_new (st : Tree) b p a :
  a < next_addr st → node_ok st [] a (new_MCTSNode b p).
Proof. intros Ha. split; simpl; auto. Qed.

Lemma node_ok_later (st st' : Tree) todo a nd nd' :
  next_addr st ≤ next_addr st' →
  same_but_parents nd nd' → node_ok st todo a nd → node_ok st' todo a nd'.
Proof.
  intros Hn -> [H1 H2 H3 H4]. destruct nd; simpl in *.
  split; simpl; auto. lia.
Qed.

Lemma tree_ok_allocated (st : Tree) todo :
  tree_ok st todo → ∀ x, is_Some (node_at st x) → x < next_addr st.
Proof. intros Hok x [nd Hx]. by destruct (Hok _ _ Hx). Qed.

Lemma get_node_ok (st st' : Tree) b p a :
  tree_ok st [] → get_node st b p = Some (a, st') → tree_ok st' [].
Proof.
  intros Hok Hg.
  destruct (get_node_effect st st' b p a (tree_ok_allocated _ _ Hok) Hg)
    as (Hn & Halloc & _ & Hback).
  intros x nd' Hx. destruct (Hback _ _ Hx) as [(nd & Hnd & Hs) | ->].
  - eapply node_ok_later; eauto.
  - apply node_ok_new. apply Halloc. by eexists.
Qed.


Lemma expand_move_None (this : addr) (b : Board) (ms : list Move) :
  foldl (expand_move this b) None ms = None.
Proof. induction ms as [|m ms IH]; [done|]. simpl. exact IH. Qed.

Lemma expand_moves_ok (this : addr) (b : Board) (ms : list Move) :
  ∀ (st st' : Tree) nt,
    (∀ a nd, node_at st a = Some nd → a ≠ this → node_ok st [] a nd) →
    node_at st this = Some nt →
    this < next_addr st →
    foldl (expand_move this b) (Some st) ms = Some st' →
    (∀ a nd, node_at st' a = Some nd → a ≠ this → node_ok st' [] a nd) ∧
    this < next_addr st' ∧
    ∃ nt', node_at st' this = Some nt' ∧
           visits nt' = visits nt ∧ wins nt' = wins nt ∧
           ties nt' = ties nt ∧ moves nt' = moves nt ∧
           length (children nt') = length (children nt) + length ms ∧
           expanded nt' = (if ms is [] then expanded nt else true).
Proof.
  induction ms as [|m ms IH]; intros st st' nt Hothers Hthis Hlt Hf.
  - simpl in Hf. injection Hf as <-. split; [done|]. split; [done|].
    exists nt. repeat split; auto.
  - cbn [foldl] in Hf.
    destruct (expand_move this b (Some st) m) as [st3|] eqn:Hstep.
    2: { by rewrite expand_move_None in Hf. }
    unfold expand_move in Hstep. simpl in Hstep.
    set (st1 := update_node st this (λ n, set_expanded n true)) in *.
    destruct (get_node st1 (move b m) (Some this)) as [[c st2]|] eqn:Hg;
      [|done].
    simpl in Hstep. injection Hstep as <-.
    assert (Hthis1 : node_at st1 this = Some (set_expanded nt true)).
    { unfold st1. by rewrite node_at_update, Hthis. }
    assert (Halloc1 : ∀ x, is_Some (node_at st1 x) → x < next_addr st1).
    { intros x [nd Hx]. destruct (decide (this = x)) as [<- | Hne]; [done|].
      unfold st1 in Hx. rewrite node_at_update_ne in Hx by done.
      by destruct (Hothers x nd Hx). }
    destruct (get_node_effect st1 st2 _ _ _ Halloc1 Hg)
      as (Hn & Halloc2 & Hfwd & Hback).
    destruct (Hfwd _ _ Hthis1) as (nt2 & Hthis2 & Hs2).
    set (st3 := update_node st2 this
                  (λ n, set_children n (children n ++ [c]))) in *.
    assert (Hthis3 : node_at st3 this
                     = Some (set_children nt2 (children nt2 ++ [c]))).
    { unfold st3. by rewrite node_at_update, Hthis2. }
    destruct (IH st3 st' (set_children nt2 (children nt2 ++ [c])))
      as (Hothers' & Hlt' & nt' & Hthis' & Hv & Hw & Ht & Hm & Hlen & Hexp);
      [| exact Hthis3 | | exact Hf |].
    { intros a nd Ha Hne. unfold st3 in Ha.
      rewrite node_at_update_ne in Ha by done.
      destruct (Hback _ _ Ha) as [(nd1 & Hnd1 & Hs) | ->].
      - unfold st1 in Hnd1. rewrite node_at_update_ne in Hnd1 by done.
        apply (node_ok_later st st3 [] a nd1 nd); [exact Hn|done|].
        by apply Hothers.
      - apply node_ok_new. apply Halloc2. by eexists. }
    { change (next_addr st3) with (next_addr st2).
      change (next_addr st1) with (next_addr st) in Hn. lia. }
    split; [done|]. split; [done|].
    exists nt'. rewrite Hs2 in *. destruct nt; simpl in *.
    rewrite length_app in Hlen. simpl in Hlen.
    repeat split; auto; first [lia | by destruct ms].
Qed.

Lemma expand_ok (st st' : Tree) this :
  tree_ok st [] → expand st this = Some st' → tree_ok st' [].
Proof.
  intros Hok He. unfold expand in He.
  destruct (node_at st this) as [nd|] eqn:Hnd; [|done]. simpl in He.
  fold (visit st this) in He.
  destruct (Hok _ _ Hnd) as [H1 H2 H3 H4].
  assert (Hv : node_at (visit st this) this
               = Some (set_visits nd (visits nd + 1)%N)).
  { unfold visit. by rewrite node_at_update, Hnd. }
  assert (Hothers : ∀ a n, node_at (visit st this) a = Some n → a ≠ this →
                      node_ok (visit st this) [] a n).
  { intros a n Ha Hne. unfold visit in Ha.
    rewrite node_at_update_ne in Ha by done.
    apply (node_ok_later st _ [] a n n);
      [done | apply same_but_parents_refl | by apply Hok]. }
  destruct (expanded nd) eqn:Hex.
  - injection He as <-. intros a n Ha.
    destruct (decide (a = this)) as [-> | Hne]; [|by apply Hothers].
    rewrite Hv in Ha. injection Ha as <-.
    split; simpl; [rewrite occurrences_nil in *; lia | done | congruence | done].
  - destruct (expand_moves_ok this (board nd) (moves nd) _ _ _
                Hothers Hv H4 He)
      as (Hothers' & Hlt & nt' & Hthis' & Hvis & Hw & Ht & Hm & Hlen & Hexp).
    intros a n Ha.
    destruct (decide (a = this)) as [-> | Hne]; [|by apply Hothers'].
    rewrite Hthis' in Ha. injection Ha as <-. simpl in *.
    rewrite (H3 eq_refl) in Hlen. simpl in Hlen.
    split.
    + rewrite Hvis, Hw, Ht. rewrite occurrences_nil in *. lia.
    + right. by rewrite Hm.
    + intros Hfalse. rewrite Hexp in Hfalse.
      destruct (moves nd); [|done]. simpl in Hlen.
      by apply nil_length_inv.
    + done.
Qed.

Lemma mcts_state_ok (ph : phase) (st : Tree) :
  mcts_state ph st → tree_ok st (pending ph).
Proof.
  induction 1 as [ | st b node st' _ IH Hg
                   | node st fuel path st' _ IH Hs
                   | node path st leaf lf fuel rand k b k' _ IH Hl Hn Hsim
                   | node leaf st lf st' _ IH Hn Hw He
                   | node leaf st lf _ IH Hn Hw
                   | node st _ IH ]; simpl in *.
  - intros a nd Ha. unfold node_at in Ha. simpl in Ha.
    by rewrite lookup_empty in Ha.
  - by eapply get_node_ok.
  - by eapply select_loop_ok.
  - by apply tree_ok_backpropagate.
  - by eapply expand_ok.
  - done.
  - done.
Qed.

(** C5.  At every point of the search loop (before and after [select],
    after [backpropagate], after [expand], and between calls of [mcts]),
    every live node has [0 <= wins + ties <= visits], and its child
    vector is empty or as long as its move list. *)
Theorem mcts_node_invariant (ph : phase) (st : Tree) (a : addr) nd :
  mcts_state ph st →
  node_at st a = Some nd →
  (0 ≤ wins nd + ties nd)%N ∧ (wins nd + ties nd ≤ visits nd)%N ∧
  (length (children nd) = 0 ∨ length (children nd) = length (moves nd)).
Proof.
  intros Hst Ha. destruct (mcts_state_ok _ _ Hst _ _ Ha) as [H1 H2 _ _].
  split; [lia|]. split; [lia|done].
Qed.

End Invariant.

Section SearchRuns.
Context {Board Move : Type} `{Game Board Move}.

Abbreviation Tree := (MCTSTree Board Move).

Lemma backpropagate_board (st : Tree) (b : Board) path a nd :
  node_at st a = Some nd →
  ∃ nd', node_at (backpropagate st b path) a = Some nd' ∧
         board nd' = board nd.
Proof.
  unfold backpropagate. revert st nd.
  induction path as [|x path IH]; intros st nd Ha; [by exists nd|].
  simpl. destruct (decide (x = a)) as [-> | Hne].
  - destruct (IH (update_node st a (backpropagate_node (game_winner b)))
                 (backpropagate_node (game_winner b) nd))
      as (nd' & Hnd' & Hb).
    { by rewrite node_at_update, Ha. }
    exists nd'. split; [done|]. rewrite Hb. unfold backpropagate_node.
    by repeat destruct (decide _).
  - apply IH. by rewrite node_at_update_ne.
Qed.

Lemma mcts_iteration_state (fuel : nat) rand k (st st' : Tree) node k' :
  mcts_state (LoopHead node) st →
  mcts_iteration fuel rand k st node = Some (st', k') →
  mcts_state (LoopHead node) st'.
Proof.
  intros Hst Hit. unfold mcts_iteration in Hit.
  destruct (select fuel st node) as [[path st1]|] eqn:Hsel; [|done].
  simpl in Hit.
  destruct (last path) as [leaf|] eqn:Hlast; [|done]. simpl in Hit.
  destruct (node_at st1 leaf) as [lf|] eqn:Hlf; [|done]. simpl in Hit.
  destruct (simulate fuel rand k (board lf)) as [[b k1]|] eqn:Hsim; [|done].
  simpl in Hit.
  assert (Hback : mcts_state (Backpropagated node leaf)
                             (backpropagate st1 b path)).
  { eapply mcts_playout; eauto. eapply mcts_select; eauto. }
  destruct (backpropagate_board st1 b path leaf lf Hlf) as (lf' & Hlf' & Hb).
  destruct (decide (game_winner (board lf) = PLAYER_NONE)) as [Hw | Hw].
  - destruct (expand (backpropagate st1 b path) leaf) as [st3|] eqn:Hex;
      [|done].
    injection Hit as <- <-.
    eapply mcts_expand; eauto. by rewrite Hb.
  - injection Hit as <- <-.
    eapply mcts_skip; eauto. by rewrite Hb.
Qed.

Lemma mcts_loop_state (fuel : nat) rand n :
  ∀ k (st st' : Tree) node k',
    mcts_state (LoopHead node) st →
    mcts_loop fuel rand k st node n = Some (st', k') →
    mcts_state (LoopHead node) st'.
Proof.
  induction n as [|n IH]; intros k st st' node k' Hst Hl; simpl in Hl.
  - by injection Hl as <- <-.
  - destruct (mcts_iteration fuel rand k st node) as [[st1 k1]|] eqn:Hit;
      [|done].
    simpl in Hl. eapply IH; [|exact Hl]. by eapply mcts_iteration_state.
Qed.

(** What [MCTSTree::mcts] returns is a state of the search loop. *)
Lemma mcts_run_state (fuel : nat) rand k (st st' : Tree) b n k' :
  mcts_state Idle st →
  mcts fuel rand k st b n = Some (st', k') →
  mcts_state Idle st'.
Proof.
  intros Hst Hm. unfold mcts in Hm.
  destruct (get_node st b None) as [[node st1]|] eqn:Hg; [|done].
  simpl in Hm. eapply mcts_exit, mcts_loop_state; [|exact Hm].
  by eapply mcts_enter.
Qed.

End SearchRuns.

(** The hand-built tree of the small game is the graph of the scenario. *)
Lemma toy_family_graph : family_graph (Toy.tree_of Toy.family) 0 1 2 3 4.
Proof.
  split.
  - apply (bool_decide_unpack _). vm_compute. exact I.
  - vm_compute. apply list_elem_of_here.
  - eexists. vm_compute. split; [reflexivity|]. split; [reflexivity|].
    right. reflexivity.
  - eexists. vm_compute. by repeat split.
  - eexists. vm_compute. by repeat split.
  - eexists. vm_compute. split; [reflexivity|]. discriminate.
  - eexists. vm_compute. split; [reflexivity|]. discriminate.
Qed.

Lemma prune_ancestors_empties_siblings_witness :
  let st := Toy.tree_of Toy.family in
  family_graph st 0 1 2 3 4 ∧
  ∃ st',
    prune_ancestors (3 + 0) st 3 = Some st' ∧
    children <$> node_at st' 0 = Some [1; 2] ∧
    children <$> node_at st' 1 = Some [3; 4] ∧
    node_at st' 1 = node_at st 1 ∧
    node_at st' 3 = node_at st 3 ∧
    node_at st' 2 = cleared <$> node_at st 2 ∧
    node_at st' 4 = cleared <$> node_at st 4 ∧
    childless st' 2 ∧ childless st' 4.
Proof.
  intros st.
  assert (Hfam : family_graph st 0 1 2 3 4).
  { split.
    - apply (bool_decide_unpack _). vm_compute. exact I.
    - vm_compute. apply list_elem_of_here.
    - eexists. vm_compute. split; [reflexivity|]. split; [reflexivity|].
      right. reflexivity.
    - eexists. vm_compute. by repeat split.
    - eexists. vm_compute. by repeat split.
    - eexists. vm_compute. split; [reflexivity|]. discriminate.
    - eexists. vm_compute. split; [reflexivity|]. discriminate. }
  split; [exact Hfam|].
  exact (prune_ancestors_empties_siblings st 0 1 2 3 4 0 Hfam).
Defined.

(** On the hand-built family of the small game the root keeps both
    children and the siblings 2 and 4 stay in the store, against the
    wording of the specification. *)
Lemma prune_ancestors_keeps_all_children :
  ¬ claimed_prune_ancestors (Board := nat) (Move := nat).
Proof.
  intros Hclaim.
  destruct (Hclaim (Toy.tree_of Toy.family)
              (Toy.tree_of (prune_ancestors 3 (Toy.tree_of Toy.family) 3))
              0 1 2 3 4 3) as (Hroot & _).
  - apply toy_family_graph.
  - vm_compute. reflexivity.
  - vm_compute in Hroot. discriminate Hroot.
Qed.

Lemma mcts_node_invariant_witness :
  let st := Toy.tree_of Toy.after_search in
  ∃ nd,
    mcts_state Idle st ∧ node_at st 0 = Some nd ∧
    (0 ≤ wins nd + ties nd)%N ∧ (wins nd + ties nd ≤ visits nd)%N ∧
    (length (children nd) = 0 ∨ length (children nd) = length (moves nd)).
Proof.
  intros st.
  assert (Hst : mcts_state Idle st).
  { eapply (mcts_run_state 10 Toy.counting_rand 0 empty_tree st 0 20).
    - apply mcts_fresh.
    - vm_compute. reflexivity. }
  eexists. split; [exact Hst|]. split; [vm_compute; reflexivity|].
  apply (mcts_node_invariant Idle st 0 _ Hst). vm_compute. reflexivity.
Defined.

(** ** [prune_children] *)

Section PruneChildren.
Context {Board Move : Type} `{Game Board Move}.
Abbreviation Tree := (MCTSTree Board Move).
Abbreviation Node := (MCTSNode Board Move).

Lemma prunable_scan (Qs : list Float32.t) (QU : Float32.t) (js : list nat)
    (flag : bool) :
  foldl (λ (flag : bool) (j : nat),
           match Qs !! j with
           | Some Qj => if Float32.ltb QU Qj then true else flag
           | None => flag
           end) flag js = true
  ↔ flag = true ∨
    ∃ j Qj, j ∈ js ∧ Qs !! j = Some Qj ∧ Float32.ltb QU Qj = true.
Proof.
  revert flag. induction js as [|j js IH]; intros flag; simpl.
  - split; [by left|]. intros [? | (j & Qj & Hj & _)]; [done|].
    by apply elem_of_nil in Hj.
  - rewrite IH. split.
    + intros [Hflag | (j' & Qj & Hj & Hq & Hlt)].
      * destruct (Qs !! j) as [Qj|] eqn:Hq; [|by left].
        destruct (Float32.ltb QU Qj) eqn:Hlt; [|by left].
        right. exists j, Qj. split; [apply list_elem_of_here|done].
      * right. exists j', Qj. split; [by apply list_elem_of_further|done].
    + intros [-> | (j' & Qj & Hj & Hq & Hlt)].
      * left. destruct (Qs !! j) as [Qj|]; [|done].
        by destruct (Float32.ltb QU Qj).
      * apply elem_of_cons in Hj as [-> | Hj].
        -- left. by rewrite Hq, Hlt.
        -- right. by exists j', Qj.
Qed.

Lemma prunable_iff (Qs : list Float32.t) (size i : nat) (QU : Float32.t) :
  i < size →
  prunable Qs size i QU = true
  ↔ ∃ j Qj, j ≠ i ∧ j < size ∧ Qs !! j = Some Qj ∧
            Float32.ltb QU Qj = true.
Proof.
  intros Hi. unfold prunable. rewrite prunable_scan, prunable_scan. split.
  - intros [[? | (j & Qj & Hj & Hq & Hlt)] | (j & Qj & Hj & Hq & Hlt)];
      [done| |].
    + apply elem_of_seq in Hj. exists j, Qj. repeat split; auto; lia.
    + apply elem_of_seq in Hj. exists j, Qj. repeat split; auto; lia.
  - intros (j & Qj & Hne & Hlt & Hq & Hltb).
    destruct (decide (j < i)).
    + left. right. exists j, Qj. rewrite elem_of_seq. repeat split; auto; lia.
    + right. exists j, Qj. rewrite elem_of_seq. repeat split; auto; lia.
Qed.

Lemma prune_children_Qs_lookup (st : Tree) (cs : list addr) Qs j c :
  prune_children_Qs st cs = Some Qs →
  cs !! j = Some c →
  ∃ q, Q st c = Some q ∧ Qs !! j = Some q.
Proof.
  unfold prune_children_Qs. rewrite mapM_Some. intros Hall Hc.
  destruct (Forall2_lookup_l _ _ _ _ _ Hall Hc) as (q & Hq & HQ).
  by exists q.
Qed.

End PruneChildren.

(** After the search of 20 rounds, child 2 of the root has a lower
    [Q() + U()] than child 1, and [prune_children] leaves it expanded,
    against the wording of the specification. *)
Lemma prune_children_keeps_lower_PUCT :
  ¬ claimed_prune_children (Board := nat) (Move := nat).
Proof.
  intros Hclaim.
  pose (st := Toy.tree_of Toy.after_search).
  pose (st' := Toy.tree_of (prune_children st 0)).
  assert (Hn2 : ∃ c, node_at st 2 = Some c ∧ expanded c = true).
  { eexists. vm_compute. by split. }
  destruct Hn2 as (c & Hc & Hex).
  assert (Hn0 : ∃ nd, node_at st 0 = Some nd ∧ children nd = [1; 2]).
  { eexists. vm_compute. by split. }
  destruct Hn0 as (nd & Hnd & Hcs).
  destruct (Hclaim st st' 0 nd 1 2 c Hnd) as [Hdiscard _].
  - by rewrite Hcs.
  - exact Hc.
  - exact Hex.
  - vm_compute. reflexivity.
  - destruct Hdiscard as (c' & Hc' & Hex' & _).
    + exists 0, 1. eexists _, _, _, _.
      split; [done|]. split; [by rewrite Hcs|].
      split; [vm_compute; reflexivity|].
      split; [vm_compute; reflexivity|].
      vm_compute. reflexivity.
    + vm_compute in Hc'. injection Hc' as <-. discriminate Hex'.
Qed.

(** ** Rounding

    What the operations of [SpecFloat] do to the values of positive
    floats, in integer terms. *)

Section Digits.
Local Open Scope Z_scope.

Lemma digits2_size (p : positive) : digits2_pos p = Pos.size p.
Proof. induction p as [p IH | p IH |]; simpl; by rewrite ?IH. Qed.

Lemma Zdigits2_pos (p : positive) : 0 < Zdigits2 (Zpos p).
Proof. simpl. lia. Qed.

Lemma Zdigits2_bounds (p : positive) :
  2 ^ (Zdigits2 (Zpos p) - 1) ≤ Zpos p < 2 ^ Zdigits2 (Zpos p).
Proof.
  simpl. rewrite digits2_size.
  pose proof (Pos.size_gt p) as Hgt. pose proof (Pos.size_le p) as Hle.
  apply Pos2Z.pos_lt_pos in Hgt. apply Pos2Z.pos_le_pos in Hle.
  rewrite Pos2Z.inj_pow in Hgt, Hle.
  split; [|exact Hgt].
  replace (2 ^ Z.pos (Pos.size p)) with (2 * 2 ^ (Z.pos (Pos.size p) - 1))
    in Hle.
  - lia.
  - rewrite <- Z.pow_succ_r by lia. f_equal. lia.
Qed.

Lemma Zdigits2_unique (p : positive) (k : Z) :
  2 ^ (k - 1) ≤ Zpos p < 2 ^ k → Zdigits2 (Zpos p) = k.
Proof.
  intros [Hlo Hhi]. pose proof (Zdigits2_bounds p) as [Hlo' Hhi'].
  pose proof (Zdigits2_pos p) as Hd.
  assert (Hk : 0 < k).
  { destruct (Z_lt_le_dec 0 k) as [|Hk]; [done|].
    destruct (Z.eq_dec k 0) as [-> | Hne].
    - rewrite Z.pow_0_r in Hhi. lia.
    - rewrite Z.pow_neg_r in Hhi by lia. lia. }
  destruct (Z.lt_trichotomy (Zdigits2 (Zpos p)) k) as [Hlt | [Heq | Hgt]];
    [|done|].
  - assert (2 ^ Zdigits2 (Zpos p) ≤ 2 ^ (k - 1))
      by (apply Z.pow_le_mono_r; lia). lia.
  - assert (2 ^ k ≤ 2 ^ (Zdigits2 (Zpos p) - 1))
      by (apply Z.pow_le_mono_r; lia). lia.
Qed.

Lemma Zdigits2_le (p q : positive) :
  Zpos p ≤ Zpos q → Zdigits2 (Zpos p) ≤ Zdigits2 (Zpos q).
Proof.
  intros Hpq. pose proof (Zdigits2_bounds p) as [Hlo _].
  pose proof (Zdigits2_bounds q) as [_ Hhi].
  destruct (Z_lt_le_dec (Zdigits2 (Zpos q)) (Zdigits2 (Zpos p)))
    as [Hlt|]; [|done].
  assert (2 ^ Zdigits2 (Zpos q) ≤ 2 ^ (Zdigits2 (Zpos p) - 1)).
  { apply Z.pow_le_mono_r; [lia|]. lia. }
  lia.
Qed.

(** [k] binary digits suffice for [m] exactly when [m < 2 ^ k]. *)
Lemma Zdigits2_le_iff (p : positive) (k : Z) :
  0 ≤ k → Zdigits2 (Zpos p) ≤ k ↔ Zpos p < 2 ^ k.
Proof.
  intros Hk. pose proof (Zdigits2_bounds p) as [Hlo Hhi].
  pose proof (Zdigits2_pos p) as Hd. split.
  - intros Hle.
    assert (2 ^ Zdigits2 (Zpos p) ≤ 2 ^ k) by (apply Z.pow_le_mono_r; lia).
    lia.
  - intros Hlt.
    destruct (Z_lt_le_dec k (Zdigits2 (Zpos p))) as [Hgt|]; [|done].
    assert (2 ^ k ≤ 2 ^ (Zdigits2 (Zpos p) - 1))
      by (apply Z.pow_le_mono_r; lia).
    lia.
Qed.

End Digits.

Section Shifts.
Local Open Scope Z_scope.

Lemma iter_pos_iter {A} (f : A → A) (p : positive) (x : A) :
  SpecFloat.iter_pos f p x = Pos.iter f x p.
Proof.
  revert x. induction p as [p IH | p IH |]; intros x; simpl.
  - rewrite !IH. by rewrite !Pos.iter_swap.
  - by rewrite !IH.
  - done.
Qed.

Lemma shr_1_m (r : shr_record) :
  0 ≤ shr_m r → shr_m (shr_1 r) = shr_m r / 2 ∧ 0 ≤ shr_m (shr_1 r).
Proof.
  destruct r as [m r s]. rewrite <- Z.div2_div. cbn [shr_m shr_1]. intros Hm.
  destruct m as [|[p|p|]|p]; try lia;
    cbn [shr_m Z.div2]; (split; [reflexivity|lia]).
Qed.

Lemma shr_m_iter (p : positive) (r : shr_record) :
  0 ≤ shr_m r →
  shr_m (SpecFloat.iter_pos shr_1 p r) = shr_m r / 2 ^ Zpos p ∧
  0 ≤ shr_m (SpecFloat.iter_pos shr_1 p r).
Proof.
  intros Hm. rewrite iter_pos_iter.
  induction p as [|p IH] using Pos.peano_ind.
  - simpl. rewrite Z.pow_1_r. by apply shr_1_m.
  - rewrite Pos.iter_succ. destruct IH as [IH Hpos].
    destruct (shr_1_m _ Hpos) as [Hstep Hpos']. split; [|done].
    rewrite Hstep, IH. rewrite Pos2Z.inj_succ, Z.pow_succ_r by lia.
    rewrite Z.div_div by lia. f_equal. lia.
Qed.

Lemma shr_1_exact (m : Z) :
  0 ≤ m → m mod 2 = 0 →
  shr_1 (Build_shr_record m false false) = Build_shr_record (m / 2) false false.
Proof.
  intros Hm Hmod. rewrite <- Z.div2_div.
  destruct m as [|[p|p|]|p]; try lia;
    cbn [shr_1 orb Z.div2]; try reflexivity.
  - rewrite Pos2Z.inj_xI in Hmod.
    rewrite Z.add_comm, Z.mul_comm, Z.mod_add in Hmod by lia. done.
  - done.
Qed.

Lemma shr_exact_iter (p : positive) (m : Z) :
  0 ≤ m → m mod 2 ^ Zpos p = 0 →
  SpecFloat.iter_pos shr_1 p (Build_shr_record m false false)
  = Build_shr_record (m / 2 ^ Zpos p) false false.
Proof.
  intros Hm. rewrite iter_pos_iter.
  induction p as [|p IH] using Pos.peano_ind; intros Hmod.
  - simpl. rewrite Z.pow_1_r in *. by apply shr_1_exact.
  - rewrite Pos.iter_succ.
    rewrite Pos2Z.inj_succ, Z.pow_succ_r in * by lia.
    assert (H2p : 0 < 2 ^ Zpos p) by (apply Z.pow_pos_nonneg; lia).
    assert (Hmodp : m mod 2 ^ Zpos p = 0).
    { apply Z.mod_divide in Hmod; [|lia]. apply Z.mod_divide; [lia|].
      destruct Hmod as [k ->]. exists (k * 2). lia. }
    rewrite IH by done.
    rewrite shr_1_exact.
    + f_equal. rewrite Z.div_div by lia. f_equal. lia.
    + apply Z.div_pos; lia.
    + apply Z.mod_divide in Hmod; [|lia]. destruct Hmod as [k ->].
      replace (k * (2 * 2 ^ Z.pos p)) with ((k * 2) * 2 ^ Z.pos p) by lia.
      rewrite Z.div_mul by lia. by rewrite Z.mod_mul.
Qed.

End Shifts.

Section Rounding.
Local Open Scope Z_scope.
Variables prec emax : Z.
Hypothesis prec_pos : 0 < prec.

Local Abbreviation fexp := (SpecFloat.fexp prec emax).
Local Abbreviation emin := (SpecFloat.emin prec emax).

Lemma fexp_ge_emin (d : Z) : emin ≤ fexp d.
Proof. unfold SpecFloat.fexp. lia. Qed.

Lemma fexp_mono (d d' : Z) : d ≤ d' → fexp d ≤ fexp d'.
Proof. unfold SpecFloat.fexp. lia. Qed.

Lemma loc_of_record_of_loc (m : Z) (l : location) :
  loc_of_shr_record (shr_record_of_loc m l) = l.
Proof. by destruct l as [|[]]. Qed.

Lemma shr_m_record_of_loc (m : Z) (l : location) :
  shr_m (shr_record_of_loc m l) = m.
Proof. by destruct l as [|[]]. Qed.

(** The first half of [binary_round_aux]: the mantissa is cut down to the
    exponent [fexp] asks for. *)
Lemma shr_fexp_spec (m e : Z) (l : location) :
  0 ≤ m →
  ∃ mrs e1,
    shr_fexp prec emax m e l = (mrs, e1) ∧
    e1 = Z.max e (fexp (Zdigits2 m + e)) ∧
    shr_m mrs = m / 2 ^ (e1 - e) ∧
    (l = loc_Exact → m mod 2 ^ (e1 - e) = 0 →
     loc_of_shr_record mrs = loc_Exact).
Proof.
  intros Hm. unfold shr_fexp, shr.
  destruct (fexp (Zdigits2 m + e) - e) as [|p|p] eqn:Hn.
  - eexists _, _. split; [reflexivity|].
    replace (Z.max e (fexp (Zdigits2 m + e))) with e by lia.
    rewrite Z.sub_diag, Z.pow_0_r, Z.div_1_r.
    split; [done|]. split; [apply shr_m_record_of_loc|].
    intros -> _. done.
  - eexists _, _. split; [reflexivity|].
    replace (Z.max e (fexp (Zdigits2 m + e))) with (e + Z.pos p) by lia.
    replace (e + Z.pos p - e) with (Z.pos p) by lia.
    split; [done|]. split.
    + destruct (shr_m_iter p (shr_record_of_loc m l)) as [Hs _].
      { by rewrite shr_m_record_of_loc. }
      by rewrite Hs, shr_m_record_of_loc.
    + intros -> Hmod. cbn [shr_record_of_loc].
      by rewrite shr_exact_iter.
  - eexists _, _. split; [reflexivity|].
    replace (Z.max e (fexp (Zdigits2 m + e))) with e by lia.
    rewrite Z.sub_diag, Z.pow_0_r, Z.div_1_r.
    split; [done|]. split; [apply shr_m_record_of_loc|].
    intros -> _. done.
Qed.

Lemma round_nearest_even_cases (m : Z) (l : location) :
  (round_nearest_even m l = m ∨ round_nearest_even m l = m + 1) ∧
  (l = loc_Exact → round_nearest_even m l = m).
Proof.
  destruct l as [|[]]; cbn [round_nearest_even]; try (split; auto; done).
  destruct (Z.even m); split; auto; done.
Qed.

(** [binary_round_aux] in integer terms: [m1] is the mantissa cut to the
    exponent [e1], [m2] is [m1] or its successor, and the result is [m2]
    at [e1], renormalised to [m3] at [e3]. *)
Lemma binary_round_aux_cases (s : bool) (m e : Z) (l : location) :
  0 ≤ m →
  ∃ e1 m2 e3 m3,
    e1 = Z.max e (fexp (Zdigits2 m + e)) ∧
    (m2 = m / 2 ^ (e1 - e) ∨ m2 = m / 2 ^ (e1 - e) + 1) ∧
    (l = loc_Exact → m mod 2 ^ (e1 - e) = 0 → m2 = m / 2 ^ (e1 - e)) ∧
    e3 = Z.max e1 (fexp (Zdigits2 m2 + e1)) ∧
    m3 = m2 / 2 ^ (e3 - e1) ∧
    binary_round_aux prec emax s m e l =
      match m3 with
      | Z0 => S754_zero s
      | Zpos p => if e3 <=? emax - prec then S754_finite s p e3
                  else S754_infinity s
      | Zneg _ => S754_nan
      end.
Proof.
  intros Hm. unfold binary_round_aux.
  destruct (shr_fexp_spec m e l Hm) as (mrs1 & e1 & -> & He1 & Hm1 & Hex1).
  destruct (round_nearest_even_cases (shr_m mrs1) (loc_of_shr_record mrs1))
    as [Hr Hrex].
  set (m2 := round_nearest_even (shr_m mrs1) (loc_of_shr_record mrs1)) in *.
  assert (Hm1pos : 0 ≤ shr_m mrs1).
  { rewrite Hm1. apply Z.div_pos; [done|]. apply Z.pow_pos_nonneg; lia. }
  assert (Hm2 : 0 ≤ m2) by lia.
  destruct (shr_fexp_spec m2 e1 loc_Exact Hm2)
    as (mrs2 & e3 & -> & He3 & Hm3 & _).
  exists e1, m2, e3, (shr_m mrs2).
  split; [done|]. split; [by rewrite <- Hm1|]. split.
  { intros Hl Hmod. rewrite <- Hm1. apply Hrex. by apply Hex1. }
  split; [done|]. split; [done|]. done.
Qed.

Lemma pow2_pos (k : Z) : 0 ≤ k → 0 < 2 ^ k.
Proof. intros. apply Z.pow_pos_nonneg; lia. Qed.

Lemma pow2_add (a b : Z) : 0 ≤ a → 0 ≤ b → 2 ^ (a + b) = 2 ^ a * 2 ^ b.
Proof. intros. by apply Z.pow_add_r. Qed.

Lemma pow2_le (a b : Z) : 0 ≤ a ≤ b → 2 ^ a ≤ 2 ^ b.
Proof. intros. apply Z.pow_le_mono_r; lia. Qed.

(** The bound [Mb * 2 ^ Eb] of a float, seen from a lower exponent. *)
Lemma pow2_rescale (c e1 E M : Z) :
  c ≤ e1 ≤ E → M * 2 ^ (E - c) = (M * 2 ^ (E - e1)) * 2 ^ (e1 - c).
Proof.
  intros. replace (E - c) with ((E - e1) + (e1 - c)) by lia.
  rewrite pow2_add by lia. lia.
Qed.

Lemma cut_below_prec (m e e1 : Z) :
  0 ≤ m → e1 = Z.max e (fexp (Zdigits2 m + e)) →
  0 ≤ m / 2 ^ (e1 - e) < 2 ^ prec.
Proof.
  intros Hm He1.
  assert (Hn : 0 ≤ e1 - e) by lia.
  pose proof (pow2_pos _ Hn) as HN.
  split; [by apply Z.div_pos|].
  apply Z.div_lt_upper_bound; [done|].
  destruct m as [|p|p]; [|clear Hm|lia].
  - pose proof (pow2_pos prec). lia.
  - pose proof (Zdigits2_bounds p) as [_ Hhi].
    pose proof (Zdigits2_pos p) as Hd.
    assert (Hle : Zdigits2 (Z.pos p) ≤ (e1 - e) + prec).
    { unfold SpecFloat.fexp in He1. lia. }
    assert (2 ^ Zdigits2 (Z.pos p) ≤ 2 ^ ((e1 - e) + prec))
      by (apply pow2_le; lia).
    rewrite pow2_add in * by lia. lia.
Qed.

(** The second half of [binary_round_aux] loses nothing. *)
Lemma renormalise_exact (m2 e1 : Z) :
  0 ≤ m2 ≤ 2 ^ prec → emin ≤ e1 →
  let e3 := Z.max e1 (fexp (Zdigits2 m2 + e1)) in
  m2 = (m2 / 2 ^ (e3 - e1)) * 2 ^ (e3 - e1) ∧ e1 ≤ e3.
Proof.
  intros [Hlo Hhi] He1 e3.
  destruct (Z.eq_dec m2 (2 ^ prec)) as [-> | Hne].
  - assert (Hd : Zdigits2 (2 ^ prec) = prec + 1).
    { pose proof (pow2_pos prec ltac:(lia)) as Hp.
      destruct (2 ^ prec) as [|p|p] eqn:Hp2; [lia| |lia].
      apply Zdigits2_unique. rewrite <- Hp2.
      replace (prec + 1 - 1) with prec by lia.
      rewrite pow2_add, Z.pow_1_r by lia. lia. }
    assert (He3 : e3 = e1 + 1).
    { unfold e3. rewrite Hd. unfold SpecFloat.fexp. lia. }
    rewrite He3. replace (e1 + 1 - e1) with 1 by lia. rewrite Z.pow_1_r.
    replace (2 ^ prec) with (2 ^ (prec - 1) * 2).
    2: { rewrite <- (Z.pow_1_r 2) at 2. rewrite <- pow2_add by lia.
         f_equal. lia. }
    rewrite Z.div_mul by lia. split; [done|]. lia.
  - assert (He3 : e3 = e1).
    { unfold e3. destruct m2 as [|p|p]; [| |lia].
      - simpl. unfold SpecFloat.fexp. lia.
      - assert (Zdigits2 (Z.pos p) ≤ prec)
          by (apply Zdigits2_le_iff; lia).
        unfold SpecFloat.fexp. lia. }
    rewrite He3, Z.sub_diag, Z.pow_0_r, Z.div_1_r. lia.
Qed.

(** Cutting and rounding stay at or below a bound that is itself a float:
    [Mb * 2 ^ Eb] with [Mb] of at most [prec] digits.  All values are
    counted in units of [2 ^ c]. *)
Lemma cut_upper (m e c Mb Eb e1 m2 : Z) (l : location) :
  0 ≤ m → c ≤ e → c ≤ Eb → emin ≤ Eb → 0 ≤ Mb < 2 ^ prec →
  e1 = Z.max e (fexp (Zdigits2 m + e)) →
  (m2 = m / 2 ^ (e1 - e) ∨ m2 = m / 2 ^ (e1 - e) + 1) →
  (l = loc_Exact → m mod 2 ^ (e1 - e) = 0 → m2 = m / 2 ^ (e1 - e)) →
  match l with
  | loc_Exact => m * 2 ^ (e - c) ≤ Mb * 2 ^ (Eb - c)
  | _ => (m + 1) * 2 ^ (e - c) ≤ Mb * 2 ^ (Eb - c)
  end →
  m2 * 2 ^ (e1 - c) ≤ Mb * 2 ^ (Eb - c) ∧ e1 ≤ Z.max e Eb.
Proof.
  intros Hm Hce HcE HEb HMb He1 Hm2 Hex Hbound.
  assert (Hn : 0 ≤ e1 - e) by lia.
  pose proof (pow2_pos _ Hn) as HN.
  pose proof (pow2_pos (e - c) ltac:(lia)) as Ha.
  pose proof (pow2_pos (Eb - c) ltac:(lia)) as Hb.
  assert (He1c : 2 ^ (e1 - c) = 2 ^ (e1 - e) * 2 ^ (e - c)).
  { rewrite <- pow2_add by lia. f_equal. lia. }
  pose proof (Z.div_mod m (2 ^ (e1 - e)) ltac:(lia)) as Hdiv.
  pose proof (Z.mod_pos_bound m (2 ^ (e1 - e)) HN) as Hmod.
  set (N := 2 ^ (e1 - e)) in *. set (a := 2 ^ (e - c)) in *.
  set (q := m / N) in *. set (rm := m mod N) in *.
  set (B := Mb * 2 ^ (Eb - c)) in *.
  assert (HmB : m * a ≤ B) by (destruct l; nia).
  assert (Hinex : l ≠ loc_Exact → (m + 1) * a ≤ B) by (by destruct l).
  assert (HBlt : B < 2 ^ prec * 2 ^ (Eb - c)) by (unfold B; nia).
  assert (HA : e1 ≤ Z.max e Eb).
  { destruct (Z_le_gt_dec e1 (Z.max e Eb)) as [|Hgt]; [done|exfalso].
    destruct m as [|p|p]; [|clear Hm|lia].
    - simpl in He1. unfold SpecFloat.fexp in He1. lia.
    - pose proof (Zdigits2_bounds p) as [Hlo _].
      pose proof (Zdigits2_pos p) as Hd.
      assert (Hd1 : prec + (Eb - c) ≤ Zdigits2 (Z.pos p) - 1 + (e - c)).
      { unfold SpecFloat.fexp in He1. lia. }
      assert (2 ^ (prec + (Eb - c))
              ≤ 2 ^ (Zdigits2 (Z.pos p) - 1 + (e - c)))
        by (apply pow2_le; lia).
      rewrite !pow2_add in * by lia. fold a in H. nia. }
  split; [|done]. rewrite He1c.
  destruct Hm2 as [-> | ->]; [nia|].
  assert (Hnot : ¬ (l = loc_Exact ∧ rm = 0)).
  { intros [Hl Hr]. specialize (Hex Hl Hr). lia. }
  destruct (Z.eq_dec e1 e) as [Hee | Hne].
  - assert (HN1 : N = 1) by (unfold N; rewrite Hee, Z.sub_diag; done).
    assert (rm = 0) by lia.
    assert (q = m) by nia.
    assert (l ≠ loc_Exact) by (intros ?; by apply Hnot).
    rewrite HN1. specialize (Hinex ltac:(done)). nia.
  - assert (HeE : e1 ≤ Eb) by lia.
    unfold B in *. rewrite (pow2_rescale c e1 Eb Mb) in * by lia.
    rewrite He1c in *. set (K := Mb * 2 ^ (Eb - e1)) in *.
    destruct (Z_lt_le_dec q K) as [|HKq]; [nia|exfalso].
    assert (m ≤ K * N) by nia.
    assert (K = q ∧ rm = 0) as [HK Hr] by nia.
    assert (Hl : l ≠ loc_Exact) by (intros ?; by apply Hnot).
    specialize (Hinex Hl). nia.
Qed.

Lemma cut_lower (m e c Mb Eb e1 : Z) :
  0 ≤ m → c ≤ e → c ≤ Eb → emin ≤ Eb → 0 < Mb < 2 ^ prec →
  e1 = Z.max e (fexp (Zdigits2 m + e)) →
  Mb * 2 ^ (Eb - c) ≤ m * 2 ^ (e - c) →
  Mb * 2 ^ (Eb - c) ≤ (m / 2 ^ (e1 - e)) * 2 ^ (e1 - c).
Proof.
  intros Hm Hce HcE HEb HMb He1 Hbound.
  assert (Hn : 0 ≤ e1 - e) by lia.
  pose proof (pow2_pos _ Hn) as HN.
  pose proof (pow2_pos (e - c) ltac:(lia)) as Ha.
  pose proof (pow2_pos (Eb - c) ltac:(lia)) as Hb.
  assert (He1c : 2 ^ (e1 - c) = 2 ^ (e1 - e) * 2 ^ (e - c)).
  { rewrite <- pow2_add by lia. f_equal. lia. }
  pose proof (Z.div_mod m (2 ^ (e1 - e)) ltac:(lia)) as Hdiv.
  pose proof (Z.mod_pos_bound m (2 ^ (e1 - e)) HN) as Hmod.
  rewrite He1c.
  destruct (Z_le_gt_dec e1 Eb) as [HeE | HeE].
  - rewrite (pow2_rescale c e1 Eb Mb) in * by lia. rewrite He1c in *.
    set (N := 2 ^ (e1 - e)) in *. set (a := 2 ^ (e - c)) in *.
    set (q := m / N) in *. set (K := Mb * 2 ^ (Eb - e1)) in *.
    assert (K * N ≤ m) by nia.
    assert (K ≤ q) by nia. nia.
  - destruct (Z.eq_dec e1 e) as [Hee | Hne].
    { rewrite Hee, Z.sub_diag, Z.pow_0_r, Z.div_1_r. lia. }
    destruct m as [|p|p]; [|clear Hm|lia].
    { nia. }
    pose proof (Zdigits2_bounds p) as [Hlo _].
    pose proof (Zdigits2_pos p) as Hd.
    assert (Hd1 : Zdigits2 (Z.pos p) - 1 = (e1 - e) + (prec - 1)).
    { unfold SpecFloat.fexp in He1. lia. }
    rewrite Hd1, pow2_add in Hlo by lia.
    assert (Hq : 2 ^ (prec - 1) ≤ Z.pos p / 2 ^ (e1 - e)).
    { apply Z.div_le_lower_bound; [done|]. lia. }
    assert (Hp : 2 ^ prec * 2 ^ (Eb - c) ≤ 2 ^ (prec - 1) * 2 ^ (e1 - c)).
    { rewrite <- !pow2_add by lia. apply pow2_le. lia. }
    rewrite He1c in Hp.
    set (N := 2 ^ (e1 - e)) in *. set (a := 2 ^ (e - c)) in *.
    set (q := Z.pos p / N) in *. nia.
Qed.

(** [binary_round_aux] on a value at or below a bound that is a float. *)
Lemma round_aux_upper (s : bool) (m e c Mb Eb : Z) (l : location) :
  0 ≤ m → c ≤ e → c ≤ Eb → emin ≤ Eb → 0 ≤ Mb < 2 ^ prec →
  e ≤ emax - prec → Eb ≤ emax - prec →
  match l with
  | loc_Exact => m * 2 ^ (e - c) ≤ Mb * 2 ^ (Eb - c)
  | _ => (m + 1) * 2 ^ (e - c) ≤ Mb * 2 ^ (Eb - c)
  end →
  binary_round_aux prec emax s m e l = S754_zero s ∨
  ∃ p e3,
    binary_round_aux prec emax s m e l = S754_finite s p e3 ∧
    e ≤ e3 ≤ Z.max e Eb ∧ emin ≤ e3 ∧
    Z.pos p * 2 ^ (e3 - c) ≤ Mb * 2 ^ (Eb - c).
Proof.
  intros Hm Hce HcE HEb HMb Hemax HEmax Hbound.
  destruct (binary_round_aux_cases s m e l Hm)
    as (e1 & m2 & e3 & m3 & He1 & Hm2 & Hex & He3 & Hm3 & ->).
  destruct (cut_upper m e c Mb Eb e1 m2 l) as [Hval He1le]; try done.
  pose proof (cut_below_prec m e e1 Hm He1) as Hq.
  assert (Hm2b : 0 ≤ m2 ≤ 2 ^ prec) by lia.
  assert (He1min : emin ≤ e1).
  { rewrite He1. pose proof (fexp_ge_emin (Zdigits2 m + e)). lia. }
  pose proof (renormalise_exact m2 e1 Hm2b He1min) as [Hre He13].
  cbv zeta in Hre, He13. rewrite <- He3 in Hre, He13. rewrite <- Hm3 in Hre.
  pose proof (pow2_pos (e1 - c) ltac:(lia)) as H1.
  pose proof (pow2_pos (e3 - e1) ltac:(lia)) as H31.
  pose proof (pow2_pos (Eb - c) ltac:(lia)) as Hb.
  assert (Hval3 : m3 * 2 ^ (e3 - c) ≤ Mb * 2 ^ (Eb - c)).
  { replace (e3 - c) with ((e3 - e1) + (e1 - c)) by lia.
    rewrite pow2_add by lia. nia. }
  assert (Hm3pos : 0 ≤ m3).
  { rewrite Hm3. apply Z.div_pos; lia. }
  destruct m3 as [|p|p]; [by left| |lia]. right.
  assert (He3le : e3 ≤ Z.max e Eb).
  { destruct (Z.eq_dec e3 e1) as [|Hne]; [lia|].
    destruct (Z_le_gt_dec e3 Eb) as [|Hgt]; [lia|exfalso].
    assert (Hm2big : 2 ^ prec ≤ m2).
    { destruct (Z_lt_le_dec m2 (2 ^ prec)) as [Hlt|]; [|done]. exfalso.
      destruct m2 as [|p2|p2]; [| |lia].
      - simpl in He3. unfold SpecFloat.fexp in He3. lia.
      - assert (Zdigits2 (Z.pos p2) ≤ prec)
          by (apply Zdigits2_le_iff; lia).
        unfold SpecFloat.fexp in He3. lia. }
    assert (2 ^ (Eb - c) ≤ 2 ^ (e1 - c)).
    { apply pow2_le. assert (Zdigits2 m2 ≤ prec + 1); [|
        unfold SpecFloat.fexp in He3; lia].
      destruct m2 as [|p2|p2]; [simpl; lia| |lia].
      apply Zdigits2_le_iff; [lia|].
      rewrite pow2_add, Z.pow_1_r by lia. lia. }
    nia. }
  exists p, e3. rewrite (Zle_imp_le_bool e3 (emax - prec)) by lia.
  split; [done|]. split; [lia|]. split; [|done].
  rewrite He3. pose proof (fexp_ge_emin (Zdigits2 m2 + e1)). lia.
Qed.

(** [binary_round_aux] on a value at or above a bound that is a float. *)
Lemma round_aux_lower (s : bool) (m e c Mb Eb : Z) (l : location) :
  0 ≤ m → c ≤ e → c ≤ Eb → emin ≤ Eb → 0 < Mb < 2 ^ prec →
  Mb * 2 ^ (Eb - c) ≤ m * 2 ^ (e - c) →
  binary_round_aux prec emax s m e l = S754_infinity s ∨
  ∃ p e3,
    binary_round_aux prec emax s m e l = S754_finite s p e3 ∧
    e ≤ e3 ∧ emin ≤ e3 ∧
    Mb * 2 ^ (Eb - c) ≤ Z.pos p * 2 ^ (e3 - c).
Proof.
  intros Hm Hce HcE HEb HMb Hbound.
  destruct (binary_round_aux_cases s m e l Hm)
    as (e1 & m2 & e3 & m3 & He1 & Hm2 & Hex & He3 & Hm3 & ->).
  pose proof (cut_lower m e c Mb Eb e1 Hm Hce HcE HEb HMb He1 Hbound)
    as Hval.
  pose proof (cut_below_prec m e e1 Hm He1) as Hq.
  assert (Hm2b : 0 ≤ m2 ≤ 2 ^ prec) by lia.
  assert (He1min : emin ≤ e1).
  { rewrite He1. pose proof (fexp_ge_emin (Zdigits2 m + e)). lia. }
  pose proof (renormalise_exact m2 e1 Hm2b He1min) as [Hre He13].
  cbv zeta in Hre, He13. rewrite <- He3 in Hre, He13. rewrite <- Hm3 in Hre.
  pose proof (pow2_pos (e1 - c) ltac:(lia)) as H1.
  pose proof (pow2_pos (e3 - e1) ltac:(lia)) as H31.
  pose proof (pow2_pos (Eb - c) ltac:(lia)) as Hb.
  assert (Hval3 : Mb * 2 ^ (Eb - c) ≤ m3 * 2 ^ (e3 - c)).
  { replace (e3 - c) with ((e3 - e1) + (e1 - c)) by lia.
    rewrite pow2_add by lia. nia. }
  pose proof (pow2_pos (e3 - c) ltac:(lia)) as H3.
  destruct m3 as [|p|p]; [nia| |nia].
  destruct (e3 <=? emax - prec); [right|by left].
  exists p, e3. split; [done|]. split; [lia|]. split; [lia|done].
Qed.

Lemma iter_xO_pow (m d : positive) :
  Z.pos (Pos.iter xO m d) = Z.pos m * 2 ^ Z.pos d.
Proof.
  induction d as [|d IH] using Pos.peano_ind.
  - simpl. rewrite Z.pow_1_r. lia.
  - rewrite Pos.iter_succ, Pos2Z.inj_xO, IH.
    rewrite Pos2Z.inj_succ, Z.pow_succ_r by lia. lia.
Qed.

(** [shl_align] lowers the exponent to [ex'] if it is above and keeps
    the value. *)
Lemma shl_align_spec (mx : positive) (ex ex' : Z) :
  snd (shl_align mx ex ex') = Z.min ex ex' ∧
  Z.pos (fst (shl_align mx ex ex'))
  = Z.pos mx * 2 ^ (ex - Z.min ex ex').
Proof.
  unfold shl_align. destruct (ex' - ex) as [|d|d] eqn:Hd; cbn [fst snd].
  - replace (Z.min ex ex') with ex by lia.
    rewrite Z.sub_diag, Z.pow_0_r. lia.
  - replace (Z.min ex ex') with ex by lia.
    rewrite Z.sub_diag, Z.pow_0_r. lia.
  - replace (Z.min ex ex') with ex' by lia.
    rewrite iter_xO_pow. split; [done|]. do 2 f_equal. lia.
Qed.

Lemma shl_align_value (mx : positive) (ex ex' c : Z) :
  c ≤ ex → c ≤ ex' →
  Z.pos (fst (shl_align mx ex ex')) * 2 ^ (snd (shl_align mx ex ex') - c)
  = Z.pos mx * 2 ^ (ex - c).
Proof.
  intros Hc Hc'. destruct (shl_align_spec mx ex ex') as [-> ->].
  rewrite <- Z.mul_assoc, <- pow2_add by lia. do 2 f_equal. lia.
Qed.

Lemma binary_round_upper (s : bool) (p : positive) (e c Mb Eb : Z) :
  c ≤ e → c ≤ emin → c ≤ Eb → emin ≤ Eb → 0 ≤ Mb < 2 ^ prec →
  e ≤ emax - prec → Eb ≤ emax - prec →
  Z.pos p * 2 ^ (e - c) ≤ Mb * 2 ^ (Eb - c) →
  binary_round prec emax s p e = S754_zero s ∨
  ∃ p' e3,
    binary_round prec emax s p e = S754_finite s p' e3 ∧
    emin ≤ e3 ≤ Z.max e Eb ∧
    Z.pos p' * 2 ^ (e3 - c) ≤ Mb * 2 ^ (Eb - c).
Proof.
  intros Hce Hcm HcE HEb HMb Hemax HEmax Hbound. unfold binary_round.
  pose proof (shl_align_spec p e (fexp (Z.pos (digits2_pos p) + e)))
    as [Hez _].
  pose proof (shl_align_value p e (fexp (Z.pos (digits2_pos p) + e)) c Hce)
    as Hval.
  pose proof (fexp_ge_emin (Z.pos (digits2_pos p) + e)) as Hfe.
  destruct (shl_align p e _) as [mz ez]. cbn [fst snd] in *.
  rewrite <- Hval in Hbound by lia.
  destruct (round_aux_upper s (Z.pos mz) ez c Mb Eb loc_Exact
              ltac:(lia) ltac:(lia) HcE HEb HMb ltac:(lia) HEmax Hbound)
    as [-> | (p' & e3 & -> & He3 & Hmin & Hv)]; [by left|].
  right. exists p', e3. split; [done|]. split; [lia|done].
Qed.

Lemma binary_round_lower (s : bool) (p : positive) (e c Mb Eb : Z) :
  c ≤ e → c ≤ emin → c ≤ Eb → emin ≤ Eb → 0 < Mb < 2 ^ prec →
  Mb * 2 ^ (Eb - c) ≤ Z.pos p * 2 ^ (e - c) →
  binary_round prec emax s p e = S754_infinity s ∨
  ∃ p' e3,
    binary_round prec emax s p e = S754_finite s p' e3 ∧
    emin ≤ e3 ∧
    Mb * 2 ^ (Eb - c) ≤ Z.pos p' * 2 ^ (e3 - c).
Proof.
  intros Hce Hcm HcE HEb HMb Hbound. unfold binary_round.
  pose proof (shl_align_spec p e (fexp (Z.pos (digits2_pos p) + e)))
    as [Hez _].
  pose proof (shl_align_value p e (fexp (Z.pos (digits2_pos p) + e)) c Hce)
    as Hval.
  pose proof (fexp_ge_emin (Z.pos (digits2_pos p) + e)) as Hfe.
  destruct (shl_align p e _) as [mz ez]. cbn [fst snd] in *.
  rewrite <- Hval in Hbound by lia.
  destruct (round_aux_lower s (Z.pos mz) ez c Mb Eb loc_Exact
              ltac:(lia) ltac:(lia) HcE HEb HMb Hbound)
    as [-> | (p' & e3 & -> & He3 & Hmin & Hv)]; [by left|].
  right. exists p', e3. split; [done|]. split; [lia|done].
Qed.

(** A value that is a float is rounded to itself. *)
Lemma binary_round_exact (s : bool) (p : positive) (e c Mb Eb : Z) :
  c ≤ e → c ≤ emin → c ≤ Eb → emin ≤ Eb → 0 < Mb < 2 ^ prec →
  e ≤ emax - prec → Eb ≤ emax - prec →
  Z.pos p * 2 ^ (e - c) = Mb * 2 ^ (Eb - c) →
  ∃ p' e3,
    binary_round prec emax s p e = S754_finite s p' e3 ∧
    emin ≤ e3 ≤ Z.max e Eb ∧
    Z.pos p' * 2 ^ (e3 - c) = Mb * 2 ^ (Eb - c).
Proof.
  intros Hce Hcm HcE HEb HMb Hemax HEmax Hval.
  destruct (binary_round_upper s p e c Mb Eb)
    as [Hz | (p1 & e1 & H1 & He1 & Hv1)]; try done; try lia;
  destruct (binary_round_lower s p e c Mb Eb)
    as [Hi | (p2 & e2 & H2 & He2 & Hv2)]; try done; try lia;
    try congruence.
  rewrite H1 in H2. injection H2 as <- <-.
  exists p1, e1. split; [done|]. split; [done|]. lia.
Qed.

(** *** The operations on positive finite floats *)

Lemma aligned_sum (p1 p2 : positive) (e1 e2 c : Z) :
  c ≤ e1 → c ≤ e2 →
  (Z.pos (fst (shl_align p1 e1 (Z.min e1 e2)))
   + Z.pos (fst (shl_align p2 e2 (Z.min e1 e2)))) * 2 ^ (Z.min e1 e2 - c)
  = Z.pos p1 * 2 ^ (e1 - c) + Z.pos p2 * 2 ^ (e2 - c).
Proof.
  intros H1 H2.
  pose proof (shl_align_spec p1 e1 (Z.min e1 e2)) as [Hs1 _].
  pose proof (shl_align_spec p2 e2 (Z.min e1 e2)) as [Hs2 _].
  pose proof (shl_align_value p1 e1 (Z.min e1 e2) c H1 ltac:(lia)) as Hv1.
  pose proof (shl_align_value p2 e2 (Z.min e1 e2) c H2 ltac:(lia)) as Hv2.
  replace (snd (shl_align p1 e1 (Z.min e1 e2))) with (Z.min e1 e2) in Hv1
    by lia.
  replace (snd (shl_align p2 e2 (Z.min e1 e2))) with (Z.min e1 e2) in Hv2
    by lia.
  lia.
Qed.

Lemma SFadd_pos_upper (p1 p2 : positive) (e1 e2 c Mb Eb : Z) :
  c ≤ e1 → c ≤ e2 → c ≤ emin → c ≤ Eb → emin ≤ Eb → 0 ≤ Mb < 2 ^ prec →
  e1 ≤ emax - prec → e2 ≤ emax - prec → Eb ≤ emax - prec →
  Z.pos p1 * 2 ^ (e1 - c) + Z.pos p2 * 2 ^ (e2 - c) ≤ Mb * 2 ^ (Eb - c) →
  SFadd prec emax (S754_finite false p1 e1) (S754_finite false p2 e2)
    = S754_zero false ∨
  ∃ p e,
    SFadd prec emax (S754_finite false p1 e1) (S754_finite false p2 e2)
      = S754_finite false p e ∧
    emin ≤ e ≤ Z.max (Z.min e1 e2) Eb ∧
    Z.pos p * 2 ^ (e - c) ≤ Mb * 2 ^ (Eb - c).
Proof.
  intros H1 H2 Hcm HcE HEb HMb Hm1 Hm2 HEm Hbound.
  cbn [SFadd cond_Zopp Z.add binary_normalize].
  rewrite <- (aligned_sum p1 p2 e1 e2 c H1 H2) in Hbound.
  rewrite <- Pos2Z.inj_add in Hbound.
  apply (binary_round_upper false _ (Z.min e1 e2) c Mb Eb); try done; lia.
Qed.

Lemma SFadd_pos_lower (p1 p2 : positive) (e1 e2 c Mb Eb : Z) :
  c ≤ e1 → c ≤ e2 → c ≤ emin → c ≤ Eb → emin ≤ Eb → 0 < Mb < 2 ^ prec →
  Mb * 2 ^ (Eb - c) ≤ Z.pos p1 * 2 ^ (e1 - c) + Z.pos p2 * 2 ^ (e2 - c) →
  SFadd prec emax (S754_finite false p1 e1) (S754_finite false p2 e2)
    = S754_infinity false ∨
  ∃ p e,
    SFadd prec emax (S754_finite false p1 e1) (S754_finite false p2 e2)
      = S754_finite false p e ∧
    emin ≤ e ∧
    Mb * 2 ^ (Eb - c) ≤ Z.pos p * 2 ^ (e - c).
Proof.
  intros H1 H2 Hcm HcE HEb HMb Hbound.
  cbn [SFadd cond_Zopp Z.add binary_normalize].
  rewrite <- (aligned_sum p1 p2 e1 e2 c H1 H2) in Hbound.
  rewrite <- Pos2Z.inj_add in Hbound.
  apply (binary_round_lower false _ (Z.min e1 e2) c Mb Eb); try done; lia.
Qed.

Lemma SFmul_pos_upper (p1 p2 : positive) (e1 e2 c Mb Eb : Z) :
  c ≤ e1 + e2 → c ≤ Eb → emin ≤ Eb → 0 ≤ Mb < 2 ^ prec →
  e1 + e2 ≤ emax - prec → Eb ≤ emax - prec →
  Z.pos p1 * Z.pos p2 * 2 ^ (e1 + e2 - c) ≤ Mb * 2 ^ (Eb - c) →
  SFmul prec emax (S754_finite false p1 e1) (S754_finite false p2 e2)
    = S754_zero false ∨
  ∃ p e,
    SFmul prec emax (S754_finite false p1 e1) (S754_finite false p2 e2)
      = S754_finite false p e ∧
    emin ≤ e ≤ Z.max (e1 + e2) Eb ∧
    Z.pos p * 2 ^ (e - c) ≤ Mb * 2 ^ (Eb - c).
Proof.
  intros Hc HcE HEb HMb Hm HEm Hbound. cbn [SFmul xorb].
  destruct (round_aux_upper false (Z.pos (p1 * p2)) (e1 + e2) c Mb Eb
              loc_Exact ltac:(lia) Hc HcE HEb HMb Hm HEm)
    as [-> | (p & e & -> & He & Hmin & Hv)]; [|by left|].
  { by rewrite Pos2Z.inj_mul. }
  right. exists p, e. split; [done|]. split; [lia|done].
Qed.

(** The difference of two positive floats, the larger first, is a
    positive float or infinity. *)
Lemma SFsub_pos (p1 p2 : positive) (e1 e2 c : Z) :
  c ≤ emin → emin ≤ e1 → emin ≤ e2 →
  Z.pos p2 * 2 ^ (e2 - c) < Z.pos p1 * 2 ^ (e1 - c) →
  SFsub prec emax (S754_finite false p1 e1) (S754_finite false p2 e2)
    = S754_infinity false ∨
  ∃ p e,
    SFsub prec emax (S754_finite false p1 e1) (S754_finite false p2 e2)
      = S754_finite false p e.
Proof.
  intros Hcm H1 H2 Hlt.
  change (SFsub prec emax (S754_finite false p1 e1) (S754_finite false p2 e2))
    with (binary_normalize prec emax
            (Z.pos (fst (shl_align p1 e1 (Z.min e1 e2)))
             - Z.pos (fst (shl_align p2 e2 (Z.min e1 e2))))
            (Z.min e1 e2) false).
  pose proof (shl_align_spec p1 e1 (Z.min e1 e2)) as [Hs1 _].
  pose proof (shl_align_spec p2 e2 (Z.min e1 e2)) as [Hs2 _].
  pose proof (shl_align_value p1 e1 (Z.min e1 e2) c ltac:(lia) ltac:(lia))
    as Hv1.
  pose proof (shl_align_value p2 e2 (Z.min e1 e2) c ltac:(lia) ltac:(lia))
    as Hv2.
  replace (snd (shl_align p1 e1 (Z.min e1 e2))) with (Z.min e1 e2) in Hv1
    by lia.
  replace (snd (shl_align p2 e2 (Z.min e1 e2))) with (Z.min e1 e2) in Hv2
    by lia.
  set (a := Z.pos (fst (shl_align p1 e1 (Z.min e1 e2)))) in *.
  set (b := Z.pos (fst (shl_align p2 e2 (Z.min e1 e2)))) in *.
  pose proof (pow2_pos (Z.min e1 e2 - c) ltac:(lia)) as Hp.
  assert (Hab : 0 < a - b) by nia.
  destruct (a - b) as [|k|k] eqn:Hk; [lia| |lia].
  cbn [binary_normalize].
  assert (H2p : 1 < 2 ^ prec).
  { pose proof (pow2_le 1 prec ltac:(lia)) as Hle.
    rewrite Z.pow_1_r in Hle. lia. }
  destruct (binary_round_lower false k (Z.min e1 e2) c 1 (Z.min e1 e2))
    as [-> | (p & e & -> & _)]; try lia; try nia.
  - by left.
  - right. by exists p, e.
Qed.

Lemma new_location_cases (m r : Z) :
  (r = 0 → new_location m r = loc_Exact) ∧
  (r ≠ 0 → ∃ cmp, new_location m r = loc_Inexact cmp).
Proof.
  unfold new_location. split.
  - intros ->. by destruct (Z.even m).
  - intros Hr. apply Z.eqb_neq in Hr.
    destruct (Z.even m); unfold new_location_even, new_location_odd;
      rewrite Hr; eexists; reflexivity.
Qed.

(** A quotient at most [1 - 2 ^ -prec] is rounded to a float at most
    [1 - 2 ^ -prec], so to one with an exponent of at most [-prec]. *)
Lemma SFdiv_below_one (p1 p2 : positive) (e1 e2 c : Z) :
  c ≤ e1 → c ≤ e2 → c ≤ e1 - e2 → c ≤ emin → emin ≤ - prec → 0 ≤ emax →
  Z.pos p1 * 2 ^ (e1 - c) * 2 ^ prec
    ≤ (2 ^ prec - 1) * (Z.pos p2 * 2 ^ (e2 - c)) →
  SFdiv prec emax (S754_finite false p1 e1) (S754_finite false p2 e2)
    = S754_zero false ∨
  ∃ p e,
    SFdiv prec emax (S754_finite false p1 e1) (S754_finite false p2 e2)
      = S754_finite false p e ∧
    emin ≤ e ≤ - prec ∧
    Z.pos p * 2 ^ (e - c) ≤ (2 ^ prec - 1) * 2 ^ (- prec - c).
Proof.
  intros H1 H2 H12 Hcm Hemin Hemax Hratio.
  pose proof (pow2_pos prec ltac:(lia)) as Hpp.
  pose proof (pow2_pos (e1 - c) ltac:(lia)) as Hp1.
  pose proof (pow2_pos (e2 - c) ltac:(lia)) as Hp2.
  cbn [SFdiv xorb]. unfold SFdiv_core_binary.
  set (d1 := Zdigits2 (Z.pos p1)). set (d2 := Zdigits2 (Z.pos p2)).
  set (e' := Z.min (fexp (d1 + e1 - (d2 + e2))) (e1 - e2)).
  set (s := e1 - e2 - e').
  assert (Hs : 0 ≤ s) by (unfold s, e'; lia).
  assert (Hm' : match s with
                | Z.pos _ => Z.shiftl (Z.pos p1) s
                | 0 => Z.pos p1
                | Z.neg _ => 0
                end = Z.pos p1 * 2 ^ s).
  { destruct s as [|k|k] eqn:Hk; [|by rewrite Z.shiftl_mul_pow2|lia].
    rewrite Z.pow_0_r. lia. }
  rewrite Hm'.
  pose proof (Z_div_mod (Z.pos p1 * 2 ^ s) (Z.pos p2) ltac:(lia)) as Hdm.
  destruct (Z.div_eucl (Z.pos p1 * 2 ^ s) (Z.pos p2)) as [q r].
  destruct Hdm as [Hdm Hr].
  pose proof (pow2_pos s Hs) as Hps.
  assert (Hq : 0 ≤ q) by nia.
  assert (Hd : d1 + e1 ≤ d2 + e2).
  { pose proof (Zdigits2_bounds p1) as [Hlo1 _].
    pose proof (Zdigits2_bounds p2) as [_ Hhi2].
    pose proof (Zdigits2_pos p1). pose proof (Zdigits2_pos p2).
    fold d1 in Hlo1, H. fold d2 in Hhi2, H0.
    destruct (Z_le_gt_dec (d1 + e1) (d2 + e2)) as [|Hgt]; [done|exfalso].
    assert (Hpow : 2 ^ (d2 + (e2 - c)) ≤ 2 ^ ((d1 - 1) + (e1 - c)))
      by (apply pow2_le; lia).
    rewrite !pow2_add in Hpow by lia.
    assert (HY : Z.pos p2 * 2 ^ (e2 - c) < 2 ^ d2 * 2 ^ (e2 - c)) by nia.
    assert (HX : 2 ^ (d1 - 1) * 2 ^ (e1 - c) ≤ Z.pos p1 * 2 ^ (e1 - c))
      by nia.
    set (X := Z.pos p1 * 2 ^ (e1 - c)) in *.
    set (Y := Z.pos p2 * 2 ^ (e2 - c)) in *.
    assert (Y < X) by lia. nia. }
  assert (He' : e' ≤ - prec).
  { unfold e', SpecFloat.fexp. lia. }
  assert (Hce' : c ≤ e').
  { unfold e'. pose proof (fexp_ge_emin (d1 + e1 - (d2 + e2))). lia. }
  pose proof (pow2_pos (- prec - e') ltac:(lia)) as HG.
  pose proof (pow2_pos (e' - c) ltac:(lia)) as He'c.
  assert (HB : (2 ^ prec - 1) * 2 ^ (- prec - c)
               = ((2 ^ prec - 1) * 2 ^ (- prec - e')) * 2 ^ (e' - c)).
  { rewrite <- Z.mul_assoc, <- pow2_add by lia. do 2 f_equal. lia. }
  assert (Hkey : Z.pos p1 * 2 ^ s
                 ≤ (2 ^ prec - 1) * 2 ^ (- prec - e') * Z.pos p2).
  { assert (Hx : Z.pos p1 * 2 ^ s * 2 ^ (e2 - c)
                 = Z.pos p1 * 2 ^ (e1 - c) * 2 ^ prec * 2 ^ (- prec - e')).
    { rewrite <- !Z.mul_assoc, <- !pow2_add by lia.
      do 2 f_equal. unfold s. lia. }
    nia. }
  set (K := (2 ^ prec - 1) * 2 ^ (- prec - e')) in *.
  assert (HqK : q ≤ K ∧ (r ≠ 0 → q + 1 ≤ K)) by nia.
  destruct (new_location_cases (Z.pos p2) r) as [Hex Hinex].
  destruct (round_aux_upper false q e' c (2 ^ prec - 1) (- prec)
              (new_location (Z.pos p2) r))
    as [-> | (p & e & -> & He & Hmin & Hv)]; try lia.
  - rewrite HB. destruct (Z.eq_dec r 0) as [Hr0 | Hr0].
    + rewrite (Hex Hr0). nia.
    + destruct (Hinex Hr0) as [cmp ->]. nia.
  - by left.
  - right. exists p, e. split; [done|]. split; [lia|done].
Qed.

(** *** What rounding cannot produce *)

Lemma binary_round_shape (s : bool) (p : positive) (e : Z) :
  binary_round prec emax s p e = S754_zero s ∨
  binary_round prec emax s p e = S754_infinity s ∨
  ∃ p' e', binary_round prec emax s p e = S754_finite s p' e' ∧ emin ≤ e'.
Proof.
  unfold binary_round. destruct (shl_align p e _) as [mz ez].
  destruct (binary_round_aux_cases s (Z.pos mz) ez loc_Exact ltac:(lia))
    as (e1 & m2 & e3 & m3 & He1 & Hm2 & _ & He3 & Hm3 & ->).
  pose proof (cut_below_prec (Z.pos mz) ez e1 ltac:(lia) He1) as Hq.
  assert (Hm3pos : 0 ≤ m3).
  { rewrite Hm3. apply Z.div_pos; [lia|].
    apply pow2_pos. lia. }
  destruct m3 as [|p'|p']; [by left| |lia].
  destruct (e3 <=? emax - prec); [|by right; left].
  right; right. exists p', e3. split; [done|].
  pose proof (fexp_ge_emin (Zdigits2 m2 + e1)). lia.
Qed.

Lemma binary_round_nonzero (s : bool) (p : positive) (e : Z) :
  emin ≤ e → binary_round prec emax s p e ≠ S754_zero s.
Proof.
  intros He.
  assert (H2p : 1 < 2 ^ prec).
  { pose proof (pow2_le 1 prec ltac:(lia)) as Hle.
    rewrite Z.pow_1_r in Hle. lia. }
  pose proof (pow2_pos (e - emin) ltac:(lia)).
  destruct (binary_round_lower s p e emin 1 e)
    as [-> | (p' & e' & -> & _)]; try lia; try nia; done.
Qed.

(** A sum of two positive floats is not zero. *)
Lemma SFadd_pos_nonzero (p1 p2 : positive) (e1 e2 : Z) :
  emin ≤ e1 → emin ≤ e2 →
  SFadd prec emax (S754_finite false p1 e1) (S754_finite false p2 e2)
  ≠ S754_zero false.
Proof.
  intros H1 H2. cbn [SFadd cond_Zopp Z.add binary_normalize].
  apply binary_round_nonzero. lia.
Qed.

Lemma SFadd_pos_not_zero (p1 p2 : positive) (e1 e2 : Z) :
  emin ≤ e1 → emin ≤ e2 →
  match SFadd prec emax (S754_finite false p1 e1) (S754_finite false p2 e2)
  with S754_zero _ => true | _ => false end = false.
Proof.
  intros H1 H2. cbn [SFadd cond_Zopp].
  rewrite <- Pos2Z.inj_add. cbn [binary_normalize].
  match goal with
  | |- context [binary_round _ _ false ?p ?e] =>
      pose proof (binary_round_nonzero false p e ltac:(lia)) as Hnz;
      destruct (binary_round_shape false p e)
        as [Hz | [-> | (p' & e' & -> & _)]]
  end; done.
Qed.

(** The conversion of a natural number: zero for 0, otherwise a positive
    float or infinity. *)
Lemma of_N_shape (n : N) :
  emin ≤ 0 →
  (n = 0%N ∧ binary_normalize prec emax (Z.of_N n) 0 false = S754_zero false)
  ∨ (n ≠ 0%N ∧
     (binary_normalize prec emax (Z.of_N n) 0 false = S754_infinity false ∨
      ∃ p e, binary_normalize prec emax (Z.of_N n) 0 false
             = S754_finite false p e ∧ emin ≤ e)).
Proof.
  intros Hemin.
  destruct n as [|p]; [by left|]. right. split; [done|].
  cbn [Z.of_N binary_normalize].
  destruct (binary_round_shape false p 0) as [Hz | [Hi | Hf]].
  - exfalso. revert Hz. by apply binary_round_nonzero.
  - by left.
  - by right.
Qed.

(** One plus the conversion of a natural number is not zero. *)
Lemma one_plus_N_not_zero (p1 : positive) (e1 : Z) (n : N) :
  emin ≤ 0 → emin ≤ e1 →
  match SFadd prec emax (S754_finite false p1 e1)
                        (binary_normalize prec emax (Z.of_N n) 0 false)
  with S754_zero _ => true | _ => false end = false.
Proof.
  intros Hemin He1.
  destruct (of_N_shape n Hemin)
    as [[_ ->] | [_ [-> | (p & e & -> & He)]]].
  - done.
  - done.
  - by apply SFadd_pos_not_zero.
Qed.

End Rounding.

(** ** The scores in binary32 *)

Section Binary32.
Local Open Scope Z_scope.

Lemma prec32_pos : 0 < Float32.prec.
Proof. done. Qed.

Lemma emin32 : SpecFloat.emin Float32.prec Float32.emax = -149.
Proof. reflexivity. Qed.

Lemma two_24 : 2 ^ Float32.prec = 16777216.
Proof. reflexivity. Qed.

(** The lemmas on rounding at the parameters of binary32. *)

Lemma round32_exact (s : bool) (p : positive) (e c Mb Eb : Z) :
  c ≤ e → c ≤ -149 → c ≤ Eb → -149 ≤ Eb → 0 < Mb < 16777216 →
  e ≤ 104 → Eb ≤ 104 →
  Z.pos p * 2 ^ (e - c) = Mb * 2 ^ (Eb - c) →
  ∃ p' e3,
    binary_round 24 128 s p e = S754_finite s p' e3 ∧
    -149 ≤ e3 ≤ Z.max e Eb ∧
    Z.pos p' * 2 ^ (e3 - c) = Mb * 2 ^ (Eb - c).
Proof. exact (binary_round_exact 24 128 prec32_pos s p e c Mb Eb). Qed.

Lemma add32_upper (p1 p2 : positive) (e1 e2 c Mb Eb : Z) :
  c ≤ e1 → c ≤ e2 → c ≤ -149 → c ≤ Eb → -149 ≤ Eb → 0 ≤ Mb < 16777216 →
  e1 ≤ 104 → e2 ≤ 104 → Eb ≤ 104 →
  Z.pos p1 * 2 ^ (e1 - c) + Z.pos p2 * 2 ^ (e2 - c) ≤ Mb * 2 ^ (Eb - c) →
  SFadd 24 128 (S754_finite false p1 e1) (S754_finite false p2 e2)
    = S754_zero false ∨
  ∃ p e,
    SFadd 24 128 (S754_finite false p1 e1) (S754_finite false p2 e2)
      = S754_finite false p e ∧
    -149 ≤ e ≤ Z.max (Z.min e1 e2) Eb ∧
    Z.pos p * 2 ^ (e - c) ≤ Mb * 2 ^ (Eb - c).
Proof. exact (SFadd_pos_upper 24 128 prec32_pos p1 p2 e1 e2 c Mb Eb). Qed.

Lemma add32_lower (p1 p2 : positive) (e1 e2 c Mb Eb : Z) :
  c ≤ e1 → c ≤ e2 → c ≤ -149 → c ≤ Eb → -149 ≤ Eb → 0 < Mb < 16777216 →
  Mb * 2 ^ (Eb - c) ≤ Z.pos p1 * 2 ^ (e1 - c) + Z.pos p2 * 2 ^ (e2 - c) →
  SFadd 24 128 (S754_finite false p1 e1) (S754_finite false p2 e2)
    = S754_infinity false ∨
  ∃ p e,
    SFadd 24 128 (S754_finite false p1 e1) (S754_finite false p2 e2)
      = S754_finite false p e ∧
    -149 ≤ e ∧
    Mb * 2 ^ (Eb - c) ≤ Z.pos p * 2 ^ (e - c).
Proof. exact (SFadd_pos_lower 24 128 prec32_pos p1 p2 e1 e2 c Mb Eb). Qed.

Lemma mul32_upper (p1 p2 : positive) (e1 e2 c Mb Eb : Z) :
  c ≤ e1 + e2 → c ≤ Eb → -149 ≤ Eb → 0 ≤ Mb < 16777216 →
  e1 + e2 ≤ 104 → Eb ≤ 104 →
  Z.pos p1 * Z.pos p2 * 2 ^ (e1 + e2 - c) ≤ Mb * 2 ^ (Eb - c) →
  SFmul 24 128 (S754_finite false p1 e1) (S754_finite false p2 e2)
    = S754_zero false ∨
  ∃ p e,
    SFmul 24 128 (S754_finite false p1 e1) (S754_finite false p2 e2)
      = S754_finite false p e ∧
    -149 ≤ e ≤ Z.max (e1 + e2) Eb ∧
    Z.pos p * 2 ^ (e - c) ≤ Mb * 2 ^ (Eb - c).
Proof. exact (SFmul_pos_upper 24 128 prec32_pos p1 p2 e1 e2 c Mb Eb). Qed.

Lemma sub32_pos (p1 p2 : positive) (e1 e2 c : Z) :
  c ≤ -149 → -149 ≤ e1 → -149 ≤ e2 →
  Z.pos p2 * 2 ^ (e2 - c) < Z.pos p1 * 2 ^ (e1 - c) →
  SFsub 24 128 (S754_finite false p1 e1) (S754_finite false p2 e2)
    = S754_infinity false ∨
  ∃ p e,
    SFsub 24 128 (S754_finite false p1 e1) (S754_finite false p2 e2)
      = S754_finite false p e.
Proof. exact (SFsub_pos 24 128 prec32_pos p1 p2 e1 e2 c). Qed.

Lemma div32_below_one (p1 p2 : positive) (e1 e2 c : Z) :
  c ≤ e1 → c ≤ e2 → c ≤ e1 - e2 → c ≤ -149 →
  Z.pos p1 * 2 ^ (e1 - c) * 16777216
    ≤ 16777215 * (Z.pos p2 * 2 ^ (e2 - c)) →
  SFdiv 24 128 (S754_finite false p1 e1) (S754_finite false p2 e2)
    = S754_zero false ∨
  ∃ p e,
    SFdiv 24 128 (S754_finite false p1 e1) (S754_finite false p2 e2)
      = S754_finite false p e ∧
    -149 ≤ e ≤ -24 ∧
    Z.pos p * 2 ^ (e - c) ≤ 16777215 * 2 ^ (-24 - c).
Proof.
  intros H1 H2 H12 Hc Hr.
  exact (SFdiv_below_one 24 128 prec32_pos p1 p2 e1 e2 c H1 H2 H12 Hc
           ltac:(done) ltac:(done) Hr).
Qed.

Lemma of_N32_exact (n : N) :
  (0 < n < 16777216)%N →
  float_is (Float32.of_N n) 0 (Z.of_N n * 2 ^ 200).
Proof.
  intros Hn. destruct n as [|p]; [lia|].
  unfold Float32.of_N. cbn [Z.of_N binary_normalize].
  destruct (round32_exact false p 0 (-200) (Z.pos p) 0)
    as (m & e & Hr & He & Hv); try lia.
  exists m, e. split; [done|]. split; [lia|]. rewrite Hv. done.
Qed.

Lemma of_N32_le (n : N) :
  (n < 16777216)%N →
  float_le (Float32.of_N n) 0 (Z.of_N n * 2 ^ 200).
Proof.
  intros Hn. destruct (N.eq_dec n 0%N) as [-> | Hne]; [by left|].
  destruct (of_N32_exact n ltac:(lia)) as (m & e & Hr & He & Hv).
  right. exists m, e. split; [done|]. split; [done|]. lia.
Qed.

Lemma half_le (x : spec_float) (t : Z) :
  0 ≤ t < 16777216 →
  float_le x 0 (t * 2 ^ 200) →
  float_le (Float32.mul TIE_REWARD x) 0 (t * 2 ^ 199).
Proof.
  intros Ht [-> | (m & e & -> & He & Hv)]; [by left|].
  unfold Float32.mul, TIE_REWARD.
  pose proof (pow2_pos (e + 149) ltac:(lia)) as Ha.
  assert (H200 : 2 ^ (e - -200) = 2 ^ (e + 149) * 2 ^ 51).
  { rewrite <- pow2_add by lia. f_equal. lia. }
  assert (H176 : 2 ^ (-24 + e - -200) = 2 ^ (e + 149) * 2 ^ 27).
  { rewrite <- pow2_add by lia. f_equal. lia. }
  assert (Hbound : Z.pos 8388608 * Z.pos m * 2 ^ (-24 + e - -200)
                   ≤ t * 2 ^ (-1 - -200)).
  { rewrite H176. rewrite H200 in Hv.
    change (-1 - -200) with 199.
    replace (t * 2 ^ 200) with (2 * (t * 2 ^ 199)) in Hv
      by (change (2 ^ 200) with (2 * 2 ^ 199); lia).
    set (a := 2 ^ (e + 149)) in *.
    change (2 ^ 27) with 134217728.
    change (2 ^ 51) with (16777216 * 134217728) in Hv.
    nia. }
  destruct (mul32_upper 8388608 m (-24) e (-200) t (-1)
              ltac:(lia) ltac:(lia) ltac:(lia) Ht ltac:(lia) ltac:(lia)
              Hbound)
    as [Hz | (p' & e' & Hr & He' & Hv')].
  - left. exact Hz.
  - right. exists p', e'. split; [exact Hr|]. split; [lia|]. exact Hv'.
Qed.

Lemma float_le_weaken (x : spec_float) (ehi ehi' B B' : Z) :
  ehi ≤ ehi' → B ≤ B' → float_le x ehi B → float_le x ehi' B'.
Proof.
  intros He HB [-> | (m & e & -> & Hex & Hv)]; [by left|].
  right. exists m, e. split; [done|]. split; lia.
Qed.

Lemma add32_le (x y : spec_float) (A B V : Z) :
  0 ≤ A → 0 ≤ B → 0 ≤ V < 16777216 → A + B ≤ V * 2 ^ 200 →
  float_le x 0 A → float_le y 0 B →
  float_le (Float32.add x y) 0 (V * 2 ^ 200).
Proof.
  intros HA HB HV Hsum Hx Hy. unfold Float32.add.
  destruct Hx as [-> | (m1 & e1 & -> & He1 & Hv1)];
    destruct Hy as [-> | (m2 & e2 & -> & He2 & Hv2)].
  - by left.
  - right. exists m2, e2. split; [done|]. split; [done|]. lia.
  - right. exists m1, e1. split; [done|]. split; [done|]. lia.
  - assert (Hbound : Z.pos m1 * 2 ^ (e1 - -200) + Z.pos m2 * 2 ^ (e2 - -200)
                     ≤ V * 2 ^ (0 - -200)) by (change (0 - -200) with 200; lia).
    destruct (add32_upper m1 m2 e1 e2 (-200) V 0
                ltac:(lia) ltac:(lia) ltac:(lia) ltac:(lia) ltac:(lia) HV
                ltac:(lia) ltac:(lia) ltac:(lia) Hbound)
      as [Hz | (p & e & Hr & He & Hv)].
    + by left.
    + right. exists p, e. split; [done|]. split; [lia|]. exact Hv.
Qed.

(** The divisor of [Q] is exactly one more than the visit count, up to
    [2 ^ 24]. *)
Lemma Q_denominator_exact (v : N) :
  (v < 16777216)%N →
  float_is (Q_denominator v) 1 ((Z.of_N v + 1) * 2 ^ 200).
Proof.
  intros Hv. unfold Q_denominator.
  destruct (N.eq_dec v 0%N) as [-> | Hne].
  { exists 8388608%positive, (-23). by repeat split. }
  destruct (of_N32_exact v ltac:(lia)) as (m & e & -> & He & Hval).
  unfold Float32.add, Float32.one.
  assert (Hone : Z.pos 8388608 * 2 ^ (-23 - -200) = 2 ^ 200) by done.
  assert (∃ Mb Eb, 0 < Mb < 16777216 ∧ 0 ≤ Eb ≤ 1 ∧
                   Mb * 2 ^ (Eb - -200) = (Z.of_N v + 1) * 2 ^ 200)
    as (Mb & Eb & HMb & HEb & HB).
  { destruct (Z.eq_dec (Z.of_N v + 1) 16777216) as [Heq | Hneq].
    - exists 8388608, 1. rewrite Heq. by repeat split.
    - exists (Z.of_N v + 1), 0. split; [lia|]. split; [lia|].
      by change (0 - -200) with 200. }
  destruct (add32_upper 8388608 m (-23) e (-200) Mb Eb)
    as [Hz | (p1 & x1 & Hr1 & Hx1 & Hv1)]; try lia;
  destruct (add32_lower 8388608 m (-23) e (-200) Mb Eb)
    as [Hi | (p2 & x2 & Hr2 & Hx2 & Hv2)]; try lia; try congruence.
  rewrite Hr1 in Hr2. injection Hr2 as <- <-.
  exists p1, x1. split; [done|]. split; [lia|]. lia.
Qed.

Lemma div32_le (x y : spec_float) (v : Z) :
  0 ≤ v < 16777216 →
  float_le x 0 (v * 2 ^ 200) →
  float_is y 1 ((v + 1) * 2 ^ 200) →
  float_le (Float32.div x y) (-24) (16777215 * 2 ^ 176).
Proof.
  intros Hv Hx (m2 & e2 & -> & He2 & Hv2). unfold Float32.div.
  destruct Hx as [-> | (m1 & e1 & -> & He1 & Hv1)]; [by left|].
  assert (Hratio : Z.pos m1 * 2 ^ (e1 - -200) * 16777216
                   ≤ 16777215 * (Z.pos m2 * 2 ^ (e2 - -200))).
  { rewrite Hv2. pose proof (pow2_pos 200 ltac:(lia)). nia. }
  destruct (div32_below_one m1 m2 e1 e2 (-200)
              ltac:(lia) ltac:(lia) ltac:(lia) ltac:(lia) Hratio)
    as [Hz | (p & e & Hr & He & Hval)].
  - by left.
  - right. exists p, e. split; [done|]. split; [lia|]. exact Hval.
Qed.

(** A float of exponent at most -24 is below 1, not below 0, and 1 minus
    it is positive. *)
Lemma below_one_facts (q : spec_float) :
  float_le q (-24) (16777215 * 2 ^ 176) →
  SFleb Float32.zero q = true ∧
  Float32.ltb q Float32.one = true ∧
  Float32.ltb Float32.zero (Float32.sub Float32.one q) = true.
Proof.
  intros [-> | (m & e & -> & He & Hv)]; [by repeat split|].
  split; [done|]. split.
  - unfold Float32.ltb, SFltb, Float32.one. cbn [SFcompare].
    by rewrite (proj2 (Z.compare_lt_iff e (-23))) by lia.
  - change (Float32.sub Float32.one (S754_finite false m e))
      with (SFsub 24 128 (S754_finite false 8388608 (-23))
                         (S754_finite false m e)).
    destruct (sub32_pos 8388608 m (-23) e (-200))
      as [-> | (p & x & ->)]; try lia; try done.
Qed.

(** C10, as the code has it.  For a node with [wins + ties <= visits]
    and fewer than [2 ^ 24] visits, the binary32 value [Q()] is at least
    0 and strictly below 1, and [1 - Q()], the term [max_PUCT] uses, is
    strictly positive. *)
Theorem Q_below_one_up_to_2_24 (w t v : N) :
  (w + t ≤ v)%N → (v < 16777216)%N →
  SFleb Float32.zero (Q_value w t v) = true ∧
  Float32.ltb (Q_value w t v) Float32.one = true ∧
  Float32.ltb Float32.zero (Float32.sub Float32.one (Q_value w t v)) = true.
Proof.
  intros Hwt Hv. apply below_one_facts. unfold Q_value.
  apply (div32_le _ _ (Z.of_N v)); [lia| |by apply Q_denominator_exact].
  pose proof (pow2_pos 199 ltac:(lia)) as H199.
  assert (H200 : 2 ^ 200 = 2 * 2 ^ 199) by done.
  apply (add32_le _ _ (Z.of_N w * 2 ^ 200) (Z.of_N t * 2 ^ 199)).
  - lia.
  - lia.
  - lia.
  - rewrite H200. nia.
  - apply of_N32_le. lia.
  - apply half_le; [lia|]. apply of_N32_le. lia.
Qed.

End Binary32.

Section Divisors.
Local Open Scope Z_scope.
Context {Board Move : Type} `{Game Board Move}.

Lemma Q_denominator_not_zero (v : N) :
  Float32.is_zero (Q_denominator v) = false.
Proof.
  exact (one_plus_N_not_zero 24 128 prec32_pos 8388608 (-23) v
           ltac:(done) ltac:(done)).
Qed.

Lemma U_denominator_not_zero (v : N) :
  Float64.is_zero (U_denominator v) = false.
Proof.
  exact (one_plus_N_not_zero 53 1024 ltac:(done) 4503599627370496 (-52) v
           ltac:(done) ltac:(done)).
Qed.

Lemma of_N32_zero_iff (n : N) :
  Float32.is_zero (Float32.of_N n) = true ↔ n = 0%N.
Proof.
  split; [|by intros ->].
  destruct (of_N_shape 24 128 prec32_pos n ltac:(done))
    as [[-> _] | [_ [Hi | (p & e & Hf & _)]]]; [done| |].
  - unfold Float32.of_N. change Float32.prec with 24.
    change Float32.emax with 128. by rewrite Hi.
  - unfold Float32.of_N. change Float32.prec with 24.
    change Float32.emax with 128. by rewrite Hf.
Qed.

(** C9, as the code has it.  The divisors [1.0f + visits] of [Q] and
    [1.0 + visits] of [U] are never zero, whatever the visit count.  The
    divisor of the hit rate is the lookup counter converted to [float],
    without a smoothing term: it is zero exactly when no lookup has been
    counted. *)
Theorem divisors_of_ratios :
  (∀ v, Float32.is_zero (Q_denominator v) = false) ∧
  (∀ v, Float64.is_zero (U_denominator v) = false) ∧
  (∀ st : MCTSTree Board Move,
     Float32.is_zero (hitrate_denominator st) = true
     ↔ total_lookups st = 0%N).
Proof.
  split; [exact Q_denominator_not_zero|].
  split; [exact U_denominator_not_zero|].
  intros st. apply of_N32_zero_iff.
Qed.

End Divisors.

(** On a fresh tree the hit rate divides by zero. *)
Lemma hitrate_divides_by_zero :
  ¬ claimed_no_zero_divisor (Board := nat) (Move := nat).
Proof.
  intros (_ & _ & Hh). specialize (Hh empty_tree). discriminate Hh.
Qed.

Lemma Q_below_one_up_to_2_24_witness :
  (5 + 0 ≤ 8)%N ∧ (8 < 16777216)%N ∧
  SFleb Float32.zero (Q_value 5 0 8) = true ∧
  Float32.ltb (Q_value 5 0 8) Float32.one = true ∧
  Float32.ltb Float32.zero (Float32.sub Float32.one (Q_value 5 0 8)) = true.
Proof.
  split; [lia|]. split; [lia|].
  apply (Q_below_one_up_to_2_24 5 0 8); lia.
Defined.

(** With [wins = visits = 2 ^ 24] the sum [1.0f + visits] is rounded to
    [2 ^ 24] and [Q()] is exactly 1. *)
Lemma Q_is_one_at_2_24 : ¬ claimed_Q_below_one.
Proof.
  intros Hclaim.
  destruct (Hclaim 16777216%N 0%N 16777216%N ltac:(lia)) as (_ & Hlt & _).
  vm_compute in Hlt. discriminate Hlt.
Qed.


Section Closure.
Context {Board Move : Type} `{Game Board Move}.
Abbreviation Node := (MCTSNode Board Move).
Abbreviation Tree := (MCTSTree Board Move).

Lemma U_parents_kept (st : Tree) (ps : list weak_ptr) (n : N) :
  (U_parents st ps n).1 = filter (λ w, expired st w = false) ps.
Proof.
  revert n. induction ps as [|w ps IH]; intros n; [done|].
  cbn [U_parents].
  destruct (w ≫= node_at st) as [p|] eqn:Hw.
  - assert (He : expired st w = false).
    { destruct w as [a|]; [|done]. simpl in *. unfold node_at in Hw.
      by rewrite bool_decide_eq_false_2 by (by rewrite Hw). }
    rewrite filter_cons_True by done.
    specialize (IH (wrap32 (n + visits p))).
    destruct (U_parents st ps _) as [kept m]. simpl in *. by rewrite IH.
  - assert (He : expired st w = true).
    { destruct w as [a|]; [|done]. simpl in *. unfold node_at in Hw.
      by rewrite bool_decide_eq_true_2. }
    rewrite filter_cons_False by (by rewrite He). apply IH.
Qed.

Lemma drops_expired_filter (st : Tree) (ps : list weak_ptr) :
  drops_expired st ps (filter (λ w, expired st w = false) ps).
Proof.
  split; [apply sublist_filter|].
  intros w Hw He. by apply list_elem_of_filter.
Qed.

Lemma drops_expired_delete (st : Tree) (ps : list weak_ptr) (i : nat) w :
  ps !! i = Some w → expired st w = true →
  drops_expired st ps (delete i ps).
Proof.
  intros Hi He. split; [apply sublist_delete|].
  intros w' Hw' He'.
  apply list_elem_of_lookup in Hw' as [j Hj].
  assert (j ≠ i) by (intros ->; congruence).
  apply list_elem_of_lookup.
  destruct (decide (j < i)).
  - exists j. by rewrite list_lookup_delete_lt.
  - exists (pred j). rewrite list_lookup_delete_ge by lia.
    by replace (S (pred j)) with j by lia.
Qed.

Variable P : Tree → Prop.
Hypothesis P_get_node :
  ∀ st b p a st', P st → get_node st b p = Some (a, st') → P st'.
Hypothesis P_expand :
  ∀ st this st', P st → expand st this = Some st' → P st'.
Hypothesis P_filicide :
  ∀ held st this st', P st → filicide_held held st this = Some st' → P st'.
Hypothesis P_release :
  ∀ held st released, P st → P (release held st released).
Hypothesis P_visit : ∀ st a, P st → P (visit st a).
Hypothesis P_score :
  ∀ st a w, P st → P (update_node st a (backpropagate_node w)).
Hypothesis P_parents :
  ∀ st a (g : Node → list weak_ptr),
    (∀ nd, node_at st a = Some nd → drops_expired st (parents nd) (g nd)) →
    P st → P (update_node st a (λ n, set_parents n (g n))).

Lemma closed_U (st st' : Tree) this u :
  P st → U st this = Some (u, st') → P st'.
Proof.
  intros HP. unfold U.
  destruct (node_at st this) as [nd|] eqn:Hnd; [|done]. simpl.
  pose proof (U_parents_kept st (parents nd) 0) as Hk.
  destruct (U_parents st (parents nd) 0) as [kept n]. simpl in Hk.
  intros [= _ <-].
  apply (P_parents st this (λ _, kept)); [|done].
  intros nd' Hnd'. rewrite Hnd in Hnd'. injection Hnd' as <-.
  rewrite Hk. apply drops_expired_filter.
Qed.

Lemma closed_PUCT (st st' : Tree) this u :
  P st → PUCT st this = Some (u, st') → P st'.
Proof.
  intros HP. unfold PUCT.
  destruct (Q st this) as [q|]; [|done]. simpl.
  destruct (U st this) as [[u' st1]|] eqn:HU; [|done]. simpl.
  intros [= _ <-]. by eapply closed_U.
Qed.

Lemma closed_max_PUCT_children (cs : list addr) acc best node (st' : Tree) :
  (∀ b n s, acc = Some (b, n, s) → P s) →
  foldl max_PUCT_child acc cs = Some (best, node, st') → P st'.
Proof.
  revert acc. induction cs as [|c cs IH]; intros acc Hacc Hf.
  - simpl in Hf. eauto.
  - simpl in Hf. eapply IH; [|exact Hf].
    intros b n s Hstep. unfold max_PUCT_child in Hstep.
    destruct acc as [[[b0 n0] s0]|]; [|done]. simpl in Hstep.
    destruct (Q s0 c) as [q|]; [|done]. simpl in Hstep.
    destruct (U s0 c) as [[u s1]|] eqn:HU; [|done]. simpl in Hstep.
    assert (s = s1) as -> by (destruct (Float32.ltb _ _); congruence).
    eapply closed_U; [|exact HU]. eauto.
Qed.

Lemma closed_max_PUCT (st st' : Tree) this r :
  P st → max_PUCT st this = Some (r, st') → P st'.
Proof.
  intros HP. unfold max_PUCT.
  destruct (node_at st this) as [nd|]; [|done]. simpl.
  destruct (foldl _ _ _) as [[[b n] s]|] eqn:Hf; [|done]. simpl.
  intros [= _ <-]. eapply closed_max_PUCT_children; [|exact Hf].
  by intros ??? [= _ _ <-].
Qed.

Lemma closed_select_loop (fuel : nat) (st st' : Tree) cur path0 path :
  P st → select_loop fuel st cur path0 = Some (path, st') → P st'.
Proof.
  revert st cur path0. induction fuel as [|fuel IH]; intros st cur path0 HP Hs.
  - done.
  - cbn [select_loop] in Hs.
    destruct (node_at st cur) as [nd|]; [|done].
    rewrite bind_Some in Hs. destruct Hs as (nd0 & [= <-] & Hs).
    destruct (expanded nd).
    + destruct (max_PUCT st cur) as [[new_node st1]|] eqn:Hmax; [|done].
      simpl in Hs. destruct new_node as [cur'|]; [|done]. simpl in Hs.
      eapply IH; [|exact Hs]. apply P_visit. by eapply closed_max_PUCT.
    + injection Hs as <- <-. by apply P_visit.
Qed.

Lemma closed_backpropagate (st : Tree) (b : Board) path :
  P st → P (backpropagate st b path).
Proof.
  unfold backpropagate. revert st.
  induction path as [|x path IH]; intros st HP; [done|].
  simpl. apply IH. by apply P_score.
Qed.

Lemma closed_prune_children_loop (held : list addr) (k : nat) Qs
    (st st' : Tree) this i :
  P st → prune_children_loop held k Qs st this i = Some st' → P st'.
Proof.
  revert st i. induction k as [|k IH]; intros st i HP Hl.
  - simpl in Hl. by injection Hl as <-.
  - cbn [prune_children_loop] in Hl.
    destruct (node_at st this) as [nd|]; [|done].
    rewrite bind_Some_eq in Hl.
    destruct (children nd !! i) as [child|]; [|by injection Hl as <-].
    destruct (Q st child) as [q|]; [|done]. rewrite bind_Some_eq in Hl.
    destruct (U st child) as [[u st1]|] eqn:HU; [|done].
    rewrite bind_Some_eq in Hl. cbn beta iota zeta in Hl.
    pose proof (closed_U _ _ _ _ HP HU) as HP1.
    destruct (prunable Qs (length (children nd)) i (Float32.add q u)).
    + destruct (filicide_held held st1 child) as [st2|] eqn:Hf; [|done].
      rewrite bind_Some_eq in Hl. eapply IH; [|exact Hl]. by eapply P_filicide.
    + rewrite bind_Some_eq in Hl. by eapply IH; [|exact Hl].
Qed.

Lemma closed_prune_children (held : list addr) (st st' : Tree) this :
  P st → prune_children_held held st this = Some st' → P st'.
Proof.
  intros HP. unfold prune_children_held.
  destruct (node_at st this) as [nd|]; [|done]. simpl.
  destruct (prune_children_Qs st (children nd)) as [Qs|]; [|done]. simpl.
  by apply closed_prune_children_loop.
Qed.

Lemma closed_filicide_child (held : list addr) (st st' : Tree) owner child :
  P st → filicide_child held st owner child = Some st' → P st'.
Proof.
  intros HP. unfold filicide_child. destruct (decide _).
  - destruct (node_at st owner) as [nd|]; [|done]. simpl.
    destruct (expanded nd); [done|]. by intros [= <-].
  - by apply P_filicide.
Qed.

Lemma closed_children_loop (f : option Tree → addr → option Tree)
    (cs : list addr) (st st' : Tree) :
  (∀ s s' c, P s → f (Some s) c = Some s' → P s') →
  (∀ c, f None c = None) →
  P st → foldl f (Some st) cs = Some st' → P st'.
Proof.
  intros Hf Hnone. revert st.
  induction cs as [|c cs IH]; intros st HP Hl.
  - simpl in Hl. by injection Hl as <-.
  - simpl in Hl. destruct (f (Some st) c) as [s1|] eqn:Hs.
    + eapply IH; [|exact Hl]. by eapply Hf.
    + exfalso. clear -Hl Hnone. induction cs as [|c' cs IH']; [done|].
      simpl in Hl. rewrite Hnone in Hl. auto.
Qed.

Lemma closed_prune_ancestors_parents (up : Tree → addr → option Tree)
    (held : list addr) (k : nat) (st st' : Tree) this i :
  (∀ s p s', P s → up s p = Some s' → P s') →
  P st → prune_ancestors_parents up held k st this i = Some st' → P st'.
Proof.
  intros Hup. revert st i. induction k as [|k IH]; intros st i HP Hl; [done|].
  cbn [prune_ancestors_parents] in Hl.
  destruct (node_at st this) as [nd|] eqn:Hnd; [|done].
  rewrite bind_Some_eq in Hl.
  destruct (parents nd !! i) as [w|] eqn:Hw; [|by injection Hl as <-].
  destruct (expired st w) eqn:He.
  - eapply IH; [|exact Hl].
    apply (P_parents st this (λ n, delete i (parents n))); [|done].
    intros nd' Hnd'. rewrite Hnd in Hnd'. injection Hnd' as <-.
    by eapply drops_expired_delete.
  - destruct w as [p|]; [|done]. rewrite bind_Some_eq in Hl.
    destruct (up st p) as [s1|] eqn:Hs; [|done]. rewrite bind_Some_eq in Hl.
    eapply IH; [|exact Hl]. apply P_release. by eapply Hup.
Qed.

Lemma closed_prune_ancestors_rec (fuel : nat) (held : list addr)
    (st st' : Tree) this keep :
  P st → prune_ancestors_rec fuel held st this keep = Some st' → P st'.
Proof.
  revert held st st' this keep.
  induction fuel as [|fuel IH]; intros held st st' this keep HP Hr; [done|].
  rewrite prune_ancestors_rec_S in Hr.
  destruct (node_at st this) as [nd|]; [|done]. rewrite bind_Some_eq in Hr.
  apply bind_Some in Hr as (st1 & Hst1 & Hr).
  eapply closed_prune_ancestors_parents; [| |exact Hr].
  - intros s p s' Hs Hup. exact (IH _ _ _ _ _ Hs Hup).
  - destruct (decide (this = keep)); [by injection Hst1 as <-|].
    eapply closed_children_loop; [| |exact HP|exact Hst1].
    + intros s s' c Hs Hc. unfold prune_ancestors_child in Hc.
      rewrite bind_Some_eq in Hc. destruct (decide _).
      * by injection Hc as <-.
      * by eapply closed_filicide_child.
    + done.
Qed.

Lemma closed_prune_loop (held : list addr) (queue : list addr)
    (st st' : Tree) max_size :
  P st → prune_loop held queue st max_size = Returned st' → P st'.
Proof.
  revert st. induction queue as [|node queue IH]; intros st HP Hl.
  - simpl in Hl. destruct (_ <? _)%N; [done|]. by injection Hl as <-.
  - cbn [prune_loop] in Hl. destruct (_ <? _)%N; [|by injection Hl as <-].
    destruct (node_at st node) as [nd|]; [|done].
    destruct (foldl _ _ _) as [st1|] eqn:Hf; [|done].
    eapply IH; [|exact Hl].
    eapply closed_children_loop; [| |exact HP|exact Hf].
    + intros s s' c Hs Hc. unfold prune_child in Hc.
      rewrite bind_Some_eq in Hc.
      destruct (node_at s c) as [cn|]; [|done]. rewrite bind_Some_eq in Hc.
      destruct (_ <=? _)%N; [|by injection Hc as <-].
      by eapply closed_filicide_child.
    + done.
Qed.

Lemma closed_mcts_iteration (fuel : nat) rand k (st st' : Tree) node k' :
  P st → mcts_iteration fuel rand k st node = Some (st', k') → P st'.
Proof.
  intros HP Hit. unfold mcts_iteration in Hit.
  destruct (select fuel st node) as [[path st1]|] eqn:Hsel; [|done].
  simpl in Hit.
  destruct (last path) as [leaf|]; [|done]. simpl in Hit.
  destruct (node_at st1 leaf) as [lf|]; [|done]. simpl in Hit.
  destruct (simulate fuel rand k (board lf)) as [[b k1]|]; [|done].
  simpl in Hit.
  assert (P (backpropagate st1 b path)) as HP2.
  { apply closed_backpropagate. by eapply closed_select_loop. }
  destruct (decide _).
  - destruct (expand _ leaf) as [st3|] eqn:Hex; [|done].
    injection Hit as <- <-. by eapply P_expand.
  - by injection Hit as <- <-.
Qed.

Lemma closed_mcts_loop (fuel : nat) rand n :
  ∀ k (st st' : Tree) node k',
    P st → mcts_loop fuel rand k st node n = Some (st', k') → P st'.
Proof.
  induction n as [|n IH]; intros k st st' node k' HP Hl; simpl in Hl.
  - by injection Hl as <- <-.
  - destruct (mcts_iteration fuel rand k st node) as [[st1 k1]|] eqn:Hit;
      [|done].
    simpl in Hl. eapply IH; [|exact Hl]. by eapply closed_mcts_iteration.
Qed.

Lemma closed_step (st st' : Tree) : api_step st st' → P st → P st'.
Proof.
  intros Hstep HP. destruct Hstep.
  - by eapply P_get_node.
  - by eapply P_expand.
  - by eapply P_filicide.
  - by eapply closed_U.
  - by eapply closed_PUCT.
  - by eapply closed_max_PUCT.
  - by eapply closed_select_loop.
  - by apply closed_backpropagate.
  - by eapply closed_prune_children.
  - by eapply closed_prune_ancestors_rec.
  - by eapply closed_prune_loop.
  - by apply P_release.
  - unfold mcts in *.
    destruct (get_node st b None) as [[node st1]|] eqn:Hg; [|done].
    simpl in *. eapply closed_mcts_loop; [|eassumption]. by eapply P_get_node.
Qed.

Lemma closed_steps (st st' : Tree) : rtc api_step st st' → P st → P st'.
Proof. induction 1; eauto using closed_step. Qed.

End Closure.

Section Consistency.
Context {Board Move : Type} `{Game Board Move}.
Abbreviation Node := (MCTSNode Board Move).
Abbreviation Tree := (MCTSTree Board Move).

Lemma consistent_empty : consistent (empty_tree : Tree).
Proof.
  split; simpl; try done.
  - intros b a. unfold node_at. simpl. rewrite lookup_empty. split; [done|].
    intros (nd & Hnd & _). by rewrite lookup_empty in Hnd.
  - intros a [nd Hnd]. unfold node_at in Hnd. simpl in Hnd.
    by rewrite lookup_empty in Hnd.
Qed.

(** Changes of the root vector and of the lookup and hit counters. *)
Lemma consistent_counters (st st' : Tree) :
  heap st' = heap st →
  transposition_table st' = transposition_table st →
  next_addr st' = next_addr st →
  total_fillicides st' = total_fillicides st →
  total_lookups st' = (total_hits st' + N.of_nat (next_addr st'))%N →
  consistent st → consistent st'.
Proof.
  intros Hh Ht Hn Hf Hl [H1 Hs H2 H3 H4].
  split; unfold node_at in *; rewrite ?Hh, ?Ht, ?Hn, ?Hf; try done.
  by rewrite <- Hn.
Qed.

Lemma consistent_update (st : Tree) (a : addr) (f : Node → Node) :
  (∀ n, board (f n) = board n) →
  consistent st → consistent (update_node st a f).
Proof.
  intros Hf [H1 Hs H2 H3 H4].
  assert (Hsize : size (heap (update_node st a f)) = size (heap st)).
  { unfold update_node. simpl. rewrite <- !size_dom. by rewrite dom_alter_L. }
  split.
  - intros b x.
    change (transposition_table (update_node st a f))
      with (transposition_table st).
    rewrite H1. destruct (decide (a = x)) as [<- | Hne].
    + rewrite node_at_update. split.
      * intros (nd & -> & Hb). exists (f nd). by rewrite Hf.
      * intros (nd' & Hnd' & Hb).
        destruct (node_at st a) as [nd|]; [|done].
        injection Hnd' as <-. exists nd. by rewrite <- Hf.
    + by rewrite node_at_update_ne.
  - by rewrite Hsize.
  - intros x. destruct (decide (a = x)) as [<- | Hne].
    + rewrite node_at_update. intros Hx. apply H2.
      by destruct (node_at st a).
    + rewrite node_at_update_ne by done. apply H2.
  - change (next_addr (update_node st a f)) with (next_addr st).
    change (total_fillicides (update_node st a f)) with (total_fillicides st).
    by rewrite Hsize.
  - done.
Qed.

Lemma consistent_destroy (st : Tree) (a : addr) (nd : Node) :
  node_at st a = Some nd →
  consistent st → consistent (destroy (a, nd) st).
Proof.
  intros Ha [H1 Hs H2 H3 H4].
  assert (Hnz : size (heap st) ≠ 0).
  { intros Hz. apply map_size_empty_inv in Hz. unfold node_at in Ha.
    rewrite Hz in Ha. by rewrite lookup_empty in Ha. }
  assert (Hentry : transposition_table st !! board nd = Some a)
    by (apply H1; eauto).
  assert (Hinj : ∀ x nx, node_at st x = Some nx → board nx = board nd → x = a).
  { intros x nx Hx Hb.
    assert (transposition_table st !! board nd = Some x) as Hx'
      by (apply H1; eauto).
    assert (transposition_table st !! board nd = Some a) as Ha'
      by (apply H1; eauto).
    congruence. }
  split; unfold node_at in *; simpl.
  - intros b x. destruct (decide (b = board nd)) as [-> | Hb].
    + rewrite lookup_delete_eq. split; [done|].
      intros (nx & Hx & Hbx). exfalso.
      destruct (decide (a = x)) as [<- | Hne].
      * by rewrite lookup_delete_eq in Hx.
      * rewrite lookup_delete_ne in Hx by done. apply Hne. symmetry. eauto.
    + rewrite lookup_delete_ne by done. rewrite H1. split.
      * intros (nx & Hx & Hbx). exists nx. split; [|done].
        rewrite lookup_delete_ne; [done|]. intros <-. congruence.
      * intros (nx & Hx & Hbx). exists nx. split; [|done].
        destruct (decide (a = x)) as [<- | Hne].
        -- by rewrite lookup_delete_eq in Hx.
        -- by rewrite lookup_delete_ne in Hx.
  - rewrite !map_size_delete, Ha, Hentry. by rewrite Hs.
  - intros x [nx Hx]. apply H2. exists nx.
    destruct (decide (a = x)) as [<- | Hne].
    + by rewrite lookup_delete_eq in Hx.
    + by rewrite lookup_delete_ne in Hx.
  - rewrite map_size_delete, Ha. lia.
  - done.
Qed.

Lemma consistent_destroys (held : list addr) (st st' : Tree) :
  destroys held st st' → consistent st → consistent st'.
Proof.
  induction 1 as [|s a nd s' Ha _ _ _ IH]; [done|].
  intros Hc. apply IH. by apply consistent_destroy.
Qed.

Lemma consistent_release (held : list addr) (st : Tree) released :
  consistent st → consistent (release held st released).
Proof. apply consistent_destroys with held, release_destroys. Qed.

Lemma consistent_filicide (held : list addr) (st st' : Tree) this :
  consistent st → filicide_held held st this = Some st' → consistent st'.
Proof.
  intros Hc. unfold filicide_held.
  destruct (node_at st this) as [nd|]; [|done]. simpl.
  destruct (expanded nd); intros [= <-]; [|done].
  apply consistent_release. by apply consistent_update.
Qed.

Lemma consistent_get_node_create (st st' : Tree) b p a :
  transposition_table st !! b = None →
  (∀ b a, transposition_table st !! b = Some a ↔
          ∃ nd, node_at st a = Some nd ∧ board nd = b) →
  size (transposition_table st) = size (heap st) →
  (∀ a, is_Some (node_at st a) → a < next_addr st) →
  (N.of_nat (size (heap st)) + total_fillicides st
   = N.of_nat (next_addr st))%N →
  total_lookups st = (total_hits st + N.of_nat (S (next_addr st)))%N →
  get_node_create st b p = (a, st') →
  consistent st'.
Proof.
  intros Hb H1 Hs H2 H3 H4. unfold node_at in *.
  unfold get_node_create. intros [= <- <-].
  assert (Hfresh : heap st !! next_addr st = None).
  { destruct (heap st !! next_addr st) eqn:Hx; [|done].
    assert (next_addr st < next_addr st); [|lia]. apply H2. by eexists. }
  assert (Hc : consistent
    (mkTree (<[next_addr st := new_MCTSNode b p]> (heap st))
            (S (next_addr st))
            (table_insert b (next_addr st) (transposition_table st))
            (roots st)
            (total_lookups st) (total_hits st) (total_fillicides st))).
  { split; unfold node_at; simpl.
    - intros b' x. unfold table_insert. rewrite Hb.
      destruct (decide (b = b')) as [<- | Hbne].
      + rewrite lookup_insert_eq. split.
        * intros [= <-]. exists (new_MCTSNode b p).
          by rewrite lookup_insert_eq.
        * intros (nx & Hx & Hbx).
          destruct (decide (next_addr st = x)) as [<- | Hne]; [done|].
          rewrite lookup_insert_ne in Hx by done.
          assert (transposition_table st !! b = Some x) as Hcontra
            by (apply H1; eauto).
          congruence.
      + rewrite lookup_insert_ne by done. rewrite H1. split.
        * intros (nx & Hx & Hbx). exists nx. split; [|done].
          rewrite lookup_insert_ne; [done|]. intros <-. congruence.
        * intros (nx & Hx & Hbx). exists nx. split; [|done].
          destruct (decide (next_addr st = x)) as [<- | Hne].
          -- rewrite lookup_insert_eq in Hx. injection Hx as <-. done.
          -- by rewrite lookup_insert_ne in Hx.
    - unfold table_insert. rewrite Hb.
      rewrite !map_size_insert, Hfresh, Hb. simpl. by rewrite Hs.
    - intros x [nx Hx].
      destruct (decide (next_addr st = x)) as [<- | Hne]; [lia|].
      rewrite lookup_insert_ne in Hx by done.
      assert (x < next_addr st); [|lia]. apply H2. by eexists.
    - rewrite map_size_insert, Hfresh. simpl. lia.
    - lia. }
  destruct p; [done|].
  eapply consistent_counters; [..|exact Hc]; done.
Qed.

Lemma consistent_get_node (st st' : Tree) b p a :
  consistent st → get_node st b p = Some (a, st') → consistent st'.
Proof.
  intros Hc Hg. pose proof Hc as [H1 Hs H2 H3 H4]. unfold get_node in Hg.
  change (transposition_table (bump_lookups st))
    with (transposition_table st) in Hg.
  destruct (transposition_table st !! b) as [a0|] eqn:Ht.
  - apply H1 in Ht as (nd0 & Hnd0 & Hb0).
    change (node_at (bump_lookups st) a0) with (node_at st a0) in Hg.
    rewrite Hnd0 in Hg. unfold get_node_reuse in Hg.
    apply bind_Some in Hg as (st1 & Hst1 & Hg). injection Hg as <- <-.
    assert (Hst1' : heap st1 = heap st ∧
                    transposition_table st1 = transposition_table st ∧
                    next_addr st1 = next_addr st ∧
                    total_fillicides st1 = total_fillicides st ∧
                    total_lookups st1 = (total_lookups st + 1)%N ∧
                    total_hits st1 = total_hits st).
    { destruct (_ && _).
      - apply fmap_Some in Hst1 as (r & _ & ->). done.
      - injection Hst1 as <-. done. }
    destruct Hst1' as (Hh & Htb & Hn & Hf & Hl & Hhit).
    assert (Hc1 : consistent (bump_hits st1)).
    { eapply consistent_counters; [..|exact Hc]; simpl; try done.
      rewrite Hl, Hhit, Hn, H4. lia. }
    destruct p as [p|]; [|done].
    change (bump_hits (update_node st1 a0
              (λ n, set_parents n (parents n ++ [Some p]))))
      with (update_node (bump_hits st1) a0
              (λ n, set_parents n (parents n ++ [Some p]))).
    by apply consistent_update.
  - apply (inj Some) in Hg.
    eapply consistent_get_node_create; [| | | | | |exact Hg]; simpl; try done.
    rewrite H4. lia.
Qed.

Lemma foldl_option_None {A B} (f : option A → B → option A) (l : list B) :
  (∀ x, f None x = None) → foldl f None l = None.
Proof. intros Hf. induction l as [|x l IH]; [done|]. simpl. by rewrite Hf. Qed.

Lemma consistent_expand (st st' : Tree) this :
  consistent st → expand st this = Some st' → consistent st'.
Proof.
  intros Hc. unfold expand.
  destruct (node_at st this) as [nd|]; [|done]. simpl.
  assert (Hc1 : consistent
            (update_node st this (λ n, set_visits n (visits n + 1)%N)))
    by (by apply consistent_update).
  destruct (expanded nd); [by intros [= <-]|].
  revert Hc1. generalize (update_node st this
                            (λ n, set_visits n (visits n + 1)%N)).
  induction (moves nd) as [|m ms IH]; intros s Hs Hf.
  - simpl in Hf. by injection Hf as <-.
  - cbn [foldl] in Hf.
    destruct (expand_move this (board nd) (Some s) m) as [s3|] eqn:Hstep.
    2: { by rewrite expand_move_None in Hf. }
    apply (IH s3); [|done].
    unfold expand_move in Hstep. rewrite bind_Some_eq in Hstep.
    cbn zeta in Hstep.
    destruct (get_node _ (move (board nd) m) (Some this)) as [[c s2]|] eqn:Hg;
      [|done].
    rewrite bind_Some_eq in Hstep. injection Hstep as <-.
    apply consistent_update; [done|].
    eapply consistent_get_node; [|exact Hg]. by apply consistent_update.
Qed.

Lemma step_consistent (st st' : Tree) :
  api_step st st' → consistent st → consistent st'.
Proof.
  apply (closed_step consistent).
  - intros ?????. apply consistent_get_node.
  - intros ???. apply consistent_expand.
  - intros ????. apply consistent_filicide.
  - intros ???. apply consistent_release.
  - intros ??. by apply consistent_update.
  - intros ???. apply consistent_update. intros n.
    unfold backpropagate_node. by repeat destruct (decide _).
  - intros ?????. by apply consistent_update.
Qed.

Lemma reachable_consistent (st : Tree) : reachable st → consistent st.
Proof.
  intros Hr. eapply (closed_steps consistent); [..|exact Hr|].
  - intros ?????. apply consistent_get_node.
  - intros ???. apply consistent_expand.
  - intros ????. apply consistent_filicide.
  - intros ???. apply consistent_release.
  - intros ??. by apply consistent_update.
  - intros ???. apply consistent_update. intros n.
    unfold backpropagate_node. by repeat destruct (decide _).
  - intros ?????. by apply consistent_update.
  - apply consistent_empty.
Qed.

End Consistency.

Section TableFacts.
Context {Board Move : Type} `{Game Board Move}.
Abbreviation Node := (MCTSNode Board Move).
Abbreviation Tree := (MCTSTree Board Move).

(** X1.  In every tree built by the public operations the transposition
    table mirrors the store: an entry for a board designates a live node
    holding that board, every live node is entered under its board, no
    two live nodes hold the same board, and [transposition_size] is the
    number of live nodes. *)
Theorem table_mirrors_live_nodes (st : Tree) :
  reachable st →
  (∀ b a, transposition_table st !! b = Some a ↔
          ∃ nd, node_at st a = Some nd ∧ board nd = b) ∧
  (∀ a1 a2 n1 n2, node_at st a1 = Some n1 → node_at st a2 = Some n2 →
                  board n1 = board n2 → a1 = a2) ∧
  transposition_size st = N.of_nat (size (heap st)).
Proof.
  intros Hr. destruct (reachable_consistent st Hr) as [H1 Hs _ _ _].
  split; [exact H1|]. split.
  - intros a1 a2 n1 n2 Ha1 Ha2 Hb.
    assert (transposition_table st !! board n1 = Some a1) as E1
      by (apply H1; eauto).
    assert (transposition_table st !! board n1 = Some a2) as E2
      by (apply H1; eauto).
    congruence.
  - unfold transposition_size. by rewrite Hs.
Qed.

(** X2.  Every lookup is accounted for: it was a hit, or it created a
    node that is still in the table, or it created a node whose destructor
    has run since.  [purges] therefore counts destroyed nodes, and the
    hits never exceed the lookups. *)
Theorem lookups_accounted (st : Tree) :
  reachable st →
  total_lookups st
  = (total_hits st + transposition_size st + purges st)%N.
Proof.
  intros Hr. destruct (reachable_consistent st Hr) as [_ Hs _ H3 H4].
  unfold transposition_size, purges. rewrite H4, <- H3, Hs. lia.
Qed.

(** What a [get_node] that returns has done, on a tree built by the
    public operations. *)
Lemma get_node_result (st st' : Tree) b p a :
  reachable st →
  get_node st b p = Some (a, st') →
  transposition_table st' !! b = Some a ∧
  (∃ nd, node_at st' a = Some nd ∧ board nd = b ∧
         ∀ q, p = Some q → Some q ∈ parents nd) ∧
  total_lookups st' = (total_lookups st + 1)%N ∧
  match transposition_table st !! b with
  | Some a0 =>
      a = a0 ∧ total_hits st' = (total_hits st + 1)%N ∧
      next_addr st' = next_addr st
  | None =>
      node_at st a = None ∧ total_hits st' = total_hits st ∧
      node_at st' a = Some (new_MCTSNode b p)
  end.
Proof.
  intros Hr Hg. pose proof (reachable_consistent st Hr) as Hc.
  pose proof (consistent_get_node _ _ _ _ _ Hc Hg) as [H1' _ _ _ _].
  destruct Hc as [H1 _ H2 _ _].
  unfold get_node in Hg.
  change (transposition_table (bump_lookups st))
    with (transposition_table st) in Hg.
  destruct (transposition_table st !! b) as [a0|] eqn:Ht.
  - apply H1 in Ht as (nd0 & Hnd0 & Hb0).
    change (node_at (bump_lookups st) a0) with (node_at st a0) in Hg.
    rewrite Hnd0 in Hg. unfold get_node_reuse in Hg.
    apply bind_Some in Hg as (st1 & Hst1 & Hg). injection Hg as <- <-.
    assert (Hst1' : heap st1 = heap st ∧
                    transposition_table st1 = transposition_table st ∧
                    next_addr st1 = next_addr st ∧
                    total_lookups st1 = (total_lookups st + 1)%N ∧
                    total_hits st1 = total_hits st).
    { destruct (_ && _).
      - apply fmap_Some in Hst1 as (r & _ & ->). done.
      - injection Hst1 as <-. done. }
    destruct Hst1' as (Hh & Htb & Hn & Hl & Hhit).
    assert (Hn1 : node_at st1 a0 = Some nd0) by (unfold node_at; by rewrite Hh).
    destruct p as [p0|].
    + assert (Hnd : node_at
                (bump_hits (update_node st1 a0
                   (λ n, set_parents n (parents n ++ [Some p0])))) a0
              = Some (set_parents nd0 (parents nd0 ++ [Some p0]))).
      { change (node_at (bump_hits ?s) a0) with (node_at s a0).
        by rewrite node_at_update, Hn1. }
      split; [apply H1'; eauto|]. split.
      { eexists. split; [exact Hnd|]. split; [done|].
        intros q [= <-]. simpl. apply elem_of_app. right.
        apply list_elem_of_here. }
      simpl. by rewrite Hl, Hhit, Hn.
    + split; [apply H1'; exists nd0; by split|]. split.
      { exists nd0. by repeat split. }
      simpl. by rewrite Hl, Hhit, Hn.
  - apply (inj Some) in Hg.
    assert (Hfresh : node_at st (next_addr st) = None).
    { destruct (node_at st (next_addr st)) eqn:Hx; [|done].
      assert (next_addr st < next_addr st); [|lia]. apply H2. by eexists. }
    unfold get_node_create in Hg. injection Hg as <- <-.
    assert (Hnew : ∀ r l h f,
              node_at (mkTree
                 (<[next_addr st := new_MCTSNode b p]> (heap st))
                 (S (next_addr st))
                 (table_insert b (next_addr st) (transposition_table st))
                 r l h f) (next_addr st) = Some (new_MCTSNode b p)).
    { intros. unfold node_at. simpl. apply lookup_insert_eq. }
    assert (Hpar : ∀ q, p = Some q → Some q ∈ parents (new_MCTSNode b p)).
    { intros q ->. simpl. apply list_elem_of_here. }
    destruct p as [p0|].
    + split; [apply H1'; eexists; split; [apply Hnew|done]|].
      split; [eexists; split; [apply Hnew|by split]|].
      split; [done|]. split; [done|]. split; [done|]. apply Hnew.
    + split; [apply H1'; eexists; split; [apply Hnew|done]|].
      split; [eexists; split; [apply Hnew|by split]|].
      split; [done|]. split; [done|]. split; [done|]. apply Hnew.
Qed.

End TableFacts.

Section Shape.
Context {Board Move : Type} `{Game Board Move}.
Abbreviation Node := (MCTSNode Board Move).
Abbreviation Tree := (MCTSTree Board Move).

Lemma well_formed_empty : well_formed (empty_tree : Tree).
Proof.
  split; unfold node_at; simpl.
  - intros r Hr. by apply elem_of_nil in Hr.
  - intros a nd c Ha. by rewrite lookup_empty in Ha.
  - intros a nd Ha. by rewrite lookup_empty in Ha.
  - intros a nd Ha. by rewrite lookup_empty in Ha.
  - intros a nd Ha. by rewrite lookup_empty in Ha.
Qed.

Lemma same_but_parents_fields (nd nd' : Node) :
  same_but_parents nd nd' →
  board nd' = board nd ∧ moves nd' = moves nd ∧
  children nd' = children nd ∧ expanded nd' = expanded nd ∧
  visits nd' = visits nd ∧ wins nd' = wins nd ∧ ties nd' = ties nd.
Proof. unfold same_but_parents. intros ->. by destruct nd. Qed.

Lemma erase_first_subset (x : addr) (l l' : list addr) :
  erase_first x l = Some l' → ∀ r, r ∈ l' → r ∈ l.
Proof.
  revert l'. induction l as [|y l IH]; intros l' He r Hr; [done|].
  simpl in He. destruct (decide (y = x)).
  - injection He as <-. by apply list_elem_of_further.
  - apply fmap_Some in He as (l0 & Hl0 & ->).
    apply elem_of_cons in Hr as [-> | Hr]; [apply list_elem_of_here|].
    apply list_elem_of_further. eauto.
Qed.

(** What [get_node] does to a tree whose table mirrors its store. *)
Lemma get_node_frame (st st' : Tree) b p a :
  consistent st → get_node st b p = Some (a, st') →
  (∀ x nd, node_at st x = Some nd →
     ∃ nd', node_at st' x = Some nd' ∧ same_but_parents nd nd' ∧
            ∀ w, w ∈ parents nd → w ∈ parents nd') ∧
  (∀ x nd', node_at st' x = Some nd' →
     is_Some (node_at st x) ∨ nd' = new_MCTSNode b p) ∧
  (∀ r, r ∈ roots st' → r ∈ roots st ∨ r = a) ∧
  (∃ nd, node_at st' a = Some nd ∧ board nd = b ∧
         ∀ q, p = Some q → Some q ∈ parents nd).
Proof.
  intros Hc Hg. destruct Hc as [H1 _ H2 _ _].
  unfold get_node in Hg.
  change (transposition_table (bump_lookups st))
    with (transposition_table st) in Hg.
  destruct (transposition_table st !! b) as [a0|] eqn:Ht.
  - apply H1 in Ht as (nd0 & Hnd0 & Hb0).
    change (node_at (bump_lookups st) a0) with (node_at st a0) in Hg.
    rewrite Hnd0 in Hg. unfold get_node_reuse in Hg.
    apply bind_Some in Hg as (st1 & Hst1 & Hg). injection Hg as <- <-.
    assert (Hst1' : heap st1 = heap st ∧ ∀ r, r ∈ roots st1 → r ∈ roots st).
    { destruct (_ && _).
      - apply fmap_Some in Hst1 as (r & Hr & ->). split; [done|].
        simpl. by eapply erase_first_subset.
      - injection Hst1 as <-. done. }
    destruct Hst1' as (Hh & Hroots).
    assert (Hsame : ∀ x, node_at st1 x = node_at st x)
      by (intros x; unfold node_at; by rewrite Hh).
    destruct p as [p0|].
    + change (node_at (bump_hits ?s)) with (node_at s).
      change (roots (bump_hits (update_node st1 a0 ?f))) with (roots st1).
      split; [|split; [|split]].
      * intros x nd Hx. destruct (decide (a0 = x)) as [<- | Hne].
        -- rewrite node_at_update, Hsame, Hx. simpl. eexists.
           split; [done|]. split; [by destruct nd|].
           intros w Hw. simpl. apply elem_of_app. by left.
        -- rewrite node_at_update_ne, Hsame by done. exists nd.
           split; [done|]. split; [apply same_but_parents_refl|done].
      * intros x nd' Hx. left. destruct (decide (a0 = x)) as [<- | Hne].
        -- by rewrite Hnd0.
        -- rewrite node_at_update_ne, Hsame in Hx by done. by eexists.
      * intros r Hr. left. by apply Hroots.
      * rewrite node_at_update, Hsame, Hnd0. simpl. eexists.
        split; [done|]. split; [done|].
        intros q [= <-]. simpl. apply elem_of_app. right.
        apply list_elem_of_here.
    + change (node_at (bump_hits ?s)) with (node_at s).
      change (roots (bump_hits st1)) with (roots st1).
      split; [|split; [|split]].
      * intros x nd Hx. rewrite Hsame. exists nd.
        split; [done|]. split; [apply same_but_parents_refl|done].
      * intros x nd' Hx. left. rewrite Hsame in Hx. by eexists.
      * intros r Hr. left. by apply Hroots.
      * rewrite Hsame. exists nd0. by repeat split.
  - apply (inj Some) in Hg.
    assert (Hfresh : node_at st (next_addr st) = None).
    { destruct (node_at st (next_addr st)) eqn:Hx; [|done].
      assert (next_addr st < next_addr st); [|lia]. apply H2. by eexists. }
    unfold get_node_create in Hg. injection Hg as <- <-.
    assert (Hheap : ∀ x, node_at
              match p with
              | Some _ =>
                  mkTree
                    (<[next_addr (bump_lookups st) := new_MCTSNode b p]>
                       (heap (bump_lookups st)))
                    (S (next_addr (bump_lookups st)))
                    (table_insert b (next_addr (bump_lookups st))
                       (transposition_table (bump_lookups st)))
                    (roots (bump_lookups st))
                    (total_lookups (bump_lookups st))
                    (total_hits (bump_lookups st))
                    (total_fillicides (bump_lookups st))
              | None =>
                  set_roots
                    (mkTree
                       (<[next_addr (bump_lookups st) := new_MCTSNode b p]>
                          (heap (bump_lookups st)))
                       (S (next_addr (bump_lookups st)))
                       (table_insert b (next_addr (bump_lookups st))
                          (transposition_table (bump_lookups st)))
                       (roots (bump_lookups st))
                       (total_lookups (bump_lookups st))
                       (total_hits (bump_lookups st))
                       (total_fillicides (bump_lookups st)))
                    (roots (bump_lookups st) ++ [next_addr (bump_lookups st)])
              end x
            = (<[next_addr st := new_MCTSNode b p]> (heap st)) !! x).
    { intros x. by destruct p. }
    split; [|split; [|split]].
    + intros x nd Hx. rewrite Hheap. exists nd.
      split; [|split; [apply same_but_parents_refl|done]].
      rewrite lookup_insert_ne; [done|]. intros <-. congruence.
    + intros x nd' Hx. rewrite Hheap in Hx.
      destruct (decide (next_addr st = x)) as [<- | Hne].
      * rewrite lookup_insert_eq in Hx. right. congruence.
      * rewrite lookup_insert_ne in Hx by done. left. by eexists.
    + intros r Hr. destruct p; simpl in Hr; [by left|].
      apply elem_of_app in Hr as [Hr | Hr]; [by left|].
      apply list_elem_of_singleton in Hr. by right.
    + rewrite Hheap. change (next_addr (bump_lookups st)) with (next_addr st).
      rewrite lookup_insert_eq. eexists. split; [done|]. split; [done|].
      intros q ->. simpl. apply list_elem_of_here.
Qed.

Lemma well_formed_get_node (st st' : Tree) b p a :
  consistent st → well_formed st →
  get_node st b p = Some (a, st') → well_formed st'.
Proof.
  intros Hc [W1 W2 W3 W4 W5] Hg.
  destruct (get_node_frame _ _ _ _ _ Hc Hg) as (Hfwd & Hback & Hroots & Hnew).
  assert (Hold : ∀ x nd', node_at st' x = Some nd' →
            nd' = new_MCTSNode b p ∨
            ∃ nd, node_at st x = Some nd ∧ same_but_parents nd nd').
  { intros x nd' Hx. destruct (Hback _ _ Hx) as [[nd Hnd] | ->]; [|by left].
    right. exists nd. split; [done|].
    destruct (Hfwd _ _ Hnd) as (nd'' & Hx' & Hs & _). congruence. }
  assert (Hboards : ∀ c v, board <$> node_at st c = Some v →
                           board <$> node_at st' c = Some v).
  { intros c v Hv. apply fmap_Some in Hv as (nc & Hnc & ->).
    destruct (Hfwd _ _ Hnc) as (nc' & -> & Hs & _). simpl.
    by destruct (same_but_parents_fields _ _ Hs) as (-> & _). }
  split.
  - intros r Hr. destruct (Hroots r Hr) as [Hr' | ->].
    + destruct (W1 r Hr') as [nd Hnd].
      destruct (Hfwd _ _ Hnd) as (nd' & Hnd' & _). by eexists.
    + destruct Hnew as (nd & Hnd & _). by eexists.
  - intros x nd' c Hx Hcin.
    destruct (Hold _ _ Hx) as [-> | (nd & Hnd & Hs)];
      [by apply elem_of_nil in Hcin|].
    destruct (same_but_parents_fields _ _ Hs) as (_ & _ & Hch & _).
    rewrite Hch in Hcin. destruct (W2 _ _ _ Hnd Hcin) as (nc & Hnc & Hp).
    destruct (Hfwd _ _ Hnc) as (nc' & Hnc' & _ & Hsub). eauto.
  - intros x nd' Hx.
    destruct (Hold _ _ Hx) as [-> | (nd & Hnd & Hs)]; [done|].
    destruct (same_but_parents_fields _ _ Hs) as (_ & _ & -> & -> & _).
    by eapply W3.
  - intros x nd' Hx.
    destruct (Hold _ _ Hx) as [-> | (nd & Hnd & Hs)]; [done|].
    destruct (same_but_parents_fields _ _ Hs) as (-> & -> & _).
    by eapply W4.
  - intros x nd' Hx Hexp.
    destruct (Hold _ _ Hx) as [-> | (nd & Hnd & Hs)]; [done|].
    destruct (same_but_parents_fields _ _ Hs) as (-> & -> & -> & He & _).
    rewrite He in Hexp. eapply Forall2_impl; [by eapply W5|].
    intros c m. apply Hboards.
Qed.

(** An assignment to members of one node that keeps its board and its
    moves, does not lose a live parent, and leaves the children and the
    flag alone or resets both. *)
Lemma well_formed_update (st : Tree) (a : addr) (f : Node → Node) :
  (∀ nd, node_at st a = Some nd →
     board (f nd) = board nd ∧ moves (f nd) = moves nd ∧
     (∀ x, is_Some (node_at st x) → Some x ∈ parents nd →
           Some x ∈ parents (f nd)) ∧
     ((children (f nd) = children nd ∧ expanded (f nd) = expanded nd) ∨
      (children (f nd) = [] ∧ expanded (f nd) = false))) →
  well_formed st → well_formed (update_node st a f).
Proof.
  intros Hf [W1 W2 W3 W4 W5].
  assert (Hnew : ∀ x nd', node_at (update_node st a f) x = Some nd' →
            ∃ nd, node_at st x = Some nd ∧
                  board nd' = board nd ∧ moves nd' = moves nd ∧
                  (∀ y, is_Some (node_at st y) → Some y ∈ parents nd →
                        Some y ∈ parents nd') ∧
                  ((children nd' = children nd ∧ expanded nd' = expanded nd) ∨
                   (children nd' = [] ∧ expanded nd' = false))).
  { intros x nd' Hx. destruct (decide (a = x)) as [<- | Hne].
    - rewrite node_at_update in Hx.
      destruct (node_at st a) as [nd|] eqn:Hnd; [|done].
      injection Hx as <-. exists nd. split; [done|]. by apply Hf.
    - rewrite node_at_update_ne in Hx by done. exists nd'.
      split; [done|]. repeat split; auto. }
  assert (Hlive : ∀ x, is_Some (node_at st x) →
                       is_Some (node_at (update_node st a f) x)).
  { intros x [nd Hx]. destruct (decide (a = x)) as [<- | Hne].
    - rewrite node_at_update, Hx. by eexists.
    - rewrite node_at_update_ne by done. by eexists. }
  assert (Hboards : ∀ c v, board <$> node_at st c = Some v →
                           board <$> node_at (update_node st a f) c = Some v).
  { intros c v Hv. apply fmap_Some in Hv as (nc & Hnc & ->).
    destruct (decide (a = c)) as [<- | Hne].
    - rewrite node_at_update, Hnc. simpl.
      by destruct (Hf _ Hnc) as (-> & _).
    - by rewrite node_at_update_ne, Hnc by done. }
  split.
  - intros r Hr. apply Hlive. by apply W1.
  - intros x nd' c Hx Hcin.
    destruct (Hnew _ _ Hx) as (nd & Hnd & _ & _ & _ & [[Hch _] | [Hch _]]);
      rewrite Hch in Hcin; [|by apply elem_of_nil in Hcin].
    destruct (W2 _ _ _ Hnd Hcin) as (nc & Hnc & Hp).
    destruct (Hlive c ltac:(by eexists)) as [nc' Hnc'].
    exists nc'. split; [done|].
    destruct (Hnew _ _ Hnc') as (nc0 & Hnc0 & _ & _ & Hpar & _).
    rewrite Hnc in Hnc0. injection Hnc0 as <-.
    apply Hpar; [by eexists|done].
  - intros x nd' Hx.
    destruct (Hnew _ _ Hx) as (nd & Hnd & _ & _ & _ & [[-> ->] | [-> ->]]);
      [by eapply W3|done].
  - intros x nd' Hx.
    destruct (Hnew _ _ Hx) as (nd & Hnd & -> & -> & _). by eapply W4.
  - intros x nd' Hx Hexp.
    destruct (Hnew _ _ Hx) as (nd & Hnd & -> & -> & _ & [[-> He] | [_ He]]);
      [|congruence].
    rewrite He in Hexp. eapply Forall2_impl; [by eapply W5|].
    intros c m. apply Hboards.
Qed.

Lemma well_formed_destroy (st : Tree) (a : addr) (nd : Node) :
  has_owner st a = false →
  well_formed st → well_formed (destroy (a, nd) st).
Proof.
  intros Ho [W1 W2 W3 W4 W5].
  assert (Hlive : ∀ x n, node_at (destroy (a, nd) st) x = Some n →
            node_at st x = Some n).
  { intros x n Hx. unfold node_at in *. simpl in Hx.
    apply lookup_delete_Some in Hx. by destruct Hx. }
  assert (Hkept : ∀ x, has_owner st x = true →
            node_at (destroy (a, nd) st) x = node_at st x).
  { intros x Hx. unfold node_at. simpl. apply lookup_delete_ne.
    intros <-. congruence. }
  assert (Hchild : ∀ p np c, node_at st p = Some np → c ∈ children np →
            node_at (destroy (a, nd) st) c = node_at st c).
  { intros p np c Hp Hcin. apply Hkept.
    unfold has_owner. apply orb_true_iff. right.
    apply bool_decide_eq_true_2. exists p, np. by split. }
  split.
  - intros r Hr. simpl in Hr. rewrite Hkept; [by apply W1|].
    unfold has_owner. by rewrite bool_decide_eq_true_2.
  - intros p np c Hp Hcin. apply Hlive in Hp.
    rewrite (Hchild _ _ _ Hp Hcin). by eapply W2.
  - intros p np Hp. apply Hlive in Hp. by eapply W3.
  - intros p np Hp. apply Hlive in Hp. by eapply W4.
  - intros p np Hp Hexp. apply Hlive in Hp.
    pose proof (W5 _ _ Hp Hexp) as HF.
    assert (Hall : Forall (λ c, c ∈ children np) (children np))
      by (apply Forall_forall; auto).
    clear -HF Hall Hchild Hp. revert HF Hall.
    generalize (moves np). generalize (children np) at 1 3 4.
    intros cs ms HF. induction HF as [|c m cs ms Hcm HF IH]; intros Hall.
    + constructor.
    + apply Forall_cons in Hall as [Hc Hall]. constructor; [|by apply IH].
      by rewrite (Hchild _ _ _ Hp Hc).
Qed.

Lemma well_formed_destroys (held : list addr) (st st' : Tree) :
  destroys held st st' → well_formed st → well_formed st'.
Proof.
  induction 1 as [|s a nd s' _ Ho _ _ IH]; [done|].
  intros Hw. apply IH. by apply well_formed_destroy.
Qed.

Lemma well_formed_release (held : list addr) (st : Tree) released :
  well_formed st → well_formed (release held st released).
Proof. apply well_formed_destroys with held, release_destroys. Qed.

Lemma well_formed_filicide (held : list addr) (st st' : Tree) this :
  well_formed st → filicide_held held st this = Some st' → well_formed st'.
Proof.
  intros Hw. unfold filicide_held.
  destruct (node_at st this) as [nd|]; [|done]. simpl.
  destruct (expanded nd); intros [= <-]; [|done].
  apply well_formed_release. apply well_formed_update; [|done].
  intros n Hn. split; [done|]. split; [done|]. split; [done|]. by right.
Qed.

End Shape.

Section ShapeExpand.
Context {Board Move : Type} `{Game Board Move}.
Abbreviation Node := (MCTSNode Board Move).
Abbreviation Tree := (MCTSTree Board Move).

(** One round of the loop of [expand]. *)
Lemma expanding_step (s s3 : Tree) this b ms done m :
  consistent s → expanding s this b ms done →
  expand_move this b (Some s) m = Some s3 →
  consistent s3 ∧ expanding s3 this b ms (done ++ [m]).
Proof.
  intros Hc [E1 E2 E3 E4 E5 (nt & Hnt & Hb & Hms & HF & Hexp)] Hstep.
  unfold expand_move in Hstep. rewrite bind_Some_eq in Hstep.
  cbn zeta in Hstep.
  set (s1 := update_node s this (λ n, set_expanded n true)) in *.
  destruct (get_node s1 (move b m) (Some this)) as [[c s2]|] eqn:Hg; [|done].
  rewrite bind_Some_eq in Hstep. injection Hstep as <-.
  set (s3 := update_node s2 this (λ n, set_children n (children n ++ [c]))).
  assert (Hc1 : consistent s1) by (by apply consistent_update).
  assert (Hc2 : consistent s2) by (by eapply consistent_get_node).
  assert (Hc3 : consistent s3) by (by apply consistent_update).
  split; [exact Hc3|].
  destruct (get_node_frame _ _ _ _ _ Hc1 Hg) as (Hfwd & Hback & Hroots & Hnew).
  assert (Hnt1 : node_at s1 this = Some (set_expanded nt true)).
  { unfold s1. by rewrite node_at_update, Hnt. }
  destruct (Hfwd _ _ Hnt1) as (nt2 & Hnt2 & Hs2 & Hp2).
  assert (Hnt3 : node_at s3 this
                 = Some (set_children nt2 (children nt2 ++ [c]))).
  { unfold s3. by rewrite node_at_update, Hnt2. }
  destruct (same_but_parents_fields _ _ Hs2)
    as (Hb2 & Hm2 & Hch2 & Hex2 & _). simpl in Hb2, Hm2, Hch2, Hex2.
  (* every node of [s] is still there *)
  assert (Hfwd03 : ∀ x n, node_at s x = Some n →
            ∃ n3, node_at s3 x = Some n3 ∧ board n3 = board n ∧
                  moves n3 = moves n ∧
                  (∀ w, w ∈ parents n → w ∈ parents n3) ∧
                  (x ≠ this → children n3 = children n ∧
                              expanded n3 = expanded n)).
  { intros x n Hx. destruct (decide (this = x)) as [<- | Hne].
    - rewrite Hnt in Hx. injection Hx as <-. eexists. split; [exact Hnt3|].
      simpl. split; [done|]. split; [done|]. split; [|done].
      intros w Hw. by apply Hp2.
    - assert (Hx1 : node_at s1 x = Some n)
        by (unfold s1; by rewrite node_at_update_ne).
      destruct (Hfwd _ _ Hx1) as (n2 & Hx2 & Hsx & Hpx).
      destruct (same_but_parents_fields _ _ Hsx) as (? & ? & ? & ? & _).
      exists n2. unfold s3. rewrite node_at_update_ne by done.
      by repeat split. }
  (* every other node of [s3] was in [s], or is new *)
  assert (Hback30 : ∀ x n3, node_at s3 x = Some n3 → x ≠ this →
            n3 = new_MCTSNode (move b m) (Some this) ∨
            ∃ n, node_at s x = Some n ∧ board n3 = board n ∧
                 moves n3 = moves n ∧ children n3 = children n ∧
                 expanded n3 = expanded n).
  { intros x n3 Hx Hne. unfold s3 in Hx.
    rewrite node_at_update_ne in Hx by done.
    destruct (Hback _ _ Hx) as [[n1 Hx1] | ->]; [|by left]. right.
    destruct (Hfwd _ _ Hx1) as (n2 & Hx2 & Hsx & _).
    rewrite Hx in Hx2. injection Hx2 as <-.
    destruct (same_but_parents_fields _ _ Hsx) as (? & ? & ? & ? & _).
    unfold s1 in Hx1. rewrite node_at_update_ne in Hx1 by done.
    by exists n1. }
  assert (Hboards : ∀ x v, board <$> node_at s x = Some v →
                           board <$> node_at s3 x = Some v).
  { intros x v Hv. apply fmap_Some in Hv as (n & Hn & ->).
    destruct (Hfwd03 _ _ Hn) as (n3 & -> & Hb3 & _). simpl. by rewrite Hb3. }
  (* the new child *)
  assert (Hchild : ∃ nc, node_at s3 c = Some nc ∧ board nc = move b m ∧
                         Some this ∈ parents nc).
  { destruct Hnew as (nc & Hnc & Hbc & Hpc).
    destruct (decide (this = c)) as [<- | Hne].
    - rewrite Hnt2 in Hnc. injection Hnc as <-. eexists.
      split; [exact Hnt3|]. simpl. split; [done|]. by apply Hpc.
    - exists nc. unfold s3. rewrite node_at_update_ne by done.
      split; [done|]. split; [done|]. by apply Hpc. }
  split.
  - intros r Hr. change (roots s3) with (roots s2) in Hr.
    destruct (Hroots r Hr) as [Hr1 | ->].
    + change (roots s1) with (roots s) in Hr1.
      destruct (E1 r Hr1) as [n Hn].
      destruct (Hfwd03 _ _ Hn) as (n3 & Hn3 & _). by eexists.
    + destruct Hchild as (nc & Hnc & _). by eexists.
  - intros a n3 x Ha Hxin. destruct (decide (a = this)) as [-> | Hne].
    + rewrite Hnt3 in Ha. injection Ha as <-. simpl in Hxin.
      rewrite Hch2 in Hxin. apply elem_of_app in Hxin as [Hxin | Hxin].
      * destruct (E2 _ _ _ Hnt Hxin) as (nx & Hnx & Hp).
        destruct (Hfwd03 _ _ Hnx) as (n3 & Hn3 & _ & _ & Hsub & _). eauto.
      * apply list_elem_of_singleton in Hxin as ->.
        destruct Hchild as (nc & Hnc & _ & Hp). eauto.
    + destruct (Hback30 _ _ Ha Hne) as [-> | (n & Hn & _ & _ & Hch & _)];
        [by apply elem_of_nil in Hxin|].
      rewrite Hch in Hxin. destruct (E2 _ _ _ Hn Hxin) as (nx & Hnx & Hp).
      destruct (Hfwd03 _ _ Hnx) as (nx3 & Hnx3 & _ & _ & Hsub & _). eauto.
  - intros a n3 Hne Ha.
    destruct (Hback30 _ _ Ha Hne) as [-> | (n & Hn & _ & _ & -> & ->)];
      [done|]. by eapply E3.
  - intros a n3 Ha. destruct (decide (a = this)) as [-> | Hne].
    + rewrite Hnt3 in Ha. injection Ha as <-. simpl.
      rewrite Hb2, Hm2. by eapply E4.
    + destruct (Hback30 _ _ Ha Hne) as [-> | (n & Hn & -> & -> & _)];
        [done|]. by eapply E4.
  - intros a n3 Hne Ha Hex3.
    destruct (Hback30 _ _ Ha Hne) as [-> | (n & Hn & -> & -> & -> & He)];
      [done|].
    rewrite He in Hex3. eapply Forall2_impl; [by eapply E5|].
    intros x v. apply Hboards.
  - eexists. split; [exact Hnt3|]. simpl.
    split; [by rewrite Hb2|]. split; [by rewrite Hm2|]. split.
    + rewrite Hch2. apply Forall2_app.
      * eapply Forall2_impl; [exact HF|]. intros x v. apply Hboards.
      * constructor; [|constructor].
        destruct Hchild as (nc & -> & <- & _). done.
    + rewrite Hex2. split; [intros _|done]. by destruct done.
Qed.

Lemma expanding_loop (todo : list Move) :
  ∀ (s st' : Tree) this b ms done,
    consistent s → expanding s this b ms done →
    foldl (expand_move this b) (Some s) todo = Some st' →
    consistent st' ∧ expanding st' this b ms (done ++ todo).
Proof.
  induction todo as [|m todo IH]; intros s st' this b ms done Hc He Hf.
  - simpl in Hf. injection Hf as <-. by rewrite app_nil_r.
  - cbn [foldl] in Hf.
    destruct (expand_move this b (Some s) m) as [s3|] eqn:Hstep.
    2: { by rewrite expand_move_None in Hf. }
    destruct (expanding_step _ _ _ _ _ _ _ Hc He Hstep) as [Hc3 He3].
    destruct (IH _ _ _ _ _ _ Hc3 He3 Hf) as [Hc' He'].
    split; [done|]. by rewrite <- app_assoc in He'.
Qed.

Lemma well_formed_expand (st st' : Tree) this :
  consistent st → well_formed st →
  expand st this = Some st' → well_formed st'.
Proof.
  intros Hc Hw He. unfold expand in He.
  destruct (node_at st this) as [nd|] eqn:Hnd; [|done]. simpl in He.
  set (s0 := update_node st this (λ n, set_visits n (visits n + 1)%N)) in *.
  assert (Hw0 : well_formed s0).
  { apply well_formed_update; [|done]. intros n Hn.
    split; [done|]. split; [done|]. split; [done|]. by left. }
  destruct (expanded nd) eqn:Hex; [by injection He as <-|].
  assert (Hc0 : consistent s0) by (by apply consistent_update).
  assert (Hn0 : node_at s0 this = Some (set_visits nd (visits nd + 1)%N)).
  { unfold s0. by rewrite node_at_update, Hnd. }
  destruct Hw0 as [W1 W2 W3 W4 W5].
  assert (He0 : expanding s0 this (board nd) (moves nd) []).
  { split; eauto. eexists. split; [exact Hn0|]. simpl.
    split; [done|]. split; [done|].
    destruct Hw as [_ _ V3 _ _].
    assert (children nd = []) as ->.
    { destruct (children nd) eqn:Hch; [done|].
      assert (expanded nd = true) by (apply (V3 _ _ Hnd); by rewrite Hch).
      congruence. }
    split; [constructor|]. by rewrite Hex. }
  destruct (expanding_loop _ _ _ _ _ _ _ Hc0 He0 He)
    as [_ [E1 E2 E3 E4 E5 (nt & Hnt & Hb & Hms & HF & Hexp)]].
  rewrite app_nil_l in HF, Hexp.
  split.
  - exact E1.
  - exact E2.
  - intros a n Ha. destruct (decide (a = this)) as [-> | Hne]; [|by eapply E3].
    rewrite Hnt in Ha. injection Ha as <-. rewrite Hexp.
    apply Forall2_length in HF.
    split; intros Hx Hnil; [rewrite Hnil in HF|rewrite Hnil in HF];
      simpl in HF.
    + by destruct (moves nd).
    + by destruct (children nt).
  - exact E4.
  - intros a n Ha Hx. destruct (decide (a = this)) as [-> | Hne];
      [|by eapply E5].
    rewrite Hnt in Ha. injection Ha as <-. by rewrite Hb, Hms.
Qed.

Lemma reachable_shape (st : Tree) :
  reachable st → consistent st ∧ well_formed st.
Proof.
  intros Hr.
  eapply (closed_steps (λ s, consistent s ∧ well_formed s)); [..|exact Hr|].
  - intros s b p a s' [Hc Hw] Hg.
    split; [by eapply consistent_get_node|by eapply well_formed_get_node].
  - intros s this s' [Hc Hw] He.
    split; [by eapply consistent_expand|by eapply well_formed_expand].
  - intros held s this s' [Hc Hw] Hf.
    split; [by eapply consistent_filicide|by eapply well_formed_filicide].
  - intros held s released [Hc Hw].
    split; [by apply consistent_release|by apply well_formed_release].
  - intros s a [Hc Hw]. split; [by apply consistent_update|].
    apply well_formed_update; [|done]. intros n Hn.
    split; [done|]. split; [done|]. split; [done|]. by left.
  - intros s a w [Hc Hw]. split.
    + apply consistent_update; [|done]. intros n.
      unfold backpropagate_node. by repeat destruct (decide _).
    + apply well_formed_update; [|done]. intros n Hn.
      unfold backpropagate_node.
      repeat destruct (decide _); simpl; (split; [done|]);
        (split; [done|]); (split; [done|]); by left.
  - intros s a g Hg [Hc Hw]. split; [by apply consistent_update|].
    apply well_formed_update; [|done]. intros n Hn. simpl.
    split; [done|]. split; [done|]. split; [|by left].
    intros x [nx Hx] Hin. destruct (Hg _ Hn) as [_ Hkeep].
    apply Hkeep; [done|]. simpl. unfold node_at in Hx.
    by rewrite bool_decide_eq_false_2 by (by rewrite Hx).
  - split; [apply consistent_empty|apply well_formed_empty].
Qed.

(** X4.  The shape of every tree built by the public operations: a
    node's move list is the list of legal moves of its position; a node
    that is not expanded has no children; an expanded node has a legal
    move and, move by move and in the order of the move list, one child
    that is live, holds the position after that move and lists the node
    among its parents.  The roots are live. *)
Theorem expanded_nodes_mirror_moves (st : Tree) (a : addr) nd :
  reachable st →
  node_at st a = Some nd →
  moves nd = get_valid_moves (board nd) ∧
  (expanded nd = false → children nd = []) ∧
  (expanded nd = true →
     moves nd ≠ [] ∧
     Forall2 (λ c m, ∃ nc, node_at st c = Some nc ∧
                           board nc = move (board nd) m ∧
                           Some a ∈ parents nc)
             (children nd) (moves nd)) ∧
  (∀ r, r ∈ roots st → is_Some (node_at st r)).
Proof.
  intros Hr Hnd. destruct (reachable_shape st Hr) as [_ [W1 W2 W3 W4 W5]].
  split; [by eapply W4|]. split; [|split; [|exact W1]].
  - intros Hex. destruct (children nd) as [|c cs] eqn:Hcs; [done|].
    assert (expanded nd = true); [|congruence].
    apply (W3 _ _ Hnd). by rewrite Hcs.
  - intros Hex. pose proof (W5 _ _ Hnd Hex) as HF.
    pose proof (proj1 (W3 _ _ Hnd) Hex) as Hne.
    split.
    + apply Forall2_length in HF. intros Hm. rewrite Hm in HF.
      by destruct (children nd).
    + apply Forall2_same_length_lookup. split; [by eapply Forall2_length|].
      intros i c m Hc Hm.
      destruct (Forall2_lookup_l _ _ _ _ _ HF Hc) as (m' & Hm' & Hb).
      rewrite Hm in Hm'. injection Hm' as <-.
      destruct (W2 _ _ c Hnd) as (nc & Hnc & Hp);
        [by eapply list_elem_of_lookup_2|].
      exists nc. rewrite Hnc in Hb. injection Hb as Hb. done.
Qed.

End ShapeExpand.

Section Operations.
Context {Board Move : Type} `{Game Board Move}.
Abbreviation Node := (MCTSNode Board Move).
Abbreviation Tree := (MCTSTree Board Move).

(** ** [backpropagate] *)

Lemma backpropagate_node_wins (w : Z) (nd : Node) :
  let nd' := backpropagate_node w nd in
  wins nd' = (wins nd + if decide (w = player (board nd)) then 1 else 0)%N ∧
  ties nd' = (ties nd + if decide (w = player (board nd)) then 0
                        else if decide (w = PLAYER_TIE) then 1 else 0)%N ∧
  visits nd' = visits nd ∧ board nd' = board nd ∧ moves nd' = moves nd ∧
  children nd' = children nd ∧ parents nd' = parents nd ∧
  expanded nd' = expanded nd.
Proof.
  unfold backpropagate_node.
  destruct (decide (w = player (board nd))); simpl.
  - repeat split; lia.
  - destruct (decide (w = PLAYER_TIE)); simpl; repeat split; lia.
Qed.

(** X5.  [backpropagate] scores a node once for each time it occurs on
    the path: a win if the winner of the playout is the player of the
    node's board, otherwise a tie if the playout was a tie, otherwise
    nothing.  The visit count, the children, the parents and the flag
    are not touched. *)
Theorem backpropagate_scores_per_occurrence (st : Tree) (b : Board)
    (path : list addr) (a : addr) nd :
  node_at st a = Some nd →
  ∃ nd', node_at (backpropagate st b path) a = Some nd' ∧
    wins nd' = (wins nd + if decide (game_winner b = player (board nd))
                          then occurrences a path else 0)%N ∧
    ties nd' = (ties nd + if decide (game_winner b = player (board nd))
                          then 0
                          else if decide (game_winner b = PLAYER_TIE)
                               then occurrences a path else 0)%N ∧
    visits nd' = visits nd ∧ board nd' = board nd ∧ moves nd' = moves nd ∧
    children nd' = children nd ∧ parents nd' = parents nd ∧
    expanded nd' = expanded nd.
Proof.
  unfold backpropagate. revert st nd.
  induction path as [|x path IH]; intros st nd Ha.
  - exists nd. rewrite occurrences_nil. split; [done|].
    repeat split; repeat destruct (decide _); lia.
  - cbn [foldl]. rewrite occurrences_cons.
    destruct (decide (x = a)) as [-> | Hne].
    + destruct (backpropagate_node_wins (game_winner b) nd)
        as (Hw & Ht & Hv & Hb & Hm & Hc & Hp & He).
      destruct (IH (update_node st a (backpropagate_node (game_winner b)))
                   (backpropagate_node (game_winner b) nd))
        as (nd' & Hnd' & Hw' & Ht' & Hv' & Hb' & Hm' & Hc' & Hp' & He').
      { by rewrite node_at_update, Ha. }
      exists nd'. split; [done|]. rewrite Hb in Hw', Ht'.
      rewrite Hw', Ht', Hv', Hb', Hm', Hc', Hp', He', Hw, Ht.
      repeat split; try done; repeat destruct (decide _); lia.
    + destruct (IH (update_node st x (backpropagate_node (game_winner b))) nd)
        as (nd' & Hnd' & Hw' & Ht' & Hrest).
      { by rewrite node_at_update_ne. }
      exists nd'. split; [done|]. rewrite Hw', Ht'.
      repeat split; try apply Hrest; repeat destruct (decide _); lia.
Qed.

(** ** [simulate] *)

Lemma simulate_returns (rank : Board → nat) (rand : nat → nat) :
  (∀ b, game_winner b = PLAYER_NONE →
        get_valid_moves b ≠ [] ∧
        ∀ m, m ∈ get_valid_moves b → rank (move b m) < rank b) →
  ∀ fuel b k, rank b ≤ fuel →
    ∃ b' k', simulate fuel rand k b = Some (b', k') ∧
             game_winner b' ≠ PLAYER_NONE ∧
             k ≤ k' ≤ k + rank b.
Proof.
  intros Hgame. induction fuel as [|fuel IH]; intros b k Hrank.
  - simpl. destruct (decide (game_winner b = PLAYER_NONE)) as [Hw | Hw].
    + destruct (Hgame b Hw) as [Hne Hdec].
      destruct (get_valid_moves b) as [|m ms] eqn:Hms; [done|].
      specialize (Hdec m ltac:(apply list_elem_of_here)). lia.
    + exists b, k. split; [done|]. split; [done|lia].
  - cbn [simulate].
    destruct (decide (game_winner b = PLAYER_NONE)) as [Hw | Hw].
    + destruct (Hgame b Hw) as [Hne Hdec].
      destruct (get_valid_moves b) as [|m0 ms] eqn:Hms; [done|].
      assert (Hlt : rand k `mod` length (m0 :: ms) < length (m0 :: ms)).
      { apply Nat.mod_upper_bound. simpl. lia. }
      apply lookup_lt_is_Some in Hlt as [mv Hmv].
      rewrite Hmv. rewrite bind_Some_eq.
      assert (Hin : mv ∈ m0 :: ms) by (by eapply list_elem_of_lookup_2).
      specialize (Hdec mv Hin).
      destruct (IH (move b mv) (S k) ltac:(lia)) as (b' & k' & Hs & Hw' & Hk).
      exists b', k'. split; [done|]. split; [done|lia].
    + exists b, k. split; [done|]. split; [done|lia].
Qed.

Lemma simulate_decided (fuel : nat) (rand : nat → nat) (k : nat) (b : Board) :
  game_winner b ≠ PLAYER_NONE → simulate fuel rand k b = Some (b, k).
Proof. intros Hw. destruct fuel; simpl; by rewrite decide_False. Qed.

(** X6.  On a game in which every move lowers a rank, and in which a
    position that is not decided has a legal move, the playout returns:
    with fuel for [rank b] rounds it ends on a decided position after at
    most [rank b] calls of [rand()], and a position that is decided
    already is returned as it is, without a call of [rand()]. *)
Theorem simulate_reaches_decided (rank : Board → nat) (rand : nat → nat) :
  (∀ b, game_winner b = PLAYER_NONE →
        get_valid_moves b ≠ [] ∧
        ∀ m, m ∈ get_valid_moves b → rank (move b m) < rank b) →
  ∀ fuel b k, rank b ≤ fuel →
    ∃ b' k', simulate fuel rand k b = Some (b', k') ∧
             game_winner b' ≠ PLAYER_NONE ∧
             k ≤ k' ≤ k + rank b ∧
             (game_winner b ≠ PLAYER_NONE → b' = b ∧ k' = k).
Proof.
  intros Hgame fuel b k Hrank.
  destruct (simulate_returns rank rand Hgame fuel b k Hrank)
    as (b' & k' & Hs & Hw & Hk).
  exists b', k'. split; [done|]. split; [done|]. split; [done|].
  intros Hd. rewrite (simulate_decided fuel rand k b Hd) in Hs.
  by injection Hs as <- <-.
Qed.

(** ** [U] *)

Lemma U_parents_sum (st : Tree) (ps : list weak_ptr) (n : N) :
  wrap32 n = n →
  (U_parents st ps n).2
  = wrap32 (n + foldr N.add 0%N
                  ((λ w, default 0%N (visits <$> (w ≫= node_at st))) <$> ps)).
Proof.
  revert n. induction ps as [|w ps IH]; intros n Hn.
  - simpl. by rewrite N.add_0_r.
  - cbn [U_parents fmap list_fmap foldr].
    destruct (w ≫= node_at st) as [p|] eqn:Hw.
    + specialize (IH (wrap32 (n + visits p))).
      destruct (U_parents st ps _) as [kept m]. simpl in *.
      rewrite IH.
      * unfold wrap32. rewrite N.Div0.add_mod_idemp_l. f_equal. lia.
      * unfold wrap32. by rewrite N.Div0.mod_mod.
    + simpl. rewrite N.add_0_l. by apply IH.
Qed.

Lemma update_node_id (st : Tree) (a : addr) (f : Node → Node) nd :
  node_at st a = Some nd → f nd = nd → update_node st a f = st.
Proof.
  intros Ha Hf. unfold update_node, set_heap. destruct st as [h n t r l hi fi].
  simpl in *. f_equal. apply map_eq. intros x.
  destruct (decide (a = x)) as [<- | Hne].
  - rewrite lookup_alter_eq. unfold node_at in Ha. simpl in Ha.
    rewrite Ha. simpl. by rewrite Hf.
  - by rewrite lookup_alter_ne.
Qed.

Lemma filter_filter_same {A} (P Q : A → Prop)
    `{∀ x, Decision (P x)} `{∀ x, Decision (Q x)} (l : list A) :
  (∀ x, Q x → P x) → filter P (filter Q l) = filter Q l.
Proof.
  intros HQP. induction l as [|x l IH]; [done|].
  rewrite (filter_cons Q). destruct (decide (Q x)) as [Hq|Hq]; [|done].
  rewrite filter_cons, decide_True by auto. by rewrite IH.
Qed.

Lemma sum_over_filter {A} (f g : A → N) (Q : A → Prop)
    `{∀ x, Decision (Q x)} (l : list A) :
  (∀ x, f x = g x) → (∀ x, ¬ Q x → g x = 0%N) →
  foldr N.add 0%N (f <$> filter Q l) = foldr N.add 0%N (g <$> l).
Proof.
  intros Hfg Hz. induction l as [|x l IH]; [done|].
  rewrite filter_cons. cbn [fmap list_fmap foldr].
  destruct (decide (Q x)) as [Hq|Hq].
  - cbn [fmap list_fmap foldr]. by rewrite IH, Hfg.
  - rewrite IH, (Hz x Hq). by rewrite N.add_0_l.
Qed.

Lemma U_effect (st : Tree) (this : addr) nd :
  node_at st this = Some nd →
  U st this
  = Some (U_value
            (wrap32 (foldr N.add 0%N
               ((λ w, default 0%N (visits <$> (w ≫= node_at st)))
                  <$> parents nd)))
            (visits nd),
          update_node st this
            (λ n, set_parents n
                    (filter (λ w, expired st w = false) (parents nd)))) ∧
  node_at (update_node st this
             (λ n, set_parents n
                     (filter (λ w, expired st w = false) (parents nd)))) this
  = Some (set_parents nd (filter (λ w, expired st w = false) (parents nd))).
Proof.
  intros Hnd. split; [|by rewrite node_at_update, Hnd].
  unfold U. rewrite Hnd. simpl.
  pose proof (U_parents_kept st (parents nd) 0) as Hk.
  pose proof (U_parents_sum st (parents nd) 0 eq_refl) as Hs.
  destruct (U_parents st (parents nd) 0) as [kept n]. simpl in Hk, Hs.
  rewrite N.add_0_l in Hs. by rewrite Hk, Hs.
Qed.

(** X7.  [U] erases the expired entries of the parent vector, keeps the
    live ones in their order and changes nothing else.  Its value is
    computed from the sum, modulo [2 ^ 32], of the visit counts of the
    live parents.  A second call returns the same value and leaves the
    tree as it is. *)
Theorem U_erases_expired_parents (st : Tree) (this : addr) nd :
  node_at st this = Some nd →
  let live := filter (λ w, expired st w = false) (parents nd) in
  let total :=
    foldr N.add 0%N
      ((λ w, default 0%N (visits <$> (w ≫= node_at st))) <$> parents nd) in
  let st' := update_node st this (λ n, set_parents n live) in
  U st this = Some (U_value (wrap32 total) (visits nd), st') ∧
  node_at st' this = Some (set_parents nd live) ∧
  (∀ x, x ≠ this → node_at st' x = node_at st x) ∧
  U st' this = Some (U_value (wrap32 total) (visits nd), st').
Proof.
  intros Hnd live total st'.
  destruct (U_effect st this nd Hnd) as [HU Hn'].
  fold live in HU, Hn'. fold total in HU. fold st' in HU, Hn'.
  assert (Hexp : ∀ w, expired st' w = expired st w).
  { intros [a|]; [|done]. simpl. unfold st', update_node. simpl.
    destruct (decide (this = a)) as [<- | Hne].
    - rewrite lookup_alter_eq. unfold node_at in Hnd. by rewrite Hnd.
    - by rewrite lookup_alter_ne. }
  assert (Hvis : ∀ w, default 0%N (visits <$> (w ≫= node_at st'))
                      = default 0%N (visits <$> (w ≫= node_at st))).
  { intros [a|]; [|done]. simpl. unfold st'.
    destruct (decide (this = a)) as [<- | Hne].
    - by rewrite node_at_update, Hnd.
    - by rewrite node_at_update_ne. }
  split; [done|]. split; [done|]. split.
  { intros x Hx. unfold st'. by rewrite node_at_update_ne. }
  destruct (U_effect st' this _ Hn') as [HU' _]. rewrite HU'.
  cbn [parents set_parents visits].
  assert (Hlive : filter (λ w, expired st' w = false) live = live).
  { apply filter_filter_same. intros w Hw. by rewrite Hexp. }
  assert (Hsum : foldr N.add 0%N
            ((λ w, default 0%N (visits <$> (w ≫= node_at st'))) <$> live)
          = total).
  { apply sum_over_filter; [exact Hvis|].
    intros [a|] He; [|done]. simpl in *. unfold node_at.
    destruct (heap st !! a) eqn:Ha; [|done].
    exfalso. apply He. by rewrite bool_decide_eq_false_2. }
  rewrite Hlive, Hsum. do 2 f_equal.
  apply (update_node_id st' this _ _ Hn'). done.
Qed.

(** ** [get_node] after [U]: a root is taken off the roots *)

Lemma erase_first_elem (x : addr) (l : list addr) :
  x ∈ l → is_Some (erase_first x l).
Proof.
  induction l as [|y l IH]; intros Hx; [by apply elem_of_nil in Hx|].
  simpl. destruct (decide (y = x)); [by eexists|].
  apply elem_of_cons in Hx as [-> | Hx]; [done|].
  destruct (IH Hx) as [l' ->]. by eexists.
Qed.

Lemma erase_first_absent (x : addr) (l : list addr) :
  x ∉ l → erase_first x l = None.
Proof.
  induction l as [|y l IH]; intros Hx; [done|].
  simpl. destruct (decide (y = x)) as [-> | _].
  - exfalso. apply Hx, list_elem_of_here.
  - rewrite IH; [done|]. intros Hin. apply Hx. by apply list_elem_of_further.
Qed.

(** X3.  [get_node(b, p)] on a tree built by the public operations has
    undefined behaviour in one case exactly: the board has an entry, the
    parent vector of its node is empty, [p] is not null, and the node is
    not among the roots, so that [roots.erase] is given [roots.end()].
    In every other case the call returns; the node it returns is live,
    holds the requested board, is the table entry of that board, and has
    the given parent in its parent vector.  One lookup is counted.  If
    the board had an entry, that node is returned, one hit is counted and
    no node is created; otherwise no hit is counted and the node is a new
    one, fresh from the constructor.  The branch for a stale table entry
    is never taken. *)
Theorem get_node_finds_or_creates (st : Tree) b p :
  reachable st →
  (get_node st b p = None ↔ erases_end st b p) ∧
  (¬ erases_end st b p → is_Some (get_node st b p)) ∧
  ∀ a st', get_node st b p = Some (a, st') →
    transposition_table st' !! b = Some a ∧
    (∃ nd, node_at st' a = Some nd ∧ board nd = b ∧
           ∀ q, p = Some q → Some q ∈ parents nd) ∧
    total_lookups st' = (total_lookups st + 1)%N ∧
    match transposition_table st !! b with
    | Some a0 =>
        a = a0 ∧ total_hits st' = (total_hits st + 1)%N ∧
        next_addr st' = next_addr st
    | None =>
        node_at st a = None ∧ total_hits st' = total_hits st ∧
        node_at st' a = Some (new_MCTSNode b p)
    end.
Proof.
  intros Hr.
  assert (Hiff : get_node st b p = None ↔ erases_end st b p).
  { destruct (reachable_consistent st Hr) as [H1 _ _ _ _].
    unfold get_node, erases_end.
    change (transposition_table (bump_lookups st))
      with (transposition_table st).
    destruct (transposition_table st !! b) as [a0|] eqn:Ht.
    - destruct (proj1 (H1 b a0) Ht) as (nd0 & Hnd0 & _).
      change (node_at (bump_lookups st) a0) with (node_at st a0).
      rewrite Hnd0. unfold get_node_reuse.
      change (roots (bump_lookups st)) with (roots st).
      destruct (parents nd0) as [|w ws] eqn:Hps; simpl.
      + destruct p as [q|]; simpl.
        * destruct (decide (a0 ∈ roots st)) as [Hin | Hout].
          -- destruct (erase_first_elem _ _ Hin) as [l' ->]. simpl.
             split; [done|]. intros (a & nd & [= <-] & _ & _ & _ & Hno).
             done.
          -- rewrite (erase_first_absent _ _ Hout). simpl.
             split; [|done]. intros _. by exists a0, nd0.
        * split; [done|]. by intros (a & nd & _ & _ & _ & Hp & _).
      + split; [done|]. intros (a & nd & [= <-] & Hnd & Hp & _).
        rewrite Hnd0 in Hnd. injection Hnd as <-. by rewrite Hps in Hp.
    - split; [done|]. by intros (a & nd & ? & _). }
  split; [exact Hiff|]. split.
  - intros Hno. destruct (get_node st b p) as [r|]; [by eexists|].
    exfalso. by apply Hno, Hiff.
  - intros a st' Hg. by apply get_node_result.
Qed.

(** X8.  A root whose parent vector holds expired entries only (a fresh
    root holds the empty parent its constructor stored): [U] empties the
    parent vector, and a later [get_node] of its board with a parent then
    erases the first occurrence of the node from the root vector and
    makes the parent its only parent. *)
Theorem U_then_get_node_unroots (st : Tree) (r p : addr) nd :
  node_at st r = Some nd →
  transposition_table st !! board nd = Some r →
  r ∈ roots st →
  (∀ w, w ∈ parents nd → expired st w = true) →
  ∃ u st1 st2 roots',
    U st r = Some (u, st1) ∧
    parents <$> node_at st1 r = Some [] ∧
    get_node st1 (board nd) (Some p) = Some (r, st2) ∧
    erase_first r (roots st) = Some roots' ∧
    roots st2 = roots' ∧
    parents <$> node_at st2 r = Some [Some p] ∧
    total_hits st2 = (total_hits st + 1)%N.
Proof.
  intros Hnd Ht Hr Hexp.
  destruct (U_effect st r nd Hnd) as (HU & Hn1).
  assert (Hlive : filter (λ w, expired st w = false) (parents nd) = []).
  { clear -Hexp. induction (parents nd) as [|w ps IH]; [done|].
    rewrite filter_cons, decide_False.
    - apply IH. intros w' Hw'. apply Hexp. by apply list_elem_of_further.
    - rewrite Hexp; [done|]. apply list_elem_of_here. }
  rewrite Hlive in HU, Hn1.
  set (st1 := update_node st r (λ n, set_parents n [])) in *.
  destruct (erase_first_elem r (roots st) Hr) as [roots' Hroots].
  eexists _, st1, _, roots'.
  split; [exact HU|]. split; [by rewrite Hn1|].
  unfold get_node.
  change (transposition_table (bump_lookups st1))
    with (transposition_table st).
  rewrite Ht.
  change (node_at (bump_lookups st1) r) with (node_at st1 r).
  rewrite Hn1. unfold get_node_reuse. cbn [parents set_parents length].
  rewrite bool_decide_eq_true_2 by done.
  rewrite bool_decide_eq_true_2 by done. cbn [andb].
  change (roots (bump_lookups st1)) with (roots st). rewrite Hroots.
  cbn [fmap option_fmap option_map]. rewrite bind_Some_eq.
  split; [reflexivity|]. split; [done|]. split; [done|]. split; [|done].
  change (node_at (bump_hits ?s) r) with (node_at s r).
  rewrite node_at_update.
  change (node_at (set_roots (bump_lookups st1) roots') r)
    with (node_at st1 r).
  by rewrite Hn1.
Qed.

(** ** [prune] *)

(** X9.  [prune] returns only when the table is within the bound, and
    it reads the front of the empty queue only when the table is above
    the bound; a table within the bound at the call is returned at once
    and unchanged. *)
Theorem prune_outcome_bound (st : Tree) (max_size : N) :
  match prune st max_size with
  | Returned st' => (transposition_size st' ≤ max_size)%N
  | FrontOfEmptyQueue st' => (max_size < transposition_size st')%N
  | DanglingPointer => True
  end ∧
  ((transposition_size st ≤ max_size)%N → prune st max_size = Returned st).
Proof.
  unfold prune, prune_held, transposition_size. split.
  - generalize (roots st) as queue. revert st.
    intros st queue. revert st.
    induction queue as [|node queue IH]; intros st.
    + simpl. destruct (_ <? _)%N eqn:Hlt.
      * by apply N.ltb_lt in Hlt.
      * by apply N.ltb_ge in Hlt.
    + cbn [prune_loop]. destruct (_ <? _)%N eqn:Hlt.
      * destruct (node_at st node) as [nd|]; [|done].
        destruct (foldl _ _ _) as [st1|]; [|done]. apply IH.
      * by apply N.ltb_ge in Hlt.
  - intros Hle. destruct (roots st); simpl;
      by rewrite (proj2 (N.ltb_ge _ _) Hle).
Qed.

End Operations.

Section FloatOrder.
Local Open Scope Z_scope.

Ltac compare_cases :=
  repeat match goal with
  | H : context [Pos.compare_cont Eq ?a ?b] |- _ =>
      change (Pos.compare_cont Eq a b) with (Pos.compare a b) in H
  | |- context [Pos.compare_cont Eq ?a ?b] =>
      change (Pos.compare_cont Eq a b) with (Pos.compare a b)
  end;
  repeat match goal with
  | H : context [(?a ?= ?b)%Z] |- _ => destruct (Z.compare_spec a b)
  | |- context [(?a ?= ?b)%Z] => destruct (Z.compare_spec a b)
  | H : context [(?a ?= ?b)%positive] |- _ => destruct (Pos.compare_spec a b)
  | |- context [(?a ?= ?b)%positive] => destruct (Pos.compare_spec a b)
  end;
  simpl in *; try done; try lia.

Lemma SFltb_trans (x y z : spec_float) :
  SFltb x y = true → SFltb y z = true → SFltb x z = true.
Proof.
  unfold SFltb.
  destruct x as [[]|[]| |[] mx ex], y as [[]|[]| |[] my ey],
           z as [[]|[]| |[] mz ez]; simpl; try done; compare_cases.
Qed.

Lemma SFltb_irrefl (x : spec_float) : SFltb x x = false.
Proof.
  unfold SFltb. destruct x as [[]|[]| |[] mx ex]; simpl; try done;
    rewrite Z.compare_refl; change (Pos.compare_cont Eq mx mx)
      with (Pos.compare mx mx); by rewrite Pos.compare_refl.
Qed.

Lemma SFeqb_ltb_l (x y z : spec_float) :
  SFeqb x y = true → SFltb x z = true → SFltb y z = true.
Proof.
  unfold SFltb, SFeqb.
  destruct x as [[]|[]| |[] mx ex], y as [[]|[]| |[] my ey],
           z as [[]|[]| |[] mz ez]; simpl; try done; compare_cases.
Qed.

Lemma SFeqb_ltb_r (x y z : spec_float) :
  SFeqb y z = true → SFltb x y = true → SFltb x z = true.
Proof.
  unfold SFltb, SFeqb.
  destruct x as [[]|[]| |[] mx ex], y as [[]|[]| |[] my ey],
           z as [[]|[]| |[] mz ez]; simpl; try done; compare_cases.
Qed.

Lemma SFeqb_trans (x y z : spec_float) :
  SFeqb x y = true → SFeqb y z = true → SFeqb x z = true.
Proof.
  unfold SFeqb.
  destruct x as [[]|[]| |[] mx ex], y as [[]|[]| |[] my ey],
           z as [[]|[]| |[] mz ez]; simpl; try done; compare_cases.
Qed.

Lemma SFeqb_sym (x y : spec_float) : SFeqb x y = true → SFeqb y x = true.
Proof.
  unfold SFeqb.
  destruct x as [[]|[]| |[] mx ex], y as [[]|[]| |[] my ey];
    simpl; try done; compare_cases.
Qed.

End FloatOrder.

Section DecidedRoot.
Context {Board Move : Type} `{Game Board Move}.
Abbreviation Node := (MCTSNode Board Move).
Abbreviation Tree := (MCTSTree Board Move).

Lemma lone_root_node (b : Board) (v w t : N) :
  node_at (lone_root b v w t) 0
  = Some (mkNode b [None] (get_valid_moves b) [] v w t false).
Proof. unfold node_at, lone_root. simpl. apply lookup_singleton_eq. Qed.

Lemma lone_root_update (b : Board) (v w t : N) (f : Node → Node) v' w' t' :
  f (mkNode b [None] (get_valid_moves b) [] v w t false)
  = mkNode b [None] (get_valid_moves b) [] v' w' t' false →
  update_node (lone_root b v w t) 0 f = lone_root b v' w' t'.
Proof.
  intros Hf. unfold update_node, lone_root, set_heap. simpl.
  by rewrite alter_singleton, Hf.
Qed.

Lemma lone_root_iteration (fuel : nat) rand k (b : Board) (v w t : N) :
  game_winner b ≠ PLAYER_NONE →
  mcts_iteration (S fuel) rand k (lone_root b v w t) 0
  = Some (lone_root b (v + 1)
            (w + if decide (game_winner b = player b) then 1 else 0)
            (t + if decide (game_winner b = player b) then 0
                 else if decide (game_winner b = PLAYER_TIE) then 1 else 0),
          k).
Proof.
  intros Hw. unfold mcts_iteration, select. cbn [select_loop].
  rewrite lone_root_node. rewrite bind_Some_eq. cbn [expanded].
  rewrite bind_Some_eq. cbn [app last].
  unfold visit. rewrite (lone_root_update b v w t _ (v + 1) w t) by done.
  rewrite bind_Some_eq, lone_root_node, bind_Some_eq. cbn [board simulate].
  rewrite decide_False by done. rewrite bind_Some_eq.
  rewrite decide_False by done.
  unfold backpropagate. cbn [foldl]. do 2 f_equal.
  apply lone_root_update. unfold backpropagate_node. cbn [board].
  destruct (decide (game_winner b = player b)); [by rewrite N.add_0_r|].
  destruct (decide (game_winner b = PLAYER_TIE)); simpl;
    by rewrite ?N.add_0_r.
Qed.

Lemma lone_root_loop (fuel : nat) rand (b : Board) (n : nat) :
  game_winner b ≠ PLAYER_NONE →
  ∀ k v w t,
    mcts_loop (S fuel) rand k (lone_root b v w t) 0 n
    = Some (lone_root b (v + N.of_nat n)
              (w + if decide (game_winner b = player b)
                   then N.of_nat n else 0)
              (t + if decide (game_winner b = player b) then 0
                   else if decide (game_winner b = PLAYER_TIE)
                        then N.of_nat n else 0),
            k).
Proof.
  intros Hw. induction n as [|n IH]; intros k v w t.
  - simpl. do 2 f_equal. repeat destruct (decide _);
      rewrite ?N.add_0_r; done.
  - cbn [mcts_loop]. rewrite lone_root_iteration by done.
    rewrite bind_Some_eq. rewrite IH. do 2 f_equal.
    repeat destruct (decide _); f_equal; lia.
Qed.

(** X10.  A search started on a decided position, on a fresh tree: the
    root is created and never expanded; each round only counts a visit
    and scores the outcome, and [rand()] is never called.  After [n]
    rounds the tree holds the root alone, with [n] visits, and with [n]
    wins if the winner is the player of the position, [n] ties if the
    position is a tie instead, and neither otherwise. *)
Theorem mcts_on_decided_position (fuel : nat) rand k (b : Board) (n : nat) :
  game_winner b ≠ PLAYER_NONE →
  mcts (S fuel) rand k empty_tree b n
  = Some (lone_root b (N.of_nat n)
            (if decide (game_winner b = player b) then N.of_nat n else 0)
            (if decide (game_winner b = player b) then 0
             else if decide (game_winner b = PLAYER_TIE)
                  then N.of_nat n else 0),
          k).
Proof.
  intros Hw. unfold mcts.
  assert (Hg : get_node empty_tree b None = Some (0, lone_root b 0 0 0)).
  { unfold get_node. simpl. rewrite lookup_empty.
    unfold get_node_create, table_insert. simpl. rewrite lookup_empty.
    unfold lone_root, new_MCTSNode, set_roots. simpl.
    by rewrite !insert_empty. }
  rewrite Hg, bind_Some_eq. cbn beta iota.
  rewrite (lone_root_loop fuel rand b n Hw k 0 0 0)%N.
  by rewrite !N.add_0_l.
Qed.

End DecidedRoot.

Section Orphans.
Context {Board Move : Type} `{Game Board Move}.
Abbreviation Node := (MCTSNode Board Move).
Abbreviation Tree := (MCTSTree Board Move).

Lemma has_owner_true (st : Tree) (x : addr) :
  has_owner st x = true ↔
  x ∈ roots st ∨ ∃ o no, node_at st o = Some no ∧ x ∈ children no.
Proof.
  unfold has_owner. rewrite orb_true_iff, !bool_decide_eq_true.
  split; (intros [? | ?]; [by left|by right]).
Qed.

Lemma destroys_count (held : list addr) (st st' : Tree) :
  destroys held st st' →
  (N.of_nat (size (heap st')) + total_fillicides st'
   = N.of_nat (size (heap st)) + total_fillicides st)%N.
Proof.
  induction 1 as [|s a nd s' Ha _ _ _ IH]; [done|].
  rewrite IH. unfold destroy. cbn [heap total_fillicides fst].
  unfold node_at in Ha. rewrite map_size_delete, Ha.
  assert (size (heap s) ≠ 0).
  { intros Hz. apply map_size_empty_inv in Hz. rewrite Hz in Ha.
    by rewrite lookup_empty in Ha. }
  lia.
Qed.

Lemma destroys_size (held : list addr) (st st' : Tree) :
  destroys held st st' → size (heap st') ≤ size (heap st).
Proof.
  induction 1 as [|s a nd s' Ha _ _ _ IH]; [done|].
  etrans; [exact IH|]. unfold destroy. cbn [heap fst].
  rewrite map_size_delete. destruct (heap s !! a); unfold id; lia.
Qed.

Lemma destroys_dead (held : list addr) (st st' : Tree) (x : addr) :
  destroys held st st' → node_at st x = None → node_at st' x = None.
Proof.
  intros Hd Hx. destruct (node_at st' x) as [n|] eqn:Hx'; [|done].
  apply (destroys_survivor _ _ _ _ _ Hd) in Hx'. congruence.
Qed.

Lemma destroys_held (held : list addr) (st st' : Tree) (x : addr) :
  destroys held st st' → x ∈ held → node_at st' x = node_at st x.
Proof.
  induction 1 as [|s a nd s' _ _ Hh _ IH]; [done|].
  intros Hx. rewrite (IH Hx). unfold node_at. simpl.
  apply lookup_delete_ne. by intros <-.
Qed.

(** A release destroys only nodes that a vector let go of: if the
    released nodes, and the children of every live node, are in a set,
    the nodes outside the set are left as they are. *)
Lemma release_loop_reach (O : addr → Prop) (held : list addr) (fuel : nat) :
  ∀ (st : Tree) released,
    (∀ a, a ∈ released → O a) →
    (∀ d nd c, node_at st d = Some nd → c ∈ children nd → O c) →
    ∀ x, ¬ O x → node_at (release_loop fuel held st released) x = node_at st x.
Proof.
  induction fuel as [|fuel IH]; intros st released Hl Hc x Hx; [done|].
  cbn [release_loop]. revert st Hc.
  induction released as [|a l IHl]; intros st Hc; [done|].
  cbn [foldl].
  assert (Hstep : ∃ s,
            s = match node_at st a with
                | Some nd =>
                    if has_owner st a || bool_decide (a ∈ held) then st
                    else release_loop fuel held (destroy (a, nd) st)
                                      (children nd)
                | None => st
                end ∧
            destroys held st s ∧ node_at s x = node_at st x).
  { eexists. split; [reflexivity|].
    destruct (node_at st a) as [nd|] eqn:Ha;
      [|split; [apply destroys_refl|done]].
    destruct (has_owner st a) eqn:Ho; [split; [apply destroys_refl|done]|].
    destruct (bool_decide (a ∈ held)) eqn:Hh;
      [split; [apply destroys_refl|done]|].
    apply bool_decide_eq_false in Hh. simpl. split.
    - eapply destroys_step; eauto. apply release_loop_destroys.
    - rewrite IH; [| | |done].
      + unfold node_at. simpl. apply lookup_delete_ne. intros <-.
        apply Hx, Hl, list_elem_of_here.
      + intros c Hcin. by eapply Hc.
      + intros d n c Hd Hcin. unfold node_at in Hd. simpl in Hd.
        apply lookup_delete_Some in Hd as [_ Hd]. by eapply Hc. }
  destruct Hstep as (s & <- & Hd & Hsx).
  rewrite IHl; [done| |].
  - intros a' Ha'. apply Hl. by apply list_elem_of_further.
  - intros d n c Hdn Hcin.
    apply (destroys_survivor _ _ _ _ _ Hd) in Hdn. by eapply Hc.
Qed.

(** Nothing is left behind: a node that is dead, owned or held stays so,
    and every released node ends up so. *)
Lemma release_loop_settles (held : list addr) (fuel : nat) :
  ∀ (st : Tree) released,
    size (heap st) ≤ fuel →
    let settled (s : Tree) (x : addr) :=
      node_at s x = None ∨ has_owner s x = true ∨ x ∈ held in
    (∀ a, a ∈ released →
          settled (release_loop fuel held st released) a) ∧
    (∀ x, settled st x → settled (release_loop fuel held st released) x).
Proof.
  induction fuel as [|fuel IH]; intros st released Hsize settled.
  { assert (heap st = ∅) as Hemp by (apply map_size_empty_inv; lia).
    assert (∀ x, node_at st x = None) as Hnone.
    { intros x. unfold node_at. by rewrite Hemp, lookup_empty. }
    split; intros x _; left; apply Hnone. }
  cbn [release_loop]. revert st Hsize.
  induction released as [|a l IHl]; intros st Hsize.
  { split; [|done]. intros a Ha. by apply elem_of_nil in Ha. }
  cbn [foldl].
  set (s := match node_at st a with
            | Some nd =>
                if has_owner st a || bool_decide (a ∈ held) then st
                else release_loop fuel held (destroy (a, nd) st)
                                  (children nd)
            | None => st
            end).
  assert (Hs : destroys held st s ∧ settled s a ∧
               ∀ x, settled st x → settled s x).
  { unfold s. destruct (node_at st a) as [nd|] eqn:Ha.
    2: { split; [apply destroys_refl|]. split; [by left|done]. }
    destruct (has_owner st a) eqn:Ho.
    { split; [apply destroys_refl|]. split; [right; by left|done]. }
    destruct (bool_decide (a ∈ held)) eqn:Hh.
    { apply bool_decide_eq_true in Hh.
      split; [apply destroys_refl|]. split; [right; by right|done]. }
    apply bool_decide_eq_false in Hh. simpl.
    set (sd := destroy (a, nd) st).
    assert (Hsd : size (heap sd) ≤ fuel).
    { unfold sd. simpl. rewrite map_size_delete.
      unfold node_at in Ha. rewrite Ha. lia. }
    destruct (IH sd (children nd) Hsd) as [Hchildren Hkeep].
    pose proof (release_loop_destroys fuel held sd (children nd)) as Hd.
    assert (Hdead : node_at sd a = None).
    { unfold sd, node_at. simpl. apply lookup_delete_eq. }
    split; [eapply destroys_step; eauto|].
    split; [left; by eapply destroys_dead|].
    intros x [Hx | [Hx | Hx]].
    - apply Hkeep. left. unfold sd, node_at in *. simpl.
      destruct (decide (a = x)) as [<- | Hne];
        [apply lookup_delete_eq|by rewrite lookup_delete_ne].
    - apply has_owner_true in Hx as [Hr | (o & no & Ho' & Hcin)].
      + apply Hkeep. right. left. apply has_owner_true. by left.
      + destruct (decide (o = a)) as [-> | Hne].
        * rewrite Ha in Ho'. injection Ho' as <-. by apply Hchildren.
        * apply Hkeep. right. left. apply has_owner_true. right.
          exists o, no. split; [|done]. unfold sd, node_at. simpl.
          by rewrite lookup_delete_ne.
    - apply Hkeep. right. by right. }
  destruct Hs as (Hd & Ha & Hkeep).
  destruct (IHl s) as [Hl Hkeep'].
  { pose proof (destroys_size _ _ _ Hd). lia. }
  split.
  - intros x Hx. apply elem_of_cons in Hx as [-> | Hx]; [|by apply Hl].
    by apply Hkeep'.
  - intros x Hx. by apply Hkeep', Hkeep.
Qed.

(** X11.  [filicide] on an expanded node, called through a handle on the
    node by a caller that holds the nodes [held], returns: the node is
    left with an empty child vector and the flag reset, the root vector
    is as before, and every other node is left as it was or is destroyed.
    Only nodes that a vector let go of are destroyed: a node that no
    vector owned (one that a caller got from [get_node] and holds) and a
    node that is held are left as they were, as is every set of nodes
    that hold on to one another from the roots or from a held node.
    Nothing is left behind: a node that a vector owned before and that is
    left is still owned by a vector, or is held.  [purges] has grown by
    the number of nodes that are gone. *)
Theorem filicide_releases_orphans (held : list addr) (st : Tree)
    (this : addr) nd :
  node_at st this = Some nd →
  expanded nd = true →
  ∃ st',
    filicide_held held st this = Some st' ∧
    node_at st' this = Some (cleared nd) ∧
    roots st' = roots st ∧
    (∀ x n, x ≠ this → node_at st' x = Some n → node_at st x = Some n) ∧
    (∀ x, x ≠ this → has_owner st x = false ∨ x ∈ held →
          node_at st' x = node_at st x) ∧
    (∀ keep, anchored (this :: held) (update_node st this cleared) keep →
       ∀ x, x ∈ keep →
         node_at st' x = node_at (update_node st this cleared) x) ∧
    (∀ x, is_Some (node_at st' x) → has_owner st x = true →
          has_owner st' x = true ∨ x ∈ this :: held) ∧
    (purges st' + N.of_nat (size (heap st'))
     = purges st + N.of_nat (size (heap st)))%N.
Proof.
  intros Hnd Hex.
  exists (release (this :: held) (update_node st this cleared) (children nd)).
  split.
  { unfold filicide_held. rewrite Hnd. simpl. by rewrite Hex. }
  set (st0 := update_node st this cleared).
  pose proof (release_destroys (this :: held) st0 (children nd)) as Hd.
  assert (Hsize : size (heap st0) = size (heap st)).
  { unfold st0, update_node. simpl. rewrite <- !size_dom.
    by rewrite dom_alter_L. }
  assert (Hthis0 : node_at st0 this = Some (cleared nd)).
  { unfold st0. by rewrite node_at_update, Hnd. }
  assert (Hother0 : ∀ x, x ≠ this → node_at st0 x = node_at st x).
  { intros x Hx. unfold st0. by rewrite node_at_update_ne. }
  assert (Hreach : ∀ x, has_owner st x = false →
            node_at (release (this :: held) st0 (children nd)) x
            = node_at st0 x).
  { intros x Hx.
    apply (release_loop_reach (λ y, has_owner st y = true)).
    - intros a Ha. apply has_owner_true. right. by exists this, nd.
    - intros d n c Hdn Hcin. apply has_owner_true. right.
      destruct (decide (d = this)) as [-> | Hne].
      + rewrite Hthis0 in Hdn. injection Hdn as <-. simpl in Hcin.
        by apply elem_of_nil in Hcin.
      + rewrite Hother0 in Hdn by done. by exists d, n.
    - by rewrite Hx. }
  split; [|split; [|split; [|split; [|split; [|split]]]]].
  - rewrite (destroys_held _ _ _ _ Hd) by apply list_elem_of_here. done.
  - by rewrite (destroys_roots _ _ _ Hd).
  - intros x n Hx Hn. apply (destroys_survivor _ _ _ _ _ Hd) in Hn.
    by rewrite Hother0 in Hn.
  - intros x Hx [Ho | Hh].
    + rewrite Hreach by done. by apply Hother0.
    + rewrite (destroys_held _ _ _ _ Hd) by (by apply list_elem_of_further).
      by apply Hother0.
  - intros keep Hk x Hx.
    by destruct (release_anchored _ st0 (children nd) keep Hk) as (_ & _ & ->).
  - intros x [n Hx] Ho.
    destruct (release_loop_settles (this :: held) (size (heap st0)) st0
                (children nd) (le_n _)) as [Hrel Hkeep].
    fold (release (this :: held) st0 (children nd)) in Hrel, Hkeep.
    assert (Hset : node_at (release (this :: held) st0 (children nd)) x = None
                   ∨ has_owner (release (this :: held) st0 (children nd)) x
                     = true
                   ∨ x ∈ this :: held).
    { apply has_owner_true in Ho as [Hr | (o & no & Ho & Hcin)].
      - apply Hkeep. right. left. apply has_owner_true. by left.
      - destruct (decide (o = this)) as [-> | Hne].
        + rewrite Hnd in Ho. injection Ho as <-. by apply Hrel.
        + apply Hkeep. right. left. apply has_owner_true. right.
          exists o, no. by rewrite Hother0. }
    destruct Hset as [Hnone | Hset]; [congruence|done].
  - unfold purges. pose proof (destroys_count _ _ _ Hd) as Hc.
    change (total_fillicides st0) with (total_fillicides st) in Hc.
    rewrite Hsize in Hc. lia.
Qed.

End Orphans.

Section Signs.
Local Open Scope Z_scope.
Variables prec emax : Z.
Hypothesis prec_pos : 0 < prec.

Lemma binary_round_aux_signed (s : bool) (m e : Z) (l : location) :
  0 ≤ m → signed s (binary_round_aux prec emax s m e l).
Proof.
  intros Hm.
  destruct (binary_round_aux_cases prec emax s m e l Hm)
    as (e1 & m2 & e3 & m3 & He1 & Hm2 & _ & He3 & Hm3 & ->).
  assert (0 ≤ m / 2 ^ (e1 - e)).
  { apply Z.div_pos; [done|]. apply pow2_pos. lia. }
  assert (0 ≤ m3).
  { rewrite Hm3. apply Z.div_pos; [lia|]. apply pow2_pos. lia. }
  destruct m3 as [|p|p]; [done| |lia].
  by destruct (e3 <=? emax - prec).
Qed.

Lemma binary_round_signed (s : bool) (p : positive) (e : Z) :
  signed s (binary_round prec emax s p e).
Proof.
  destruct (binary_round_shape prec emax prec_pos s p e)
    as [-> | [-> | (p' & e' & -> & _)]]; done.
Qed.

Lemma SFadd_signed (x y : spec_float) :
  signed false x → signed false y → signed false (SFadd prec emax x y).
Proof.
  destruct x as [[]|[]| |[] mx ex], y as [[]|[]| |[] my ey]; try done.
  intros _ _. cbn [SFadd cond_Zopp]. rewrite <- Pos2Z.inj_add.
  cbn [binary_normalize]. apply binary_round_signed.
Qed.

Lemma SFadd_zero_r (x : spec_float) :
  x ≠ S754_zero true → SFadd prec emax x (S754_zero false) = x.
Proof. by destruct x as [[]|[]| |[] mx ex]. Qed.

Lemma SFmul_finite_signed (p : positive) (e : Z) (y : spec_float) :
  signed false y →
  signed false (SFmul prec emax (S754_finite false p e) y).
Proof.
  destruct y as [[]|[]| |[] my ey]; try done.
  intros _. cbn [SFmul xorb]. by apply binary_round_aux_signed.
Qed.

Lemma SFdiv_core_nonneg (m1 m2 : positive) (e1 e2 : Z) :
  0 ≤ (SFdiv_core_binary prec emax (Z.pos m1) e1 (Z.pos m2) e2).1.1.
Proof.
  unfold SFdiv_core_binary.
  set (s := e1 - e2 - _).
  set (m' := match s with Z0 => Z.pos m1 | Z.pos _ => Z.shiftl (Z.pos m1) s
             | Z.neg _ => 0 end).
  assert (0 ≤ m').
  { unfold m'. destruct s; [done| |done].
    apply Z.shiftl_nonneg. done. }
  pose proof (Z.div_eucl_eq m' (Z.pos m2) ltac:(done)) as Heq.
  pose proof (Z.mod_pos_bound m' (Z.pos m2) ltac:(done)) as Hmod.
  unfold Z.modulo in Hmod.
  destruct (Z.div_eucl m' (Z.pos m2)) as [q r]. simpl. nia.
Qed.

(** A quotient of floats that are not negative, the divisor finite or
    infinite: not negative, or not a number when both are infinite. *)
Lemma SFdiv_signed (x y : spec_float) :
  signed false x → signed false y →
  (∀ s, y ≠ S754_zero s) →
  SFdiv prec emax x y = S754_nan ∨ signed false (SFdiv prec emax x y).
Proof.
  destruct x as [[]|[]| |[] mx ex], y as [[]|[]| |[] my ey]; try done;
    intros _ _ Hy; try (by right); try (by left);
    try (by destruct (Hy false)).
  right. cbn [SFdiv xorb].
  pose proof (SFdiv_core_nonneg mx my ex ey) as Hq.
  destruct (SFdiv_core_binary _ _ _ _ _ _) as [[mz ez] lz]. simpl in Hq.
  by apply binary_round_aux_signed.
Qed.

Lemma SFdiv_signed_finite (x : spec_float) (p : positive) (e : Z) :
  signed false x →
  signed false (SFdiv prec emax x (S754_finite false p e)).
Proof.
  intros Hx.
  destruct x as [[]|[]| |[] mx ex]; try done.
  cbn [SFdiv xorb].
  pose proof (SFdiv_core_nonneg mx p ex e) as Hq.
  destruct (SFdiv_core_binary _ _ _ _ _ _) as [[mz ez] lz]. simpl in Hq.
  by apply binary_round_aux_signed.
Qed.

Lemma SFsqrt_signed (x : spec_float) :
  signed false x → signed false (SFsqrt prec emax x).
Proof.
  destruct x as [[]|[]| |[] mx ex]; try done. intros _.
  cbn [SFsqrt]. unfold SFsqrt_core_binary.
  set (m' := match _ with Z0 => Z.pos mx | Z.pos _ => _ | Z.neg _ => 0 end).
  pose proof (Z.sqrtrem_sqrt m') as Hs. pose proof (Z.sqrt_nonneg m') as Hn.
  destruct (Z.sqrtrem m') as [q r]. simpl in Hs. subst q.
  by apply binary_round_aux_signed.
Qed.

(** One plus the conversion of a natural number is a positive float or
    infinity. *)
Lemma one_plus_N_positive (p1 : positive) (e1 : Z) (n : N) :
  SpecFloat.emin prec emax ≤ 0 → SpecFloat.emin prec emax ≤ e1 →
  SFadd prec emax (S754_finite false p1 e1)
        (binary_normalize prec emax (Z.of_N n) 0 false)
    = S754_infinity false ∨
  ∃ p e, SFadd prec emax (S754_finite false p1 e1)
               (binary_normalize prec emax (Z.of_N n) 0 false)
         = S754_finite false p e.
Proof.
  intros Hemin He1.
  pose proof (one_plus_N_not_zero prec emax prec_pos p1 e1 n Hemin He1) as Hnz.
  assert (Hs : signed false
            (SFadd prec emax (S754_finite false p1 e1)
               (binary_normalize prec emax (Z.of_N n) 0 false))).
  { apply SFadd_signed; [done|].
    destruct (of_N_shape prec emax prec_pos n Hemin)
      as [[_ ->] | [_ [-> | (p & e & -> & _)]]]; done. }
  destruct (SFadd _ _ _ _) as [[]|[]| |[] p e]; try done; eauto.
Qed.

End Signs.

Section ScoreShapes.
Context {Board Move : Type} `{Game Board Move}.
Abbreviation Node := (MCTSNode Board Move).
Abbreviation Tree := (MCTSTree Board Move).

Lemma of_N32_signed (n : N) : signed false (Float32.of_N n).
Proof.
  destruct (of_N_shape 24 128 prec32_pos n ltac:(done))
    as [[_ Hz] | [_ [Hi | (p & e & Hf & _)]]]; unfold Float32.of_N;
    change Float32.prec with 24%Z; change Float32.emax with 128%Z;
    by rewrite ?Hz, ?Hi, ?Hf.
Qed.

Lemma Q_denominator_positive (v : N) :
  Q_denominator v = S754_infinity false ∨
  ∃ p e, Q_denominator v = S754_finite false p e.
Proof.
  exact (one_plus_N_positive 24 128 prec32_pos 8388608 (-23) v
           ltac:(done) ltac:(done)).
Qed.

Lemma U_denominator_positive (v : N) :
  U_denominator v = S754_infinity false ∨
  ∃ p e, U_denominator v = S754_finite false p e.
Proof.
  exact (one_plus_N_positive 53 1024 ltac:(done) 4503599627370496 (-52) v
           ltac:(done) ltac:(done)).
Qed.

Lemma div32_zero (y : spec_float) :
  (y = S754_infinity false ∨ ∃ p e, y = S754_finite false p e) →
  Float32.div (S754_zero false) y = S754_zero false.
Proof. by intros [-> | (p & e & ->)]. Qed.

Lemma div32_not_negative_zero (x y : spec_float) :
  signed false x →
  (y = S754_infinity false ∨ ∃ p e, y = S754_finite false p e) →
  Float32.div x y ≠ S754_zero true.
Proof.
  intros Hx Hy.
  destruct (SFdiv_signed 24 128 x y Hx) as [Hn | Hs].
  - by destruct Hy as [-> | (p & e & ->)].
  - by destruct Hy as [-> | (p & e & ->)].
  - unfold Float32.div. change Float32.prec with 24%Z.
    change Float32.emax with 128%Z. by rewrite Hn.
  - unfold Float32.div. change Float32.prec with 24%Z.
    change Float32.emax with 128%Z. intros Heq. by rewrite Heq in Hs.
Qed.

(** [U] with no visit of a parent to count. *)
Lemma U_value_zero (v : N) : U_value 0 v = Float32.zero.
Proof.
  unfold U_value.
  change (Float64.of_float
            (Float32.mul C (Float32.sqrt (Float32.of_N 0))))
    with (S754_zero false).
  by destruct (U_denominator_positive v) as [-> | (p & e & ->)].
Qed.

(** X12.  A node none of whose parents is live (a root, whose parent
    vector holds the empty parent only): [U] is [+0] whatever the visit
    count, and [PUCT] is [Q]. *)
Theorem U_is_zero_without_live_parent (st : Tree) (this : addr) nd :
  node_at st this = Some nd →
  (∀ w, w ∈ parents nd → expired st w = true) →
  ∃ st',
    U st this = Some (Float32.zero, st') ∧
    PUCT st this
    = Some (Q_value (wins nd) (ties nd) (visits nd), st').
Proof.
  intros Hnd Hexp.
  destruct (U_effect st this nd Hnd) as [HU _].
  assert (Hsum : foldr N.add 0%N
            ((λ w, default 0%N (visits <$> (w ≫= node_at st)))
               <$> parents nd) = 0%N).
  { clear -Hexp. induction (parents nd) as [|w ps IH]; [done|].
    cbn [fmap list_fmap foldr]. rewrite IH.
    - assert (w ≫= node_at st = None) as ->; [|done].
      specialize (Hexp w ltac:(apply list_elem_of_here)).
      destruct w as [a|]; [|done]. simpl in *. unfold node_at.
      apply bool_decide_eq_true_1 in Hexp. done.
    - intros w' Hw'. apply Hexp. by apply list_elem_of_further. }
  rewrite Hsum in HU. change (wrap32 0) with 0%N in HU.
  rewrite U_value_zero in HU.
  eexists. split; [exact HU|].
  unfold PUCT, Q. rewrite Hnd. simpl. rewrite HU. simpl.
  do 2 f_equal. apply (SFadd_zero_r 24 128).
  unfold Q_value. apply div32_not_negative_zero.
  - apply (SFadd_signed 24 128 prec32_pos); [apply of_N32_signed|].
    apply (SFmul_finite_signed 24 128), of_N32_signed.
  - apply Q_denominator_positive.
Qed.

(** X13.  Without ties, [parent_Q] is [Q] computed from the losses in
    place of the wins: the number of losses, [visits - wins] modulo
    [2 ^ 32], divided by one plus the visits. *)
Theorem parent_Q_without_ties (w v : N) :
  parent_Q_value w 0 v = Q_value (parent_Q_losses w 0 v) 0 v.
Proof.
  unfold parent_Q_value, Q_value.
  change (Float32.mul TIE_REWARD (Float32.of_N 0)) with (S754_zero false).
  rewrite (div32_zero _ (Q_denominator_positive v)).
  unfold Float32.add.
  rewrite (SFadd_zero_r 24 128 (Float32.of_N _)).
  - apply (SFadd_zero_r 24 128). apply div32_not_negative_zero.
    + apply of_N32_signed.
    + apply Q_denominator_positive.
  - intros Heq. pose proof (of_N32_signed (parent_Q_losses w 0 v)) as Hs.
    by rewrite Heq in Hs.
Qed.

End ScoreShapes.

Section QBounds.
Local Open Scope Z_scope.

(** [Q] of counters with [wins + ties <= visits < 2 ^ 24] is [+0] or a
    positive float of exponent at most -24. *)
Lemma Q_value_le (w t v : N) :
  (w + t ≤ v)%N → (v < 16777216)%N →
  float_le (Q_value w t v) (-24) (16777215 * 2 ^ 176).
Proof.
  intros Hwt Hv. unfold Q_value.
  apply (div32_le _ _ (Z.of_N v)); [lia| |by apply Q_denominator_exact].
  pose proof (pow2_pos 199 ltac:(lia)) as H199.
  assert (H200 : 2 ^ 200 = 2 * 2 ^ 199) by done.
  apply (add32_le _ _ (Z.of_N w * 2 ^ 200) (Z.of_N t * 2 ^ 199)).
  - lia.
  - lia.
  - lia.
  - rewrite H200. nia.
  - apply of_N32_le. lia.
  - apply half_le; [lia|]. apply of_N32_le. lia.
Qed.

Lemma float_le_below_inf (x : spec_float) (ehi B : Z) :
  float_le x ehi B → Float32.ltb x Float32.inf = true.
Proof. by intros [-> | (m & e & -> & _)]. Qed.

Lemma to_int_small (n : N) : (n < 2147483648)%N → to_int n = Z.of_N n.
Proof.
  intros Hn. unfold to_int, wrap32. rewrite N.mod_small by lia.
  by rewrite (proj2 (Z.ltb_lt _ _)) by lia.
Qed.

Lemma of_int_small (n : N) : (n < 4294967296)%N → of_int (Z.of_N n) = n.
Proof.
  intros Hn. unfold of_int. rewrite Z.mod_small by lia. apply N2Z.id.
Qed.

End QBounds.

Section BestMoveFacts.
Context {Board : Type} `{Game Board grid_coord}.
Abbreviation GNode := (MCTSNode Board grid_coord).
Abbreviation GTree := (MCTSTree Board grid_coord).

Lemma float_le_eqb_refl (x : spec_float) (ehi B : Z) :
  float_le x ehi B → Float32.eqb x x = true.
Proof.
  intros [-> | (m & e & -> & _)]; [done|].
  unfold Float32.eqb, SFeqb. simpl. rewrite Z.compare_refl.
  change (Pos.compare_cont Eq m m) with (Pos.compare m m).
  by rewrite Pos.compare_refl.
Qed.

Lemma get_move_step (st : GTree) (nd : GNode) (k : nat) acc c nc mv :
  (∀ x nx, x ∈ children nd → node_at st x = Some nx →
           (wins nx + ties nx ≤ visits nx)%N ∧ (visits nx < 16777216)%N) →
  children nd !! k = Some c → node_at st c = Some nc →
  moves nd !! k = Some mv →
  best_so_far st nd k acc →
  best_so_far st nd (S k) (get_move_child st nd acc k).
Proof.
  intros Hbound Hc Hnc Hmv (bq & bv & bm & -> & Hinv).
  assert (Hcin : c ∈ children nd) by (by eapply list_elem_of_lookup_2).
  destruct (Hbound _ _ Hcin Hnc) as [Hwt Hv].
  pose proof (Q_value_le _ _ _ Hwt Hv) as Hq. fold (Qv nc) in Hq.
  unfold get_move_child. rewrite bind_Some_eq. cbn beta iota.
  rewrite Hc, bind_Some_eq, Hnc, bind_Some_eq.
  unfold Q. rewrite Hnc. rewrite !bind_Some_eq. rewrite Hmv, bind_Some_eq.
  fold (Qv nc).
  assert (Hnew :
    (∀ j cj nj, j < k → children nd !! j = Some cj →
       node_at st cj = Some nj →
       Float32.ltb (Qv nj) (Qv nc) = false ∧
       (Float32.eqb (Qv nj) (Qv nc) = true → (visits nj ≤ visits nc)%N)) →
    best_so_far st nd (S k) (Some (Qv nc, to_int (visits nc), mv))).
  { intros Hold. exists (Qv nc), (to_int (visits nc)), mv.
    split; [done|]. right. exists k, c, nc.
    split; [done|]. split; [done|]. split; [done|]. split; [done|].
    split; [apply to_int_small; lia|].
    intros j cj nj Hj Hcj Hnj.
    destruct (decide (j = k)) as [-> | Hne].
    - rewrite Hc in Hcj. injection Hcj as <-. rewrite Hnc in Hnj.
      injection Hnj as <-. split; [apply SFltb_irrefl|]. lia.
    - apply (Hold j cj nj); [lia|done..]. }
  destruct Hinv as [(-> & -> & ->) | (i & ci & ni & Hci & Hni & Hmi & -> & ->
                                      & Hall)].
  - rewrite (float_le_below_inf _ _ _ Hq). apply Hnew.
    intros j cj nj Hj. lia.
  - destruct (Float32.ltb (Qv nc) (Qv ni)) eqn:Hlt.
    + apply Hnew. intros j cj nj Hj Hcj Hnj.
      destruct (Hall j cj nj Hj Hcj Hnj) as [Hge Htie]. split.
      * destruct (Float32.ltb (Qv nj) (Qv nc)) eqn:Hlt'; [|done].
        pose proof (SFltb_trans _ _ _ Hlt' Hlt) as Ht.
        unfold Float32.ltb in *. congruence.
      * intros Heq.
        pose proof (SFeqb_ltb_l _ _ _ (SFeqb_sym _ _ Heq) Hlt) as Ht.
        unfold Float32.ltb in *. congruence.
    + assert (Hci_in : ci ∈ children nd)
        by (by eapply list_elem_of_lookup_2).
      destruct (Hbound _ _ Hci_in Hni) as [_ Hvi].
      rewrite of_int_small by lia.
      destruct (Float32.eqb (Qv nc) (Qv ni)) eqn:Heq; cbn [andb].
      * destruct (visits ni <? visits nc)%N eqn:Hvis.
        -- apply N.ltb_lt in Hvis. apply Hnew.
           intros j cj nj Hj Hcj Hnj.
           destruct (Hall j cj nj Hj Hcj Hnj) as [Hge Htie]. split.
           ++ destruct (Float32.ltb (Qv nj) (Qv nc)) eqn:Hlt'; [|done].
              pose proof (SFeqb_ltb_r _ _ _ Heq Hlt') as Ht.
              unfold Float32.ltb in *. congruence.
           ++ intros Heq'. pose proof (SFeqb_trans _ _ _ Heq' Heq) as Heq''.
              specialize (Htie Heq''). lia.
        -- apply N.ltb_ge in Hvis.
           exists (Qv ni), (Z.of_N (visits ni)), bm. split; [done|]. right.
           exists i, ci, ni. repeat (split; [done|]).
           intros j cj nj Hj Hcj Hnj.
           destruct (decide (j = k)) as [-> | Hne].
           ++ rewrite Hc in Hcj. injection Hcj as <-. rewrite Hnc in Hnj.
              injection Hnj as <-. by split.
           ++ apply (Hall j cj nj); [lia|done..].
      * exists (Qv ni), (Z.of_N (visits ni)), bm. split; [done|]. right.
        exists i, ci, ni. repeat (split; [done|]).
        intros j cj nj Hj Hcj Hnj.
        destruct (decide (j = k)) as [-> | Hne].
        -- rewrite Hc in Hcj. injection Hcj as <-. rewrite Hnc in Hnj.
           injection Hnj as <-. split; [done|]. intros Heq'. congruence.
        -- apply (Hall j cj nj); [lia|done..].
Qed.

Lemma get_move_loop (st : GTree) (nd : GNode) (n : nat) :
  (∀ x nx, x ∈ children nd → node_at st x = Some nx →
           (wins nx + ties nx ≤ visits nx)%N ∧ (visits nx < 16777216)%N) →
  (∀ k, k < length (children nd) →
     ∃ c nc mv, children nd !! k = Some c ∧ node_at st c = Some nc ∧
                moves nd !! k = Some mv) →
  ∀ k acc, k + n = length (children nd) →
    best_so_far st nd k acc →
    best_so_far st nd (k + n) (foldl (get_move_child st nd) acc (seq k n)).
Proof.
  intros Hbound Hlive. induction n as [|n IH]; intros k acc Hk Hinv.
  - simpl. by rewrite Nat.add_0_r.
  - cbn [seq foldl]. replace (k + S n) with (S k + n) by lia.
    apply IH; [lia|].
    destruct (Hlive k ltac:(lia)) as (c & nc & mv & Hc & Hnc & Hmv).
    by eapply get_move_step.
Qed.

(** The scan of [get_move] over the children of an expanded node. *)
Lemma get_move_scan (st : GTree) (this : addr) nd :
  well_formed st →
  node_at st this = Some nd → expanded nd = true →
  (∀ x nx, x ∈ children nd → node_at st x = Some nx →
           (wins nx + ties nx ≤ visits nx)%N ∧ (visits nx < 16777216)%N) →
  ∃ i mv c nc,
    get_move st this = Some mv ∧
    moves nd !! i = Some mv ∧ children nd !! i = Some c ∧
    node_at st c = Some nc ∧
    ∀ j cj nj, j < length (children nd) → children nd !! j = Some cj →
      node_at st cj = Some nj →
      Float32.ltb (Qv nj) (Qv nc) = false ∧
      (Float32.eqb (Qv nj) (Qv nc) = true → (visits nj ≤ visits nc)%N).
Proof.
  intros [_ W2 W3 _ W5] Hnd Hex Hbound.
  pose proof (W5 _ _ Hnd Hex) as HF.
  assert (Hne : children nd ≠ []) by (by apply (W3 _ _ Hnd)).
  assert (Hlive : ∀ k, k < length (children nd) →
            ∃ c nc mv, children nd !! k = Some c ∧ node_at st c = Some nc ∧
                       moves nd !! k = Some mv).
  { intros k Hk. apply lookup_lt_is_Some in Hk as [c Hc].
    destruct (Forall2_lookup_l _ _ _ _ _ HF Hc) as (mv & Hmv & Hb).
    apply fmap_Some in Hb as (nc & Hnc & Hb). eauto 10. }
  destruct (get_move_loop st nd (length (children nd)) Hbound Hlive
              0 (Some (Float32.inf, 0%Z, no_move)) eq_refl)
    as (bq & bv & bm & Hacc & Hfinal).
  { exists Float32.inf, 0%Z, no_move. split; [done|]. by left. }
  destruct Hfinal as [(Hz & _) | (i & c & nc & Hc & Hnc & Hm & -> & -> & Hall)].
  { simpl in Hz. destruct (children nd); done. }
  exists i, bm, c, nc. split.
  { unfold get_move. rewrite Hnd, bind_Some_eq, Hex. simpl in Hacc.
    by rewrite Hacc. }
  split; [done|]. split; [done|]. split; [done|]. exact Hall.
Qed.

(** X14.  [get_move] on an expanded node of a tree built by the public
    operations, the children having [wins + ties <= visits < 2 ^ 24]:
    the answer is the move of the node's move list that leads to one of
    its children, that child holds the position after the move, no child
    has a smaller [Q], and among the children of equal [Q] none has more
    visits. *)
Theorem get_move_least_Q (st : GTree) (this : addr) nd :
  reachable st →
  node_at st this = Some nd →
  expanded nd = true →
  (∀ x nx, x ∈ children nd → node_at st x = Some nx →
           (wins nx + ties nx ≤ visits nx)%N ∧ (visits nx < 16777216)%N) →
  ∃ i mv c nc,
    get_move st this = Some mv ∧
    moves nd !! i = Some mv ∧ children nd !! i = Some c ∧
    node_at st c = Some nc ∧ board nc = move (board nd) mv ∧
    ∀ c' nc', c' ∈ children nd → node_at st c' = Some nc' →
      Float32.ltb (Q_value (wins nc') (ties nc') (visits nc'))
                  (Q_value (wins nc) (ties nc) (visits nc)) = false ∧
      (Float32.eqb (Q_value (wins nc') (ties nc') (visits nc'))
                   (Q_value (wins nc) (ties nc) (visits nc)) = true →
       (visits nc' ≤ visits nc)%N).
Proof.
  intros Hr Hnd Hex Hbound.
  destruct (reachable_shape st Hr) as [_ Hw].
  destruct (get_move_scan st this nd Hw Hnd Hex Hbound)
    as (i & mv & c & nc & Hg & Hm & Hc & Hnc & Hall).
  exists i, mv, c, nc.
  split; [done|]. split; [done|]. split; [done|]. split; [done|]. split.
  { pose proof (children_boards _ Hw _ _ Hnd Hex) as HF.
    destruct (Forall2_lookup_l _ _ _ _ _ HF Hc) as (mv' & Hmv' & Hb).
    rewrite Hnc in Hb. injection Hb as ->. congruence. }
  intros c' nc' Hin Hnc'. apply list_elem_of_lookup in Hin as [j Hj].
  apply (Hall j c' nc'); [by eapply lookup_lt_Some|done..].
Qed.

End BestMoveFacts.

Section MaxPUCT.
Context {Board Move : Type} `{Game Board Move}.
Abbreviation Node := (MCTSNode Board Move).
Abbreviation Tree := (MCTSTree Board Move).

Lemma same_live_refl (st : Tree) : same_live st st.
Proof.
  intros x. destruct (node_at st x); [|done].
  split; [apply same_but_parents_refl|done].
Qed.

Lemma same_live_expired (st s : Tree) (w : weak_ptr) :
  same_live st s → expired s w = expired st w.
Proof.
  intros Hs. destruct w as [a|]; [|done]. simpl.
  specialize (Hs a). unfold node_at in Hs.
  destruct (heap st !! a), (heap s !! a); try done.
Qed.

Lemma same_live_visits (st s : Tree) (w : weak_ptr) :
  same_live st s →
  default 0%N (visits <$> (w ≫= node_at s))
  = default 0%N (visits <$> (w ≫= node_at st)).
Proof.
  intros Hs. destruct w as [a|]; [|done]. simpl.
  specialize (Hs a).
  destruct (node_at st a), (node_at s a); try done. simpl.
  destruct Hs as [Hs _].
  by destruct (same_but_parents_fields _ _ Hs) as (_ & _ & _ & _ & -> & _).
Qed.

Lemma dead_parent_counts_nothing (st : Tree) (w : weak_ptr) :
  ¬ expired st w = false →
  default 0%N (visits <$> (w ≫= node_at st)) = 0%N.
Proof.
  intros He. destruct w as [a|]; [|done]. simpl in *. unfold node_at.
  destruct (heap st !! a) eqn:Ha; [|done].
  exfalso. apply He. by rewrite bool_decide_eq_false_2.
Qed.

Lemma same_live_U (st s s' : Tree) (c : addr) u :
  same_live st s → U s c = Some (u, s') →
  same_live st s' ∧ fst <$> U st c = Some u.
Proof.
  intros Hs HU.
  destruct (node_at s c) as [n'|] eqn:Hn'.
  2: { unfold U in HU. by rewrite Hn' in HU. }
  destruct (U_effect s c n' Hn') as [HU' Hn1]. rewrite HU' in HU.
  injection HU as <- <-.
  pose proof (Hs c) as Hc. rewrite Hn' in Hc.
  destruct (node_at st c) as [n|] eqn:Hn; [|done].
  destruct Hc as [Hsbp Hlive].
  assert (Hfilter : filter (λ w, expired s w = false) (parents n')
                    = filter (λ w, expired st w = false) (parents n)).
  { rewrite <- Hlive. apply list_filter_iff. intros w.
    by rewrite (same_live_expired st s w Hs). }
  split.
  - intros x. destruct (decide (c = x)) as [<- | Hne].
    + rewrite Hn, Hn1. split.
      * unfold same_but_parents in *. rewrite Hsbp. by destruct n.
      * cbn [parents set_parents]. rewrite Hfilter.
        by apply filter_filter_same.
    + rewrite node_at_update_ne by done. apply Hs.
  - destruct (U_effect st c n Hn) as [-> _]. simpl.
    assert (Hsum :
      foldr N.add 0%N
        ((λ w, default 0%N (visits <$> (w ≫= node_at s))) <$> parents n')
      = foldr N.add 0%N
          ((λ w, default 0%N (visits <$> (w ≫= node_at st))) <$> parents n)).
    { rewrite <- (sum_over_filter
                    (λ w, default 0%N (visits <$> (w ≫= node_at st)))
                    (λ w, default 0%N (visits <$> (w ≫= node_at st)))
                    (λ w, expired st w = false) (parents n));
        [|done|apply dead_parent_counts_nothing].
      match goal with
      | |- _ = foldr N.add _ (_ <$> ?l) =>
          assert (l = filter (λ w, expired st w = false) (parents n'))
            as -> by (symmetry; exact Hlive)
      end.
      symmetry. apply (sum_over_filter _ _ (λ w, expired st w = false));
        [intros w; symmetry; by apply same_live_visits|].
      intros w Hw. rewrite (same_live_visits st s w Hs).
      by apply dead_parent_counts_nothing. }
    rewrite Hsum.
    by destruct (same_but_parents_fields _ _ Hsbp)
      as (_ & _ & _ & _ & -> & _).
Qed.

Lemma same_live_Q (st s : Tree) (c : addr) :
  same_live st s → Q s c = Q st c.
Proof.
  intros Hs. unfold Q. specialize (Hs c).
  destruct (node_at st c), (node_at s c); try done. simpl.
  destruct Hs as [Hs _].
  by destruct (same_but_parents_fields _ _ Hs)
    as (_ & _ & _ & _ & -> & -> & ->).
Qed.

(** The score computed for a child in the course of the loop is its
    score at the call. *)
Lemma same_live_score (st s s' : Tree) (c : addr) q u :
  same_live st s → Q s c = Some q → U s c = Some (u, s') →
  child_PUCT st c = Some (Float32.add (Float32.sub Float32.one q) u).
Proof.
  intros Hs HQ HU. unfold child_PUCT.
  rewrite <- (same_live_Q st s c Hs), HQ. simpl.
  destruct (same_live_U st s s' c u Hs HU) as [_ HU'].
  destruct (U st c) as [[u' s0]|]; [|done]. simpl in *. congruence.
Qed.

Lemma max_PUCT_loop (st : Tree) (cs : list addr) :
  ∀ seen b0 n0 s0 best node s',
    same_live st s0 → best_of st seen b0 n0 →
    foldl max_PUCT_child (Some (b0, n0, s0)) cs = Some (best, node, s') →
    same_live st s' ∧ best_of st (seen ++ cs) best node.
Proof.
  induction cs as [|c cs IH]; intros seen b0 n0 s0 best node s' Hs Hinv Hf.
  - simpl in Hf. injection Hf as <- <- <-. by rewrite app_nil_r.
  - cbn [foldl] in Hf.
    destruct (max_PUCT_child (Some (b0, n0, s0)) c) as [[[b1 n1] s1]|]
      eqn:Hstep.
    2: { exfalso. clear -Hf. induction cs as [|c' cs IH']; [done|].
         simpl in Hf. auto. }
    unfold max_PUCT_child in Hstep. rewrite bind_Some_eq in Hstep.
    cbn beta iota in Hstep.
    destruct (Q s0 c) as [q|] eqn:HQ; [|done].
    rewrite bind_Some_eq in Hstep.
    destruct (U s0 c) as [[u s2]|] eqn:HU; [|done].
    rewrite bind_Some_eq in Hstep. cbn beta iota zeta in Hstep.
    pose proof (same_live_score st s0 s2 c q u Hs HQ HU) as Hscore.
    destruct (same_live_U st s0 s2 c u Hs HU) as [Hs2 _].
    set (PUCT := Float32.add (Float32.sub Float32.one q) u) in *.
    replace (seen ++ c :: cs) with ((seen ++ [c]) ++ cs)
      by (by rewrite <- app_assoc).
    destruct Hinv as [Hall Hbest].
    destruct (Float32.ltb b0 PUCT) eqn:Hlt.
    + injection Hstep as <- <- <-.
      apply (IH (seen ++ [c]) PUCT (Some c) s2); [done| |done].
      split.
      * intros c' p' Hin Hp'. apply elem_of_app in Hin as [Hin | Hin].
        -- specialize (Hall c' p' Hin Hp').
           destruct (Float32.ltb PUCT p') eqn:Hlt'; [|done].
           pose proof (SFltb_trans _ _ _ Hlt Hlt') as Ht.
           unfold Float32.ltb in *. congruence.
        -- apply list_elem_of_singleton in Hin as ->.
           rewrite Hscore in Hp'. injection Hp' as <-. apply SFltb_irrefl.
      * split; [apply elem_of_app; right; apply list_elem_of_here|].
        split; [done|]. destruct n0 as [c0|].
        -- destruct Hbest as (_ & _ & Hb0).
           exact (SFltb_trans _ _ _ Hb0 Hlt).
        -- by rewrite Hbest in Hlt.
    + injection Hstep as <- <- <-.
      apply (IH (seen ++ [c]) b0 n0 s2); [done| |done].
      split.
      * intros c' p' Hin Hp'. apply elem_of_app in Hin as [Hin | Hin].
        -- by apply (Hall c' p').
        -- apply list_elem_of_singleton in Hin as ->.
           rewrite Hscore in Hp'. by injection Hp' as <-.
      * destruct n0 as [c0|]; [|done]. destruct Hbest as (Hin & Hp & Hb0).
        split; [|done]. apply elem_of_app. by left.
Qed.

(** X15.  [max_PUCT] returns a child of the node whose score
    [(1 - Q()) + U()] is above minus infinity and which no child of the
    node beats, the scores being those at the call; it returns [nullptr]
    only if no child has a score above minus infinity.  Apart from the
    expired parents that [U] erases, the tree is left as it was. *)
Theorem max_PUCT_greatest_score (st st' : Tree) (this : addr) nd best :
  node_at st this = Some nd →
  max_PUCT st this = Some (best, st') →
  same_live st st' ∧
  match best with
  | Some c =>
      c ∈ children nd ∧
      ∃ p, child_PUCT st c = Some p ∧
           Float32.ltb Float32.neg_inf p = true ∧
           ∀ c' p', c' ∈ children nd → child_PUCT st c' = Some p' →
                    Float32.ltb p p' = false
  | None =>
      ∀ c' p', c' ∈ children nd → child_PUCT st c' = Some p' →
               Float32.ltb Float32.neg_inf p' = false
  end.
Proof.
  intros Hnd Hmax. unfold max_PUCT in Hmax. rewrite Hnd in Hmax.
  rewrite bind_Some_eq in Hmax.
  destruct (foldl _ _ _) as [[[b n] s]|] eqn:Hf; [|done].
  simpl in Hmax. injection Hmax as <- <-.
  destruct (max_PUCT_loop st (children nd) [] Float32.neg_inf None st b n s)
    as [Hs [Hall Hbest]]; [apply same_live_refl| |done|].
  { split; [|done]. intros c p Hin. by apply elem_of_nil in Hin. }
  rewrite app_nil_l in Hall, Hbest. split; [done|].
  destruct n as [c|].
  - destruct Hbest as (Hin & Hp & Hb). split; [done|]. by exists b.
  - subst b. done.
Qed.

End MaxPUCT.

Section ScoreAboveMinusInfinity.
Local Open Scope Z_scope.

Lemma emin64 : SpecFloat.emin Float64.prec Float64.emax = -1074.
Proof. reflexivity. Qed.

(** The divisor of [U] is finite up to [2 ^ 24] visits. *)
Lemma U_denominator_finite (v : N) :
  (v < 16777216)%N → ∃ p e, U_denominator v = S754_finite false p e.
Proof.
  intros Hv.
  destruct (U_denominator_positive v)
    as [Hinf | Hfin]; [|done].
  exfalso. revert Hinf. unfold U_denominator, Float64.add, Float64.one.
  destruct v as [|p]; [done|].
  unfold Float64.of_N. cbn [Z.of_N binary_normalize].
  change Float64.prec with 53. change Float64.emax with 1024.
  assert (H53 : 2 ^ 53 = 9007199254740992) by done.
  assert (Hemin : SpecFloat.emin 53 1024 = -1074) by done.
  destruct (binary_round_exact 53 1024 ltac:(done) false p 0 (-1074)
              (Z.pos p) 0) as (m & e & -> & He & Hval);
    rewrite ?Hemin; try lia; try done.
  rewrite Hemin in He.
  destruct (SFadd_pos_upper 53 1024 ltac:(done) 4503599627370496 m (-52) e
              (-1074) (Z.pos p + 1) 0) as [-> | (p' & e' & -> & _)];
    rewrite ?Hemin; try lia; try done.
Qed.

Lemma round32_signed (x : spec_float) :
  signed false x → signed false (Float32.round x).
Proof.
  destruct x as [[]|[]| |[] m e]; try done. intros _.
  apply (binary_round_signed 24 128 prec32_pos).
Qed.

Lemma of_float_signed (x : spec_float) :
  signed false x → signed false (Float64.of_float x).
Proof.
  destruct x as [[]|[]| |[] m e]; try done. intros _.
  apply (binary_round_signed 53 1024 ltac:(done)).
Qed.

(** [U] is not negative and is a number, up to [2 ^ 24] visits. *)
Lemma U_value_signed (parent_visit_count v : N) :
  (v < 16777216)%N → signed false (U_value parent_visit_count v).
Proof.
  intros Hv. unfold U_value.
  destruct (U_denominator_finite v Hv) as (p & e & ->).
  apply round32_signed. apply (SFdiv_signed_finite 53 1024).
  apply of_float_signed. apply (SFmul_finite_signed 24 128).
  apply (SFsqrt_signed 24 128). apply of_N32_signed.
Qed.

Lemma signed_above_minus_infinity (x : spec_float) :
  signed false x → Float32.ltb Float32.neg_inf x = true.
Proof. by destruct x as [[]|[]| |[] m e]. Qed.

(** The score of a child with [wins + ties <= visits < 2 ^ 24] is above
    minus infinity. *)
Lemma score_above_minus_infinity (w t v parent_visit_count : N) :
  (w + t ≤ v)%N → (v < 16777216)%N →
  Float32.ltb Float32.neg_inf
    (Float32.add (Float32.sub Float32.one (Q_value w t v))
                 (U_value parent_visit_count v)) = true.
Proof.
  intros Hwt Hv. apply signed_above_minus_infinity.
  apply (SFadd_signed 24 128 prec32_pos); [|by apply U_value_signed].
  destruct (below_one_facts _ (Q_value_le w t v Hwt Hv)) as (_ & _ & Hpos).
  by destruct (Float32.sub Float32.one (Q_value w t v)) as [[]|[]| |[] m e].
Qed.

End ScoreAboveMinusInfinity.

Section SelectReturns.
Context {Board Move : Type} `{Game Board Move}.
Abbreviation Node := (MCTSNode Board Move).
Abbreviation Tree := (MCTSTree Board Move).

Lemma well_formed_parents (s : Tree) (a : addr) (g : Node → list weak_ptr) :
  (∀ nd, node_at s a = Some nd → drops_expired s (parents nd) (g nd)) →
  well_formed s → well_formed (update_node s a (λ n, set_parents n (g n))).
Proof.
  intros Hg Hw. apply well_formed_update; [|done]. intros n Hn. simpl.
  split; [done|]. split; [done|]. split; [|by left].
  intros x [nx Hx] Hin. destruct (Hg _ Hn) as [_ Hkeep].
  apply Hkeep; [done|]. simpl. unfold node_at in Hx.
  by rewrite bool_decide_eq_false_2 by (by rewrite Hx).
Qed.

Lemma shape_max_PUCT (s s1 : Tree) (cur : addr) r :
  consistent s → well_formed s →
  max_PUCT s cur = Some (r, s1) → consistent s1 ∧ well_formed s1.
Proof.
  intros Hc Hw Hmax.
  apply (closed_max_PUCT (λ x, consistent x ∧ well_formed x)) in Hmax;
    [done| |done].
  intros x a g Hg [Hcx Hwx].
  split; [by apply consistent_update|by apply well_formed_parents].
Qed.

Lemma max_PUCT_same_live (s s1 : Tree) (cur : addr) r :
  max_PUCT s cur = Some (r, s1) → same_live s s1.
Proof.
  unfold max_PUCT. destruct (node_at s cur) as [nd|]; [|done].
  rewrite bind_Some_eq.
  destruct (foldl _ _ _) as [[[b n] x]|] eqn:Hf; [|done].
  simpl. intros [= _ <-].
  destruct (max_PUCT_loop s (children nd) [] Float32.neg_inf None s b n x)
    as [Hs _]; [apply same_live_refl| |done|done].
  split; [|done]. intros c p Hin. by apply elem_of_nil in Hin.
Qed.

Lemma max_PUCT_children_defined (st : Tree) (cs : list addr) :
  ∀ b0 n0 s0,
    same_live st s0 → (∀ c, c ∈ cs → is_Some (node_at st c)) →
    is_Some (foldl max_PUCT_child (Some (b0, n0, s0)) cs).
Proof.
  induction cs as [|c cs IH]; intros b0 n0 s0 Hs Hlive; [by eexists|].
  cbn [foldl]. unfold max_PUCT_child at 2. rewrite bind_Some_eq.
  cbn beta iota.
  destruct (Hlive c ltac:(apply list_elem_of_here)) as [n Hn].
  pose proof (Hs c) as Hc. rewrite Hn in Hc.
  destruct (node_at s0 c) as [n'|] eqn:Hn'; [|done].
  unfold Q. rewrite Hn', !bind_Some_eq.
  destruct (U_effect s0 c n' Hn') as [HU _]. rewrite HU, bind_Some_eq.
  cbn beta iota zeta.
  assert (Hs1 : same_live st
            (update_node s0 c
               (λ x, set_parents x
                  (filter (λ w, expired s0 w = false) (parents n')))))
    by (by destruct (same_live_U _ _ _ _ _ Hs HU)).
  destruct (Float32.ltb _ _); apply IH; try done;
    intros c' Hc'; apply Hlive; by apply list_elem_of_further.
Qed.

Lemma max_PUCT_returns_child (st : Tree) (this : addr) nd :
  node_at st this = Some nd → children nd ≠ [] →
  (∀ c, c ∈ children nd →
     ∃ nc, node_at st c = Some nc ∧
           (wins nc + ties nc ≤ visits nc)%N ∧ (visits nc < 16777216)%N) →
  ∃ c st', max_PUCT st this = Some (Some c, st') ∧ c ∈ children nd ∧
           same_live st st'.
Proof.
  intros Hnd Hne Hch.
  destruct (max_PUCT_children_defined st (children nd)
              Float32.neg_inf None st (same_live_refl st))
    as [[[b n] s'] Hf].
  { intros c Hc. destruct (Hch c Hc) as (nc & Hnc & _). by eexists. }
  destruct (max_PUCT_loop st (children nd) [] Float32.neg_inf None st b n s')
    as [Hs [Hall Hbest]]; [apply same_live_refl| |done|].
  { split; [|done]. intros c p Hin. by apply elem_of_nil in Hin. }
  rewrite app_nil_l in Hall, Hbest.
  destruct n as [c|].
  - exists c, s'. destruct Hbest as (Hin & _).
    split; [|done]. unfold max_PUCT. rewrite Hnd, bind_Some_eq.
    match goal with
    | |- ?x ≫= _ = _ =>
        replace x with (Some (b, Some c, s')) by (symmetry; exact Hf)
    end.
    done.
  - exfalso. subst b.
    destruct (children nd) as [|c0 cs] eqn:Hcs; [done|].
    destruct (Hch c0 ltac:(apply list_elem_of_here)) as (n0 & Hn0 & Hwt & Hv).
    destruct (U_effect st c0 n0 Hn0) as [HU _].
    specialize (Hall c0 _ ltac:(apply list_elem_of_here)
      ltac:(unfold child_PUCT, Q; rewrite Hn0, !bind_Some_eq, HU;
            reflexivity)).
    by rewrite score_above_minus_infinity in Hall.
Qed.

(** What one round of the loop of [select] does to the nodes. *)
Lemma select_round_frame (s s1 : Tree) (cur : addr) :
  same_live s s1 →
  ∀ a, match node_at s a, node_at (visit s1 cur) a with
       | Some n, Some n2 =>
           visits n2 = (visits n + if decide (cur = a) then 1 else 0)%N ∧
           wins n2 = wins n ∧ ties n2 = ties n ∧
           children n2 = children n ∧ expanded n2 = expanded n ∧
           board n2 = board n
       | None, None => True
       | _, _ => False
       end.
Proof.
  intros Hs a. specialize (Hs a). unfold visit.
  destruct (decide (cur = a)) as [<- | Hne].
  - rewrite node_at_update.
    destruct (node_at s cur), (node_at s1 cur); try done. simpl.
    destruct Hs as [Hs _].
    destruct (same_but_parents_fields _ _ Hs)
      as (-> & _ & -> & -> & -> & -> & ->). done.
  - rewrite node_at_update_ne by done.
    destruct (node_at s a), (node_at s1 a); try done.
    destruct Hs as [Hs _].
    destruct (same_but_parents_fields _ _ Hs)
      as (-> & _ & -> & -> & -> & -> & ->). by rewrite N.add_0_r.
Qed.

Lemma descent_transport (s s2 : Tree) (l : list addr) :
  (∀ a n2, node_at s2 a = Some n2 →
     ∃ n, node_at s a = Some n ∧ expanded n = expanded n2 ∧
          children n = children n2) →
  descent s2 l → descent s l.
Proof.
  intros Hback. induction 1 as [a n2 Ha Hex | a n2 b rest Ha Hex Hb _ IH].
  - destruct (Hback _ _ Ha) as (n & Hn & He & _).
    eapply descent_leaf; [done|congruence].
  - destruct (Hback _ _ Ha) as (n & Hn & He & Hc).
    eapply descent_step; [done|congruence|congruence|done].
Qed.

Lemma select_loop_returns (rank : Board → nat) :
  (∀ b m, m ∈ get_valid_moves b → rank (move b m) < rank b) →
  ∀ fuel (s : Tree) cur path0 nc,
    consistent s → well_formed s →
    (∀ a nd, node_at s a = Some nd →
       (wins nd + ties nd ≤ visits nd)%N ∧
       (visits nd + N.of_nat fuel ≤ 16777216)%N) →
    node_at s cur = Some nc → rank (board nc) < fuel →
    ∃ p s',
      select_loop fuel s cur path0 = Some (path0 ++ cur :: p, s') ∧
      descent s (cur :: p) ∧
      ∀ a n, node_at s a = Some n →
        ∃ n', node_at s' a = Some n' ∧
              visits n' = (visits n + occurrences a (cur :: p))%N ∧
              wins n' = wins n ∧ ties n' = ties n ∧
              children n' = children n ∧ expanded n' = expanded n ∧
              board n' = board n.
Proof.
  intros Hrank. induction fuel as [|fuel IH];
    intros s cur path0 nc Hc Hw Hbound Hcur Hfuel; [lia|].
  cbn [select_loop]. rewrite Hcur, bind_Some_eq.
  destruct (expanded nc) eqn:Hex.
  2: { exists [], (visit s cur). split; [done|].
       split; [by eapply descent_leaf|].
       intros a n Ha.
       pose proof (select_round_frame s s cur (same_live_refl s) a) as Hf.
       rewrite Ha in Hf.
       destruct (node_at (visit s cur) a) as [n'|]; [|done].
       exists n'. split; [done|].
       rewrite occurrences_cons, occurrences_nil, N.add_0_r.
       destruct Hf as (-> & -> & -> & -> & -> & ->). done. }
  pose proof Hw as [_ W2 W3 W4 W5].
  assert (Hne : children nc ≠ []) by (by apply (W3 _ _ Hcur)).
  destruct (max_PUCT_returns_child s cur nc Hcur Hne) as (c & s1 & Hmax & Hcin & Hs1).
  { intros x Hx. destruct (W2 _ _ _ Hcur Hx) as (nx & Hnx & _).
    exists nx. split; [done|]. destruct (Hbound _ _ Hnx). split; lia. }
  rewrite Hmax, bind_Some_eq. cbn beta iota zeta. rewrite bind_Some_eq.
  destruct (shape_max_PUCT _ _ _ _ Hc Hw Hmax) as [Hc1 Hw1].
  pose proof (select_round_frame s s1 cur Hs1) as Hframe.
  set (s2 := visit s1 cur) in *.
  assert (Hc2 : consistent s2) by (by apply consistent_update).
  assert (Hw2 : well_formed s2).
  { apply well_formed_update; [|done]. intros n Hn.
    split; [done|]. split; [done|]. split; [done|]. by left. }
  destruct (W2 _ _ _ Hcur Hcin) as (ncs & Hncs & _).
  pose proof (Hframe c) as Hfc. rewrite Hncs in Hfc.
  destruct (node_at s2 c) as [nc2|] eqn:Hnc2; [|done].
  assert (Hrk : rank (board ncs) < rank (board nc)).
  { pose proof (W5 _ _ Hcur Hex) as HF.
    apply list_elem_of_lookup in Hcin as [i Hi].
    destruct (Forall2_lookup_l _ _ _ _ _ HF Hi) as (m & Hm & Hb).
    rewrite Hncs in Hb. injection Hb as ->.
    apply Hrank. rewrite <- (W4 _ _ Hcur). by eapply list_elem_of_lookup_2. }
  destruct (IH s2 c (path0 ++ [cur]) nc2 Hc2 Hw2) as (p & s' & Hsel & Hd & Hfr).
  { intros a n2 Ha. pose proof (Hframe a) as Hfa. rewrite Ha in Hfa.
    destruct (node_at s a) as [n|] eqn:Hn; [|done].
    destruct (Hbound _ _ Hn) as [Hwt Hv].
    destruct Hfa as (-> & -> & -> & _). destruct (decide (cur = a)); lia. }
  { done. }
  { destruct Hfc as (_ & _ & _ & _ & _ & ->). lia. }
  exists (c :: p), s'. split.
  { rewrite Hsel. by rewrite <- app_assoc. }
  split.
  { eapply descent_step; [done..|].
    eapply descent_transport; [|exact Hd].
    intros a n2 Ha. pose proof (Hframe a) as Hfa. rewrite Ha in Hfa.
    destruct (node_at s a) as [n|]; [|done]. exists n.
    destruct Hfa as (_ & _ & _ & -> & -> & _). done. }
  intros a n Ha. pose proof (Hframe a) as Hfa. rewrite Ha in Hfa.
  destruct (node_at s2 a) as [n2|] eqn:Hn2; [|done].
  destruct (Hfr _ _ Hn2) as (n' & Hn' & Hv' & Hw' & Ht' & Hc' & He' & Hb').
  exists n'. split; [done|].
  destruct Hfa as (Hv2 & Hw2' & Ht2 & Hc2' & He2 & Hb2).
  rewrite (occurrences_cons a cur). rewrite Hv', Hv2, Hw', Ht', Hc', He', Hb'.
  repeat split; try done. lia.
Qed.

(** X16.  On a game in which every move lowers a rank, [select] returns:
    on a tree built by the public operations, every node having
    [wins + ties <= visits] and room below [2 ^ 24] for one visit per
    step of the walk that the fuel allows, with fuel above the rank of
    the position it walks from the given node down the child vectors,
    through expanded nodes only, to a node that is not expanded.  Each node gains one visit for each time
    it is on the path; wins, ties, children and flags are as before. *)
Theorem select_returns_a_descent (rank : Board → nat) (fuel : nat)
    (st : Tree) (this : addr) nd :
  (∀ b m, m ∈ get_valid_moves b → rank (move b m) < rank b) →
  reachable st →
  (∀ a n, node_at st a = Some n →
     (wins n + ties n ≤ visits n)%N ∧
     (visits n + N.of_nat fuel ≤ 16777216)%N) →
  node_at st this = Some nd →
  rank (board nd) < fuel →
  ∃ path st',
    select fuel st this = Some (this :: path, st') ∧
    descent st (this :: path) ∧
    ∀ a n, node_at st a = Some n →
      ∃ n', node_at st' a = Some n' ∧
            visits n' = (visits n + occurrences a (this :: path))%N ∧
            wins n' = wins n ∧ ties n' = ties n ∧
            children n' = children n ∧ expanded n' = expanded n ∧
            board n' = board n.
Proof.
  intros Hrank Hr Hbound Hnd Hfuel.
  destruct (reachable_shape st Hr) as [Hc Hw].
  destruct (select_loop_returns rank Hrank fuel st this [] nd Hc Hw Hbound
              Hnd Hfuel) as (p & s' & Hsel & Hd & Hfr).
  exists p, s'. by repeat split.
Qed.

End SelectReturns.

Section Pruning.
Context {Board Move : Type} `{Game Board Move}.
Abbreviation Node := (MCTSNode Board Move).
Abbreviation Tree := (MCTSTree Board Move).

Lemma only_emptied_refl (st : Tree) : only_emptied st st.
Proof.
  repeat (split; [done|]). intros a n Ha. exists n.
  repeat (split; [done|]). by left.
Qed.

Lemma only_emptied_trans (s1 s2 s3 : Tree) :
  only_emptied s1 s2 → only_emptied s2 s3 → only_emptied s1 s3.
Proof.
  intros (Hr1 & Hn1 & Hl1 & Hh1 & H1) (Hr2 & Hn2 & Hl2 & Hh2 & H2).
  split; [congruence|]. split; [congruence|]. split; [congruence|].
  split; [congruence|].
  intros a n3 Ha.
  destruct (H2 _ _ Ha) as (n2 & Ha2 & Hb2 & Hm2 & Hv2 & Hw2 & Ht2 & Hp2 & Hc2).
  destruct (H1 _ _ Ha2) as (n1 & Ha1 & Hb1 & Hm1 & Hv1 & Hw1 & Ht1 & Hp1 & Hc1).
  exists n1. split; [done|]. repeat (split; [congruence|]).
  split; [by etrans|].
  destruct Hc2 as [[Hc2 He2] | [Hc2 He2]]; [|by right].
  destruct Hc1 as [[Hc1 He1] | [Hc1 He1]]; [left|right]; split; congruence.
Qed.

Lemma only_emptied_destroys (held : list addr) (st st' : Tree) :
  destroys held st st' → only_emptied st st'.
Proof.
  induction 1 as [|s a nd s' _ _ _ _ IH]; [apply only_emptied_refl|].
  eapply only_emptied_trans; [|exact IH].
  repeat (split; [done|]). intros x n Hx. exists n.
  unfold node_at in *. simpl in Hx.
  apply lookup_delete_Some in Hx as [_ Hx].
  repeat (split; [done|]). by left.
Qed.

Lemma only_emptied_release (held : list addr) (st : Tree) released :
  only_emptied st (release held st released).
Proof. apply only_emptied_destroys with held, release_destroys. Qed.

Lemma only_emptied_filicide (held : list addr) (st st' : Tree) this :
  filicide_held held st this = Some st' → only_emptied st st'.
Proof.
  unfold filicide_held. destruct (node_at st this) as [nd|] eqn:Hnd; [|done].
  simpl. destruct (expanded nd); intros [= <-]; [|apply only_emptied_refl].
  eapply only_emptied_trans; [|apply only_emptied_release].
  repeat (split; [done|]). intros a n' Ha.
  destruct (decide (this = a)) as [<- | Hne].
  - rewrite node_at_update, Hnd in Ha. injection Ha as <-. exists nd.
    repeat (split; [done|]). by right.
  - rewrite node_at_update_ne in Ha by done. exists n'.
    repeat (split; [done|]). by left.
Qed.

Lemma only_emptied_parents (st : Tree) (a : addr) (g : Node → list weak_ptr) :
  (∀ nd, node_at st a = Some nd → drops_expired st (parents nd) (g nd)) →
  only_emptied st (update_node st a (λ n, set_parents n (g n))).
Proof.
  intros Hg. repeat (split; [done|]). intros x n' Hx.
  destruct (decide (a = x)) as [<- | Hne].
  - rewrite node_at_update in Hx.
    destruct (node_at st a) as [nd|] eqn:Hnd; [|done].
    injection Hx as <-. exists nd. repeat (split; [done|]).
    split; [by destruct (Hg nd eq_refl)|by left].
  - rewrite node_at_update_ne in Hx by done. exists n'.
    repeat (split; [done|]). by left.
Qed.

(** X17.  Pruning only empties: after [filicide], [prune_children],
    [prune_ancestors] or a [prune] that returns, whatever nodes the
    caller holds, the root vector and the lookup and hit counters are as
    before, no node has appeared, and every node still there has the
    board, the moves, the visits, wins and ties it had; its parent vector
    has lost entries at most, and its child vector is as it was or empty
    with the flag reset.  No child is ever taken out of a child vector on
    its own. *)
Theorem pruning_only_empties (st st' : Tree) :
  (∃ held this, filicide_held held st this = Some st') ∨
  (∃ held this, prune_children_held held st this = Some st') ∨
  (∃ held fuel this, prune_ancestors_held held fuel st this = Some st') ∨
  (∃ held max_size, prune_held held st max_size = Returned st') →
  only_emptied st st'.
Proof.
  assert (Hfil : ∀ held s this s', only_emptied st s →
            filicide_held held s this = Some s' → only_emptied st s').
  { intros held s this s' Hs Hf. eapply only_emptied_trans; [exact Hs|].
    by eapply only_emptied_filicide. }
  assert (Hrel : ∀ held s released, only_emptied st s →
            only_emptied st (release held s released)).
  { intros held s released Hs. eapply only_emptied_trans; [exact Hs|].
    apply only_emptied_release. }
  assert (Hpar : ∀ s a (g : Node → list weak_ptr),
            (∀ nd, node_at s a = Some nd →
                   drops_expired s (parents nd) (g nd)) →
            only_emptied st s →
            only_emptied st (update_node s a (λ n, set_parents n (g n)))).
  { intros s a g Hg Hs. eapply only_emptied_trans; [exact Hs|].
    by apply only_emptied_parents. }
  intros [(held & this & Hf) | [(held & this & Hp)
          | [(held & fuel & this & Hp) | (held & max_size & Hp)]]].
  - by eapply only_emptied_filicide.
  - eapply (closed_prune_children (only_emptied st)); eauto.
    apply only_emptied_refl.
  - eapply (closed_prune_ancestors_rec (only_emptied st)); eauto.
    apply only_emptied_refl.
  - eapply (closed_prune_loop (only_emptied st)); eauto.
    apply only_emptied_refl.
Qed.

End Pruning.

(** ** The search returns *)

Section SearchReturns.
Context {Board Move : Type} `{Game Board Move}.
Abbreviation Node := (MCTSNode Board Move).
Abbreviation Tree := (MCTSTree Board Move).

Lemma attached_empty : attached (empty_tree : Tree).
Proof.
  intros a nd Ha. unfold node_at in Ha. simpl in Ha.
  by rewrite lookup_empty in Ha.
Qed.

Lemma update_node_live (st : Tree) (a x : addr) (f : Node → Node) :
  is_Some (node_at (update_node st a f) x) ↔ is_Some (node_at st x).
Proof.
  destruct (decide (a = x)) as [-> | Hne].
  - rewrite node_at_update. apply fmap_is_Some.
  - by rewrite node_at_update_ne.
Qed.

(** An assignment that keeps the live parents of the node keeps every
    node attached. *)
Lemma attached_update (st : Tree) (a : addr) (f : Node → Node) :
  (∀ nd p, node_at st a = Some nd → Some p ∈ parents nd →
           is_Some (node_at st p) → Some p ∈ parents (f nd)) →
  attached st → attached (update_node st a f).
Proof.
  intros Hf Hat x nd' Hx.
  destruct (decide (a = x)) as [-> | Hne].
  - rewrite node_at_update in Hx.
    apply fmap_Some in Hx as (nd & Hnd & ->).
    destruct (Hat _ _ Hnd) as [Hr | (p & Hp & Hlive)]; [by left|].
    right. exists p. split; [by eapply Hf|]. by apply update_node_live.
  - rewrite node_at_update_ne in Hx by done.
    destruct (Hat _ _ Hx) as [Hr | (p & Hp & Hlive)]; [by left|].
    right. exists p. split; [done|]. by apply update_node_live.
Qed.

Lemma attached_visit (st : Tree) (a : addr) :
  attached st → attached (visit st a).
Proof. apply attached_update. by intros nd p _ Hp _. Qed.

Lemma attached_score (st : Tree) (a : addr) (w : Z) :
  attached st → attached (update_node st a (backpropagate_node w)).
Proof.
  apply attached_update. intros nd p _ Hp _.
  by rewrite (proj1 (proj2 (proj2 (proj2 (proj2 (proj2 (proj2
       (backpropagate_node_wins w nd)))))))).
Qed.

Lemma attached_parents (st : Tree) (a : addr) (g : Node → list weak_ptr) :
  (∀ nd, node_at st a = Some nd → drops_expired st (parents nd) (g nd)) →
  attached st → attached (update_node st a (λ n, set_parents n (g n))).
Proof.
  intros Hg. apply attached_update. intros nd p Hnd Hp Hlive. simpl.
  apply (Hg nd Hnd); [done|]. simpl.
  apply bool_decide_eq_false_2. unfold node_at in Hlive.
  intros Hn. rewrite Hn in Hlive. by destruct Hlive.
Qed.

Lemma erase_first_other (x r : addr) (l l' : list addr) :
  erase_first x l = Some l' → r ∈ l → r ≠ x → r ∈ l'.
Proof.
  revert l'. induction l as [|y l IH]; intros l' He Hr Hne.
  { by apply elem_of_nil in Hr. }
  simpl in He. destruct (decide (y = x)) as [-> | Hy].
  - injection He as <-. apply elem_of_cons in Hr as [-> | Hr]; done.
  - apply fmap_Some in He as (l0 & Hl0 & ->).
    apply elem_of_cons in Hr as [-> | Hr]; [apply list_elem_of_here|].
    apply list_elem_of_further. eauto.
Qed.

(** [get_node] with [nullptr] or a live node as parent returns, on a tree
    whose table mirrors its store and whose nodes are attached: the node
    that has lost all its parents is found in the root vector. *)
Lemma get_node_returns (st : Tree) (b : Board) (p : shared_ptr) :
  consistent st → attached st →
  (∀ q, p = Some q → is_Some (node_at st q)) →
  ∃ a st', get_node st b p = Some (a, st') ∧ attached st'.
Proof.
  intros Hc Hat Hp. unfold get_node.
  change (transposition_table (bump_lookups st))
    with (transposition_table st).
  destruct (transposition_table st !! b) as [a0|] eqn:Ht.
  - apply (table_live _ Hc) in Ht as (nd0 & Hnd0 & Hb0).
    change (node_at (bump_lookups st) a0) with (node_at st a0).
    rewrite Hnd0. unfold get_node_reuse.
    destruct (bool_decide (length (parents nd0) = 0)
              && bool_decide (p ≠ None)) eqn:Hcase.
    + apply andb_true_iff in Hcase as [Hlen Hpn].
      apply bool_decide_eq_true in Hlen. apply bool_decide_eq_true in Hpn.
      destruct p as [q|]; [|done].
      assert (Hps : parents nd0 = []) by (by destruct (parents nd0)).
      assert (Hroot : a0 ∈ roots st).
      { destruct (Hat _ _ Hnd0) as [Hr | (p' & Hp' & _)]; [done|].
        rewrite Hps in Hp'. by apply elem_of_nil in Hp'. }
      change (roots (bump_lookups st)) with (roots st).
      destruct (erase_first_elem _ _ Hroot) as [l' Hl'].
      rewrite Hl'. simpl. eexists _, _. split; [done|].
      intros x nd' Hx.
      change (node_at
                (update_node (set_roots (bump_lookups st) l') a0
                   (λ n, set_parents n (parents n ++ [Some q]))) x
              = Some nd') in Hx.
      assert (Hlive : ∀ y, is_Some (node_at st y) →
                is_Some (node_at
                  (bump_hits
                     (update_node (set_roots (bump_lookups st) l') a0
                        (λ n, set_parents n (parents n ++ [Some q])))) y)).
      { intros y Hy.
        change (is_Some (node_at
                  (update_node (set_roots (bump_lookups st) l') a0
                     (λ n, set_parents n (parents n ++ [Some q]))) y)).
        apply update_node_live. exact Hy. }
      destruct (decide (a0 = x)) as [<- | Hne].
      * rewrite node_at_update in Hx.
        change (node_at (set_roots (bump_lookups st) l') a0)
          with (node_at st a0) in Hx.
        rewrite Hnd0 in Hx. injection Hx as <-.
        right. exists q. split.
        { simpl. apply elem_of_app. right. apply list_elem_of_here. }
        apply Hlive. by apply Hp.
      * rewrite node_at_update_ne in Hx by done.
        change (node_at (set_roots (bump_lookups st) l') x)
          with (node_at st x) in Hx.
        destruct (Hat _ _ Hx) as [Hr | (p' & Hp' & Hl)].
        { left. simpl. by eapply erase_first_other. }
        right. exists p'. split; [done|]. by apply Hlive.
    + simpl. eexists _, _. split; [done|].
      destruct p as [q|].
      * intros x nd' Hx.
        change (node_at
                  (update_node (bump_lookups st) a0
                     (λ n, set_parents n (parents n ++ [Some q]))) x
                = Some nd') in Hx.
        apply (attached_update (bump_lookups st) a0
                 (λ n, set_parents n (parents n ++ [Some q]))) in Hx.
        -- exact Hx.
        -- intros nd p' _ Hp' _. simpl. apply elem_of_app. by left.
        -- exact Hat.
      * exact Hat.
  - eexists _, _. split; [done|].
    unfold get_node_create.
    assert (Hfresh : node_at st (next_addr st) = None).
    { destruct (node_at st (next_addr st)) eqn:Hx; [|done].
      assert (next_addr st < next_addr st); [|lia].
      apply (live_allocated _ Hc). by eexists. }
    assert (Hgen : ∀ rs,
      (p = None → next_addr st ∈ rs) → (∀ r, r ∈ roots st → r ∈ rs) →
      attached (mkTree
        (<[next_addr st := new_MCTSNode b p]> (heap st))
        (S (next_addr st))
        (table_insert b (next_addr st) (transposition_table st))
        rs (total_lookups st + 1)%N (total_hits st)
        (total_fillicides st))).
    { intros rs Hnew Hold x nd' Hx. unfold node_at in *. simpl in *.
      destruct (decide (x = next_addr st)) as [-> | Hne].
      - rewrite lookup_insert_eq in Hx. injection Hx as <-.
        destruct p as [q|]; [|left; by apply Hnew].
        right. exists q. split; [apply list_elem_of_here|].
        apply lookup_insert_is_Some'. right. by apply Hp.
      - rewrite lookup_insert_ne in Hx by done.
        destruct (Hat _ _ Hx) as [Hr | (p' & Hp' & Hl)]; [left; by apply Hold|].
        right. exists p'. split; [done|].
        apply lookup_insert_is_Some'. by right. }
    destruct p as [q|]; simpl.
    + apply Hgen; [done|done].
    + apply Hgen.
      * intros _. apply elem_of_app. right. apply list_elem_of_here.
      * intros r Hr. apply elem_of_app. by left.
Qed.

(** [expand] returns on such a tree, for a live node. *)
Lemma expand_moves_return (this : addr) (b : Board) (ms : list Move) :
  ∀ st : Tree,
    consistent st → attached st → is_Some (node_at st this) →
    ∃ st', foldl (expand_move this b) (Some st) ms = Some st' ∧
           attached st'.
Proof.
  induction ms as [|m ms IH]; intros st Hc Hat Hlive; [by exists st|].
  cbn [foldl]. unfold expand_move at 2. rewrite bind_Some_eq.
  set (st1 := update_node st this (λ n, set_expanded n true)).
  assert (Hc1 : consistent st1) by (by apply consistent_update).
  assert (Hat1 : attached st1).
  { apply attached_update; [|done]. by intros nd p _ Hp _. }
  assert (Hl1 : is_Some (node_at st1 this)) by (by apply update_node_live).
  destruct (get_node_returns st1 (move b m) (Some this) Hc1 Hat1)
    as (a & st2 & Hg & Hat2).
  { by intros q [= <-]. }
  rewrite Hg. rewrite bind_Some_eq. cbn beta iota zeta.
  pose proof (consistent_get_node _ _ _ _ _ Hc1 Hg) as Hc2.
  destruct (get_node_frame _ _ _ _ _ Hc1 Hg) as (Hold & _).
  destruct Hl1 as [n1 Hn1]. destruct (Hold _ _ Hn1) as (n2 & Hn2 & _).
  apply IH.
  - by apply consistent_update.
  - apply attached_update; [|done]. by intros nd p _ Hp _.
  - apply update_node_live. by eexists.
Qed.

Lemma expand_returns (st : Tree) (this : addr) :
  consistent st → attached st → is_Some (node_at st this) →
  ∃ st', expand st this = Some st' ∧ attached st'.
Proof.
  intros Hc Hat [nd Hnd]. unfold expand. rewrite Hnd, bind_Some_eq.
  destruct (expanded nd).
  - eexists. split; [done|]. by apply attached_visit.
  - apply expand_moves_return.
    + by apply consistent_update.
    + by apply attached_visit.
    + apply update_node_live. by eexists.
Qed.

(** *** What [expand] does to the boards and the visit counts *)

Lemma counts_kept_trans (s1 s2 s3 : Tree) :
  counts_kept s1 s2 → counts_kept s2 s3 → counts_kept s1 s3.
Proof.
  intros [A1 B1] [A2 B2]. split.
  - intros x nd Hx. destruct (A1 _ _ Hx) as (n2 & Hn2 & Hb2 & Hv2 & He2).
    destruct (A2 _ _ Hn2) as (n3 & Hn3 & Hb3 & Hv3 & He3).
    exists n3. split; [done|]. split; [congruence|]. split; [congruence|].
    auto.
  - intros x n3 Hx3 Hx1.
    destruct (node_at s2 x) as [n2|] eqn:Hx2; [|by eapply B2].
    destruct (A2 _ _ Hx2) as (n3' & Hn3' & _ & Hv3 & _).
    rewrite Hx3 in Hn3'. injection Hn3' as <-.
    rewrite Hv3. by eapply B1.
Qed.

Lemma counts_kept_update (st : Tree) (a : addr) (f : Node → Node) :
  (∀ nd, board (f nd) = board nd ∧ visits (f nd) = visits nd ∧
         (expanded nd = true → expanded (f nd) = true)) →
  counts_kept st (update_node st a f).
Proof.
  intros Hf. split.
  - intros x nd Hx. destruct (decide (a = x)) as [-> | Hne].
    + exists (f nd). rewrite node_at_update, Hx. split; [done|]. apply Hf.
    + exists nd. by rewrite node_at_update_ne.
  - intros x nd' Hx' Hx. exfalso.
    assert (is_Some (node_at st x)) as [? ?]; [|congruence].
    apply (update_node_live st a x f). by eexists.
Qed.

Lemma counts_kept_get_node (st st' : Tree) b p a :
  consistent st → get_node st b p = Some (a, st') → counts_kept st st'.
Proof.
  intros Hc Hg.
  destruct (get_node_effect _ _ _ _ _ (live_allocated _ Hc) Hg)
    as (_ & _ & Hold & Hnew).
  split.
  - intros x nd Hx. destruct (Hold _ _ Hx) as (nd' & Hx' & Hs).
    exists nd'. split; [done|].
    destruct (same_but_parents_fields _ _ Hs) as (-> & _ & _ & -> & -> & _).
    done.
  - intros x nd' Hx' Hx.
    destruct (Hnew _ _ Hx') as [(nd & Hnd & _) | ->]; [congruence|done].
Qed.

Lemma expand_moves_counts (this : addr) (b : Board) (ms : list Move) :
  ∀ st st' : Tree,
    consistent st →
    foldl (expand_move this b) (Some st) ms = Some st' →
    counts_kept st st'.
Proof.
  induction ms as [|m ms IH]; intros st st' Hc Hf.
  { injection Hf as <-. split; [by eauto 10|congruence]. }
  cbn [foldl] in Hf. unfold expand_move at 2 in Hf.
  rewrite bind_Some_eq in Hf.
  set (st1 := update_node st this (λ n, set_expanded n true)) in *.
  assert (Hc1 : consistent st1) by (by apply consistent_update).
  destruct (get_node st1 (move b m) (Some this)) as [[a st2]|] eqn:Hg.
  2: { change (foldl (expand_move this b) None ms = Some st') in Hf.
       by rewrite expand_move_None in Hf. }
  rewrite bind_Some_eq in Hf. cbn beta iota zeta in Hf.
  pose proof (consistent_get_node _ _ _ _ _ Hc1 Hg) as Hc2.
  eapply counts_kept_trans; [|eapply IH; [|exact Hf]].
  - eapply counts_kept_trans.
    { apply (counts_kept_update st this (λ n, set_expanded n true)).
      by intros nd. }
    eapply counts_kept_trans; [exact (counts_kept_get_node _ _ _ _ _ Hc1 Hg)|].
    apply counts_kept_update. by intros nd.
  - by apply consistent_update.
Qed.

Lemma expand_counts (st st' : Tree) (this : addr) :
  consistent st → expand st this = Some st' →
  counts_kept (visit st this) st'.
Proof.
  intros Hc. unfold expand.
  destruct (node_at st this) as [nd|] eqn:Hnd; [|done].
  rewrite bind_Some_eq. fold (visit st this).
  destruct (expanded nd).
  - intros [= <-]. split; [by eauto 10|congruence].
  - apply expand_moves_counts. by apply consistent_update.
Qed.

(** [expand] on a node with a move leaves it expanded. *)
Lemma expand_sets_flag (st st' : Tree) (this : addr) nd :
  consistent st → expand st this = Some st' →
  node_at st this = Some nd → moves nd ≠ [] →
  ∃ nd', node_at st' this = Some nd' ∧ expanded nd' = true.
Proof.
  intros Hc He Hnd Hms. unfold expand in He.
  rewrite Hnd, bind_Some_eq in He. fold (visit st this) in He.
  destruct (expanded nd) eqn:Hex.
  { injection He as <-. unfold visit. rewrite node_at_update, Hnd.
    by eexists. }
  destruct (moves nd) as [|m ms] eqn:Hm; [done|].
  cbn [foldl] in He. unfold expand_move at 2 in He.
  rewrite bind_Some_eq in He.
  set (s0 := visit st this) in *.
  set (s1 := update_node s0 this (λ n, set_expanded n true)) in *.
  assert (Hc0 : consistent s0) by (by apply consistent_update).
  assert (Hc1 : consistent s1) by (by apply consistent_update).
  destruct (get_node s1 (move (board nd) m) (Some this)) as [[a s2]|] eqn:Hg.
  2: { change (foldl (expand_move this (board nd)) None ms = Some st') in He.
       by rewrite expand_move_None in He. }
  rewrite bind_Some_eq in He. cbn beta iota zeta in He.
  pose proof (consistent_get_node _ _ _ _ _ Hc1 Hg) as Hc2.
  assert (Hn1 : ∃ n1, node_at s1 this = Some n1 ∧ expanded n1 = true).
  { unfold s1, s0, visit. rewrite !node_at_update, Hnd. by eexists. }
  destruct Hn1 as (n1 & Hn1 & He1).
  destruct (proj1 (counts_kept_get_node _ _ _ _ _ Hc1 Hg) _ _ Hn1)
    as (n2 & Hn2 & _ & _ & He2).
  set (s3 := update_node s2 this
               (λ n, set_children n (children n ++ [a]))) in *.
  assert (Hn3 : ∃ n3, node_at s3 this = Some n3 ∧ expanded n3 = true).
  { unfold s3. rewrite node_at_update, Hn2. eexists. split; [done|].
    simpl. by apply He2. }
  destruct Hn3 as (n3 & Hn3 & He3).
  assert (Hc3 : consistent s3) by (by apply consistent_update).
  destruct (proj1 (expand_moves_counts _ _ _ _ _ Hc3 He) _ _ Hn3)
    as (n4 & Hn4 & _ & _ & He4).
  exists n4. split; [done|]. by apply He4.
Qed.

End SearchReturns.

Section SearchRounds.
Context {Board Move : Type} `{Game Board Move}.
Abbreviation Node := (MCTSNode Board Move).
Abbreviation Tree := (MCTSTree Board Move).

(** *** The states of the search loop *)

Lemma mcts_state_reachable (ph : phase) (st : Tree) :
  mcts_state ph st → reachable st.
Proof.
  induction 1 as [ | st b node st' _ IH Hg
                   | node st fuel path st' _ IH Hs
                   | node path st leaf lf fuel rand k b k' _ IH Hl Hn Hsim
                   | node leaf st lf st' _ IH Hn Hw He
                   | node leaf st lf _ IH Hn Hw
                   | node st _ IH ]; try done.
  - apply rtc_refl.
  - eapply rtc_r; [exact IH|]. by eapply step_get_node.
  - eapply rtc_r; [exact IH|]. by eapply step_select.
  - eapply rtc_r; [exact IH|]. apply step_backpropagate.
  - eapply rtc_r; [exact IH|]. by eapply step_expand.
Qed.

Lemma mcts_state_attached (ph : phase) (st : Tree) :
  mcts_state ph st → attached st.
Proof.
  induction 1 as [ | st b node st' Hst IH Hg
                   | node st fuel path st' _ IH Hs
                   | node path st leaf lf fuel rand k b k' _ IH Hl Hn Hsim
                   | node leaf st lf st' Hst IH Hn Hw He
                   | node leaf st lf _ IH Hn Hw
                   | node st _ IH ].
  - apply attached_empty.
  - destruct (reachable_shape _ (mcts_state_reachable _ _ Hst)) as [Hc _].
    destruct (get_node_returns st b None Hc IH) as (a & s & Hg' & Hat);
      [done|].
    rewrite Hg in Hg'. by injection Hg' as -> ->.
  - unfold select in Hs.
    exact (closed_select_loop attached attached_visit attached_parents
             _ _ _ _ _ _ IH Hs).
  - exact (closed_backpropagate attached attached_score _ _ _ IH).
  - destruct (reachable_shape _ (mcts_state_reachable _ _ Hst)) as [Hc _].
    destruct (expand_returns st leaf Hc IH) as (s & He' & Hat);
      [by eexists|].
    rewrite He in He'. by injection He' as ->.
  - done.
  - done.
Qed.

(** *** Paths of [select] on a game with a rank *)

Lemma descent_ranks (rank : Board → nat) (st : Tree) (l : list addr) :
  (∀ b m, m ∈ get_valid_moves b → rank (move b m) < rank b) →
  well_formed st →
  descent st l →
  NoDup l ∧
  ∀ a nd, head l = Some a → node_at st a = Some nd →
    ∀ x, x ∈ tail l →
      ∃ nx, node_at st x = Some nx ∧ rank (board nx) < rank (board nd).
Proof.
  intros Hrank Hw.
  induction 1 as [a nd Ha He | a nd b rest Ha He Hb Hd [IHn IHr]].
  - split; [apply NoDup_singleton|].
    intros a' nd' _ _ x Hx. by apply elem_of_nil in Hx.
  - assert (Hchild : ∃ nb, node_at st b = Some nb ∧
                           rank (board nb) < rank (board nd)).
    { pose proof (children_boards _ Hw _ _ Ha He) as HF.
      apply list_elem_of_lookup in Hb as [i Hi].
      destruct (Forall2_lookup_l _ _ _ _ _ HF Hi) as (m & Hm & Hbm).
      apply fmap_Some in Hbm as (nb & Hnb & Hbb).
      exists nb. split; [done|]. rewrite <- Hbb. apply Hrank.
      rewrite <- (moves_legal _ Hw _ _ Ha). by eapply list_elem_of_lookup_2. }
    destruct Hchild as (nb & Hnb & Hlt).
    assert (Hall : ∀ x, x ∈ b :: rest →
              ∃ nx, node_at st x = Some nx ∧
                    rank (board nx) < rank (board nd)).
    { intros x Hx. apply elem_of_cons in Hx as [-> | Hx]; [by eauto|].
      destruct (IHr b nb eq_refl Hnb x Hx) as (nx & Hnx & Hlt').
      exists nx. split; [done|]. lia. }
    split.
    + apply NoDup_cons. split; [|done].
      intros Hin. destruct (Hall a Hin) as (nx & Hnx & Hlt').
      rewrite Ha in Hnx. injection Hnx as <-. lia.
    + intros a' nd' [= <-] Ha'. rewrite Ha in Ha'. injection Ha' as <-.
      exact Hall.
Qed.

Lemma occurrences_NoDup (a : addr) (l : list addr) :
  NoDup l → (occurrences a l ≤ 1)%N.
Proof.
  induction 1 as [|x l Hx _ IH]; [by rewrite occurrences_nil|].
  rewrite occurrences_cons. destruct (decide (x = a)) as [-> | Hne]; [|lia].
  assert (occurrences a l = 0%N) as ->; [|lia].
  unfold occurrences.
  destruct (filter (λ y, y = a) l) as [|y l'] eqn:Hf; [done|].
  assert (Hy : y ∈ filter (λ y, y = a) l)
    by (rewrite Hf; apply list_elem_of_here).
  apply list_elem_of_filter in Hy as [-> Hy]. done.
Qed.

End SearchRounds.

Section SearchLoop.
Context {Board Move : Type} `{Game Board Move}.
Abbreviation Node := (MCTSNode Board Move).
Abbreviation Tree := (MCTSTree Board Move).

(** *** Visit counts along a round *)

Lemma visits_grown_trans (b1 b2 : N) (s1 s2 s3 : Tree) :
  visits_grown b1 s1 s2 → visits_grown b2 s2 s3 →
  visits_grown (b1 + b2) s1 s3.
Proof.
  intros [A1 B1] [A2 B2]. split.
  - intros x nd Hx. destruct (A1 _ _ Hx) as (n2 & Hn2 & Hb2 & Hv2).
    destruct (A2 _ _ Hn2) as (n3 & Hn3 & Hb3 & Hv3).
    exists n3. split; [done|]. split; [congruence|lia].
  - intros x n3 Hx3 Hx1.
    destruct (node_at s2 x) as [n2|] eqn:Hx2.
    + destruct (A2 _ _ Hx2) as (n3' & Hn3' & _ & Hv3).
      rewrite Hx3 in Hn3'. injection Hn3' as <-.
      pose proof (B1 _ _ Hx2 Hx1). lia.
    + pose proof (B2 _ _ Hx3 Hx2). lia.
Qed.

Lemma visits_grown_mono (b1 b2 : N) (s1 s2 : Tree) :
  (b1 ≤ b2)%N → visits_grown b1 s1 s2 → visits_grown b2 s1 s2.
Proof.
  intros Hle [A B]. split.
  - intros x nd Hx. destruct (A _ _ Hx) as (n2 & Hn2 & Hb2 & Hv2).
    exists n2. split; [done|]. split; [done|lia].
  - intros x n2 Hx2 Hx1. pose proof (B _ _ Hx2 Hx1). lia.
Qed.

Lemma visits_grown_counts (s1 s2 : Tree) :
  counts_kept s1 s2 → visits_grown 0 s1 s2.
Proof.
  intros [A B]. split.
  - intros x nd Hx. destruct (A _ _ Hx) as (n2 & Hn2 & Hb2 & Hv2 & _).
    exists n2. split; [done|]. split; [done|lia].
  - intros x n2 Hx2 Hx1. rewrite (B _ _ Hx2 Hx1). lia.
Qed.

Lemma visits_grown_visit (st : Tree) (a : addr) :
  visits_grown 1 st (visit st a).
Proof.
  split.
  - intros x nd Hx. unfold visit. destruct (decide (a = x)) as [-> | Hne].
    + rewrite node_at_update, Hx. eexists. split; [done|].
      split; [done|]. simpl. lia.
    + rewrite node_at_update_ne by done. exists nd.
      split; [done|]. split; [done|lia].
  - intros x n2 Hx2 Hx1. exfalso.
    assert (is_Some (node_at st x)) as [? ?]; [|congruence].
    apply (update_node_live st a x (λ n, set_visits n (visits n + 1)%N)).
    by eexists.
Qed.

Lemma backpropagate_counts (b : Board) (path : list addr) :
  ∀ st : Tree, counts_kept st (backpropagate st b path).
Proof.
  unfold backpropagate.
  induction path as [|x path IH]; intros st; simpl.
  { split; [by eauto 10|congruence]. }
  eapply counts_kept_trans; [|apply IH].
  apply counts_kept_update. intros nd.
  destruct (backpropagate_node_wins (game_winner b) nd)
    as (_ & _ & Hv & Hb & _ & _ & _ & He).
  split; [done|]. split; [done|]. by rewrite He.
Qed.

Lemma select_loop_no_new (fuel : nat) (st st' : Tree) cur path0 path :
  select_loop fuel st cur path0 = Some (path, st') →
  ∀ a, is_Some (node_at st' a) → is_Some (node_at st a).
Proof.
  intros Hs.
  apply (closed_select_loop
           (λ s, ∀ a, is_Some (node_at s a) → is_Some (node_at st a)))
    with (fuel := fuel) (st := st) (cur := cur) (path0 := path0)
         (path := path); [| |done|done].
  - intros s a Hp x Hx. apply Hp. unfold visit in Hx.
    by apply update_node_live in Hx.
  - intros s a g _ Hp x Hx. apply Hp. by apply update_node_live in Hx.
Qed.

(** *** One round of the search loop returns *)

Lemma visit_fields (st : Tree) (a x : addr) n :
  node_at st x = Some n →
  ∃ n', node_at (visit st a) x = Some n' ∧ expanded n' = expanded n ∧
        board n' = board n ∧ moves n' = moves n.
Proof.
  intros Hx. unfold visit. destruct (decide (a = x)) as [-> | Hne].
  - rewrite node_at_update, Hx. by eexists.
  - rewrite node_at_update_ne by done. by exists n.
Qed.

Lemma mcts_iteration_returns (rank : Board → nat) (fuel : nat) rand k
    (st : Tree) (node : addr) nd :
  (∀ b, game_winner b = PLAYER_NONE → get_valid_moves b ≠ []) →
  (∀ b m, m ∈ get_valid_moves b → rank (move b m) < rank b) →
  mcts_state (LoopHead node) st →
  node_at st node = Some nd → rank (board nd) < fuel →
  (∀ a n, node_at st a = Some n →
          (visits n + N.of_nat fuel ≤ 16777216)%N) →
  ∃ st' k' nd',
    mcts_iteration fuel rand k st node = Some (st', k') ∧
    k ≤ k' ≤ k + rank (board nd) ∧
    visits_grown 2 st st' ∧
    node_at st' node = Some nd' ∧ (visits nd + 1 ≤ visits nd')%N ∧
    (expanded nd = true ∨ game_winner (board nd) = PLAYER_NONE →
     expanded nd' = true).
Proof.
  intros Hmoves Hrank Hst Hnd Hfuel Hbound.
  destruct (reachable_shape _ (mcts_state_reachable _ _ Hst)) as [Hc Hw].
  pose proof (mcts_state_ok _ _ Hst) as Hok. simpl in Hok.
  destruct (select_loop_returns rank Hrank fuel st node [] nd Hc Hw)
    as (p & s1 & Hsel & Hd & Hfr); [|done|done|].
  { intros a n Ha. split; [|by eapply Hbound].
    pose proof (ok_stats _ _ _ _ (Hok _ _ Ha)) as Hs.
    rewrite occurrences_nil in Hs. lia. }
  simpl in Hsel.
  destruct (descent_ranks rank st _ Hrank Hw Hd) as [Hnodup Hranks].
  specialize (Hranks node nd eq_refl Hnd). simpl in Hranks.
  (* the round of [select] *)
  assert (Hg1 : visits_grown 1 st s1).
  { split.
    - intros a n Ha.
      destruct (Hfr _ _ Ha) as (n' & Hn' & Hv & _ & _ & _ & _ & Hb).
      exists n'. split; [done|]. split; [done|].
      pose proof (occurrences_NoDup a _ Hnodup). lia.
    - intros a n' Ha' Ha. exfalso.
      assert (is_Some (node_at st a)) as [? ?]; [|congruence].
      eapply select_loop_no_new; [exact Hsel|]. by eexists. }
  destruct (Hfr _ _ Hnd) as (n1 & Hn1 & Hv1 & _ & _ & _ & He1 & Hb1).
  rewrite occurrences_cons, decide_True in Hv1 by done.
  assert (Hst1 : mcts_state (Selected node (node :: p)) s1)
    by (eapply mcts_select; [exact Hst|exact Hsel]).
  (* the leaf *)
  destruct (proj2 (last_is_Some (node :: p)) ltac:(done)) as [leaf Hleaf].
  assert (Hlf : ∃ lf, node_at st leaf = Some lf ∧
                      rank (board lf) ≤ rank (board nd)).
  { pose proof (last_Some_elem_of _ _ Hleaf) as Hin.
    apply elem_of_cons in Hin as [-> | Hin]; [by eauto|].
    destruct (Hranks _ Hin) as (nx & Hnx & Hlt).
    exists nx. split; [done|lia]. }
  destruct Hlf as (lf & Hlf & Hlfr).
  destruct (Hfr _ _ Hlf) as (lf1 & Hlf1 & _ & _ & _ & _ & _ & Hlfb).
  assert (Hown : expanded nd = false → leaf = node).
  { intros Hex. inversion Hd as [a0 n0 Ha0 He0 | a0 n0 b0 rest Ha0 He0]; subst.
    - simpl in Hleaf. by injection Hleaf as <-.
    - rewrite Hnd in Ha0. injection Ha0 as <-. congruence. }
  (* the playout *)
  destruct (simulate_returns rank rand) with (fuel := fuel) (b := board lf1)
    (k := k) as (b' & k1 & Hsim & _ & Hk1).
  { intros b0 Hb0. split; [by apply Hmoves|]. intros m Hm. by apply Hrank. }
  { rewrite Hlfb. lia. }
  rewrite Hlfb in Hk1.
  set (s2 := backpropagate s1 b' (node :: p)).
  assert (Hst2 : mcts_state (Backpropagated node leaf) s2)
    by (eapply mcts_playout; [exact Hst1|exact Hleaf|exact Hlf1|exact Hsim]).
  pose proof (backpropagate_counts b' (node :: p) s1) as Hk2. fold s2 in Hk2.
  pose proof (visits_grown_counts _ _ Hk2) as Hg2.
  pose proof (visits_grown_trans _ _ _ _ _ Hg1 Hg2) as Hg12.
  destruct (proj1 Hk2 _ _ Hn1) as (n2 & Hn2 & Hb2 & Hv2 & He2).
  destruct (reachable_shape _ (mcts_state_reachable _ _ Hst2)) as [Hc2 Hw2].
  unfold mcts_iteration, select. rewrite Hsel, bind_Some_eq.
  cbn beta iota zeta. rewrite Hleaf, bind_Some_eq, Hlf1, bind_Some_eq.
  rewrite Hsim, bind_Some_eq. cbn beta iota zeta. fold s2.
  destruct (decide (game_winner (board lf1) = PLAYER_NONE)) as [Hun | Hdec].
  - (* the leaf is expanded *)
    pose proof (mcts_state_attached _ _ Hst2) as Hat2.
    destruct (proj1 Hg2 _ _ Hlf1) as (lf2 & Hlf2 & _).
    destruct (expand_returns s2 leaf Hc2 Hat2) as (s3 & Hex & _);
      [by eexists|].
    rewrite Hex, bind_Some_eq.
    pose proof (expand_counts _ _ _ Hc2 Hex) as Hk3.
    pose proof (visits_grown_trans _ _ _ _ _ (visits_grown_visit s2 leaf)
                  (visits_grown_counts _ _ Hk3)) as Hg3.
    pose proof (visits_grown_trans _ _ _ _ _ Hg12 Hg3) as Hg.
    destruct (proj1 Hg3 _ _ Hn2) as (n3 & Hn3 & _ & Hv3).
    exists s3, k1, n3. split; [done|]. split; [lia|].
    split; [exact Hg|]. split; [done|]. split; [lia|].
    intros Hflag.
    destruct (expanded nd) eqn:Hexp.
    + destruct (visit_fields s2 leaf node n2 Hn2) as (nv & Hnv & Hev & _).
      destruct (proj1 Hk3 _ _ Hnv) as (n3' & Hn3' & _ & _ & He3).
      rewrite Hn3 in Hn3'. injection Hn3' as <-.
      apply He3. rewrite Hev. apply He2. by rewrite He1.
    + destruct Hflag as [? | Hund]; [done|].
      rewrite (Hown eq_refl) in Hex.
      destruct (expand_sets_flag s2 s3 node n2 Hc2 Hex Hn2)
        as (n3' & Hn3' & He3).
      { rewrite (moves_legal _ Hw2 _ _ Hn2). apply Hmoves. congruence. }
      rewrite Hn3 in Hn3'. by injection Hn3' as <-.
  - exists s2, k1, n2. split; [done|]. split; [lia|].
    split; [eapply visits_grown_mono; [|exact Hg12]; lia|].
    split; [done|]. split; [lia|].
    intros Hflag.
    destruct (expanded nd) eqn:Hexp; [apply He2; by rewrite He1|].
    destruct Hflag as [? | Hund]; [done|].
    exfalso. apply Hdec.
    rewrite (Hown eq_refl) in Hlf1. rewrite Hn1 in Hlf1.
    injection Hlf1 as <-. congruence.
Qed.

Lemma mcts_loop_returns (rank : Board → nat) (fuel : nat) rand :
  (∀ b, game_winner b = PLAYER_NONE → get_valid_moves b ≠ []) →
  (∀ b m, m ∈ get_valid_moves b → rank (move b m) < rank b) →
  ∀ n k (st : Tree) (node : addr) nd,
    mcts_state (LoopHead node) st →
    node_at st node = Some nd → rank (board nd) < fuel →
    (∀ a x, node_at st a = Some x →
       (visits x + 2 * N.of_nat n + N.of_nat fuel ≤ 16777216)%N) →
    ∃ st' k' nd',
      mcts_loop fuel rand k st node n = Some (st', k') ∧
      k ≤ k' ≤ k + n * rank (board nd) ∧
      visits_grown (2 * N.of_nat n) st st' ∧
      node_at st' node = Some nd' ∧
      (visits nd + N.of_nat n ≤ visits nd')%N ∧
      (expanded nd = true ∨ (0 < n ∧ game_winner (board nd) = PLAYER_NONE) →
       expanded nd' = true).
Proof.
  intros Hmoves Hrank.
  induction n as [|n IH]; intros k st node nd Hst Hnd Hfuel Hbound.
  { exists st, k, nd. split; [done|]. split; [lia|].
    split; [|split; [done|split; [lia|]]].
    - split.
      + intros a x Ha. exists x. split; [done|]. split; [done|lia].
      + intros a x Ha Hn. congruence.
    - intros [? | [? _]]; [done|lia]. }
  destruct (mcts_iteration_returns rank fuel rand k st node nd
              Hmoves Hrank Hst Hnd Hfuel)
    as (s1 & k1 & n1 & Hit & Hk1 & Hg1 & Hn1 & Hv1 & He1).
  { intros a x Ha. pose proof (Hbound _ _ Ha). lia. }
  pose proof (mcts_iteration_state _ _ _ _ _ _ _ Hst Hit) as Hst1.
  assert (Hb1 : board n1 = board nd).
  { destruct (proj1 Hg1 _ _ Hnd) as (n1' & Hn1' & Hb & _). congruence. }
  destruct (IH k1 s1 node n1 Hst1 Hn1)
    as (s2 & k2 & n2 & Hloop & Hk2 & Hg2 & Hn2 & Hv2 & He2).
  { by rewrite Hb1. }
  { intros a x Ha.
    destruct (node_at st a) as [x0|] eqn:Ha0.
    - destruct (proj1 Hg1 _ _ Ha0) as (x' & Hx' & _ & Hvx).
      rewrite Ha in Hx'. injection Hx' as <-.
      pose proof (Hbound _ _ Ha0). lia.
    - pose proof (proj2 Hg1 _ _ Ha Ha0).
      pose proof (Hbound _ _ Hnd). lia. }
  exists s2, k2, n2. split.
  { cbn [mcts_loop]. rewrite Hit, bind_Some_eq. exact Hloop. }
  split; [rewrite Hb1 in Hk2; lia|].
  split; [|split; [done|split; [lia|]]].
  - replace (2 * N.of_nat (S n))%N with (2 + 2 * N.of_nat n)%N by lia.
    by eapply visits_grown_trans.
  - intros Hflag. apply He2. left. apply He1.
    destruct Hflag as [? | [_ ?]]; [by left|by right].
Qed.

(** [mcts] returns. *)
Lemma mcts_run_returns (rank : Board → nat) (fuel : nat) (rand : nat → nat)
    (k : nat) (st : Tree) (b : Board) (n : nat) :
  (∀ b, game_winner b = PLAYER_NONE → get_valid_moves b ≠ []) →
  (∀ b m, m ∈ get_valid_moves b → rank (move b m) < rank b) →
  mcts_state Idle st →
  rank b < fuel →
  (2 * N.of_nat n + N.of_nat fuel ≤ 16777216)%N →
  (∀ a nd, node_at st a = Some nd →
     (visits nd + 2 * N.of_nat n + N.of_nat fuel ≤ 16777216)%N) →
  ∃ st' k' r nr,
    mcts fuel rand k st b n = Some (st', k') ∧
    k ≤ k' ≤ k + n * rank b ∧
    visits_grown (2 * N.of_nat n) st st' ∧
    mcts_state Idle st' ∧
    transposition_table st' !! b = Some r ∧
    node_at st' r = Some nr ∧ board nr = b ∧
    (N.of_nat n ≤ visits nr)%N ∧
    (0 < n → game_winner b = PLAYER_NONE → expanded nr = true).
Proof.
  intros Hmoves Hrank Hst Hfuel Hroom Hbound.
  destruct (reachable_shape _ (mcts_state_reachable _ _ Hst)) as [Hc _].
  pose proof (mcts_state_attached _ _ Hst) as Hat.
  destruct (get_node_returns st b None Hc Hat) as (node & s0 & Hg & _);
    [done|].
  pose proof (mcts_enter _ _ _ _ Hst Hg) as Hst0.
  destruct (get_node_frame _ _ _ _ _ Hc Hg) as (_ & _ & _ & nd0 & Hnd0 & Hb0).
  destruct Hb0 as [Hb0 _].
  pose proof (visits_grown_counts _ _ (counts_kept_get_node _ _ _ _ _ Hc Hg))
    as Hg0.
  destruct (mcts_loop_returns rank fuel rand Hmoves Hrank n k s0 node nd0
              Hst0 Hnd0)
    as (s' & k' & nd' & Hloop & Hk & Hgl & Hnd' & Hv & He).
  { by rewrite Hb0. }
  { intros a x Ha. destruct (node_at st a) as [x0|] eqn:Ha0.
    - destruct (proj1 Hg0 _ _ Ha0) as (x' & Hx' & _ & Hvx).
      rewrite Ha in Hx'. injection Hx' as <-.
      pose proof (Hbound _ _ Ha0). lia.
    - pose proof (proj2 Hg0 _ _ Ha Ha0). lia. }
  pose proof (mcts_loop_state _ _ _ _ _ _ _ _ Hst0 Hloop) as Hst'.
  destruct (reachable_shape _ (mcts_state_reachable _ _ Hst')) as [Hc' _].
  pose proof (visits_grown_trans _ _ _ _ _ Hg0 Hgl) as Hgrown.
  rewrite N.add_0_l in Hgrown.
  assert (Hb' : board nd' = b).
  { destruct (proj1 Hgl _ _ Hnd0) as (x & Hx & Hbx & _). congruence. }
  exists s', k', node, nd'. split.
  { unfold mcts. rewrite Hg, bind_Some_eq. exact Hloop. }
  rewrite Hb0 in Hk, He.
  split; [done|]. split; [exact Hgrown|].
  split; [by apply mcts_exit in Hst'|].
  split; [apply (table_live _ Hc'); by eauto|].
  split; [done|]. split; [done|]. split; [lia|].
  intros Hn Hund. apply He. by right.
Qed.

End SearchLoop.

Section SearchReturnsMain.
Context {Board Move : Type} `{Game Board Move}.
Abbreviation Node := (MCTSNode Board Move).
Abbreviation Tree := (MCTSTree Board Move).

(** X18.  [mcts] returns, on a game in which a position that is not
    decided has a legal move and every move lowers a rank: called between
    searches on a tree built by searches alone, with fuel above the rank
    of the position and every visit count leaving room below [2 ^ 24]
    for two visits per round and for the fuel besides, it dereferences
    no null or dangling pointer and takes no element of an empty move
    list.  It calls [rand()] at most
    [rank b] times per round.  Every node is kept with its board and
    gains at most two visits per round, a node created by the search has
    at most two visits per round, and the node of the position, which is
    in the table, has at least one visit per round and, after one round
    or more on a position that is not decided, is expanded. *)
Theorem mcts_returns (rank : Board → nat) (fuel : nat) (rand : nat → nat)
    (k : nat) (st : Tree) (b : Board) (n : nat) :
  (∀ b, game_winner b = PLAYER_NONE → get_valid_moves b ≠ []) →
  (∀ b m, m ∈ get_valid_moves b → rank (move b m) < rank b) →
  mcts_state Idle st →
  rank b < fuel →
  (2 * N.of_nat n + N.of_nat fuel ≤ 16777216)%N →
  (∀ a nd, node_at st a = Some nd →
     (visits nd + 2 * N.of_nat n + N.of_nat fuel ≤ 16777216)%N) →
  ∃ st' k' r nr,
    mcts fuel rand k st b n = Some (st', k') ∧
    k ≤ k' ≤ k + n * rank b ∧
    (∀ a nd, node_at st a = Some nd →
       ∃ nd', node_at st' a = Some nd' ∧ board nd' = board nd ∧
              (visits nd ≤ visits nd' ≤ visits nd + 2 * N.of_nat n)%N) ∧
    (∀ a nd', node_at st' a = Some nd' → node_at st a = None →
       (visits nd' ≤ 2 * N.of_nat n)%N) ∧
    transposition_table st' !! b = Some r ∧
    node_at st' r = Some nr ∧ board nr = b ∧
    (N.of_nat n ≤ visits nr)%N ∧
    (0 < n → game_winner b = PLAYER_NONE → expanded nr = true).
Proof.
  intros Hmoves Hrank Hst Hfuel Hroom Hbound.
  destruct (mcts_run_returns rank fuel rand k st b n Hmoves Hrank Hst Hfuel
              Hroom Hbound)
    as (st' & k' & r & nr & Hrun & Hk & [HA HB] & _ & Ht & Hnr & Hb & Hv & He).
  exists st', k', r, nr. by repeat (split; [done|]).
Qed.

End SearchReturnsMain.

Section SearchThenMove.
Context {Board : Type} `{Game Board grid_coord}.
Abbreviation GTree := (MCTSTree Board grid_coord).

(** X19.  A search followed by [get_move]: on a game in which a position
    that is not decided has a legal move and every move lowers a rank,
    after [mcts] has run one round or more on a position that is not
    decided (from a tree built by searches alone, the visit counts
    leaving room below [2 ^ 24] for two visits per round and for the
    fuel besides), [get_move] on
    the node of that position returns a legal move of the position: the
    node is expanded, and the scan of its children reads live nodes
    only. *)
Theorem get_move_after_search (rank : Board → nat) (fuel : nat)
    (rand : nat → nat) (k : nat) (st : GTree) (b : Board) (n : nat) :
  (∀ b, game_winner b = PLAYER_NONE → get_valid_moves b ≠ []) →
  (∀ b m, m ∈ get_valid_moves b → rank (move b m) < rank b) →
  mcts_state Idle st →
  rank b < fuel →
  (2 * N.of_nat n + N.of_nat fuel ≤ 16777216)%N →
  (∀ a nd, node_at st a = Some nd →
     (visits nd + 2 * N.of_nat n + N.of_nat fuel ≤ 16777216)%N) →
  game_winner b = PLAYER_NONE →
  0 < n →
  ∃ st' k' r mv,
    mcts fuel rand k st b n = Some (st', k') ∧
    transposition_table st' !! b = Some r ∧
    get_move st' r = Some mv ∧
    mv ∈ get_valid_moves b.
Proof.
  intros Hmoves Hrank Hst Hfuel Hroom Hbound Hund Hn.
  destruct (mcts_run_returns rank fuel rand k st b n Hmoves Hrank Hst Hfuel
              Hroom Hbound)
    as (st' & k' & r & nr & Hrun & _ & Hgrown & Hst' & Ht & Hnr & Hb & _ & He).
  destruct (reachable_shape _ (mcts_state_reachable _ _ Hst')) as [_ Hw'].
  pose proof (mcts_state_ok _ _ Hst') as Hok. simpl in Hok.
  destruct (get_move_scan st' r nr Hw' Hnr (He Hn Hund))
    as (i & mv & c & nc & Hg & Hm & _).
  { intros x nx _ Hx. split.
    - pose proof (ok_stats _ _ _ _ (Hok _ _ Hx)) as Hs.
      rewrite occurrences_nil in Hs. lia.
    - destruct (node_at st x) as [n0|] eqn:Hx0.
      + destruct (proj1 Hgrown _ _ Hx0) as (nx' & Hnx' & _ & Hv).
        rewrite Hx in Hnx'. injection Hnx' as <-.
        pose proof (Hbound _ _ Hx0). lia.
      + pose proof (proj2 Hgrown _ _ Hx Hx0). lia. }
  assert (Hin : mv ∈ get_valid_moves b).
  { rewrite <- Hb, <- (moves_legal _ Hw' _ _ Hnr).
    by eapply list_elem_of_lookup_2. }
  by exists st', k', r, mv.
Qed.

End SearchThenMove.

(** ** What a call of [prune_children] does *)

Section PruneChildrenOutcome.
Context {Board Move : Type} `{Game Board Move}.
Abbreviation Node := (MCTSNode Board Move).
Abbreviation Tree := (MCTSTree Board Move).

Lemma filter_agree {A} (P Q : A → Prop)
    `{∀ x, Decision (P x)} `{∀ x, Decision (Q x)} (l : list A) :
  (∀ x, x ∈ l → P x ↔ Q x) → filter P l = filter Q l.
Proof.
  induction l as [|x l IH]; intros HPQ; [done|].
  rewrite !filter_cons.
  assert (Hx : P x ↔ Q x) by apply HPQ, list_elem_of_here.
  rewrite IH by (intros y Hy; by apply HPQ, list_elem_of_further).
  destruct (decide (P x)) as [Hp|Hp], (decide (Q x)) as [Hq|Hq]; tauto.
Qed.

Lemma sum_agree {A} (f g : A → N) (l : list A) :
  (∀ x, x ∈ l → f x = g x) →
  foldr N.add 0%N (f <$> l) = foldr N.add 0%N (g <$> l).
Proof.
  induction l as [|x l IH]; intros Hfg; [done|].
  cbn [fmap list_fmap foldr].
  rewrite (Hfg x) by apply list_elem_of_here.
  rewrite IH; [done|]. intros y Hy. by apply Hfg, list_elem_of_further.
Qed.

Lemma U_of_child (st s : Tree) (c : addr) (nc nc' : Node) :
  node_at s c = Some nc' →
  visits nc' = visits nc →
  (parents nc' = parents nc ∨
   parents nc' = filter (λ w, expired st w = false) (parents nc)) →
  (∀ p, Some p ∈ parents nc →
        visits <$> node_at s p = visits <$> node_at st p) →
  U s c
  = Some (U_value (parent_visit_count st (parents nc)) (visits nc),
          update_node s c
            (λ n, set_parents n
                    (filter (λ w, expired st w = false) (parents nc)))).
Proof.
  intros Hc Hv Hps Hvis.
  assert (Hexp : ∀ w, w ∈ parents nc → expired s w = expired st w).
  { intros [p|] Hw; [|done]. simpl. specialize (Hvis p Hw).
    unfold node_at in Hvis.
    destruct (heap s !! p), (heap st !! p); try done. }
  assert (Hcount : ∀ w, w ∈ parents nc →
            default 0%N (visits <$> (w ≫= node_at s))
            = default 0%N (visits <$> (w ≫= node_at st))).
  { intros [p|] Hw; [|done]. simpl. by rewrite (Hvis p Hw). }
  destruct (U_effect s c nc' Hc) as [HU _]. rewrite HU, Hv.
  unfold parent_visit_count.
  destruct Hps as [-> | ->].
  - rewrite (sum_agree _ _ _ Hcount).
    rewrite (filter_agree (λ w, expired s w = false)
               (λ w, expired st w = false) (parents nc)); [done|].
    intros w Hw. by rewrite (Hexp w Hw).
  - assert (Hsub : ∀ w, w ∈ filter (λ w, expired st w = false) (parents nc)
                        → w ∈ parents nc).
    { intros w Hw. by apply list_elem_of_filter in Hw as [_ Hw]. }
    rewrite (sum_agree _ (λ w, default 0%N (visits <$> (w ≫= node_at st))))
      by (intros w Hw; by apply Hcount, Hsub).
    rewrite (sum_over_filter
               (λ w, default 0%N (visits <$> (w ≫= node_at st)))
               (λ w, default 0%N (visits <$> (w ≫= node_at st)))); [|done|].
    + rewrite (filter_agree (λ w, expired s w = false)
                 (λ w, expired st w = false)).
      * rewrite filter_filter_same; [done|]. by intros w Hw.
      * intros w Hw. by rewrite (Hexp w (Hsub w Hw)).
    + intros [a|] He; [|done]. simpl in *. unfold node_at.
      destruct (heap st !! a) eqn:Ha; [|done].
      exfalso. apply He. by rewrite bool_decide_eq_false_2.
Qed.

End PruneChildrenOutcome.

Section PruneChildrenRounds.
Context {Board Move : Type} `{Game Board Move}.
Abbreviation Node := (MCTSNode Board Move).
Abbreviation Tree := (MCTSTree Board Move).

Variables (held keep : list addr) (st : Tree) (this : addr) (nd : Node)
          (Qs : list Float32.t).
Hypothesis Hshape : well_formed st.
Hypothesis Hthis : node_at st this = Some nd.
Hypothesis Hself : this ∉ children nd.
Hypothesis Hkeep : anchored_beside (this :: held) st (children nd) keep.
Hypothesis Hparents :
  ∀ c nc p, c ∈ children nd → node_at st c = Some nc →
    Some p ∈ parents nc → is_Some (node_at st p) → p ∈ keep.

Lemma pruning_children_parent (i : nat) (s : Tree) c nc p :
  pruning_children held keep st this nd Qs i s →
  c ∈ children nd → node_at st c = Some nc → Some p ∈ parents nc →
  visits <$> node_at s p = visits <$> node_at st p.
Proof.
  intros Hinv Hc Hnc Hp.
  destruct (decide (p ∈ children nd)) as [Hpc | Hpc].
  - destruct (children_live _ Hshape _ _ _ Hthis Hpc) as (np & Hnp & _).
    destruct (pc_child _ _ _ _ _ _ _ _ Hinv p np Hpc Hnp)
      as (np' & Hnp' & _ & _ & Hv & _).
    by rewrite Hnp', Hnp; simpl; rewrite Hv.
  - destruct (node_at st p) as [np|] eqn:Hnp.
    + assert (Hk : p ∈ keep) by (apply (Hparents c nc p Hc Hnc Hp); by eexists).
      rewrite (pc_kept _ _ _ _ _ _ _ _ Hinv p Hpc) by (by left).
      by rewrite Hnp.
    + destruct (node_at s p) as [n|] eqn:Hn; [|done].
      apply (pc_old _ _ _ _ _ _ _ _ Hinv p n Hpc) in Hn. congruence.
Qed.

Lemma pruning_children_next (i : nat) (s s2 : Tree) c nc nc2 :
  pruning_children held keep st this nd Qs i s →
  children nd !! i = Some c →
  node_at st c = Some nc →
  node_at s2 c = Some nc2 →
  board nc2 = board nc ∧ moves nc2 = moves nc ∧ visits nc2 = visits nc ∧
  wins nc2 = wins nc ∧ ties nc2 = ties nc →
  parents nc2 = filter (λ w, expired st w = false) (parents nc) →
  ((children nc2 = [] ∧ expanded nc2 = false ∧
    ∃ i', i' < S i ∧ children nd !! i' = Some c ∧
          prunable Qs (length (children nd)) i' (QU_value st nc) = true)
   ∨
   (children nc2 = children nc ∧ expanded nc2 = expanded nc ∧
    ∀ i', i' < S i → children nd !! i' = Some c →
          prunable Qs (length (children nd)) i' (QU_value st nc) = false)) →
  roots s2 = roots s →
  (∀ x, x ≠ c → x = this ∨ x ∈ children nd ∨ x ∈ keep ∨ x ∈ held →
        node_at s2 x = node_at s x) →
  (∀ x n, x ≠ c → node_at s2 x = Some n → node_at s x = Some n) →
  pruning_children held keep st this nd Qs (S i) s2.
Proof.
  intros Hinv Hi Hnc Hnc2 (Hb & Hm & Hv & Hw & Ht) Hps Hverdict Hroots
         Hsame Hsurv.
  assert (Hc : c ∈ children nd) by (by eapply list_elem_of_lookup_2).
  assert (Hne : this ≠ c) by (by intros ->).
  split.
  - rewrite Hsame by auto. by apply (pc_this _ _ _ _ _ _ _ _ Hinv).
  - rewrite Hroots. by apply (pc_roots _ _ _ _ _ _ _ _ Hinv).
  - intros x Hx Hk. rewrite Hsame; [|by intros ->|tauto].
    by apply (pc_kept _ _ _ _ _ _ _ _ Hinv).
  - intros x n Hx Hn. apply (pc_old _ _ _ _ _ _ _ _ Hinv x n Hx).
    apply Hsurv; [by intros ->|done].
  - intros c0 n0 Hc0 Hn0. destruct (decide (c0 = c)) as [-> | Hne0].
    + rewrite Hnc in Hn0. injection Hn0 as <-. exists nc2.
      repeat (split; [done|]). split; [by right|]. by split.
    + destruct (pc_child _ _ _ _ _ _ _ _ Hinv c0 n0 Hc0 Hn0)
        as (n0' & Hn0' & Hb0 & Hm0 & Hv0 & Hw0 & Ht0 & Hps0 & Hdone & Hverd).
      exists n0'. rewrite Hsame by auto.
      repeat (split; [done|]). split.
      * intros (i' & Hlt & Hi'). apply Hdone. exists i'. split; [|done].
        destruct (decide (i' = i)) as [-> | ?]; [congruence|lia].
      * destruct Hverd as [(? & ? & i' & ? & ? & ?) | (? & ? & Hall)].
        -- left. repeat (split; [done|]). exists i'. split; [lia|done].
        -- right. repeat (split; [done|]). intros i' Hlt Hi'.
           apply Hall; [|done].
           destruct (decide (i' = i)) as [-> | ?]; [congruence|lia].
Qed.

Lemma prune_children_round (i : nat) (s : Tree) (c : addr) :
  pruning_children held keep st this nd Qs i s →
  children nd !! i = Some c →
  ∃ nc s1 s2,
    node_at st c = Some nc ∧
    Q s c = Some (Q_value (wins nc) (ties nc) (visits nc)) ∧
    U s c = Some (U_value (parent_visit_count st (parents nc)) (visits nc),
                  s1) ∧
    (if prunable Qs (length (children nd)) i (QU_value st nc)
     then filicide_held (this :: held) s1 c else Some s1) = Some s2 ∧
    pruning_children held keep st this nd Qs (S i) s2.
Proof.
  intros Hinv Hi.
  assert (Hc : c ∈ children nd) by (by eapply list_elem_of_lookup_2).
  assert (Hne : this ≠ c) by (by intros ->).
  destruct (children_live _ Hshape _ _ _ Hthis Hc) as (nc & Hnc & _).
  destruct (pc_child _ _ _ _ _ _ _ _ Hinv c nc Hc Hnc)
    as (nc' & Hnc' & Hb & Hm & Hv & Hw & Ht & Hps & _ & Hverd).
  pose (live := filter (λ w, expired st w = false) (parents nc)).
  pose (s1 := update_node s c (λ n, set_parents n live)).
  pose (nc1 := set_parents nc' live).
  assert (Hnc1 : node_at s1 c = Some nc1).
  { unfold s1. by rewrite node_at_update, Hnc'. }
  assert (Hs1 : ∀ x, x ≠ c → node_at s1 x = node_at s x).
  { intros x Hx. unfold s1. by rewrite node_at_update_ne. }
  exists nc, s1.
  assert (HQ : Q s c = Some (Q_value (wins nc) (ties nc) (visits nc))).
  { unfold Q. rewrite Hnc'. simpl. by rewrite Hw, Ht, Hv. }
  assert (HU : U s c
               = Some (U_value (parent_visit_count st (parents nc))
                               (visits nc), s1)).
  { apply (U_of_child st s c nc nc' Hnc' Hv Hps).
    intros p Hp. by eapply pruning_children_parent. }
  destruct (prunable Qs (length (children nd)) i (QU_value st nc))
    eqn:Hprunable.
  - unfold filicide_held. rewrite Hnc1. simpl.
    destruct (expanded nc') eqn:Hexp.
    + eexists. repeat (split; [done|]).
      set (s1' := update_node s1 c cleared).
      set (s2 := release (c :: this :: held) s1' (children nc')).
      pose proof (release_destroys (c :: this :: held) s1' (children nc'))
        as Hd. fold s2 in Hd.
      assert (Hs1' : ∀ x, x ≠ c → node_at s1' x = node_at s x).
      { intros x Hx. unfold s1'. rewrite node_at_update_ne by done. auto. }
      assert (Hanch : anchored (c :: this :: held) s1'
                        (this :: children nd ++ keep)).
      { intros x Hx.
        assert (Hcase : x ∈ children nd ∨
                        ((x ∉ children nd) ∧ (x = this ∨ x ∈ keep))).
        { destruct (decide (x ∈ children nd)); [by left|right].
          split; [done|].
          apply elem_of_cons in Hx as [-> | Hx]; [by left|].
          apply elem_of_app in Hx as [? | ?]; [done|by right]. }
        destruct Hcase as [Hxc | [Hxc [-> | Hxk]]].
        - split.
          + destruct (children_live _ Hshape _ _ _ Hthis Hxc)
              as (nx & Hnx & _).
            destruct (pc_child _ _ _ _ _ _ _ _ Hinv x nx Hxc Hnx)
              as (nx' & Hnx' & _).
            unfold s1', s1. apply update_node_live, update_node_live.
            by eexists.
          + right. right. exists this, nd.
            split; [apply list_elem_of_here|]. split; [|done].
            rewrite Hs1' by done. by apply (pc_this _ _ _ _ _ _ _ _ Hinv).
        - split; [|right; left; apply list_elem_of_further, list_elem_of_here].
          rewrite Hs1' by done. rewrite (pc_this _ _ _ _ _ _ _ _ Hinv).
          by eexists.
        - destruct (Hkeep x Hxk) as [Hlive Hanchor]. split.
          + rewrite Hs1' by (by intros ->).
            by rewrite (pc_kept _ _ _ _ _ _ _ _ Hinv x Hxc) by (by left).
          + destruct Hanchor as [Hr | [Hh | (p & np & Hp & Hpc & Hnp & Hxp)]].
            * left. change (roots s1') with (roots s).
              by rewrite (pc_roots _ _ _ _ _ _ _ _ Hinv).
            * right. left. by apply list_elem_of_further.
            * right. right. exists p, np. split.
              { apply list_elem_of_further, elem_of_app. by right. }
              split; [|done]. rewrite Hs1' by (by intros ->).
              by rewrite (pc_kept _ _ _ _ _ _ _ _ Hinv p Hpc) by (by left). }
      destruct (release_anchored _ _ (children nc') _ Hanch)
        as (_ & Hroots & Hstay). fold s2 in Hroots, Hstay.
      apply (pruning_children_next i s s2 c nc (cleared nc1) Hinv Hi Hnc).
      * rewrite (destroys_held _ _ _ c Hd) by apply list_elem_of_here.
        unfold s1'. by rewrite node_at_update, Hnc1.
      * done.
      * done.
      * left. repeat (split; [done|]). exists i. split; [lia|done].
      * by rewrite Hroots.
      * intros x Hx [-> | [Hk | [Hk | Hk]]].
        -- rewrite Hstay by apply list_elem_of_here. auto.
        -- rewrite Hstay; [auto|]. apply list_elem_of_further.
           apply elem_of_app. by left.
        -- rewrite Hstay; [auto|]. apply list_elem_of_further.
           apply elem_of_app. by right.
        -- rewrite (destroys_held _ _ _ x Hd); [auto|].
           by do 2 apply list_elem_of_further.
      * intros x n Hx Hn. rewrite <- Hs1' by done.
        by eapply destroys_survivor.
    + eexists. repeat (split; [done|]).
      apply (pruning_children_next i s s1 c nc nc1 Hinv Hi Hnc Hnc1);
        [done|done| |done|by intros; auto|by intros ? ? ?; rewrite Hs1].
      left. destruct Hverd as [(Hch & _ & _) | (Hch & Hex & _)].
      * repeat (split; [done|]). exists i. split; [lia|done].
      * assert (Hnone : children nc = []).
        { destruct (children nc) as [|y l] eqn:Hcs; [done|].
          assert (Hexp' : expanded nc = true).
          { apply (expanded_children _ Hshape _ _ Hnc). by rewrite Hcs. }
          congruence. }
        split; [simpl; congruence|]. split; [done|].
        exists i. split; [lia|done].
  - eexists. repeat (split; [done|]).
    apply (pruning_children_next i s s1 c nc nc1 Hinv Hi Hnc Hnc1);
      [done|done| |done|by intros; auto|by intros ? ? ?; rewrite Hs1].
    destruct Hverd as [(? & ? & i' & ? & ? & ?) | (? & ? & Hall)].
    + left. repeat (split; [done|]). exists i'. split; [lia|done].
    + right. repeat (split; [done|]). intros i' Hlt Hi'.
      destruct (decide (i' = i)) as [-> | ?]; [done|].
      apply Hall; [lia|done].
Qed.

Lemma prune_children_loop_outcome (k i : nat) (s : Tree) :
  length (children nd) ≤ k + i →
  pruning_children held keep st this nd Qs i s →
  ∃ st' i',
    prune_children_loop (this :: held) k Qs s this i = Some st' ∧
    length (children nd) ≤ i' ∧
    pruning_children held keep st this nd Qs i' st'.
Proof.
  revert i s. induction k as [|k IH]; intros i s Hlen Hinv.
  - exists s, i. split; [done|]. split; [simpl in Hlen; lia|done].
  - cbn [prune_children_loop].
    rewrite (pc_this _ _ _ _ _ _ _ _ Hinv). simpl.
    destruct (children nd !! i) as [c|] eqn:Hi.
    + destruct (prune_children_round i s c Hinv Hi)
        as (nc & s1 & s2 & _ & HQ & HU & Hs2 & Hinv').
      rewrite HQ. simpl. rewrite HU. simpl.
      change (Float32.add (Q_value (wins nc) (ties nc) (visits nc))
                (U_value (parent_visit_count st (parents nc)) (visits nc)))
        with (QU_value st nc).
      rewrite Hs2. simpl. apply IH; [lia|done].
    + exists s, i. split; [done|]. split; [|done].
      by apply lookup_ge_None.
Qed.

End PruneChildrenRounds.

Section PruneChildrenCall.
Context {Board Move : Type} `{Game Board Move}.
Abbreviation Node := (MCTSNode Board Move).
Abbreviation Tree := (MCTSTree Board Move).

(** C7, as the code has it.  [prune_children] first records [Q()] of
    every child.  Then, child by child, it computes [QU = Q() + U()] and
    calls [filicide] on the child exactly when [QU] is strictly below
    the recorded [Q()] of a child at another index: the comparison is
    with the other child's [Q], not with its [QU].  [filicide] empties
    the child's own child vector and resets its flag; the child stays in
    the vector of its parent.

    The call is made on a node of a tree built by the public
    operations, through a handle, by a caller that holds the nodes
    [held]; the node is not its own child, and the live parents of its
    children are among nodes [keep] that do not hang on a child vector
    of the children: each of them is a root, is held, or is a child of
    another of them that is not a child of the node.  So no parent of a
    child goes away during the call.  Then the call returns.  The node and the roots are as before and no node has
    appeared.  Every child is still there with its board, moves,
    visits, wins and ties; its parent vector has lost its expired
    entries; its child vector is empty and its flag reset if its [QU] in
    the tree of the call is below the [Q()] of a child at another index,
    and its child vector and flag are as before otherwise. *)
Theorem prune_children_compares_with_Q (held keep : list addr) (st : Tree)
    (this : addr) nd :
  reachable st →
  node_at st this = Some nd →
  this ∉ children nd →
  anchored_beside (this :: held) st (children nd) keep →
  (∀ c nc p, c ∈ children nd → node_at st c = Some nc →
     Some p ∈ parents nc → is_Some (node_at st p) → p ∈ keep) →
  ∃ st',
    prune_children_held held st this = Some st' ∧
    node_at st' this = Some nd ∧
    roots st' = roots st ∧
    (∀ x n, x ∉ children nd → node_at st' x = Some n →
            node_at st x = Some n) ∧
    ∀ c, c ∈ children nd →
      ∃ nc nc' qu s,
        node_at st c = Some nc ∧
        PUCT st c = Some (qu, s) ∧
        node_at st' c = Some nc' ∧
        board nc' = board nc ∧ moves nc' = moves nc ∧
        visits nc' = visits nc ∧ wins nc' = wins nc ∧ ties nc' = ties nc ∧
        parents nc' = filter (λ w, expired st w = false) (parents nc) ∧
        let discarded :=
          ∃ i j other q,
            children nd !! i = Some c ∧ j ≠ i ∧
            children nd !! j = Some other ∧ Q st other = Some q ∧
            Float32.ltb qu q = true in
        (discarded → children nc' = [] ∧ expanded nc' = false) ∧
        (¬ discarded →
         children nc' = children nc ∧ expanded nc' = expanded nc).
Proof.
  intros Hr Hthis Hself Hkeep Hparents.
  destruct (reachable_shape st Hr) as [_ Hshape].
  assert (HQs : is_Some (prune_children_Qs st (children nd))).
  { unfold prune_children_Qs. apply mapM_is_Some, Forall_forall.
    intros c Hc.
    destruct (children_live _ Hshape _ _ _ Hthis Hc) as (nc & Hnc & _).
    unfold Q. simpl. rewrite Hnc. by eexists. }
  destruct HQs as [Qs HQs].
  assert (Hinit : pruning_children held keep st this nd Qs 0 st).
  { split; try done. intros c nc Hc Hnc. exists nc.
    repeat (split; [done|]). split; [by left|]. split.
    - intros (i' & Hlt & _). lia.
    - right. repeat (split; [done|]). intros i' Hlt. lia. }
  destruct (prune_children_loop_outcome held keep st this nd Qs Hshape
              Hthis Hself Hkeep Hparents (length (children nd)) 0 st) as
    (st' & bound & Hloop & Hbound & Hinv); [lia|done|].
  exists st'. split.
  { unfold prune_children_held. rewrite Hthis. simpl. by rewrite HQs. }
  split; [by apply (pc_this _ _ _ _ _ _ _ _ Hinv)|].
  split; [by apply (pc_roots _ _ _ _ _ _ _ _ Hinv)|].
  split; [by apply (pc_old _ _ _ _ _ _ _ _ Hinv)|].
  intros c Hc.
  destruct (children_live _ Hshape _ _ _ Hthis Hc) as (nc & Hnc & _).
  destruct (pc_child _ _ _ _ _ _ _ _ Hinv c nc Hc Hnc)
    as (nc' & Hnc' & Hb & Hm & Hv & Hw & Ht & _ & Hdone & Hverd).
  destruct (U_effect st c nc Hnc) as [HU _].
  exists nc, nc', (QU_value st nc). eexists.
  split; [done|]. split.
  { unfold PUCT, Q. rewrite Hnc. simpl. rewrite HU. simpl. done. }
  split; [done|]. repeat (split; [done|]). split.
  { apply Hdone. apply list_elem_of_lookup in Hc as [i Hi]. exists i.
    split; [|done]. apply lookup_lt_Some in Hi. lia. }
  assert (Hiff : ∀ i, children nd !! i = Some c →
            prunable Qs (length (children nd)) i (QU_value st nc) = true ↔
            ∃ j other q, j ≠ i ∧ children nd !! j = Some other ∧
                         Q st other = Some q ∧
                         Float32.ltb (QU_value st nc) q = true).
  { intros i Hi. rewrite prunable_iff by (by eapply lookup_lt_Some). split.
    - intros (j & Qj & Hne & Hlt & HQj & Hltb).
      destruct (lookup_lt_is_Some_2 _ _ Hlt) as [other Hother].
      destruct (prune_children_Qs_lookup _ _ _ _ _ HQs Hother)
        as (q & Hq & HQq).
      exists j, other, q. repeat (split; [done|]). congruence.
    - intros (j & other & q & Hne & Hother & Hq & Hltb).
      destruct (prune_children_Qs_lookup _ _ _ _ _ HQs Hother)
        as (q' & Hq' & HQq).
      exists j, q. split; [done|]. split; [by eapply lookup_lt_Some|].
      split; [congruence|done]. }
  split.
  - intros (i & j & other & q & Hi & Hne & Hother & Hq & Hltb).
    destruct Hverd as [(? & ? & _) | (_ & _ & Hall)]; [done|].
    assert (Htrue : prunable Qs (length (children nd)) i (QU_value st nc)
                    = true).
    { apply (Hiff i Hi). by exists j, other, q. }
    rewrite Hall in Htrue; [done| |done].
    apply lookup_lt_Some in Hi. lia.
  - intros Hno.
    destruct Hverd as [(_ & _ & i & _ & Hi & Htrue) | (? & ? & _)]; [|done].
    exfalso. apply Hno. apply (Hiff i Hi) in Htrue
      as (j & other & q & ? & ? & ? & ?).
    by exists i, j, other, q.
Qed.

End PruneChildrenCall.

(** ** The pruning calls return *)

Section PruningReturns.
Context {Board Move : Type} `{Game Board Move}.
Abbreviation Node := (MCTSNode Board Move).
Abbreviation Tree := (MCTSTree Board Move).






Variables (rank : addr → nat) (bound : nat).







End PruningReturns.

Section PruningCalls.
Context {Board Move : Type} `{Game Board Move}.
Abbreviation Node := (MCTSNode Board Move).
Abbreviation Tree := (MCTSTree Board Move).


End PruningCalls.

(** ** The further properties on the small game *)

Ltac toy_searched :=
  eapply rtc_l;
    [eapply (step_mcts 10 Toy.counting_rand 0 empty_tree 0 20);
     vm_compute; reflexivity
    |apply rtc_refl].

Ltac all_nodes :=
  match goal with
  | |- ∀ a n, node_at ?st a = Some n → @?P a n =>
      change (map_Forall P (heap st));
      apply (bool_decide_unpack _); vm_compute; exact I
  end.

Lemma table_mirrors_live_nodes_witness :
  let st := Toy.tree_of Toy.after_search in
  reachable st ∧
  (∀ b a, transposition_table st !! b = Some a ↔
          ∃ nd, node_at st a = Some nd ∧ board nd = b) ∧
  (∀ a1 a2 n1 n2, node_at st a1 = Some n1 → node_at st a2 = Some n2 →
                  board n1 = board n2 → a1 = a2) ∧
  transposition_size st = N.of_nat (size (heap st)).
Proof.
  intros st. assert (Hr : reachable st) by toy_searched.
  split; [exact Hr|]. exact (table_mirrors_live_nodes st Hr).
Defined.

Lemma lookups_accounted_witness :
  let st := Toy.tree_of Toy.after_search in
  reachable st ∧
  total_lookups st = (total_hits st + transposition_size st + purges st)%N.
Proof.
  intros st. assert (Hr : reachable st) by toy_searched.
  split; [exact Hr|]. exact (lookups_accounted st Hr).
Defined.

Lemma get_node_finds_or_creates_witness :
  (let st := Toy.tree_of Toy.after_search in
   reachable st ∧ ¬ erases_end st 4 (Some 2) ∧
   ∃ st',
     get_node st 4 (Some 2) = Some (4, st') ∧
     transposition_table st' !! 4 = Some 4 ∧
     (∃ nd, node_at st' 4 = Some nd ∧ board nd = 4 ∧
            ∀ q, Some 2 = Some q → Some q ∈ parents nd) ∧
     total_lookups st' = (total_lookups st + 1)%N ∧
     match transposition_table st !! 4 with
     | Some a0 =>
         4 = a0 ∧ total_hits st' = (total_hits st + 1)%N ∧
         next_addr st' = next_addr st
     | None =>
         node_at st 4 = None ∧ total_hits st' = total_hits st ∧
         node_at st' 4 = Some (new_MCTSNode 4 (Some 2))
     end) ∧
  (let st := Toy.tree_of Toy.parentless in
   reachable st ∧ erases_end st 0 (Some 1) ∧
   get_node st 0 (Some 1) = None).
Proof.
  split.
  - intros st. assert (Hr : reachable st) by toy_searched.
    assert (Hg : get_node st 4 (Some 2)
                 = Some (4, Toy.tree_of (snd <$> get_node st 4 (Some 2))))
      by (vm_compute; reflexivity).
    split; [exact Hr|]. split.
    + intros He.
      apply (proj1 (get_node_finds_or_creates st 4 (Some 2) Hr)) in He.
      rewrite Hg in He. discriminate He.
    + eexists. split; [exact Hg|].
      exact (proj2 (proj2 (get_node_finds_or_creates st 4 (Some 2) Hr))
               4 _ Hg).
  - intros st.
    assert (Hr : reachable st).
    { eapply rtc_l;
        [eapply (step_get_node empty_tree 0 (Some 99));
         vm_compute; reflexivity|].
      eapply rtc_l; [eapply (step_U _ 0); vm_compute; reflexivity|].
      eapply rtc_l;
        [eapply (step_get_node _ 5 None); vm_compute; reflexivity|].
      apply rtc_refl. }
    assert (Hg : get_node st 0 (Some 1) = None) by (vm_compute; reflexivity).
    split; [exact Hr|]. split; [|exact Hg].
    exact (proj1 (proj1 (get_node_finds_or_creates st 0 (Some 1) Hr)) Hg).
Defined.

Lemma expanded_nodes_mirror_moves_witness :
  let st := Toy.tree_of Toy.after_search in
  ∃ nd,
    reachable st ∧ node_at st 0 = Some nd ∧
    moves nd = get_valid_moves (board nd) ∧
    (expanded nd = false → children nd = []) ∧
    (expanded nd = true →
       moves nd ≠ [] ∧
       Forall2 (λ c m, ∃ nc, node_at st c = Some nc ∧
                             board nc = move (board nd) m ∧
                             Some 0 ∈ parents nc)
               (children nd) (moves nd)) ∧
    (∀ r, r ∈ roots st → is_Some (node_at st r)).
Proof.
  intros st. assert (Hr : reachable st) by toy_searched.
  eexists. split; [exact Hr|].
  assert (Hn : node_at st 0 = Some (default (new_MCTSNode 0 None)
                                            (node_at st 0)))
    by (vm_compute; reflexivity).
  split; [exact Hn|].
  exact (expanded_nodes_mirror_moves st 0 _ Hr Hn).
Defined.

Lemma backpropagate_scores_per_occurrence_witness :
  let st := Toy.tree_of Toy.after_search in
  ∃ nd,
    node_at st 4 = Some nd ∧
    ∃ nd', node_at (backpropagate st 8 [0; 1; 4]) 4 = Some nd' ∧
      wins nd' = (wins nd + if decide (game_winner 8%nat = player (board nd))
                            then occurrences 4%nat [0; 1; 4]%nat else 0)%N ∧
      ties nd' = (ties nd + if decide (game_winner 8%nat = player (board nd))
                            then 0
                            else if decide (game_winner 8%nat = PLAYER_TIE)
                                 then occurrences 4%nat [0; 1; 4]%nat
                                 else 0)%N ∧
      visits nd' = visits nd ∧ board nd' = board nd ∧ moves nd' = moves nd ∧
      children nd' = children nd ∧ parents nd' = parents nd ∧
      expanded nd' = expanded nd.
Proof.
  intros st. eexists.
  assert (Hn : node_at st 4 = Some (default (new_MCTSNode 0 None)
                                            (node_at st 4)))
    by (vm_compute; reflexivity).
  split; [exact Hn|].
  exact (backpropagate_scores_per_occurrence st 8 [0; 1; 4] 4 _ Hn).
Defined.

Lemma toy_moves_lower_rank (b m : nat) :
  m ∈ Toy.valid_moves b → 9 - m < 9 - b.
Proof.
  intros Hm.
  destruct b as [|[|[|[|[|b]]]]]; simpl in Hm;
    repeat (apply elem_of_cons in Hm as [-> | Hm]; [lia|]);
    by apply elem_of_nil in Hm.
Qed.

Lemma simulate_reaches_decided_witness :
  (∀ b : nat, game_winner b = PLAYER_NONE →
        get_valid_moves (Move := nat) b ≠ [] ∧
        ∀ m : nat, m ∈ get_valid_moves b → 9 - move b m < 9 - b) ∧
  9 - 0 ≤ 9 ∧
  ∃ b' k', simulate (Move := nat) 9 Toy.counting_rand 0 0 = Some (b', k') ∧
           game_winner b' ≠ PLAYER_NONE ∧
           0 ≤ k' ≤ 0 + (9 - 0) ∧
           (game_winner 0 ≠ PLAYER_NONE → b' = 0 ∧ k' = 0).
Proof.
  assert (Hgame : ∀ b : nat, game_winner b = PLAYER_NONE →
            get_valid_moves (Move := nat) b ≠ [] ∧
            ∀ m : nat, m ∈ get_valid_moves b → 9 - move b m < 9 - b).
  { intros b Hw. split.
    - destruct b as [|[|[|[|[|b]]]]]; try done.
      exfalso. revert Hw. simpl. unfold Toy.winner, Toy.NONE.
      repeat destruct (decide _); try done; lia.
    - intros m Hm. by apply toy_moves_lower_rank. }
  split; [exact Hgame|]. split; [lia|].
  apply (simulate_reaches_decided (λ b, 9 - b) Toy.counting_rand Hgame 9 0 0).
  lia.
Defined.

Lemma U_erases_expired_parents_witness :
  let st := Toy.tree_of Toy.after_search in
  ∃ nd,
    node_at st 1 = Some nd ∧
    let live := filter (λ w, expired st w = false) (parents nd) in
    let total :=
      foldr N.add 0%N
        ((λ w, default 0%N (visits <$> (w ≫= node_at st))) <$> parents nd) in
    let st' := update_node st 1 (λ n, set_parents n live) in
    U st 1 = Some (U_value (wrap32 total) (visits nd), st') ∧
    node_at st' 1 = Some (set_parents nd live) ∧
    (∀ x, x ≠ 1 → node_at st' x = node_at st x) ∧
    U st' 1 = Some (U_value (wrap32 total) (visits nd), st').
Proof.
  intros st. eexists.
  assert (Hn : node_at st 1 = Some (default (new_MCTSNode 0 None)
                                            (node_at st 1)))
    by (vm_compute; reflexivity).
  split; [exact Hn|].
  exact (U_erases_expired_parents st 1 _ Hn).
Defined.

Lemma U_then_get_node_unroots_witness :
  let st := Toy.tree_of (snd <$> Toy.decided_root) in
  ∃ nd,
    node_at st 0 = Some nd ∧
    transposition_table st !! board nd = Some 0 ∧
    0 ∈ roots st ∧
    (∀ w, w ∈ parents nd → expired st w = true) ∧
    ∃ u st1 st2 roots',
      U st 0 = Some (u, st1) ∧
      parents <$> node_at st1 0 = Some [] ∧
      get_node st1 (board nd) (Some 5) = Some (0, st2) ∧
      erase_first 0 (roots st) = Some roots' ∧
      roots st2 = roots' ∧
      parents <$> node_at st2 0 = Some [Some 5] ∧
      total_hits st2 = (total_hits st + 1)%N.
Proof.
  intros st. exists (new_MCTSNode 7 None).
  assert (Hn : node_at st 0 = Some (new_MCTSNode 7 None)) by reflexivity.
  assert (Ht : transposition_table st !! board (new_MCTSNode 7 None)
               = Some 0) by reflexivity.
  assert (Hr : 0 ∈ roots st) by (vm_compute; apply list_elem_of_here).
  assert (He : ∀ w, w ∈ parents (new_MCTSNode 7 None) → expired st w = true).
  { intros w Hw. simpl in Hw. apply list_elem_of_singleton in Hw as ->.
    reflexivity. }
  split; [exact Hn|]. split; [exact Ht|]. split; [exact Hr|].
  split; [exact He|].
  exact (U_then_get_node_unroots st 0 5 _ Hn Ht Hr He).
Defined.

Lemma mcts_on_decided_position_witness :
  game_winner 7 ≠ PLAYER_NONE ∧
  mcts (Move := nat) (S 0) Toy.counting_rand 0 empty_tree 7 3
  = Some (lone_root 7 (N.of_nat 3)
            (if decide (game_winner 7 = player 7) then N.of_nat 3 else 0)
            (if decide (game_winner 7 = player 7) then 0
             else if decide (game_winner 7 = PLAYER_TIE)
                  then N.of_nat 3 else 0),
          0).
Proof.
  assert (Hw : game_winner 7 ≠ PLAYER_NONE) by (vm_compute; discriminate).
  split; [exact Hw|].
  exact (mcts_on_decided_position 0 Toy.counting_rand 0 7 3 Hw).
Defined.

Lemma filicide_releases_orphans_witness :
  let st := Toy.tree_of Toy.with_handle in
  ∃ nd,
    node_at st 0 = Some nd ∧ expanded nd = true ∧
    ∃ st',
      filicide_held [1] st 0 = Some st' ∧
      node_at st' 0 = Some (cleared nd) ∧
      roots st' = roots st ∧
      (∀ x n, x ≠ 0 → node_at st' x = Some n → node_at st x = Some n) ∧
      (∀ x, x ≠ 0 → has_owner st x = false ∨ x ∈ [1] →
            node_at st' x = node_at st x) ∧
      (∀ keep, anchored (0 :: [1]) (update_node st 0 cleared) keep →
         ∀ x, x ∈ keep →
           node_at st' x = node_at (update_node st 0 cleared) x) ∧
      (∀ x, is_Some (node_at st' x) → has_owner st x = true →
            has_owner st' x = true ∨ x ∈ 0 :: [1]) ∧
      (purges st' + N.of_nat (size (heap st'))
       = purges st + N.of_nat (size (heap st)))%N.
Proof.
  intros st. eexists.
  assert (Hn : node_at st 0 = Some (default (new_MCTSNode 0 None)
                                            (node_at st 0)))
    by (vm_compute; reflexivity).
  assert (He : expanded (default (new_MCTSNode 0 None) (node_at st 0))
               = true) by (vm_compute; reflexivity).
  split; [exact Hn|]. split; [exact He|].
  exact (filicide_releases_orphans [1] st 0 _ Hn He).
Defined.

Lemma U_is_zero_without_live_parent_witness :
  let st := Toy.tree_of Toy.after_search in
  ∃ nd,
    node_at st 0 = Some nd ∧
    (∀ w, w ∈ parents nd → expired st w = true) ∧
    ∃ st',
      U st 0 = Some (Float32.zero, st') ∧
      PUCT st 0 = Some (Q_value (wins nd) (ties nd) (visits nd), st').
Proof.
  intros st. eexists.
  assert (Hn : node_at st 0 = Some (default (new_MCTSNode 0 None)
                                            (node_at st 0)))
    by (vm_compute; reflexivity).
  assert (He : ∀ w, w ∈ parents (default (new_MCTSNode 0 None)
                                         (node_at st 0)) →
                    expired st w = true).
  { intros w Hw. vm_compute in Hw.
    apply list_elem_of_singleton in Hw as ->. reflexivity. }
  split; [exact Hn|]. split; [exact He|].
  exact (U_is_zero_without_live_parent st 0 _ Hn He).
Defined.

Section GridRun.
Local Existing Instance Grid.game.

Lemma get_move_least_Q_witness :
  let st := Grid.after_search in
  ∃ nd,
    reachable st ∧ node_at st 0 = Some nd ∧ expanded nd = true ∧
    (∀ x nx, x ∈ children nd → node_at st x = Some nx →
             (wins nx + ties nx ≤ visits nx)%N ∧ (visits nx < 16777216)%N) ∧
    ∃ i mv c nc,
      get_move st 0 = Some mv ∧
      moves nd !! i = Some mv ∧ children nd !! i = Some c ∧
      node_at st c = Some nc ∧ board nc = move (board nd) mv ∧
      ∀ c' nc', c' ∈ children nd → node_at st c' = Some nc' →
        Float32.ltb (Q_value (wins nc') (ties nc') (visits nc'))
                    (Q_value (wins nc) (ties nc) (visits nc)) = false ∧
        (Float32.eqb (Q_value (wins nc') (ties nc') (visits nc'))
                     (Q_value (wins nc) (ties nc) (visits nc)) = true →
         (visits nc' ≤ visits nc)%N).
Proof.
  intros st.
  assert (Hr : reachable st).
  { eapply rtc_l; [|apply rtc_refl].
    eapply (step_mcts 10 Toy.counting_rand 0 empty_tree 0 20).
    vm_compute. reflexivity. }
  eexists. split; [exact Hr|].
  assert (Hn : node_at st 0
               = Some (default (new_MCTSNode 0 None) (node_at st 0)))
    by (vm_compute; reflexivity).
  assert (He : expanded (default (new_MCTSNode 0 None) (node_at st 0))
               = true) by (vm_compute; reflexivity).
  assert (Hb : ∀ x nx,
            x ∈ children (default (new_MCTSNode 0 None) (node_at st 0)) →
            node_at st x = Some nx →
            (wins nx + ties nx ≤ visits nx)%N ∧ (visits nx < 16777216)%N).
  { intros x nx _. revert x nx. all_nodes. }
  split; [exact Hn|]. split; [exact He|]. split; [exact Hb|].
  exact (get_move_least_Q st 0 _ Hr Hn He Hb).
Defined.

End GridRun.

Lemma max_PUCT_greatest_score_witness :
  let st := Toy.tree_of Toy.after_search in
  ∃ nd best st',
    node_at st 0 = Some nd ∧
    max_PUCT st 0 = Some (best, st') ∧
    same_live st st' ∧
    match best with
    | Some c =>
        c ∈ children nd ∧
        ∃ p, child_PUCT st c = Some p ∧
             Float32.ltb Float32.neg_inf p = true ∧
             ∀ c' p', c' ∈ children nd → child_PUCT st c' = Some p' →
                      Float32.ltb p p' = false
    | None =>
        ∀ c' p', c' ∈ children nd → child_PUCT st c' = Some p' →
                 Float32.ltb Float32.neg_inf p' = false
    end.
Proof.
  intros st.
  exists (default (new_MCTSNode 0 None) (node_at st 0)),
         (fst (default (None, st) (max_PUCT st 0))),
         (snd (default (None, st) (max_PUCT st 0))).
  assert (Hn : node_at st 0 = Some (default (new_MCTSNode 0 None)
                                            (node_at st 0)))
    by (vm_compute; reflexivity).
  assert (Hm : max_PUCT st 0
               = Some (fst (default (None, st) (max_PUCT st 0)),
                       snd (default (None, st) (max_PUCT st 0))))
    by (vm_compute; reflexivity).
  split; [exact Hn|]. split; [exact Hm|].
  exact (max_PUCT_greatest_score st _ 0 _ _ Hn Hm).
Defined.

Lemma select_returns_a_descent_witness :
  let st := Toy.tree_of Toy.after_search in
  ∃ nd,
    (∀ b m : nat, m ∈ get_valid_moves b → 9 - move b m < 9 - b) ∧
    reachable st ∧
    (∀ a n, node_at st a = Some n →
       (wins n + ties n ≤ visits n)%N ∧
       (visits n + N.of_nat 10 ≤ 16777216)%N) ∧
    node_at st 0 = Some nd ∧
    9 - board nd < 10 ∧
    ∃ path st',
      select 10 st 0 = Some (0 :: path, st') ∧
      descent st (0 :: path) ∧
      ∀ a n, node_at st a = Some n →
        ∃ n', node_at st' a = Some n' ∧
              visits n' = (visits n + occurrences a (0%nat :: path))%N ∧
              wins n' = wins n ∧ ties n' = ties n ∧
              children n' = children n ∧ expanded n' = expanded n ∧
              board n' = board n.
Proof.
  intros st. assert (Hr : reachable st) by toy_searched.
  assert (Hrank : ∀ b m : nat, m ∈ get_valid_moves b →
                               9 - move b m < 9 - b)
    by (intros b m; apply toy_moves_lower_rank).
  assert (Hb : ∀ a n, node_at st a = Some n →
             (wins n + ties n ≤ visits n)%N ∧
             (visits n + N.of_nat 10 ≤ 16777216)%N) by all_nodes.
  assert (Hn : node_at st 0 = Some (default (new_MCTSNode 0 None)
                                            (node_at st 0)))
    by (vm_compute; reflexivity).
  assert (Hf : 9 - board (default (new_MCTSNode 0 None) (node_at st 0)) < 10)
    by (vm_compute; lia).
  eexists. split; [exact Hrank|]. split; [exact Hr|]. split; [exact Hb|].
  split; [exact Hn|]. split; [exact Hf|].
  exact (select_returns_a_descent (λ b, 9 - b) 10 st 0 _ Hrank Hr Hb Hn Hf).
Defined.

Section DiamondRun.
Local Existing Instance Diamond.game.

Lemma pruning_only_empties_witness :
  let st := Diamond.after_search in
  let st' := default empty_tree (prune_ancestors 3 st 3) in
  ((∃ held this, filicide_held held st this = Some st') ∨
   (∃ held this, prune_children_held held st this = Some st') ∨
   (∃ held fuel this, prune_ancestors_held held fuel st this = Some st') ∨
   (∃ held max_size, prune_held held st max_size = Returned st')) ∧
  only_emptied st st'.
Proof.
  intros st st'.
  assert (Hp : (∃ held this, filicide_held held st this = Some st') ∨
               (∃ held this, prune_children_held held st this = Some st') ∨
               (∃ held fuel this,
                  prune_ancestors_held held fuel st this = Some st') ∨
               (∃ held max_size,
                  prune_held held st max_size = Returned st')).
  { right. right. left. exists [], 3, 3. vm_compute. reflexivity. }
  split; [exact Hp|]. exact (pruning_only_empties st st' Hp).
Defined.

End DiamondRun.

Lemma mcts_returns_witness :
  let st := Toy.tree_of Toy.after_search in
  (∀ b : nat, game_winner b = PLAYER_NONE →
              get_valid_moves (Move := nat) b ≠ []) ∧
  (∀ b m : nat, m ∈ get_valid_moves b → 9 - move b m < 9 - b) ∧
  mcts_state Idle st ∧
  9 - 0 < 10 ∧
  (2 * N.of_nat 5 + N.of_nat 10 ≤ 16777216)%N ∧
  (∀ a nd, node_at st a = Some nd →
     (visits nd + 2 * N.of_nat 5 + N.of_nat 10 ≤ 16777216)%N) ∧
  ∃ st' k' r nr,
    mcts 10 Toy.counting_rand 7 st 0 5 = Some (st', k') ∧
    7 ≤ k' ≤ 7 + 5 * (9 - 0) ∧
    (∀ a nd, node_at st a = Some nd →
       ∃ nd', node_at st' a = Some nd' ∧ board nd' = board nd ∧
              (visits nd ≤ visits nd' ≤ visits nd + 2 * N.of_nat 5)%N) ∧
    (∀ a nd', node_at st' a = Some nd' → node_at st a = None →
       (visits nd' ≤ 2 * N.of_nat 5)%N) ∧
    transposition_table st' !! 0 = Some r ∧
    node_at st' r = Some nr ∧ board nr = 0 ∧
    (N.of_nat 5 ≤ visits nr)%N ∧
    (0 < 5 → game_winner 0 = PLAYER_NONE → expanded nr = true).
Proof.
  intros st.
  assert (Hmoves : ∀ b : nat, game_winner b = PLAYER_NONE →
                              get_valid_moves (Move := nat) b ≠ []).
  { intros b Hw. destruct b as [|[|[|[|[|b]]]]]; try done.
    exfalso. revert Hw. simpl. unfold Toy.winner, Toy.NONE.
    repeat destruct (decide _); try done; lia. }
  assert (Hrank : ∀ b m : nat, m ∈ get_valid_moves b →
                               9 - move b m < 9 - b)
    by (intros b m; apply toy_moves_lower_rank).
  assert (Hst : mcts_state Idle st).
  { eapply (mcts_run_state 10 Toy.counting_rand 0 empty_tree st 0 20).
    - apply mcts_fresh.
    - vm_compute. reflexivity. }
  assert (Hfuel : 9 - 0 < 10) by lia.
  assert (Hroom : (2 * N.of_nat 5 + N.of_nat 10 ≤ 16777216)%N) by lia.
  assert (Hb : ∀ a nd, node_at st a = Some nd →
             (visits nd + 2 * N.of_nat 5 + N.of_nat 10 ≤ 16777216)%N)
    by all_nodes.
  split; [exact Hmoves|]. split; [exact Hrank|]. split; [exact Hst|].
  split; [exact Hfuel|]. split; [exact Hroom|]. split; [exact Hb|].
  exact (mcts_returns (λ b, 9 - b) 10 Toy.counting_rand 7 st 0 5
           Hmoves Hrank Hst Hfuel Hroom Hb).
Defined.

Section GridSearch.
Local Existing Instance Grid.game.

Lemma get_move_after_search_witness :
  let st := Grid.after_search in
  (∀ b : nat, game_winner b = PLAYER_NONE →
              get_valid_moves (Move := grid_coord) b ≠ []) ∧
  (∀ (b : nat) (m : grid_coord),
     m ∈ get_valid_moves b → 9 - move b m < 9 - b) ∧
  mcts_state Idle st ∧
  9 - 0 < 10 ∧
  (2 * N.of_nat 5 + N.of_nat 10 ≤ 16777216)%N ∧
  (∀ a nd, node_at st a = Some nd →
     (visits nd + 2 * N.of_nat 5 + N.of_nat 10 ≤ 16777216)%N) ∧
  game_winner 0 = PLAYER_NONE ∧
  0 < 5 ∧
  ∃ st' k' r mv,
    mcts 10 Toy.counting_rand 7 st 0 5 = Some (st', k') ∧
    transposition_table st' !! 0 = Some r ∧
    get_move st' r = Some mv ∧
    mv ∈ get_valid_moves 0.
Proof.
  intros st.
  assert (Hmoves : ∀ b : nat, game_winner b = PLAYER_NONE →
                              get_valid_moves (Move := grid_coord) b ≠ []).
  { intros b Hw. destruct b as [|[|[|[|[|b]]]]]; try done.
    exfalso. revert Hw. simpl. unfold Toy.winner, Toy.NONE.
    repeat destruct (decide _); try done; lia. }
  assert (Hrank : ∀ (b : nat) (m : grid_coord),
                    m ∈ get_valid_moves b → 9 - move b m < 9 - b).
  { intros b m Hm. simpl in Hm.
    apply list_elem_of_fmap in Hm as (m0 & -> & Hm0).
    simpl. rewrite Nat2Z.id. by apply toy_moves_lower_rank. }
  assert (Hst : mcts_state Idle st).
  { eapply (mcts_run_state 10 Toy.counting_rand 0 empty_tree st 0 20).
    - apply mcts_fresh.
    - vm_compute. reflexivity. }
  assert (Hfuel : 9 - 0 < 10) by lia.
  assert (Hroom : (2 * N.of_nat 5 + N.of_nat 10 ≤ 16777216)%N) by lia.
  assert (Hb : ∀ a nd, node_at st a = Some nd →
             (visits nd + 2 * N.of_nat 5 + N.of_nat 10 ≤ 16777216)%N)
    by all_nodes.
  assert (Hund : game_winner 0 = PLAYER_NONE) by (vm_compute; reflexivity).
  assert (Hn : 0 < 5) by lia.
  split; [exact Hmoves|]. split; [exact Hrank|]. split; [exact Hst|].
  split; [exact Hfuel|]. split; [exact Hroom|]. split; [exact Hb|].
  split; [exact Hund|]. split; [exact Hn|].
  exact (get_move_after_search (λ b, 9 - b) 10 Toy.counting_rand 7 st 0 5
           Hmoves Hrank Hst Hfuel Hroom Hb Hund Hn).
Defined.

End GridSearch.

Lemma prune_children_compares_with_Q_witness :
  let st := Toy.tree_of Toy.after_long_search in
  let nd := default (new_MCTSNode 0 None) (node_at st 0) in
  reachable st ∧
  node_at st 0 = Some nd ∧
  (0 ∉ children nd) ∧
  anchored_beside (0 :: []) st (children nd) [0] ∧
  (∀ c nc p, c ∈ children nd → node_at st c = Some nc →
     Some p ∈ parents nc → is_Some (node_at st p) → p ∈ [0]) ∧
  children <$> node_at st 2 = Some [5; 6] ∧
  children <$> (prune_children st 0 ≫= λ s, node_at s 2) = Some [] ∧
  children <$> (prune_children st 0 ≫= λ s, node_at s 1) = Some [3; 4] ∧
  ∃ st',
    prune_children_held [] st 0 = Some st' ∧
    node_at st' 0 = Some nd ∧
    roots st' = roots st ∧
    (∀ x n, x ∉ children nd → node_at st' x = Some n →
            node_at st x = Some n) ∧
    ∀ c, c ∈ children nd →
      ∃ nc nc' qu s,
        node_at st c = Some nc ∧
        PUCT st c = Some (qu, s) ∧
        node_at st' c = Some nc' ∧
        board nc' = board nc ∧ moves nc' = moves nc ∧
        visits nc' = visits nc ∧ wins nc' = wins nc ∧ ties nc' = ties nc ∧
        parents nc' = filter (λ w, expired st w = false) (parents nc) ∧
        let discarded :=
          ∃ i j other q,
            children nd !! i = Some c ∧ j ≠ i ∧
            children nd !! j = Some other ∧ Q st other = Some q ∧
            Float32.ltb qu q = true in
        (discarded → children nc' = [] ∧ expanded nc' = false) ∧
        (¬ discarded →
         children nc' = children nc ∧ expanded nc' = expanded nc).
Proof.
  intros st nd.
  assert (Hr : reachable st).
  { eapply rtc_l;
      [eapply (step_mcts 10 Toy.counting_rand 0 empty_tree 0 60);
       vm_compute; reflexivity
      |apply rtc_refl]. }
  assert (Hn : node_at st 0 = Some nd) by (vm_compute; reflexivity).
  assert (Hcs : children nd = [1; 2]) by (vm_compute; reflexivity).
  assert (Hself : 0 ∉ children nd).
  { rewrite Hcs. intros Hin. by repeat (apply elem_of_cons in Hin as [?|Hin]);
      try by apply elem_of_nil in Hin. }
  assert (Hkeep : anchored_beside (0 :: []) st (children nd) [0]).
  { intros x Hx. apply list_elem_of_singleton in Hx as ->. split.
    - exists nd. exact Hn.
    - right. left. apply list_elem_of_here. }
  assert (Hparents : ∀ c nc p, c ∈ children nd → node_at st c = Some nc →
            Some p ∈ parents nc → is_Some (node_at st p) → p ∈ [0]).
  { intros c nc p Hc Hnc Hp _. rewrite Hcs in Hc.
    apply elem_of_cons in Hc as [-> | Hc];
      [|apply list_elem_of_singleton in Hc as ->];
      vm_compute in Hnc; injection Hnc as <-;
      apply list_elem_of_singleton in Hp; injection Hp as ->;
      apply list_elem_of_here. }
  split; [exact Hr|]. split; [exact Hn|]. split; [exact Hself|].
  split; [exact Hkeep|]. split; [exact Hparents|].
  split; [vm_compute; reflexivity|].
  split; [vm_compute; reflexivity|].
  split; [vm_compute; reflexivity|].
  exact (prune_children_compares_with_Q [] [0] st 0 nd Hr Hn Hself Hkeep
           Hparents).
Defined.

Section DiamondPruning.
Local Existing Instance Diamond.game.


End DiamondPruning.
